(** * gangaji: the rule-driven analysis pipeline, embedded in Rocq

    A shallow embedding of the Go packages [datalog] (types, parser, engine,
    formatting built-ins, fact builder) and [suggestions] (ordering and
    deduplication), followed by theorems about them.

    Modelling conventions.
    - A Go [float64] is a rational number ([Q]): finite values with exact
      arithmetic.  NaN, the infinities and rounding are outside the model.
      Go's [==], [<], ... on floats are [Qeq_bool], [Qlt_bool], ...
    - A Go [int] / [int64] is an integer ([Z]) of the 64-bit range.  The
      conversion [int(x)] of a float truncates towards zero when the result
      fits 64 bits; out of that range its value is the implementation's
      (a field of [GoRuntime]).  Integer arithmetic that can leave the
      range is written with its wrap-around ([wrapInt64]); counts and
      positions, which are bounded by the length of a slice, are plain.
    - A Go [string] is a [string] of bytes; [len] is [String.length].
    - A Go call returning [(T, error)] returns an [Outcome T]: [Ok] for a nil
      error, [Err] for an error value, and [Panic] for a run-time panic
      (which no caller in these packages recovers from).
    - A Go map whose iteration order is observable is an association list in
      insertion order; a map that is only looked up is a [gmap].
    - Functions of the Go runtime library that the packages call and that
      cannot be written on rationals ([fmt.Sprint] on a float, [math.Mod],
      [math.Pow])
      are fields of the class [GoRuntime]; every theorem holds for every
      instance.
    - The library's [sort.Slice] is a parameter with its documented contract
      where a theorem holds for every sort within it; the sort the library
      runs is written out in [Sort]. *)

From Stdlib Require Import ZArith QArith Qround String Ascii List Lia Lqa.
From Stdlib Require Import Qabs Permutation Sorted DecimalString.
From stdpp Require Import base option gmap strings list.

Set Warnings "-register-all".

Local Open Scope Z_scope.
Local Open Scope string_scope.
Local Open Scope list_scope.
Local Open Scope nat_scope.

(** ** Results of Go calls *)

Inductive Outcome (A : Type) : Type :=
| Ok (a : A)
| Err (msg : string)
| Panic (msg : string).

Arguments Ok {A} a.
Arguments Err {A} msg.
Arguments Panic {A} msg.

Definition obind {A B} (m : Outcome A) (k : A -> Outcome B) : Outcome B :=
  match m with
  | Ok a => k a
  | Err msg => Err msg
  | Panic msg => Panic msg
  end.

Notation "'let!' x ':=' m 'in' k" := (obind m (fun x => k))
  (at level 10, x pattern, m at level 100, k at level 200).

Definition isErr {A} (m : Outcome A) : bool :=
  match m with Err _ => true | _ => false end.

Definition isPanic {A} (m : Outcome A) : bool :=
  match m with Panic _ => true | _ => false end.

(** ** types.go: values, terms, clauses *)

(** The dynamic values held by [interface{}] in facts, constants and
    bindings. *)
Inductive Value : Type :=
| VNil
| VString (s : string)
| VInt (n : Z)
| VInt64 (n : Z)
| VFloat (q : Q)
| VBool (b : bool).

(** [Variable] is a Go string type; a name beginning with [?]. *)
Inductive Term : Type :=
| Var (name : string)
| Constant (value : Value)
| Wildcard.

Record Atom : Type := mkAtom {
  Predicate : string;
  Args : list Term
}.

(** [ComparisonOp], [ArithOp] and [AggregateOp] are string types in Go with
    the named constants below; any other string is the last constructor. *)
Inductive ComparisonOp : Type :=
| OpEq | OpNeq | OpLt | OpLte | OpGt | OpGte
| CmpOther (s : string).

Inductive ArithOp : Type :=
| OpAdd | OpSub | OpMul | OpDiv | OpMod
| ArithOther (s : string).

Inductive AggregateOp : Type :=
| AggCount | AggSum | AggMax | AggMin | AggAvg
| AggOther (s : string).

Inductive Expression : Type :=
| TermExpr (t : Term)
| BinaryExpr (l : Expression) (op : ArithOp) (r : Expression)
| FunctionCall (name : string) (args : list Expression).

Inductive Clause : Type :=
| AtomClause (a : Atom)
| Comparison (l : Term) (op : ComparisonOp) (r : Term)
| Assignment (v : string) (e : Expression)
| Aggregation (op : AggregateOp) (v : string) (body : list Clause)
    (into : string)
| Negation (a : Atom).

Record Rule : Type := mkRule {
  Head : Atom;
  Body : list Clause
}.

Record Fact : Type := mkFact {
  FPredicate : string;
  FArgs : list Value
}.

Record MetricTemplate : Type := mkMetricTemplate {
  MLabel : string;
  MValue : string
}.

Record SuggestionTemplate : Type := mkSuggestionTemplate {
  TType : string;
  TImpact : string;
  TTitle : string;
  TBody : string;
  TTarget : string;
  TMetrics : list MetricTemplate
}.

Record SuggestionRule : Type := mkSuggestionRule {
  SRID : string;
  SRName : string;
  Conditions : list Clause;
  SRSuggestion : SuggestionTemplate
}.

Record Metric : Type := mkMetric {
  Label : string;
  MetricValue : string
}.

Record Suggestion : Type := mkSuggestion {
  ID : string;
  RuleID : string;
  SType : string;
  Impact : string;
  Title : string;
  SBody : string;
  Target : string;
  Metrics : list Metric
}.

Record Program : Type := mkProgram {
  Rules : list Rule;
  SuggestionRules : list SuggestionRule
}.

(** [Bindings] is [map[Variable]interface{}]; [Clone] copies it, which on
    a persistent map is the identity. *)
Abbreviation Bindings := (gmap string Value).

Definition Clone (b : Bindings) : Bindings := b.

(** ** The Go runtime library *)

(** [int] and [int64] are 64 bits wide (a 64-bit platform): the range, and
    the wrap-around of integer arithmetic. *)
Definition minInt64 : Z := (- 2 ^ 63)%Z.
Definition maxInt64 : Z := (2 ^ 63 - 1)%Z.

Definition inInt64 (n : Z) : bool := (minInt64 <=? n)%Z && (n <=? maxInt64)%Z.

Definition wrapInt64 (n : Z) : Z := ((n - minInt64) mod 2 ^ 64 + minInt64)%Z.

Class GoRuntime : Type := {
  (** [fmt.Sprint] of a [float64] (the [%v] verb). *)
  sprintFloat : Q -> string;
  (** [math.Mod]. *)
  mathMod : Q -> Q -> Q;
  (** [math.Pow]. *)
  mathPow : Q -> Q -> Q;
  (** [int(x)] and [int64(x)] for a float [x] whose integer part is outside
      the 64-bit range: the conversion succeeds and the language leaves its
      value to the implementation (amd64 gives the least [int64], arm64 the
      nearest bound). *)
  intOfHuge : Q -> Z;
  intOfHuge_fits : forall x : Q, inInt64 (intOfHuge x) = true
}.

(** [fmt.Sprintf("%d", n)]. *)
Definition sprintInt (n : Z) : string := NilZero.string_of_int (Z.to_int n).

(** The integer part of a rational: truncation towards zero. *)
Definition integerPart (q : Q) : Z := Z.quot (Qnum q) (Zpos (Qden q)).

(** [int(x)] and [int64(x)] for a float [x]: the integer part when it fits
    64 bits, the implementation's value otherwise. *)
Definition truncToInt `{GoRuntime} (q : Q) : Z :=
  let n := integerPart q in
  if inInt64 n then n else intOfHuge q.

(** [float64(n)] for an integer [n]. *)
Definition floatOfInt (n : Z) : Q := inject_Z n.

Definition Qlt_bool (a b : Q) : bool := negb (Qle_bool b a).

Section Values.
Context `{GoRuntime}.

(** [fmt.Sprint] of a value. *)
Definition Sprint (v : Value) : string :=
  match v with
  | VNil => "<nil>"
  | VString s => s
  | VInt n => sprintInt n
  | VInt64 n => sprintInt n
  | VFloat q => sprintFloat q
  | VBool true => "true"
  | VBool false => "false"
  end.

(** engine.go [toFloat64]. *)
Definition toFloat64 (val : Value) : Outcome Q :=
  match val with
  | VFloat v => Ok v
  | VInt v => Ok (floatOfInt v)
  | VInt64 v => Ok (floatOfInt v)
  | _ => Err "cannot convert to float64"
  end.

Definition toFloat64NoErr (val : Value) : Q * bool :=
  match toFloat64 val with
  | Ok num => (num, true)
  | _ => (0%Q, false)
  end.

Definition valuesEqual (a b : Value) : bool :=
  let '(aNum, aOk) := toFloat64NoErr a in
  let '(bNum, bOk) := toFloat64NoErr b in
  if aOk && bOk then Qeq_bool aNum bNum
  else String.eqb (Sprint a) (Sprint b).

Definition factsEqual (a b : Fact) : bool :=
  if negb (String.eqb (FPredicate a) (FPredicate b))
     || negb (Nat.eqb (length (FArgs a)) (length (FArgs b)))
  then false
  else forallb (fun p => valuesEqual (fst p) (snd p))
         (combine (FArgs a) (FArgs b)).

Definition compareValues (lval rval : Value) (op : ComparisonOp)
  : Outcome bool :=
  let '(leftNum, leftOk) := toFloat64NoErr lval in
  let '(rightNum, rightOk) := toFloat64NoErr rval in
  let leftStr := Sprint lval in
  let rightStr := Sprint rval in
  let fallback :=
    match op with
    | OpEq => Ok (String.eqb leftStr rightStr)
    | OpNeq => Ok (negb (String.eqb leftStr rightStr))
    | OpLt => Ok (String.ltb leftStr rightStr)
    | OpLte => Ok (String.leb leftStr rightStr)
    | OpGt => Ok (String.ltb rightStr leftStr)
    | OpGte => Ok (String.leb rightStr leftStr)
    | CmpOther _ => Err "unknown comparison operator"
    end in
  if leftOk && rightOk then
    match op with
    | OpEq => Ok (Qeq_bool leftNum rightNum)
    | OpNeq => Ok (negb (Qeq_bool leftNum rightNum))
    | OpLt => Ok (Qlt_bool leftNum rightNum)
    | OpLte => Ok (Qle_bool leftNum rightNum)
    | OpGt => Ok (Qlt_bool rightNum leftNum)
    | OpGte => Ok (Qle_bool rightNum leftNum)
    | CmpOther _ => fallback
    end
  else fallback.

End Values.

(** ** engine.go: the engine *)

Definition BuiltinFunc : Type := list Value -> Outcome Value.

Record Engine : Type := mkEngine {
  facts : gmap string (list Fact);
  rules : list Rule;
  builtins : gmap string BuiltinFunc
}.

Definition RegisterBuiltin (name : string) (fn : BuiltinFunc) (e : Engine)
  : Engine :=
  mkEngine (facts e) (rules e) (<[name := fn]> (builtins e)).

(** [e.facts[p]]: a missing key reads as the nil slice. *)
Definition GetFacts (e : Engine) (predicate : string) : list Fact :=
  default [] (facts e !! predicate).

Definition AddFact (f : Fact) (e : Engine) : Engine :=
  mkEngine (<[FPredicate f := GetFacts e (FPredicate f) ++ [f]]> (facts e))
           (rules e) (builtins e).

Definition AddFacts (fs : list Fact) (e : Engine) : Engine :=
  fold_left (fun e f => AddFact f e) fs e.

Definition AddRule (r : Rule) (e : Engine) : Engine :=
  mkEngine (facts e) (rules e ++ [r]) (builtins e).

Definition AddRules (rs : list Rule) (e : Engine) : Engine :=
  mkEngine (facts e) (rules e ++ rs) (builtins e).

Definition LoadProgram (p : Program) (e : Engine) : Engine :=
  AddRules (Rules p) e.

Definition FactCount (e : Engine) : nat :=
  map_fold (fun _ fs count => count + length fs) 0 (facts e).

Section EngineEval.
Context `{GoRuntime}.

Definition resolveTerm (term : Term) (bindings : Bindings) : Outcome Value :=
  match term with
  | Var t =>
      match bindings !! t with
      | Some val => Ok val
      | None => Err ("unbound variable: " ++ t)
      end
  | Constant v => Ok v
  | Wildcard => Err "cannot resolve wildcard"
  end.

(** The argument loop of [evaluateAtom].  The [break] after [match = false]
    leaves the [switch] only, so the loop runs on over the remaining
    arguments (binding fresh variables) with [match] staying false. *)
Fixpoint unifyArgs (args : list Term) (fargs : list Value)
    (newBindings : Bindings) (mtch : bool) : Bindings * bool :=
  match args, fargs with
  | arg :: args', factVal :: fargs' =>
      match arg with
      | Var a =>
          match newBindings !! a with
          | Some existing =>
              if valuesEqual existing factVal
              then unifyArgs args' fargs' newBindings mtch
              else unifyArgs args' fargs' newBindings false
          | None => unifyArgs args' fargs' (<[a := factVal]> newBindings) mtch
          end
      | Constant v =>
          if valuesEqual v factVal
          then unifyArgs args' fargs' newBindings mtch
          else unifyArgs args' fargs' newBindings false
      | Wildcard => unifyArgs args' fargs' newBindings mtch
      end
  | _, _ => (newBindings, mtch)
  end.

Definition matchFact (atom : Atom) (bindings : Bindings) (fact : Fact)
  : list Bindings :=
  if negb (Nat.eqb (length (FArgs fact)) (length (Args atom))) then []
  else
    let '(newBindings, mtch) :=
      unifyArgs (Args atom) (FArgs fact) (Clone bindings) true in
    if mtch then [newBindings] else [].

Definition evaluateAtom (e : Engine) (atom : Atom) (bindings : Bindings)
  : Outcome (list Bindings) :=
  Ok (flat_map (matchFact atom bindings) (GetFacts e (Predicate atom))).

Definition evaluateComparison (l : Term) (op : ComparisonOp) (r : Term)
    (bindings : Bindings) : Outcome (list Bindings) :=
  match resolveTerm l bindings with
  | Err _ => Ok []
  | Panic m => Panic m
  | Ok leftVal =>
      match resolveTerm r bindings with
      | Err _ => Ok []
      | Panic m => Panic m
      | Ok rightVal =>
          let! result := compareValues leftVal rightVal op in
          if result then Ok [bindings] else Ok []
      end
  end.

(** [args[i] = val] for each argument in turn, stopping at the first
    failure. *)
Definition evalArgs (ev : Expression -> Outcome Value)
  : list Expression -> Outcome (list Value) :=
  fix go (args : list Expression) : Outcome (list Value) :=
    match args with
    | [] => Ok []
    | arg :: rest =>
        let! val := ev arg in
        let! vals := go rest in
        Ok (val :: vals)
    end.

Definition arith (op : ArithOp) (lnum rnum : Q) : Outcome Value :=
  match op with
  | OpAdd => Ok (VFloat (lnum + rnum))
  | OpSub => Ok (VFloat (lnum - rnum))
  | OpMul => Ok (VFloat (lnum * rnum))
  | OpDiv =>
      if Qeq_bool rnum 0 then Err "division by zero"
      else Ok (VFloat (lnum / rnum))
  | OpMod => Ok (VFloat (mathMod lnum rnum))
  | ArithOther s => Err ("unknown operator: " ++ s)
  end.

Fixpoint evaluateExpression (e : Engine) (expr : Expression)
    (bindings : Bindings) {struct expr} : Outcome Value :=
  match expr with
  | TermExpr t => resolveTerm t bindings
  | BinaryExpr l op r =>
      let! leftVal := evaluateExpression e l bindings in
      let! rightVal := evaluateExpression e r bindings in
      let! lnum := toFloat64 leftVal in
      let! rnum := toFloat64 rightVal in
      arith op lnum rnum
  | FunctionCall name args =>
      match builtins e !! name with
      | None => Err ("unknown function: " ++ name)
      | Some fn =>
          let! vals :=
            evalArgs (fun arg => evaluateExpression e arg bindings) args in
          fn vals
      end
  end.

Definition evaluateAssignment (e : Engine) (v : string) (expr : Expression)
    (bindings : Bindings) : Outcome (list Bindings) :=
  match evaluateExpression e expr bindings with
  | Err _ => Ok []
  | Panic m => Panic m
  | Ok value => Ok [<[v := value]> (Clone bindings)]
  end.

Definition evaluateNegation (e : Engine) (a : Atom) (bindings : Bindings)
  : Outcome (list Bindings) :=
  let! matches := evaluateAtom e a bindings in
  if Nat.eqb (length matches) 0 then Ok [bindings] else Ok [].

(** The inner loop of [evaluateBody]: one clause over every candidate. *)
Definition extendAll (ec : Bindings -> Outcome (list Bindings))
  : list Bindings -> Outcome (list Bindings) :=
  fix go (result : list Bindings) : Outcome (list Bindings) :=
    match result with
    | [] => Ok []
    | b :: rest =>
        let! extended := ec b in
        let! more := go rest in
        Ok (extended ++ more)
    end.

(** [evaluateBody], over the clause evaluator [ec]. *)
Definition evaluateBodyWith (ec : Clause -> Bindings -> Outcome (list Bindings))
  : list Clause -> list Bindings -> Outcome (list Bindings) :=
  fix go (clauses : list Clause) (result : list Bindings)
    : Outcome (list Bindings) :=
    match clauses with
    | [] => Ok result
    | clause :: rest =>
        let! newBindings := extendAll (ec clause) result in
        if Nat.eqb (length newBindings) 0 then Ok newBindings
        else go rest newBindings
    end.

(** The value collection loop of [evaluateAggregation]. *)
Fixpoint collectValues (op : AggregateOp) (v : string)
    (bodyBindings : list Bindings) : list Q :=
  match bodyBindings with
  | [] => []
  | b :: rest =>
      match op with
      | AggCount => 1%Q :: collectValues op v rest
      | _ =>
          match resolveTerm (Var v) b with
          | Ok val =>
              match toFloat64 val with
              | Ok numVal => numVal :: collectValues op v rest
              | _ => collectValues op v rest
              end
          | _ => collectValues op v rest
          end
      end
  end.

Definition sumValues (values : list Q) : Q :=
  fold_left (fun result v => (result + v)%Q) values 0%Q.

Definition maxValues (first : Q) (rest : list Q) : Q :=
  fold_left (fun result v => if Qlt_bool result v then v else result)
    rest first.

Definition minValues (first : Q) (rest : list Q) : Q :=
  fold_left (fun result v => if Qlt_bool v result then v else result)
    rest first.

(** The reduction [switch] of [evaluateAggregation]: [None] is the early
    [return nil, nil]. *)
Definition reduceValues (op : AggregateOp) (values : list Q) : option Q :=
  match op with
  | AggCount => Some (floatOfInt (Z.of_nat (length values)))
  | AggSum => Some (sumValues values)
  | AggMax =>
      match values with
      | [] => None
      | v0 :: rest => Some (maxValues v0 rest)
      end
  | AggMin =>
      match values with
      | [] => None
      | v0 :: rest => Some (minValues v0 rest)
      end
  | AggAvg =>
      match values with
      | [] => None
      | _ => Some (sumValues values / floatOfInt (Z.of_nat (length values)))%Q
      end
  | AggOther _ => Some 0%Q
  end.

Fixpoint evaluateClause (e : Engine) (clause : Clause) (bindings : Bindings)
    {struct clause} : Outcome (list Bindings) :=
  match clause with
  | AtomClause a => evaluateAtom e a bindings
  | Comparison l op r => evaluateComparison l op r bindings
  | Assignment v expr => evaluateAssignment e v expr bindings
  | Aggregation op v body into =>
      let! bodyBindings :=
        evaluateBodyWith (evaluateClause e) body [Clone bindings] in
      match reduceValues op (collectValues op v bodyBindings) with
      | None => Ok []
      | Some result => Ok [<[into := VFloat result]> (Clone bindings)]
      end
  | Negation a => evaluateNegation e a bindings
  end.

Definition evaluateBody (e : Engine) (clauses : list Clause)
    (bindings : list Bindings) : Outcome (list Bindings) :=
  evaluateBodyWith (evaluateClause e) clauses bindings.

Definition evaluateAggregation (e : Engine) (op : AggregateOp) (v : string)
    (body : list Clause) (into : string) (bindings : Bindings)
  : Outcome (list Bindings) :=
  evaluateClause e (Aggregation op v body into) bindings.

Definition instantiateAtom (atom : Atom) (bindings : Bindings)
  : Outcome Fact :=
  let! args :=
    (fix go (ts : list Term) : Outcome (list Value) :=
       match ts with
       | [] => Ok []
       | arg :: rest =>
           let! val := resolveTerm arg bindings in
           let! vals := go rest in
           Ok (val :: vals)
       end) (Args atom) in
  Ok (mkFact (Predicate atom) args).

Definition factExists (e : Engine) (fact : Fact) : bool :=
  existsb (fun f => factsEqual f fact) (GetFacts e (FPredicate fact)).

(** The fact generation loop of [evaluateRule]: a head that cannot be
    instantiated is skipped. *)
Fixpoint instantiateAll (head : Atom) (bindings : list Bindings)
  : list Fact :=
  match bindings with
  | [] => []
  | b :: rest =>
      match instantiateAtom head b with
      | Ok fact => fact :: instantiateAll head rest
      | _ => instantiateAll head rest
      end
  end.

Definition evaluateRule (e : Engine) (rule : Rule) : Outcome (list Fact) :=
  let! bindings := evaluateBody e (Body rule) [∅] in
  Ok (instantiateAll (Head rule) bindings).

(** The loop over [derived] in [Evaluate]. *)
Fixpoint addDerived (derived : list Fact) (e : Engine) (newFacts : nat)
  : Engine * nat :=
  match derived with
  | [] => (e, newFacts)
  | fact :: rest =>
      if negb (factExists e fact)
      then addDerived rest (AddFact fact e) (S newFacts)
      else addDerived rest e newFacts
  end.

(** The loop over [e.rules] in [Evaluate]: the engine reached, the count of
    new facts and, on an error, the error returned. *)
Fixpoint evaluateRules (rs : list Rule) (e : Engine) (newFacts : nat)
  : Engine * Outcome nat :=
  match rs with
  | [] => (e, Ok newFacts)
  | rule :: rest =>
      match evaluateRule e rule with
      | Ok derived =>
          let '(e', n) := addDerived derived e newFacts in
          evaluateRules rest e' n
      | Err m => (e, Err m)
      | Panic m => (e, Panic m)
      end
  end.

(** [Evaluate]: the fixpoint loop, bounded by [fuel] iterations.  [None]
    means that the loop is still running when the fuel is spent; otherwise
    the engine reached and [Ok tt] for a nil error. *)
Fixpoint Evaluate (fuel : nat) (e : Engine) : option (Engine * Outcome unit) :=
  match fuel with
  | O => None
  | S fuel' =>
      match evaluateRules (rules e) e 0 with
      | (e', Ok newFacts) =>
          if Nat.eqb newFacts 0 then Some (e', Ok tt)
          else Evaluate fuel' e'
      | (e', Err m) => Some (e', Err m)
      | (e', Panic m) => Some (e', Panic m)
      end
  end.

Definition EvaluateSuggestionRule (e : Engine) (rule : SuggestionRule)
  : Outcome (list Bindings) :=
  evaluateBody e (Conditions rule) [∅].

Definition Query (e : Engine) (atom : Atom) : Outcome (list Bindings) :=
  evaluateAtom e atom ∅.

End EngineEval.

(** ** builtins.go: formatting built-ins *)

(** [fmt.Sprintf("%.<prec>f", x)]: the decimal expansion of the exact value
    rounded to [prec] digits, ties to even. *)
Definition roundHalfEven (x : Q) : Z :=
  let n := Qfloor x in
  let r := (x - inject_Z n)%Q in
  if Qlt_bool r (1 # 2) then n
  else if Qlt_bool (1 # 2) r then (n + 1)%Z
  else if Z.even n then n else (n + 1)%Z.

Fixpoint zeros (n : nat) : string :=
  match n with
  | O => EmptyString
  | S n' => String "0" (zeros n')
  end.

Definition padZeros (width : nat) (s : string) : string :=
  zeros (width - String.length s) ++ s.

Definition formatFixed (prec : nat) (x : Q) : string :=
  let scale := (10 ^ Z.of_nat prec)%Z in
  let m := roundHalfEven (Qabs x * inject_Z scale)%Q in
  let sign := if Qlt_bool x 0 then "-" else "" in
  let whole := sprintInt (m / scale)%Z in
  match prec with
  | O => sign ++ whole
  | _ => sign ++ whole ++ "." ++ padZeros prec (sprintInt (m mod scale)%Z)
  end.

(** The two bytes of the UTF-8 encoding of the micro sign used by
    [FormatDuration]. *)
Definition mu : string :=
  String (ascii_of_nat 206) (String (ascii_of_nat 188) EmptyString).

(** Go's [%] on integers: the remainder of the truncated division. *)
Definition intRem (a b : Z) : Z := Z.rem a b.

Definition FormatDuration `{GoRuntime} (us : Q) : string :=
  if Qlt_bool us 1000 then formatFixed 0 us ++ mu ++ "s"
  else
    let ms := (us / 1000)%Q in
    if Qlt_bool ms 1000 then formatFixed 1 ms ++ "ms"
    else
      let s := (ms / 1000)%Q in
      if Qlt_bool s 60 then formatFixed 2 s ++ "s"
      else
        let m := (s / 60)%Q in
        if Qlt_bool m 60 then
          let remainingS := intRem (truncToInt s) 60 in
          formatFixed 0 m ++ "m " ++ sprintInt remainingS ++ "s"
        else
          let h := (m / 60)%Q in
          let remainingM := intRem (truncToInt m) 60 in
          formatFixed 0 h ++ "h " ++ sprintInt remainingM ++ "m".

(** [s[:hi]] on a Go string: a panic when [hi] is out of range. *)
Definition sliceTo (s : string) (hi : Z) : Outcome string :=
  if (hi <? 0)%Z || (Z.of_nat (String.length s) <? hi)%Z
  then Panic "slice bounds out of range"
  else Ok (substring 0 (Z.to_nat hi) s).

(** [s[lo:]] on a Go string. *)
Definition sliceFrom (s : string) (lo : nat) : string :=
  substring lo (String.length s - lo) s.

(** The comma insertion loop of [formatWithCommas], from byte [i] on. *)
Fixpoint insertCommas (len i : nat) (str : string) : string :=
  match str with
  | EmptyString => EmptyString
  | String c rest =>
      let tail := String c (insertCommas len (S i) rest) in
      if Nat.ltb 0 i && Nat.eqb ((len - i) mod 3) 0 then String "," tail
      else tail
  end.

Definition formatWithCommas (n : Z) : string :=
  let str := sprintInt n in
  let str := if (n <? 0)%Z then sliceFrom str 1 else str in
  let result := insertCommas (String.length str) 0 str in
  if (n <? 0)%Z then "-" ++ result else result.

Definition hasSuffix (s suffix : string) : bool :=
  Nat.leb (String.length suffix) (String.length s)
  && String.eqb (sliceFrom s (String.length s - String.length suffix)) suffix.

Definition containsStr (s substr : string) : bool :=
  match String.index 0 substr s with Some _ => true | None => false end.

(** [math.Round]: to the nearest integer, halves away from zero. *)
Definition mathRound (x : Q) : Q :=
  if Qlt_bool x 0 then inject_Z (- Qfloor (- x + (1 # 2)))
  else inject_Z (Qfloor (x + (1 # 2))).

Section Builtins.
Context `{GoRuntime}.

Definition oneFloat (name : string) (f : Q -> Value) : BuiltinFunc :=
  fun args =>
    match args with
    | [a0] => let! val := toFloat64 a0 in Ok (f val)
    | _ => Err (name ++ " expects 1 argument")
    end.

Definition twoFloats (name : string) (f : Q -> Q -> Value) : BuiltinFunc :=
  fun args =>
    match args with
    | [a0; a1] =>
        let! a := toFloat64 a0 in
        let! b := toFloat64 a1 in
        Ok (f a b)
    | _ => Err (name ++ " expects 2 arguments")
    end.

Definition twoStrings (name : string) (f : string -> string -> Value)
  : BuiltinFunc :=
  fun args =>
    match args with
    | [a0; a1] => Ok (f (Sprint a0) (Sprint a1))
    | _ => Err (name ++ " expects 2 arguments")
    end.

Definition builtin_format_time : BuiltinFunc :=
  oneFloat "format_time" (fun us => VString (FormatDuration us)).

Definition builtin_format_percent : BuiltinFunc :=
  oneFloat "format_percent" (fun val => VString (formatFixed 1 val ++ "%")).

Definition builtin_format_number : BuiltinFunc :=
  oneFloat "format_number"
    (fun val => VString (formatWithCommas (truncToInt val))).

Definition builtin_round_to : BuiltinFunc :=
  twoFloats "round_to"
    (fun val places =>
       let mult := mathPow 10 places in
       VFloat (mathRound (val * mult) / mult)).

(** The [truncate] built-in. *)
Definition builtin_truncate : BuiltinFunc :=
  fun args =>
    match args with
    | [a0; a1] =>
        let str := Sprint a0 in
        let! maxLen := toFloat64 a1 in
        if (truncToInt maxLen <? Z.of_nat (String.length str))%Z then
          let! head := sliceTo str (wrapInt64 (truncToInt maxLen - 3)) in
          Ok (VString (head ++ "..."))
        else Ok (VString str)
    | _ => Err "truncate expects 2 arguments"
    end.

Definition builtin_concat : BuiltinFunc :=
  fun args => Ok (VString (String.concat "" (map Sprint args))).

Definition builtin_contains : BuiltinFunc :=
  twoStrings "contains" (fun str substr => VBool (containsStr str substr)).

Definition builtin_starts_with : BuiltinFunc :=
  twoStrings "starts_with" (fun str pre => VBool (String.prefix pre str)).

Definition builtin_ends_with : BuiltinFunc :=
  twoStrings "ends_with" (fun str suffix => VBool (hasSuffix str suffix)).

Definition builtin_min : BuiltinFunc :=
  twoFloats "min" (fun a b => VFloat (if Qlt_bool a b then a else b)).

Definition builtin_max : BuiltinFunc :=
  twoFloats "max" (fun a b => VFloat (if Qlt_bool b a then a else b)).

Definition RegisterFormattingBuiltins (e : Engine) : Engine :=
  RegisterBuiltin "max" builtin_max
  (RegisterBuiltin "min" builtin_min
  (RegisterBuiltin "ends_with" builtin_ends_with
  (RegisterBuiltin "starts_with" builtin_starts_with
  (RegisterBuiltin "contains" builtin_contains
  (RegisterBuiltin "concat" builtin_concat
  (RegisterBuiltin "truncate" builtin_truncate
  (RegisterBuiltin "round_to" builtin_round_to
  (RegisterBuiltin "format_number" builtin_format_number
  (RegisterBuiltin "format_percent" builtin_format_percent
  (RegisterBuiltin "format_time" builtin_format_time e)))))))))).

Definition registerDefaultBuiltins (e : Engine) : Engine :=
  RegisterBuiltin "ceil"
    (oneFloat "ceil" (fun val => VFloat (inject_Z (Qceiling val))))
  (RegisterBuiltin "floor"
    (oneFloat "floor" (fun val => VFloat (inject_Z (Qfloor val))))
  (RegisterBuiltin "round" (oneFloat "round" (fun val => VFloat (mathRound val)))
  (RegisterBuiltin "abs" (oneFloat "abs" (fun val => VFloat (Qabs val))) e))).

Definition NewEngine : Engine :=
  registerDefaultBuiltins (mkEngine ∅ [] ∅).

End Builtins.

(** An instance of the runtime for evaluating examples: [fmt.Sprint] of an
    integral float below 1e21 prints its digits, and [math.Mod] is the
    remainder of the truncated division (the examples use no other
    values); a float out of the 64-bit range converts to the least [int64],
    as on amd64. *)
Definition exampleRuntime : GoRuntime := {|
  sprintFloat q := sprintInt (integerPart q);
  mathMod x y := (x - y * inject_Z (integerPart (x / y)))%Q;
  mathPow x y := (x ^ integerPart y)%Q;
  intOfHuge _ := minInt64;
  intOfHuge_fits _ := eq_refl
|}.

(** ** facts.go: the fact builder *)

Record TraceEvent : Type := mkTraceEvent {
  Name : string;
  Cat : string;
  Ph : string;
  Ts : Q;
  Dur : Q;
  Pid : Z;
  Tid : Z;
  EArgs : gmap string Value
}.

Definition isActionableCategory (cat : string) : bool :=
  if String.eqb cat "action processing" then true
  else if String.eqb cat "complete action execution" then true
  else if String.eqb cat "Fetching repository" then true
  else if String.eqb cat "package creation" then true
  else false.

Definition isSystemCategory (cat : string) : bool :=
  existsb (String.eqb cat)
    ["general information"; "build phase marker"; "gc notification";
     "skyframe evaluator"; "action count (local)"; "critical path component";
     "Conflict checking"; "bazel module processing"].

(** [e.Args[key].(string)]. *)
Definition argString (e : TraceEvent) (key : string) : option string :=
  match EArgs e !! key with
  | Some (VString s) => Some s
  | _ => None
  end.

(** [target, ok := e.Args["target"].(string); ok && target != ""]. *)
Definition eventTarget (e : TraceEvent) : option string :=
  match argString e "target" with
  | Some target => if String.eqb target "" then None else Some target
  | None => None
  end.

(** [e.Args[key] != nil]. *)
Definition argNotNil (e : TraceEvent) (key : string) : bool :=
  match EArgs e !! key with
  | Some VNil | None => false
  | Some _ => true
  end.

Definition intV (n : nat) : Value := VInt (Z.of_nat n).

Record FirstPass : Type := mkFirstPass {
  fpFacts : list Fact;
  totalDuration : Q;
  maxEnd : Q;
  actionableTime : Q;
  actionableCount : Z
}.

(** One iteration of the first loop of [GenerateFacts]. *)
Definition firstPassStep (i : nat) (e : TraceEvent) (st : FirstPass)
  : FirstPass :=
  let fs := fpFacts st ++
    [mkFact "trace_event"
       [intV i; VString (Name e); VString (Cat e); VFloat (Ts e);
        VFloat (Dur e)];
     mkFact "trace_event_tid" [intV i; VInt (Tid e)];
     mkFact "trace_event_pid" [intV i; VInt (Pid e)]] in
  let fs :=
    match argString e "mnemonic" with
    | Some mnemonic =>
        fs ++ [mkFact "trace_event_mnemonic" [intV i; VString mnemonic]]
    | None => fs
    end in
  let fs :=
    match eventTarget e with
    | Some target =>
        fs ++ [mkFact "trace_event_target" [intV i; VString target];
               mkFact "has_target" [intV i]]
    | None => fs
    end in
  let hasTarget := match eventTarget e with Some _ => true | None => false end in
  let isActionable :=
    hasTarget || (isActionableCategory (Cat e) && argNotNil e "mnemonic") in
  let fs := if isActionable then fs ++ [mkFact "is_actionable" [intV i]] else fs in
  let aTime :=
    if isActionable then (actionableTime st + Dur e)%Q else actionableTime st in
  let aCount :=
    if isActionable then (actionableCount st + 1)%Z else actionableCount st in
  let fs :=
    if isSystemCategory (Cat e) then fs ++ [mkFact "is_system" [intV i]]
    else fs in
  let endT := (Ts e + Dur e)%Q in
  let mx := if Qlt_bool (maxEnd st) endT then endT else maxEnd st in
  mkFirstPass fs (totalDuration st + Dur e)%Q mx aTime aCount.

Fixpoint firstPassLoop (i : nat) (events : list TraceEvent) (st : FirstPass)
  : FirstPass :=
  match events with
  | [] => st
  | e :: rest => firstPassLoop (S i) rest (firstPassStep i e st)
  end.

(** [m[key] += d] on a [map[string]float64], as an association list in
    insertion order. *)
Fixpoint addTime (key : string) (d : Q) (m : list (string * Q))
  : list (string * Q) :=
  match m with
  | [] => [(key, (0 + d)%Q)]
  | (k, v) :: rest =>
      if String.eqb k key then (k, (v + d)%Q) :: rest
      else (k, v) :: addTime key d rest
  end.

(** [m[key]++] on a [map[string]int]. *)
Fixpoint addCount (key : string) (m : list (string * Z))
  : list (string * Z) :=
  match m with
  | [] => [(key, 1%Z)]
  | (k, v) :: rest =>
      if String.eqb k key then (k, (v + 1)%Z) :: rest
      else (k, v) :: addCount key rest
  end.

Definition timeFacts (predicate : string) (m : list (string * Q))
  : list Fact :=
  map (fun kv => mkFact predicate [VString (fst kv); VFloat (snd kv)]) m.

Definition countFacts (predicate : string) (m : list (string * Z))
  : list Fact :=
  map (fun kv => mkFact predicate [VString (fst kv); VInt (snd kv)]) m.

Definition categoryTime (events : list TraceEvent) : list (string * Q) :=
  fold_left (fun m e => addTime (Cat e) (Dur e) m) events [].

Definition categoryCount (events : list TraceEvent) : list (string * Z) :=
  fold_left (fun m e => addCount (Cat e) m) events [].

Definition mnemonicTime (events : list TraceEvent) : list (string * Q) :=
  fold_left
    (fun m e =>
       match argString e "mnemonic", eventTarget e with
       | Some mnemonic, Some _ => addTime mnemonic (Dur e) m
       | _, _ => m
       end) events [].

Definition mnemonicCount (events : list TraceEvent) : list (string * Z) :=
  fold_left
    (fun m e =>
       match argString e "mnemonic", eventTarget e with
       | Some mnemonic, Some _ => addCount mnemonic m
       | _, _ => m
       end) events [].

Definition targetTime (events : list TraceEvent) : list (string * Q) :=
  fold_left
    (fun m e =>
       match eventTarget e with
       | Some target => addTime target (Dur e) m
       | None => m
       end) events [].

Definition targetCount (events : list TraceEvent) : list (string * Z) :=
  fold_left
    (fun m e =>
       match eventTarget e with
       | Some target => addCount target m
       | None => m
       end) events [].

(** *** The in-place exchange sort used twice in facts.go

    [for i := 0; i < len(a)-1; i++ { for j := i+1; j < len(a); j++ {
       if swap(a[i], a[j]) { a[i], a[j] = a[j], a[i] } } }] *)
Section ExchangeSort.
Context {A : Type} (swap : A -> A -> bool).

(** The body of the inner loop. *)
Definition compareExchange (i j : nat) (a : list A) : list A :=
  match a !! i, a !! j with
  | Some ai, Some aj => if swap ai aj then <[i := aj]> (<[j := ai]> a) else a
  | _, _ => a
  end.

Definition innerLoop (i : nat) (a : list A) : list A :=
  fold_left (fun a j => compareExchange i j a) (seq (S i) (length a - S i)) a.

Definition exchangeSort (a : list A) : list A :=
  fold_left (fun a i => innerLoop i a) (seq 0 (length a - 1)) a.

End ExchangeSort.

Record timePoint : Type := mkTimePoint {
  time : Q;
  isStart : bool
}.

Definition makePoints (events : list TraceEvent) : list timePoint :=
  flat_map
    (fun e => [mkTimePoint (Ts e) true; mkTimePoint (Ts e + Dur e)%Q false])
    events.

(** The swap test of the sort in [computeMaxConcurrency]. *)
Definition swapPoints (pi pj : timePoint) : bool :=
  Qlt_bool (time pj) (time pi)
  || (Qeq_bool (time pi) (time pj) && negb (isStart pi) && isStart pj).

(** The sweep: the state is [(maxConcurrent, current)]. *)
Definition sweepStep (st : Z * Z) (p : timePoint) : Z * Z :=
  let '(maxConcurrent, current) := st in
  if isStart p then
    let current := (current + 1)%Z in
    if (maxConcurrent <? current)%Z then (current, current)
    else (maxConcurrent, current)
  else (maxConcurrent, (current - 1)%Z).

Definition sweep (points : list timePoint) : Z :=
  fst (fold_left sweepStep points (0%Z, 0%Z)).

Definition computeMaxConcurrency (events : list TraceEvent) : Z :=
  match events with
  | [] => 0%Z
  | _ => sweep (exchangeSort swapPoints (makePoints events))
  end.

(** The maximal end time, as [computeCriticalPath] recomputes it. *)
Definition maxEndOf (events : list TraceEvent) : Q :=
  fold_left
    (fun mx e =>
       let endT := (Ts e + Dur e)%Q in
       if Qlt_bool mx endT then endT else mx) events 0%Q.

(** The search for the event with a target that ends last: the state is the
    event found with its index, and [lastActionableEnd]. *)
Fixpoint lastActionable (i : nat) (events : list TraceEvent)
    (st : option (nat * TraceEvent) * Q) : option (nat * TraceEvent) * Q :=
  match events with
  | [] => st
  | e :: rest =>
      let endT := (Ts e + Dur e)%Q in
      match eventTarget e with
      | Some _ =>
          if Qlt_bool (snd st) endT
          then lastActionable (S i) rest (Some (i, e), endT)
          else lastActionable (S i) rest st
      | None => lastActionable (S i) rest st
      end
  end.

Record actionableEvent : Type := mkActionableEvent {
  idx : nat;
  duration : Q;
  aname : string;
  atarget : string
}.

Fixpoint actionableEvents (i : nat) (events : list TraceEvent)
  : list actionableEvent :=
  match events with
  | [] => []
  | e :: rest =>
      match eventTarget e with
      | Some target =>
          mkActionableEvent i (Dur e) (Name e) target
            :: actionableEvents (S i) rest
      | None => actionableEvents (S i) rest
      end
  end.

Definition computeCriticalPath (events : list TraceEvent) : list Fact :=
  match events with
  | [] => []
  | _ =>
      let mx := maxEndOf events in
      let endFacts :=
        match fst (lastActionable 0 events (None, 0%Q)) with
        | Some (i, ev) =>
            let target := default "" (argString ev "target") in
            mkFact "critical_path_end"
              [intV i; VString (Name ev); VFloat (Dur ev); VString target]
            :: (if Qlt_bool 0 mx
                then [mkFact "critical_path_percent"
                        [VFloat (Dur ev / mx * 100)%Q]]
                else [])
        | None => []
        end in
      let sorted :=
        exchangeSort (fun a b => Qlt_bool (duration a) (duration b))
          (actionableEvents 0 events) in
      endFacts ++
      map (fun a =>
             let pct :=
               if Qlt_bool 0 mx then (duration a / mx * 100)%Q else 0%Q in
             mkFact "potential_bottleneck"
               [intV (idx a); VString (aname a); VFloat (duration a);
                VFloat pct; VString (atarget a)])
          (take 5 sorted)
  end.

(** [GenerateFacts].  The ranges over the aggregate maps run in insertion
    order here; Go leaves their order unspecified. *)
Definition GenerateFacts (events : list TraceEvent) : list Fact :=
  let st := firstPassLoop 0 events (mkFirstPass [] 0%Q 0%Q 0%Q 0%Z) in
  fpFacts st ++
  [mkFact "total_duration" [VFloat (maxEnd st)];
   mkFact "total_action_time" [VFloat (totalDuration st)];
   mkFact "total_actions" [intV (length events)];
   mkFact "actionable_time" [VFloat (actionableTime st)];
   mkFact "actionable_count" [VInt (actionableCount st)]] ++
  timeFacts "category_time" (categoryTime events) ++
  countFacts "category_count" (categoryCount events) ++
  timeFacts "mnemonic_time" (mnemonicTime events) ++
  countFacts "mnemonic_count" (mnemonicCount events) ++
  timeFacts "target_time" (targetTime events) ++
  [mkFact "max_concurrency" [VInt (computeMaxConcurrency events)]] ++
  computeCriticalPath events.

Definition GenerateEventPercentFacts (events : list TraceEvent)
    (total : Q) : list Fact :=
  flat_map
    (fun ie =>
       if Qlt_bool 0 total
       then [mkFact "event_percent"
               [intV (fst ie); VFloat (Dur (snd ie) / total * 100)%Q]]
       else [])
    (combine (seq 0 (length events)) events).

(** ** suggestions/evaluator.go: ordering and deduplication *)

Definition impactOrder (impact : string) : nat :=
  if String.eqb impact "high" then 0
  else if String.eqb impact "medium" then 1
  else if String.eqb impact "low" then 2
  else 3.

(** The [less] function handed to [sort.Slice] in [Evaluate]. *)
Definition impactLess (a b : Suggestion) : bool :=
  Nat.ltb (impactOrder (Impact a)) (impactOrder (Impact b)).

(** The ordering step of [Evaluate], over the library's [sort.Slice]. *)
Definition orderSuggestions
    (sortSlice : (Suggestion -> Suggestion -> bool) ->
                 list Suggestion -> list Suggestion)
    (suggestions : list Suggestion) : list Suggestion :=
  sortSlice impactLess suggestions.

Definition dedupKey (s : Suggestion) : string :=
  RuleID s ++ ":" ++ Target s.

(** The loop of [deduplicateSuggestions], over [seen] and [result]. *)
Fixpoint dedupLoop (suggestions : list Suggestion) (seen : gmap string bool)
    (result : list Suggestion) : list Suggestion :=
  match suggestions with
  | [] => result
  | s :: rest =>
      let key := dedupKey s in
      if negb (default false (seen !! key))
      then dedupLoop rest (<[key := true]> seen) (result ++ [s])
      else dedupLoop rest seen result
  end.

Definition deduplicateSuggestions (suggestions : list Suggestion)
  : list Suggestion :=
  dedupLoop suggestions ∅ [].

(** ** lexer.go: tokens *)

Inductive TokenType : Type :=
| TokenEOF | TokenError
| TokenIdent | TokenVariable | TokenString | TokenNumber | TokenWildcard
| TokenRule | TokenWhen | TokenThen | TokenSuggestion | TokenAggregate
| TokenNot | TokenCount | TokenSum | TokenMax | TokenMin | TokenAvg
| TokenImplies | TokenComma | TokenDot | TokenLParen | TokenRParen
| TokenLBracket | TokenRBracket | TokenLBrace | TokenRBrace | TokenColon
| TokenEq | TokenNeq | TokenLt | TokenLte | TokenGt | TokenGte
| TokenPlus | TokenMinus | TokenStar | TokenSlash | TokenPercent.

Global Instance TokenType_eq_dec : EqDecision TokenType.
Proof. solve_decision. Defined.

Record Token : Type := mkToken {
  Type_ : TokenType;
  TValue : string;
  Line : nat;
  Column : nat
}.

(** ** parser.go: the recursive-descent parser *)

(** [strconv.ParseInt(s, 10, 64)] and [strconv.ParseFloat(s, 64)] on the
    number tokens the lexer produces: an optional sign, digits, and for a
    float an optional fraction.  Both fail with a range error on a number
    that is too large: an integer outside 64 bits, and a float whose
    magnitude rounds beyond the largest [float64], which is from
    [2^1024 - 2^970] on. *)
Definition digitOf (c : ascii) : option Z :=
  let n := nat_of_ascii c in
  if Nat.leb 48 n && Nat.leb n 57 then Some (Z.of_nat (n - 48)) else None.

Fixpoint digitsValue (s : string) (acc : Z) : option Z :=
  match s with
  | EmptyString => Some acc
  | String c rest =>
      match digitOf c with
      | Some d => digitsValue rest (10 * acc + d)%Z
      | None => None
      end
  end.

Definition splitSign (s : string) : bool * string :=
  match s with
  | String c rest =>
      if Ascii.eqb c "-" then (true, rest)
      else if Ascii.eqb c "+" then (false, rest)
      else (false, s)
  | EmptyString => (false, s)
  end.

Definition ParseInt (s : string) : option Z :=
  let '(neg, body) := splitSign s in
  if String.eqb body "" then None
  else
    match digitsValue body 0 with
    | Some v =>
        let v := if neg then (- v)%Z else v in
        if (- 2 ^ 63 <=? v)%Z && (v <? 2 ^ 63)%Z then Some v else None
    | None => None
    end.

Definition ParseFloat (s : string) : option Q :=
  let '(neg, body) := splitSign s in
  let '(whole, frac) :=
    match String.index 0 "." body with
    | Some i =>
        (substring 0 i body,
         substring (S i) (String.length body - S i) body)
    | None => (body, "")
    end in
  if String.eqb whole "" then None
  else
    match digitsValue (whole ++ frac) 0 with
    | Some v =>
        let q := (inject_Z v / inject_Z (10 ^ Z.of_nat (String.length frac)))%Q in
        if Qle_bool (inject_Z (2 ^ 1024 - 2 ^ 970)) q then None
        else Some (if neg then (- q)%Q else q)
    | None => None
    end.

(** A parser call: [None] when a loop or recursion bound of the model is
    spent, otherwise the outcome with the position reached. *)
Definition PResult (X : Type) : Type := option (Outcome (X * nat)).

Definition pbind {X Y} (m : PResult X) (k : X -> nat -> PResult Y)
  : PResult Y :=
  match m with
  | None => None
  | Some (Ok (x, pos)) => k x pos
  | Some (Err msg) => Some (Err msg)
  | Some (Panic msg) => Some (Panic msg)
  end.

Notation "'let?' ( x , pos ) ':=' m 'in' k" := (pbind m (fun x pos => k))
  (at level 10, x name, pos name, m at level 100, k at level 200).

Definition pret {X} (x : X) (pos : nat) : PResult X := Some (Ok (x, pos)).

(** The parser reads a fixed token slice; its state is the position. *)
Section Parser.
Variable tokens : list Token.

Definition eofToken : Token := mkToken TokenEOF "" 0 0.

Definition peek (pos : nat) : Token := default eofToken (tokens !! pos).

Definition peekN (pos n : nat) : Token := default eofToken (tokens !! (pos + n)).

Definition advance (pos : nat) : Token * nat := (peek pos, S pos).

Definition expect (typ : TokenType) (pos : nat) : PResult Token :=
  let tok := peek pos in
  if decide (Type_ tok = typ) then pret (fst (advance pos)) (snd (advance pos))
  else Some (Err "expected another token").

Definition matchTok (typ : TokenType) (pos : nat) : bool * nat :=
  if decide (Type_ (peek pos) = typ) then (true, snd (advance pos))
  else (false, pos).

Definition parseTerm (pos : nat) : PResult Term :=
  let tok := peek pos in
  match Type_ tok with
  | TokenVariable => pret (Var (TValue tok)) (snd (advance pos))
  | TokenWildcard => pret Wildcard (snd (advance pos))
  | TokenString => pret (Constant (VString (TValue tok))) (snd (advance pos))
  | TokenNumber =>
      match ParseInt (TValue tok) with
      | Some val => pret (Constant (VInt64 val)) (snd (advance pos))
      | None =>
          match ParseFloat (TValue tok) with
          | Some val => pret (Constant (VFloat val)) (snd (advance pos))
          | None => Some (Err ("invalid number: " ++ TValue tok))
          end
      end
  | TokenIdent =>
      if String.eqb (TValue tok) "true"
      then pret (Constant (VBool true)) (snd (advance pos))
      else if String.eqb (TValue tok) "false"
      then pret (Constant (VBool false)) (snd (advance pos))
      else pret (Constant (VString (TValue tok))) (snd (advance pos))
  | _ => Some (Err "expected term")
  end.

(** The argument loops of [parseAtom] and [parseFunctionCall]:
    [for p.peek().Type != TokenRParen { item; if !p.match(TokenComma) { break } }],
    bounded by [k] iterations. *)
Definition parseList {X : Type} (item : nat -> PResult X)
  : nat -> nat -> PResult (list X) :=
  fix go (k : nat) (pos : nat) : PResult (list X) :=
    match k with
    | O => None
    | S k' =>
        if decide (Type_ (peek pos) = TokenRParen) then pret [] pos
        else
          let? (x, pos) := item pos in
          let '(more, pos) := matchTok TokenComma pos in
          if more then
            let? (xs, pos) := go k' pos in
            pret (x :: xs) pos
          else pret [x] pos
    end.

(** Every loop of the parser consumes a token per iteration, so the number
    of tokens bounds its iterations. *)
Definition loopBound : nat := S (length tokens).

Definition parseAtom (pos : nat) : PResult Atom :=
  let? (predTok, pos) := expect TokenIdent pos in
  let? (_, pos) := expect TokenLParen pos in
  let? (args, pos) := parseList parseTerm loopBound pos in
  let? (_, pos) := expect TokenRParen pos in
  pret (mkAtom (TValue predTok) args) pos.

Definition isComparisonOp (typ : TokenType) : bool :=
  match typ with
  | TokenEq | TokenNeq | TokenLt | TokenLte | TokenGt | TokenGte => true
  | _ => false
  end.

Definition tokenToComparisonOp (typ : TokenType) : Outcome ComparisonOp :=
  match typ with
  | TokenEq => Ok OpEq
  | TokenNeq => Ok OpNeq
  | TokenLt => Ok OpLt
  | TokenLte => Ok OpLte
  | TokenGt => Ok OpGt
  | TokenGte => Ok OpGte
  | _ => Err "expected comparison operator"
  end.

Definition tokenToAggregateOp (typ : TokenType) : Outcome AggregateOp :=
  match typ with
  | TokenCount => Ok AggCount
  | TokenSum => Ok AggSum
  | TokenMax => Ok AggMax
  | TokenMin => Ok AggMin
  | TokenAvg => Ok AggAvg
  | _ => Err "expected aggregate operator"
  end.

Definition parseComparison (pos : nat) : PResult Clause :=
  let? (l, pos) := parseTerm pos in
  let '(opTok, pos) := advance pos in
  match tokenToComparisonOp (Type_ opTok) with
  | Ok op =>
      let? (r, pos) := parseTerm pos in
      pret (Comparison l op r) pos
  | Err m => Some (Err m)
  | Panic m => Some (Panic m)
  end.

(** *** Expressions.  [pe] parses a nested expression. *)
Section Expressions.
Variable pe : nat -> PResult Expression.

Definition parseFunctionCall (pos : nat) : PResult Expression :=
  let '(nameTok, pos) := advance pos in
  let? (_, pos) := expect TokenLParen pos in
  let? (args, pos) := parseList pe loopBound pos in
  let? (_, pos) := expect TokenRParen pos in
  pret (FunctionCall (TValue nameTok) args) pos.

Definition parsePrimary (pos : nat) : PResult Expression :=
  let tok := peek pos in
  if decide (Type_ tok = TokenLParen) then
    let pos := snd (advance pos) in
    let? (expr, pos) := pe pos in
    let? (_, pos) := expect TokenRParen pos in
    pret expr pos
  else if bool_decide (Type_ tok = TokenIdent)
          && bool_decide (Type_ (peekN pos 1) = TokenLParen)
  then parseFunctionCall pos
  else
    let? (term, pos) := parseTerm pos in
    pret (TermExpr term) pos.

Definition parseUnary (pos : nat) : PResult Expression := parsePrimary pos.

Definition mulOp (typ : TokenType) : option ArithOp :=
  match typ with
  | TokenStar => Some OpMul
  | TokenSlash => Some OpDiv
  | TokenPercent => Some OpMod
  | _ => None
  end.

Definition addOp (typ : TokenType) : option ArithOp :=
  match typ with
  | TokenPlus => Some OpAdd
  | TokenMinus => Some OpSub
  | _ => None
  end.

(** The operator loop of [parseAdditive] and [parseMultiplicative]. *)
Definition binaryLoop (opOf : TokenType -> option ArithOp)
    (operand : nat -> PResult Expression)
  : nat -> Expression -> nat -> PResult Expression :=
  fix go (k : nat) (lhs : Expression) (pos : nat) : PResult Expression :=
    match k with
    | O => None
    | S k' =>
        match opOf (Type_ (peek pos)) with
        | None => pret lhs pos
        | Some op =>
            let pos := snd (advance pos) in
            let? (rhs, pos) := operand pos in
            go k' (BinaryExpr lhs op rhs) pos
        end
    end.

Definition parseMultiplicative (pos : nat) : PResult Expression :=
  let? (lhs, pos) := parseUnary pos in
  binaryLoop mulOp parseUnary loopBound lhs pos.

Definition parseAdditive (pos : nat) : PResult Expression :=
  let? (lhs, pos) := parseMultiplicative pos in
  binaryLoop addOp parseMultiplicative loopBound lhs pos.

End Expressions.

(** [parseExpression], with [fuel] bounding the nesting of parentheses and
    calls. *)
Fixpoint parseExpression (fuel : nat) (pos : nat) : PResult Expression :=
  match fuel with
  | O => None
  | S fuel' => parseAdditive (parseExpression fuel') pos
  end.

Definition parseAssignmentOrComparison (fuel : nat) (pos : nat)
  : PResult Clause :=
  let '(varTok, pos) := advance pos in
  let variable := TValue varTok in
  let '(_, pos) := advance pos in
  let? (expr, pos) := parseExpression fuel pos in
  match expr with
  | TermExpr term => pret (Comparison (Var variable) OpEq term) pos
  | _ => pret (Assignment variable expr) pos
  end.

(** *** Clauses.  [pc] parses a nested clause. *)
Section Clauses.
Variable pc : nat -> PResult Clause.

(** [parseBody]: [for { clause; if !p.match(TokenComma) { break } }]. *)
Definition parseBodyLoop : nat -> nat -> PResult (list Clause) :=
  fix go (k : nat) (pos : nat) : PResult (list Clause) :=
    match k with
    | O => None
    | S k' =>
        let? (clause, pos) := pc pos in
        let '(more, pos) := matchTok TokenComma pos in
        if more then
          let? (clauses, pos) := go k' pos in
          pret (clause :: clauses) pos
        else pret [clause] pos
    end.

Definition parseBodyWith (pos : nat) : PResult (list Clause) :=
  parseBodyLoop loopBound pos.

Definition aggregateOpOfIdent (value : string) : Outcome AggregateOp :=
  if String.eqb value "count" then Ok AggCount
  else if String.eqb value "sum" then Ok AggSum
  else if String.eqb value "max" then Ok AggMax
  else if String.eqb value "min" then Ok AggMin
  else if String.eqb value "avg" then Ok AggAvg
  else Err ("unknown aggregate operation: " ++ value).

Definition parseAggregation (pos : nat) : PResult Clause :=
  let? (_, pos) := expect TokenAggregate pos in
  let? (_, pos) := expect TokenLParen pos in
  let '(opTok, pos) := advance pos in
  let opR :=
    match tokenToAggregateOp (Type_ opTok) with
    | Ok op => Ok op
    | other =>
        if decide (Type_ opTok = TokenIdent)
        then aggregateOpOfIdent (TValue opTok)
        else other
    end in
  match opR with
  | Err m => Some (Err m)
  | Panic m => Some (Panic m)
  | Ok op =>
      let? (aggVar, pos) :=
        match op with
        | AggCount => pret "" pos
        | _ =>
            let? (_, pos) := expect TokenLParen pos in
            let? (varTok, pos) := expect TokenVariable pos in
            let? (_, pos) := expect TokenRParen pos in
            pret (TValue varTok) pos
        end in
      let? (_, pos) := expect TokenComma pos in
      let? (body, pos) := parseBodyWith pos in
      let? (_, pos) := expect TokenComma pos in
      let? (resultTok, pos) := expect TokenVariable pos in
      let? (_, pos) := expect TokenRParen pos in
      pret (Aggregation op aggVar body (TValue resultTok)) pos
  end.

End Clauses.

(** [parseClause], with [fuel] bounding the nesting of aggregations and of
    the expression of an assignment. *)
Fixpoint parseClause (fuel : nat) (pos : nat) : PResult Clause :=
  match fuel with
  | O => None
  | S fuel' =>
      let '(negated, pos1) := matchTok TokenNot pos in
      if negated then
        let? (atom, pos) := parseAtom pos1 in
        pret (Negation atom) pos
      else if decide (Type_ (peek pos) = TokenAggregate)
      then parseAggregation (parseClause fuel') pos
      else if bool_decide (Type_ (peek pos) = TokenVariable)
              && bool_decide (Type_ (peekN pos 1) = TokenEq)
      then parseAssignmentOrComparison fuel' pos
      else if bool_decide (Type_ (peek pos) = TokenVariable)
              && isComparisonOp (Type_ (peekN pos 1))
      then parseComparison pos
      else
        let? (atom, pos) := parseAtom pos in
        pret (AtomClause atom) pos
  end.

Definition parseBody (fuel : nat) (pos : nat) : PResult (list Clause) :=
  parseBodyWith (parseClause fuel) pos.

Definition parseRule (fuel : nat) (pos : nat) : PResult Rule :=
  let? (head, pos) := parseAtom pos in
  let '(hasBody, pos) := matchTok TokenImplies pos in
  let? (body, pos) :=
    (if hasBody then parseBody fuel pos else pret [] pos) in
  let? (_, pos) := expect TokenDot pos in
  pret (mkRule head body) pos.

End Parser.

(** ** engine.go: [QueryOne] *)

(** [QueryOne] returns [(Bindings, bool)]: [None] is [(nil, false)]. *)
Definition QueryOne `{GoRuntime} (e : Engine) (atom : Atom) : option Bindings :=
  match Query e atom with
  | Ok (first :: _) => Some first
  | _ => None
  end.

(** ** suggestions/evaluator.go: displayed values and the percentage base *)


(** The loop of [Evaluate] that reads [totalDuration] back from the
    generated facts. *)
Definition totalDurationOf (facts : list Fact) : Q :=
  fold_left
    (fun totalDuration f =>
       if String.eqb (FPredicate f) "total_duration"
          && Nat.ltb 0 (length (FArgs f))
       then match FArgs f with
            | VFloat dur :: _ => dur
            | _ => totalDuration
            end
       else totalDuration)
    facts 0%Q.

(** [percentFacts] of [Evaluate]. *)
Definition percentFacts (events : list TraceEvent) : list Fact :=
  GenerateEventPercentFacts events (totalDurationOf (GenerateFacts events)).

(** ** lexer.go: the lexer

    The lexer reads its input byte by byte and treats each byte as a rune
    of that value.  The state holds the bytes from [pos] on, so that
    [l.pos >= len(l.input)] is [input l = ""]. *)
Module Lex.

Definition keywords : gmap string TokenType :=
  list_to_map
    [("rule", TokenRule); ("when", TokenWhen); ("then", TokenThen);
     ("suggestion", TokenSuggestion); ("aggregate", TokenAggregate);
     ("not", TokenNot); ("count", TokenCount); ("sum", TokenSum);
     ("max", TokenMax); ("min", TokenMin); ("avg", TokenAvg)].

Record Lexer : Type := mkLexer {
  input : string;
  line : nat;
  column : nat
}.

Definition NewLexer (inp : string) : Lexer := mkLexer inp 1 1.

(** The rune 0 and the bytes the lexer names. *)
Definition nul : ascii := ascii_of_nat 0.
Definition newline : ascii := ascii_of_nat 10.
Definition tab : ascii := ascii_of_nat 9.
Definition carriageReturn : ascii := ascii_of_nat 13.
Definition quote : ascii := ascii_of_nat 34.
Definition backslash : ascii := ascii_of_nat 92.

Definition peek (l : Lexer) : ascii :=
  match input l with
  | String ch _ => ch
  | EmptyString => nul
  end.

Definition peekN (l : Lexer) (n : nat) : ascii :=
  match String.get n (input l) with
  | Some ch => ch
  | None => nul
  end.

Definition advance (l : Lexer) : ascii * Lexer :=
  match input l with
  | EmptyString => (nul, l)
  | String ch rest =>
      (ch,
       if Ascii.eqb ch newline then mkLexer rest (S (line l)) 1
       else mkLexer rest (line l) (S (column l)))
  end.

(** [unicode.IsDigit] and [unicode.IsLetter] on a rune below 256: the
    decimal digits, and the letters of Latin-1. *)
Definition isDigit (ch : ascii) : bool :=
  let n := nat_of_ascii ch in Nat.leb 48 n && Nat.leb n 57.

Definition isLetter (ch : ascii) : bool :=
  let n := nat_of_ascii ch in
  (Nat.leb 65 n && Nat.leb n 90) || (Nat.leb 97 n && Nat.leb n 122)
  || Nat.eqb n 170 || Nat.eqb n 181 || Nat.eqb n 186
  || (Nat.leb 192 n && Nat.leb n 214) || (Nat.leb 216 n && Nat.leb n 246)
  || (Nat.leb 248 n && Nat.leb n 255).

Definition isIdentStart (ch : ascii) : bool :=
  isLetter ch || Ascii.eqb ch "_".

Definition isIdentChar (ch : ascii) : bool :=
  isLetter ch || isDigit ch || Ascii.eqb ch "_".

(** [sb.WriteRune(r)] for a rune below 256: its UTF-8 encoding, one byte
    below 128 and two bytes from there on. *)
Definition writeRune (ch : ascii) : string :=
  let n := nat_of_ascii ch in
  if Nat.ltb n 128 then String ch EmptyString
  else String (ascii_of_nat (192 + n / 64))
         (String (ascii_of_nat (128 + n mod 64)) EmptyString).

(** [for cond(l.peek()) { sb.WriteRune(l.advance()) }].  Every [cond] the
    lexer loops on is false on the rune 0 that [peek] returns at the end
    of the input, where the loop therefore stops. *)
Fixpoint scanWhile (cond : ascii -> bool) (inp : string) (ln col : nat)
    (sb : string) : string * Lexer :=
  match inp with
  | EmptyString => (sb, mkLexer inp ln col)
  | String ch rest =>
      if cond ch then
        let l' := snd (advance (mkLexer inp ln col)) in
        scanWhile cond rest (line l') (column l') (sb ++ writeRune ch)
      else (sb, mkLexer inp ln col)
  end.

(** The comment loop of [skipWhitespace]:
    [for l.peek() != '\n' && l.peek() != 0 { l.advance() }]. *)
Definition skipLine (l : Lexer) : Lexer :=
  snd (scanWhile
         (fun ch => negb (Ascii.eqb ch newline) && negb (Ascii.eqb ch nul))
         (input l) (line l) (column l) "").

Definition isSpace (ch : ascii) : bool :=
  Ascii.eqb ch " " || Ascii.eqb ch tab || Ascii.eqb ch newline
  || Ascii.eqb ch carriageReturn.

(** [skipWhitespace], with [fuel] bounding the iterations of its loop. *)
Fixpoint skipWhitespace (fuel : nat) (l : Lexer) : option Lexer :=
  match fuel with
  | O => None
  | S fuel' =>
      let ch := peek l in
      if isSpace ch then skipWhitespace fuel' (snd (advance l))
      else if Ascii.eqb ch "%" then skipWhitespace fuel' (skipLine l)
      else Some l
  end.

(** [makeToken]; its one call has the empty value. *)
Definition makeToken (l : Lexer) (typ : TokenType) (value : string) : Token :=
  mkToken typ value (line l) (column l - String.length value).

Definition scanVariable (l : Lexer) : Token * Lexer :=
  let startLine := line l in
  let startCol := column l - 1 in
  let '(sb, l) := scanWhile isIdentChar (input l) (line l) (column l) "?" in
  (mkToken TokenVariable sb startLine startCol, l).

(** The character an escape sequence stands for. *)
Definition unescape (escaped : ascii) : string :=
  if Ascii.eqb escaped "n" then String newline EmptyString
  else if Ascii.eqb escaped "t" then String tab EmptyString
  else if Ascii.eqb escaped "r" then String carriageReturn EmptyString
  else if Ascii.eqb escaped quote then String quote EmptyString
  else if Ascii.eqb escaped backslash then String backslash EmptyString
  else writeRune escaped.

(** The loop of [scanString], after the opening quote: the string built,
    or [None] for [unterminated string].  A backslash as the last byte
    makes [advance] return the rune 0 without moving. *)
Fixpoint scanStringLoop (inp : string) (ln col : nat) (sb : string)
  : option string * Lexer :=
  match inp with
  | EmptyString => (None, mkLexer inp ln col)
  | String ch rest =>
      if Ascii.eqb ch nul then (None, mkLexer inp ln col)
      else if Ascii.eqb ch quote
      then (Some sb, snd (advance (mkLexer inp ln col)))
      else if Ascii.eqb ch backslash then
        let l1 := snd (advance (mkLexer inp ln col)) in
        match rest with
        | EmptyString => (None, l1)
        | String escaped rest' =>
            let l2 := snd (advance l1) in
            scanStringLoop rest' (line l2) (column l2) (sb ++ unescape escaped)
        end
      else
        let l1 := snd (advance (mkLexer inp ln col)) in
        scanStringLoop rest (line l1) (column l1) (sb ++ writeRune ch)
  end.

Definition scanString (l : Lexer) : Token * Lexer :=
  let startLine := line l in
  let startCol := column l in
  let l := snd (advance l) in
  match scanStringLoop (input l) (line l) (column l) "" with
  | (Some sb, l) => (mkToken TokenString sb startLine startCol, l)
  | (None, l) =>
      (mkToken TokenError "unterminated string" startLine startCol, l)
  end.

Definition scanNumber (pre : string) (l : Lexer) : Token * Lexer :=
  let startLine := line l in
  let startCol := column l in
  let '(sb, l) := scanWhile isDigit (input l) (line l) (column l) pre in
  let '(sb, l) :=
    if Ascii.eqb (peek l) "." && isDigit (peekN l 1) then
      let '(dot, l) := advance l in
      scanWhile isDigit (input l) (line l) (column l) (sb ++ writeRune dot)
    else (sb, l) in
  (mkToken TokenNumber sb startLine startCol, l).

Definition scanIdentifier (l : Lexer) : Token * Lexer :=
  let startLine := line l in
  let startCol := column l in
  let '(value, l) := scanWhile isIdentChar (input l) (line l) (column l) "" in
  match keywords !! value with
  | Some typ => (mkToken typ value startLine startCol, l)
  | None => (mkToken TokenIdent value startLine startCol, l)
  end.

(** The [switch] of [nextToken] on the single-character tokens. *)
Definition singleChar (ch : ascii) : option (TokenType * string) :=
  if Ascii.eqb ch "(" then Some (TokenLParen, "(")
  else if Ascii.eqb ch ")" then Some (TokenRParen, ")")
  else if Ascii.eqb ch "[" then Some (TokenLBracket, "[")
  else if Ascii.eqb ch "]" then Some (TokenRBracket, "]")
  else if Ascii.eqb ch "{" then Some (TokenLBrace, "{")
  else if Ascii.eqb ch "}" then Some (TokenRBrace, "}")
  else if Ascii.eqb ch "," then Some (TokenComma, ",")
  else if Ascii.eqb ch "." then Some (TokenDot, ".")
  else if Ascii.eqb ch "+" then Some (TokenPlus, "+")
  else if Ascii.eqb ch "*" then Some (TokenStar, "*")
  else if Ascii.eqb ch "/" then Some (TokenSlash, "/")
  else None.

(** [nextToken] from the first byte that is not white space or comment. *)
Definition scanToken (l : Lexer) : Token * Lexer :=
  match input l with
  | EmptyString => (makeToken l TokenEOF "", l)
  | _ =>
      let ch := peek l in
      let startLine := line l in
      let startCol := column l in
      match singleChar ch with
      | Some (typ, value) =>
          (mkToken typ value startLine startCol, snd (advance l))
      | None =>
          if Ascii.eqb ch ":" then
            let l := snd (advance l) in
            if Ascii.eqb (peek l) "-"
            then (mkToken TokenImplies ":-" startLine startCol,
                  snd (advance l))
            else (mkToken TokenColon ":" startLine startCol, l)
          else if Ascii.eqb ch "!" then
            let l := snd (advance l) in
            if Ascii.eqb (peek l) "="
            then (mkToken TokenNeq "!=" startLine startCol, snd (advance l))
            else (mkToken TokenError "unexpected '!'" startLine startCol, l)
          else if Ascii.eqb ch "<" then
            let l := snd (advance l) in
            if Ascii.eqb (peek l) "="
            then (mkToken TokenLte "<=" startLine startCol, snd (advance l))
            else (mkToken TokenLt "<" startLine startCol, l)
          else if Ascii.eqb ch ">" then
            let l := snd (advance l) in
            if Ascii.eqb (peek l) "="
            then (mkToken TokenGte ">=" startLine startCol, snd (advance l))
            else (mkToken TokenGt ">" startLine startCol, l)
          else if Ascii.eqb ch "=" then
            (mkToken TokenEq "=" startLine startCol, snd (advance l))
          else if Ascii.eqb ch "-" then
            let l := snd (advance l) in
            if isDigit (peek l) then scanNumber "-" l
            else (mkToken TokenMinus "-" startLine startCol, l)
          else if Ascii.eqb ch "_" && negb (isIdentChar (peekN l 1)) then
            (mkToken TokenWildcard "_" startLine startCol, snd (advance l))
          else if Ascii.eqb ch "?" then scanVariable (snd (advance l))
          else if Ascii.eqb ch quote then scanString l
          else if isDigit ch then scanNumber "" l
          else if isIdentStart ch then scanIdentifier l
          else
            (mkToken TokenError
               ("unexpected character '" ++ writeRune ch ++ "'")
               startLine startCol,
             snd (advance l))
      end
  end.

(** [nextToken]: [None] when the bound on the white-space loop is spent,
    which the number of bytes left (plus one) never is. *)
Definition nextToken (l : Lexer) : option (Token * Lexer) :=
  match skipWhitespace (S (String.length (input l))) l with
  | Some l => Some (scanToken l)
  | None => None
  end.

(** The loop of [Tokenize], over [l.tokens]. *)
Fixpoint tokenizeLoop (fuel : nat) (l : Lexer) (tokens : list Token)
  : option (Outcome (list Token)) :=
  match fuel with
  | O => None
  | S fuel' =>
      match nextToken l with
      | None => None
      | Some (tok, l) =>
          let tokens := tokens ++ [tok] in
          if decide (Type_ tok = TokenEOF) then Some (Ok tokens)
          else if decide (Type_ tok = TokenError) then
            Some (Err ("lexer error at " ++ sprintInt (Z.of_nat (Line tok))
                       ++ ":" ++ sprintInt (Z.of_nat (Column tok))
                       ++ ": " ++ TValue tok))
          else tokenizeLoop fuel' l tokens
      end
  end.

(** [Tokenize]: every token but the last consumes a byte, so the number of
    bytes (plus one) bounds the loop. *)
Definition Tokenize (l : Lexer) : option (Outcome (list Token)) :=
  tokenizeLoop (S (String.length (input l))) l [].

End Lex.

(** ** parser.go: suggestion rules and programs *)

Section ParseProgram.
Variable tokens : list Token.

(** [Expression.String] of types.go, which prints constants through the
    library's [fmt]. *)
Variable exprString : Expression -> string.

(** The loop of [parseMetricsArray]:
    [for p.peek().Type != TokenRBracket { ...; if !p.match(TokenComma) { break } }]. *)
Definition parseMetricsLoop (fuel : nat)
  : nat -> nat -> PResult (list MetricTemplate) :=
  fix go (k : nat) (pos : nat) : PResult (list MetricTemplate) :=
    match k with
    | O => None
    | S k' =>
        if decide (Type_ (peek tokens pos) = TokenRBracket) then pret [] pos
        else
          let? (_, pos) := expect tokens TokenLBracket pos in
          let? (labelTok, pos) := expect tokens TokenString pos in
          let? (_, pos) := expect tokens TokenComma pos in
          let? (value, pos) :=
            (if decide (Type_ (peek tokens pos) = TokenString)
             then pret (TValue (fst (advance tokens pos)))
                    (snd (advance tokens pos))
             else
               let? (expr, pos) := parseExpression tokens fuel pos in
               pret (exprString expr) pos) in
          let? (_, pos) := expect tokens TokenRBracket pos in
          let metric := mkMetricTemplate (TValue labelTok) value in
          let '(more, pos) := matchTok tokens TokenComma pos in
          if more then
            let? (metrics, pos) := go k' pos in
            pret (metric :: metrics) pos
          else pret [metric] pos
    end.

Definition parseMetricsArray (fuel : nat) (pos : nat)
  : PResult (list MetricTemplate) :=
  let? (_, pos) := expect tokens TokenLBracket pos in
  let? (metrics, pos) := parseMetricsLoop fuel (loopBound tokens) pos in
  let? (_, pos) := expect tokens TokenRBracket pos in
  pret metrics pos.

Definition parseSuggestionTemplate (fuel : nat) (pos : nat)
  : PResult SuggestionTemplate :=
  let? (_, pos) := expect tokens TokenSuggestion pos in
  let? (_, pos) := expect tokens TokenLParen pos in
  let? (typeTok, pos) := expect tokens TokenIdent pos in
  let? (_, pos) := expect tokens TokenComma pos in
  let? (impactTok, pos) := expect tokens TokenIdent pos in
  let? (_, pos) := expect tokens TokenComma pos in
  let? (titleTok, pos) := expect tokens TokenString pos in
  let? (_, pos) := expect tokens TokenComma pos in
  let? (bodyTok, pos) := expect tokens TokenString pos in
  let template target metrics :=
    mkSuggestionTemplate (TValue typeTok) (TValue impactTok)
      (TValue titleTok) (TValue bodyTok) target metrics in
  let '(more, pos) := matchTok tokens TokenComma pos in
  let? (template, pos) :=
    (if more then
       let '(target, pos) :=
         if decide (Type_ (peek tokens pos) = TokenString)
         then (TValue (fst (advance tokens pos)), snd (advance tokens pos))
         else if decide (Type_ (peek tokens pos) = TokenVariable)
         then (TValue (fst (advance tokens pos)), snd (advance tokens pos))
         else ("", pos) in
       let '(more, pos) := matchTok tokens TokenComma pos in
       if more then
         let? (metrics, pos) := parseMetricsArray fuel pos in
         pret (template target metrics) pos
       else pret (template target []) pos
     else pret (template "" []) pos) in
  let? (_, pos) := expect tokens TokenRParen pos in
  pret template pos.

Definition parseSuggestionRule (fuel : nat) (pos : nat)
  : PResult SuggestionRule :=
  let? (_, pos) := expect tokens TokenRule pos in
  let? (nameTok, pos) := expect tokens TokenIdent pos in
  let? (_, pos) := expect tokens TokenLBrace pos in
  let? (_, pos) := expect tokens TokenWhen pos in
  let? (_, pos) := expect tokens TokenColon pos in
  let? (conditions, pos) := parseBody tokens fuel pos in
  let? (_, pos) := expect tokens TokenDot pos in
  let? (_, pos) := expect tokens TokenThen pos in
  let? (_, pos) := expect tokens TokenColon pos in
  let? (suggestion, pos) := parseSuggestionTemplate fuel pos in
  let? (_, pos) := expect tokens TokenDot pos in
  let? (_, pos) := expect tokens TokenRBrace pos in
  pret (mkSuggestionRule (TValue nameTok) (TValue nameTok) conditions
          suggestion) pos.

(** The loop of [ParseProgram]. *)
Definition parseProgramLoop (fuel : nat)
  : nat -> Program -> nat -> PResult Program :=
  fix go (k : nat) (program : Program) (pos : nat) : PResult Program :=
    match k with
    | O => None
    | S k' =>
        if decide (Type_ (peek tokens pos) = TokenEOF) then pret program pos
        else if decide (Type_ (peek tokens pos) = TokenRule) then
          let? (rule, pos) := parseSuggestionRule fuel pos in
          go k' (mkProgram (Rules program) (SuggestionRules program ++ [rule]))
            pos
        else if bool_decide (Type_ (peek tokens pos) = TokenIdent)
                || bool_decide (Type_ (peek tokens pos) = TokenVariable)
        then
          let? (rule, pos) := parseRule tokens fuel pos in
          go k' (mkProgram (Rules program ++ [rule]) (SuggestionRules program))
            pos
        else Some (Err "unexpected token")
    end.

(** [ParseProgram], from position 0: the nesting and the loops are bounded
    by the number of tokens. *)
Definition ParseProgram : option (Outcome Program) :=
  match parseProgramLoop (S (length tokens)) (loopBound tokens)
          (mkProgram [] []) 0 with
  | None => None
  | Some (Ok (program, _)) => Some (Ok program)
  | Some (Err msg) => Some (Err msg)
  | Some (Panic msg) => Some (Panic msg)
  end.

End ParseProgram.

(** [Parse]: the lexer, then the parser. *)
Definition Parse (exprString : Expression -> string) (inp : string)
  : option (Outcome Program) :=
  match Lex.Tokenize (Lex.NewLexer inp) with
  | None => None
  | Some (Ok tokens) => ParseProgram tokens exprString
  | Some (Err msg) => Some (Err msg)
  | Some (Panic msg) => Some (Panic msg)
  end.

(** ** The library's [sort.Slice]

    [Evaluate] orders the suggestions with [sort.Slice] of the Go standard
    library, which is not code of this repository.  [sort.Slice] runs the
    library's pattern-defeating quicksort on the slice, through the [less]
    it is given and a swapper: [pdqsort_func] and its helpers
    (sort/zsortfunc.go; Go 1.19 and later), which the definitions below
    follow function by function.  The slice is a list, [Less] and [Swap]
    act on positions of it, and the loops run on fuel.  The step of the
    pseudo-random generator that [breakPatterns_func] draws from is a
    parameter. *)
Module Sort.

Inductive sortedHint : Type :=
| unknownHint
| increasingHint
| decreasingHint.

(** [bits.Len]: the number of bits of a number. *)
Definition bitsLen (n : nat) : nat :=
  if Nat.eqb n 0 then 0 else S (Nat.log2 n).

Section Pdqsort.
Context {A : Type}.
Variable less : A -> A -> bool.
Variable xorshiftNext : Z -> Z.

(** [data.Less(i, j)] and [data.Swap(i, j)]; the positions the sort hands
    them are within the slice. *)
Definition Less (data : list A) (i j : nat) : bool :=
  match data !! i, data !! j with
  | Some x, Some y => less x y
  | _, _ => false
  end.

Definition Swap (data : list A) (i j : nat) : list A :=
  match data !! i, data !! j with
  | Some x, Some y => <[i := y]> (<[j := x]> data)
  | _, _ => data
  end.

(** [for j := i; j > a && data.Less(j, j-1); j-- { data.Swap(j, j-1) }] *)
Fixpoint insertDown (a j : nat) (data : list A) : list A :=
  match j with
  | O => data
  | S j' =>
      if Nat.ltb a j && Less data j j' then insertDown a j' (Swap data j j')
      else data
  end.

Definition insertionSort_func (data : list A) (a b : nat) : list A :=
  fold_left (fun data i => insertDown a i data) (seq (a + 1) (b - (a + 1)))
    data.

Fixpoint siftDown_func (fuel : nat) (data : list A) (root hi first : nat)
  : list A :=
  match fuel with
  | O => data
  | S fuel' =>
      let child := 2 * root + 1 in
      if Nat.leb hi child then data
      else
        let child :=
          if Nat.ltb (child + 1) hi
             && Less data (first + child) (first + child + 1)
          then child + 1 else child in
        if negb (Less data (first + root) (first + child)) then data
        else
          siftDown_func fuel' (Swap data (first + root) (first + child))
            child hi first
  end.

Definition heapSort_func (data : list A) (a b : nat) : list A :=
  let first := a in
  let lo := 0 in
  let hi := b - a in
  let data :=
    fold_left (fun data i => siftDown_func hi data i hi first)
      (rev (seq 0 (S ((hi - 1) / 2)))) data in
  fold_left
    (fun data i => siftDown_func hi (Swap data first (first + i)) lo i first)
    (rev (seq 0 hi)) data.

(** [for i <= j && data.Less(i, a) { i++ }] *)
Fixpoint skipLess (fuel : nat) (data : list A) (a i j : nat) : nat :=
  match fuel with
  | O => i
  | S fuel' =>
      if Nat.leb i j && Less data i a then skipLess fuel' data a (S i) j
      else i
  end.

(** [for i <= j && !data.Less(j, a) { j-- }] *)
Fixpoint skipNotLess (fuel : nat) (data : list A) (a i j : nat) : nat :=
  match fuel with
  | O => j
  | S fuel' =>
      if Nat.leb i j && negb (Less data j a)
      then skipNotLess fuel' data a i (Nat.pred j)
      else j
  end.

(** The main loop of [partition_func]; it returns the slice and [j]. *)
Fixpoint partitionLoop (fuel : nat) (data : list A) (a i j : nat)
  : list A * nat :=
  match fuel with
  | O => (data, j)
  | S fuel' =>
      let i := skipLess (S j) data a i j in
      let j := skipNotLess (S j) data a i j in
      if Nat.ltb j i then (data, j)
      else partitionLoop fuel' (Swap data i j) a (S i) (Nat.pred j)
  end.

(** [partition_func] returns the new position of the pivot and whether the
    slice was partitioned already. *)
Definition partition_func (data : list A) (a b pivot : nat)
  : list A * nat * bool :=
  let data := Swap data a pivot in
  let i := a + 1 in
  let j := b - 1 in
  let i := skipLess (S j) data a i j in
  let j := skipNotLess (S j) data a i j in
  if Nat.ltb j i then (Swap data j a, j, true)
  else
    let data := Swap data i j in
    let '(data, j) := partitionLoop (S j) data a (S i) (Nat.pred j) in
    (Swap data j a, j, false).

(** [for i <= j && !data.Less(a, i) { i++ }] *)
Fixpoint skipNotGreater (fuel : nat) (data : list A) (a i j : nat) : nat :=
  match fuel with
  | O => i
  | S fuel' =>
      if Nat.leb i j && negb (Less data a i)
      then skipNotGreater fuel' data a (S i) j
      else i
  end.

(** [for i <= j && data.Less(a, j) { j-- }] *)
Fixpoint skipGreater (fuel : nat) (data : list A) (a i j : nat) : nat :=
  match fuel with
  | O => j
  | S fuel' =>
      if Nat.leb i j && Less data a j
      then skipGreater fuel' data a i (Nat.pred j)
      else j
  end.

Fixpoint partitionEqualLoop (fuel : nat) (data : list A) (a i j : nat)
  : list A * nat :=
  match fuel with
  | O => (data, i)
  | S fuel' =>
      let i := skipNotGreater (S j) data a i j in
      let j := skipGreater (S j) data a i j in
      if Nat.ltb j i then (data, i)
      else partitionEqualLoop fuel' (Swap data i j) a (S i) (Nat.pred j)
  end.

Definition partitionEqual_func (data : list A) (a b pivot : nat)
  : list A * nat :=
  let data := Swap data a pivot in
  partitionEqualLoop (S b) data a (a + 1) (b - 1).

(** [for i < b && !data.Less(i, i-1) { i++ }] *)
Fixpoint skipOrdered (fuel : nat) (data : list A) (i b : nat) : nat :=
  match fuel with
  | O => i
  | S fuel' =>
      if Nat.ltb i b && negb (Less data i (i - 1))
      then skipOrdered fuel' data (S i) b
      else i
  end.

(** [for j := i - 1; j >= 1; j-- { if !data.Less(j, j-1) { break };
    data.Swap(j, j-1) }] *)
Fixpoint shiftSmaller (j : nat) (data : list A) : list A :=
  match j with
  | O => data
  | S j' => if Less data j j' then shiftSmaller j' (Swap data j j') else data
  end.

(** [for j := i + 1; j < b; j++ { if !data.Less(j, j-1) { break };
    data.Swap(j, j-1) }] *)
Fixpoint shiftGreater (fuel : nat) (data : list A) (j b : nat) : list A :=
  match fuel with
  | O => data
  | S fuel' =>
      if Nat.ltb j b && Less data j (j - 1)
      then shiftGreater fuel' (Swap data j (j - 1)) (S j) b
      else data
  end.

Definition shortestShifting : nat := 50.

Fixpoint partialInsertionLoop (steps : nat) (data : list A) (a b i : nat)
  : list A * bool :=
  match steps with
  | O => (data, false)
  | S steps' =>
      let i := skipOrdered b data i b in
      if Nat.eqb i b then (data, true)
      else if Nat.ltb (b - a) shortestShifting then (data, false)
      else
        let data := Swap data i (i - 1) in
        let data :=
          if Nat.leb 2 (i - a) then shiftSmaller (i - 1) data else data in
        let data :=
          if Nat.leb 2 (b - i) then shiftGreater b data (i + 1) b else data in
        partialInsertionLoop steps' data a b i
  end.

(** [partialInsertionSort_func], with [maxSteps = 5]: whether the slice is
    sorted at the end. *)
Definition partialInsertionSort_func (data : list A) (a b : nat)
  : list A * bool :=
  partialInsertionLoop 5 data a b (a + 1).

Definition nextPowerOfTwo (length : nat) : Z :=
  Z.shiftl 1 (Z.of_nat (bitsLen length)).

(** One round of the loop of [breakPatterns_func]: the generator steps,
    and [data.Swap(idx-1+i, a+other)]. *)
Definition breakStep (a length idx : nat) (modulus : Z)
    (st : list A * Z) (i : nat) : list A * Z :=
  let '(data, random) := st in
  let random := xorshiftNext random in
  let other := Z.to_nat (Z.land random (modulus - 1)) in
  let other := if Nat.leb length other then other - length else other in
  (Swap data (idx - 1 + i) (a + other), random).

Definition breakPatterns_func (data : list A) (a b : nat) : list A :=
  let length := b - a in
  if Nat.leb 8 length then
    let random := Z.of_nat length in
    let modulus := nextPowerOfTwo length in
    let idx := a + (length / 4) * 2 - 1 in
    fst (fold_left (breakStep a length idx modulus) (seq 0 3) (data, random))
  else data.

(** [order2_func] returns the two positions in order and the count of
    swaps. *)
Definition order2_func (data : list A) (a b swaps : nat) : nat * nat * nat :=
  if Less data b a then (b, a, swaps + 1) else (a, b, swaps).

Definition median_func (data : list A) (a b c swaps : nat) : nat * nat :=
  let '(a, b, swaps) := order2_func data a b swaps in
  let '(b, c, swaps) := order2_func data b c swaps in
  let '(a, b, swaps) := order2_func data a b swaps in
  (b, swaps).

Definition medianAdjacent_func (data : list A) (a swaps : nat) : nat * nat :=
  median_func data (a - 1) a (a + 1) swaps.

Definition shortestNinther : nat := 50.
Definition maxSwaps : nat := 4 * 3.

Definition choosePivot_func (data : list A) (a b : nat) : nat * sortedHint :=
  let l := b - a in
  let swaps := 0 in
  let i := a + l / 4 * 1 in
  let j := a + l / 4 * 2 in
  let k := a + l / 4 * 3 in
  let '(j, swaps) :=
    if Nat.leb 8 l then
      let '(i, j, k, swaps) :=
        if Nat.leb shortestNinther l then
          let '(i, swaps) := medianAdjacent_func data i swaps in
          let '(j, swaps) := medianAdjacent_func data j swaps in
          let '(k, swaps) := medianAdjacent_func data k swaps in
          (i, j, k, swaps)
        else (i, j, k, swaps) in
      median_func data i j k swaps
    else (j, swaps) in
  if Nat.eqb swaps 0 then (j, increasingHint)
  else if Nat.eqb swaps maxSwaps then (j, decreasingHint)
  else (j, unknownHint).

(** [for i < j { data.Swap(i, j); i++; j-- }] *)
Fixpoint reverseLoop (fuel : nat) (data : list A) (i j : nat) : list A :=
  match fuel with
  | O => data
  | S fuel' =>
      if Nat.ltb i j then reverseLoop fuel' (Swap data i j) (S i) (Nat.pred j)
      else data
  end.

Definition reverseRange_func (data : list A) (a b : nat) : list A :=
  reverseLoop b data a (b - 1).

Definition maxInsertion : nat := 12.

Definition isIncreasing (hint : sortedHint) : bool :=
  match hint with increasingHint => true | _ => false end.

Definition isDecreasing (hint : sortedHint) : bool :=
  match hint with decreasingHint => true | _ => false end.

(** [pdqsort_func] sorts [data[a:b]]; one unit of fuel for every round of
    its loop and every level of its recursion ([None]: the fuel was not
    enough). *)
Fixpoint pdqsort_func (fuel : nat) (data : list A) (a b limit : nat)
    (wasBalanced wasPartitioned : bool) : option (list A) :=
  match fuel with
  | O => None
  | S fuel' =>
      let length := b - a in
      if Nat.leb length maxInsertion then Some (insertionSort_func data a b)
      else if Nat.eqb limit 0 then Some (heapSort_func data a b)
      else
        let '(data, limit) :=
          if negb wasBalanced then (breakPatterns_func data a b, limit - 1)
          else (data, limit) in
        let '(pivot, hint) := choosePivot_func data a b in
        let '(data, pivot, hint) :=
          if isDecreasing hint
          then (reverseRange_func data a b, (b - 1) - (pivot - a),
                increasingHint)
          else (data, pivot, hint) in
        let '(data, sorted) :=
          if wasBalanced && wasPartitioned && isIncreasing hint
          then partialInsertionSort_func data a b
          else (data, false) in
        if sorted then Some data
        else if Nat.ltb 0 a && negb (Less data (a - 1) pivot) then
          let '(data, mid) := partitionEqual_func data a b pivot in
          pdqsort_func fuel' data mid b limit wasBalanced wasPartitioned
        else
          let '(data, mid, alreadyPartitioned) :=
            partition_func data a b pivot in
          let leftLen := mid - a in
          let rightLen := b - mid in
          let balanceThreshold := length / 8 in
          if Nat.ltb leftLen rightLen then
            match pdqsort_func fuel' data a mid limit true true with
            | Some data =>
                pdqsort_func fuel' data (mid + 1) b limit
                  (Nat.leb balanceThreshold leftLen) alreadyPartitioned
            | None => None
            end
          else
            match pdqsort_func fuel' data (mid + 1) b limit true true with
            | Some data =>
                pdqsort_func fuel' data a mid limit
                  (Nat.leb balanceThreshold rightLen) alreadyPartitioned
            | None => None
            end
  end.

(** [sort.Slice(x, less)]. *)
Definition Slice (data : list A) : option (list A) :=
  let length := length data in
  let limit := bitsLen length in
  pdqsort_func (S length) data 0 length limit true true.

End Pdqsort.

End Sort.

(** ** Reference definitions, following the specification's words *)

(** [format_time] as the specification tabulates it, by the size of [us]. *)
Definition format_time_spec (us : Q) : string :=
  if Qlt_bool us 1000 then formatFixed 0 us ++ mu ++ "s"
  else if Qlt_bool us 1000000 then formatFixed 1 (us / 1000) ++ "ms"
  else if Qlt_bool us 60000000 then formatFixed 2 (us / 1000000) ++ "s"
  else if Qlt_bool us 3600000000 then
    formatFixed 0 (us / 60000000) ++ "m "
      ++ sprintInt (integerPart (us / 1000000) mod 60) ++ "s"
  else
    formatFixed 0 (us / 3600000000) ++ "h "
      ++ sprintInt (integerPart (us / 60000000) mod 60) ++ "m".

(** The documented contract of the library's [sort.Slice] for a [less]
    that compares a key: the slice is permuted into key order.  The
    library does not promise stability. *)
Definition SortSliceFn : Type :=
  (Suggestion -> Suggestion -> bool) -> list Suggestion -> list Suggestion.

Definition sortSliceContract (sortSlice : SortSliceFn) : Prop :=
  forall (key : Suggestion -> nat) (l : list Suggestion),
    Permutation l (sortSlice (fun a b => Nat.ltb (key a) (key b)) l)
    /\ StronglySorted (fun a b => key a <= key b)
         (sortSlice (fun a b => Nat.ltb (key a) (key b)) l).

(** An implementation that meets the contract: a stable insertion sort. *)
Fixpoint insertBy (less : Suggestion -> Suggestion -> bool) (x : Suggestion)
    (l : list Suggestion) : list Suggestion :=
  match l with
  | [] => [x]
  | y :: rest => if less y x then y :: insertBy less x rest else x :: l
  end.

Definition insertionSortSlice : SortSliceFn :=
  fun less l => fold_right (insertBy less) [] l.

(** The library's [sort.Slice] as a function on lists, for a given step of
    its pseudo-random generator. *)
Definition librarySortSlice (xorshiftNext : Z -> Z) : SortSliceFn :=
  fun less l => default l (Sort.Slice less xorshiftNext l).

(** Seven suggestions of one rule with a low impact, followed by seven of
    another rule with a high impact, as two suggestion rules that match
    seven times each produce them. *)
Definition lowAt (target : string) : Suggestion :=
  mkSuggestion "tidy-1" "tidy" "warning" "low" "title" "body" target [].

Definition highAt (target : string) : Suggestion :=
  mkSuggestion "split-1" "split" "warning" "high" "title" "body" target [].

Definition lowThenHigh : list Suggestion :=
  [lowAt "//a0"; lowAt "//a1"; lowAt "//a2"; lowAt "//a3"; lowAt "//a4";
   lowAt "//a5"; lowAt "//a6";
   highAt "//b0"; highAt "//b1"; highAt "//b2"; highAt "//b3"; highAt "//b4";
   highAt "//b5"; highAt "//b6"].

(** Stability: the suggestions of each impact keep their relative order. *)
Definition keepsOrderWithinImpact (l out : list Suggestion) : Prop :=
  forall impact : string,
    List.filter (fun s => String.eqb (Impact s) impact) out
    = List.filter (fun s => String.eqb (Impact s) impact) l.

(** The pair that identifies a suggestion for deduplication. *)
Definition suggestionPair (s : Suggestion) : string * string :=
  (RuleID s, Target s).

(** "Keep the first": an item stays iff no earlier item has its pair. *)
Fixpoint keepFirstByPair (seen : list (string * string))
    (l : list Suggestion) : list Suggestion :=
  match l with
  | [] => []
  | s :: rest =>
      if bool_decide (suggestionPair s ∈ seen)
      then keepFirstByPair seen rest
      else s :: keepFirstByPair (suggestionPair s :: seen) rest
  end.

Fixpoint containsByte (c : ascii) (s : string) : bool :=
  match s with
  | EmptyString => false
  | String c' rest => Ascii.eqb c' c || containsByte c rest
  end.

(** The key of a pair in the [seen] map. *)
Definition keyOfPair (p : string * string) : string := fst p ++ ":" ++ snd p.

Definition exampleSuggestion (rule impact target : string) : Suggestion :=
  mkSuggestion (rule ++ "-1") rule "warning" impact "title" "body" target [].

(** Rule ids come from identifier tokens, which contain no colon. *)
Definition colonFree (s : Suggestion) : Prop :=
  containsByte ":" (RuleID s) = false.

(** The predicates [GenerateFacts] emits facts for. *)
Definition emittedPredicates : list string :=
  ["trace_event"; "trace_event_tid"; "trace_event_pid";
   "trace_event_mnemonic"; "trace_event_target"; "has_target";
   "is_actionable"; "is_system"; "total_duration"; "total_action_time";
   "total_actions"; "actionable_time"; "actionable_count"; "category_time";
   "category_count"; "mnemonic_time"; "mnemonic_count"; "target_time";
   "max_concurrency"; "critical_path_end"; "critical_path_percent";
   "potential_bottleneck"].

Definition emitted (f : Fact) : Prop := FPredicate f ∈ emittedPredicates.

(** The event of scenario S2. *)
Definition compileEvent : TraceEvent :=
  mkTraceEvent "Compile" "action processing" "X" 0 1000 1 1
    (<["target" := VString "//a:b"]>
       (<["mnemonic" := VString "CppCompile"]> ∅)).

(** An event is running at time [t]: on the closed interval
    [start <= t <= start+dur], and on the half-open interval
    [start <= t < start+dur]. *)
Definition runningClosed (t : Q) (e : TraceEvent) : bool :=
  Qle_bool (Ts e) t && Qle_bool t (Ts e + Dur e).

Definition runningHalfOpen (t : Q) (e : TraceEvent) : bool :=
  Qle_bool (Ts e) t && Qlt_bool t (Ts e + Dur e).

(** The number of elements of a list that pass a test. *)
Fixpoint countIf {A : Type} (f : A -> bool) (l : list A) : Z :=
  match l with
  | [] => 0%Z
  | x :: rest => ((if f x then 1 else 0) + countIf f rest)%Z
  end.

Definition concurrencyAt (running : Q -> TraceEvent -> bool) (t : Q)
    (events : list TraceEvent) : Z :=
  countIf (running t) events.

(** [m] is the maximum of [f] over all times. *)
Definition isMaxOverTime (f : Q -> Z) (m : Z) : Prop :=
  (forall t : Q, (f t <= m)%Z) /\ exists t : Q, f t = m.

(** Bookkeeping for the sweep: the change of [current] over a list of
    points, the starts up to [t] and the ends before [t]. *)
Definition pointDelta (p : timePoint) : Z := if isStart p then 1%Z else (-1)%Z.

Fixpoint delta (points : list timePoint) : Z :=
  match points with
  | [] => 0%Z
  | p :: rest => (pointDelta p + delta rest)%Z
  end.

Definition startedBy (t : Q) (p : timePoint) : bool :=
  isStart p && Qle_bool (time p) t.

Definition endedBefore (t : Q) (p : timePoint) : bool :=
  negb (isStart p) && Qlt_bool (time p) t.

(** A point sorted at or before a start at time [t]. *)
Definition counted (t : Q) (p : timePoint) : bool :=
  if isStart p then Qle_bool (time p) t else Qlt_bool (time p) t.

(** The exchange sort by recursion on the slice: the inner loop holds
    [a[i]] in [ai] and walks over the rest; a swap leaves [ai] behind and
    goes on with the other element. *)
Section ExchangeSortRec.
Context {A : Type} (swap : A -> A -> bool).

Fixpoint selectLeast (ai : A) (rest : list A) : A * list A :=
  match rest with
  | [] => (ai, [])
  | aj :: rest' =>
      if swap ai aj
      then let '(m, r) := selectLeast aj rest' in (m, ai :: r)
      else let '(m, r) := selectLeast ai rest' in (m, aj :: r)
  end.

Fixpoint exchangeSortRec (n : nat) (a : list A) : list A :=
  match n, a with
  | S n', ai :: rest =>
      let '(m, r) := selectLeast ai rest in m :: exchangeSortRec n' r
  | _, _ => a
  end.

End ExchangeSortRec.

Definition pointsSorted (points : list timePoint) : Prop :=
  StronglySorted (fun x y => swapPoints x y = false) points.

Definition plainEvent (ts dur : Q) : TraceEvent :=
  mkTraceEvent "action" "action processing" "X" ts dur 1 1 ∅.

(** The events of scenario S3, and two events that touch at time 10. *)
Definition overlapEvents : list TraceEvent :=
  [plainEvent 0 100; plainEvent 50 100; plainEvent 120 30].

Definition touchingEvents : list TraceEvent :=
  [plainEvent 0 10; plainEvent 10 5].

(** The comparison operators of a clause are among the six the parser
    produces. *)
Fixpoint comparisonsKnown (c : Clause) : bool :=
  match c with
  | Comparison _ (CmpOther _) _ => false
  | Aggregation _ _ body _ => forallb comparisonsKnown body
  | _ => true
  end.

Definition rulesKnown (rs : list Rule) : Prop :=
  Forall (fun r => forallb comparisonsKnown (Body r) = true) rs.

(** What an assignment [v = expr] makes of one candidate binding: the
    extended binding, or nothing when the expression fails. *)
Definition assignCandidate `{GoRuntime} (e : Engine) (v : string)
    (expr : Expression) (b : Bindings) : list Bindings :=
  match evaluateExpression e expr b with
  | Ok value => [<[v := value]> b]
  | _ => []
  end.

(** An engine holding [p(1)] and the rule [q(?Y) :- p(?X), ?Y = ?X / 0.] *)
Definition divisionRule : Rule :=
  mkRule (mkAtom "q" [Var "?Y"])
    [AtomClause (mkAtom "p" [Var "?X"]);
     Assignment "?Y"
       (BinaryExpr (TermExpr (Var "?X")) OpDiv
          (TermExpr (Constant (VInt64 0))))].

Definition divisionEngine : Engine :=
  AddRule divisionRule (AddFact (mkFact "p" [VInt64 1]) (mkEngine ∅ [] ∅)).

(** An engine holding [p(1)], [p(2)] and the rule [q(?X) :- p(?X).], and
    the engine [Evaluate] reaches from it. *)
Definition copyRule : Rule :=
  mkRule (mkAtom "q" [Var "?X"]) [AtomClause (mkAtom "p" [Var "?X"])].

Definition copyEngine : Engine :=
  AddRule copyRule
    (AddFacts [mkFact "p" [VInt64 1]; mkFact "p" [VInt64 2]]
       (mkEngine ∅ [] ∅)).

Definition copyEngineDone : Engine :=
  AddFacts [mkFact "q" [VInt64 1]; mkFact "q" [VInt64 2]] copyEngine.

(** The sum of a list of rationals, and what it is to be a greatest and a
    least element. *)
Fixpoint Qsum (l : list Q) : Q :=
  match l with
  | [] => 0%Q
  | x :: rest => (x + Qsum rest)%Q
  end.

Definition isGreatest (m : Q) (l : list Q) : Prop :=
  m ∈ l /\ forall x, x ∈ l -> (x <= m)%Q.

Definition isLeast (m : Q) (l : list Q) : Prop :=
  m ∈ l /\ forall x, x ∈ l -> (m <= x)%Q.

(** The body [d(?V)] over the facts [d(3)], [d(1)], [d(2)]. *)
Definition dataEngine : Engine :=
  AddFacts [mkFact "d" [VInt64 3]; mkFact "d" [VInt64 1]; mkFact "d" [VInt64 2]]
    (mkEngine ∅ [] ∅).

Definition dataBody : list Clause := [AtomClause (mkAtom "d" [Var "?V"])].

(** The facts [d(3)], [d("n/a")], [d(1)], [d(2)]: four rows, three of them
    with a number. *)
Definition mixedEngine : Engine :=
  AddFacts [mkFact "d" [VInt64 3]; mkFact "d" [VString "n/a"];
            mkFact "d" [VInt64 1]; mkFact "d" [VInt64 2]]
    (mkEngine ∅ [] ∅).

(** The number a value stands for in an aggregation: a float is itself, an
    integer its value; a string, a boolean or nil is no number. *)
Definition numberOf (x : Value) : option Q :=
  match x with
  | VFloat q => Some q
  | VInt n => Some (inject_Z n)
  | VInt64 n => Some (inject_Z n)
  | VNil | VString _ | VBool _ => None
  end.

(** The collected values of an aggregation over the variable [v]: the
    numbers that the rows bind [v] to, in the order of the rows; a row
    that leaves [v] unbound, or binds it to something that is no number,
    adds nothing. *)
Definition collectedNumbers (v : string) (rows : list Bindings) : list Q :=
  omap (fun row : Bindings => row !! v ≫= numberOf) rows.

(** The clause the parser makes of [?V = expr]. *)
Definition clauseOfEquation (variable : string) (expr : Expression) : Clause :=
  match expr with
  | TermExpr term => Comparison (Var variable) OpEq term
  | _ => Assignment variable expr
  end.

(** A parser function that returns from every position in [q..len] and, on
    success, has consumed at least one token and stays within the
    tokens. *)
Definition returnsFrom {X : Type} (len q : nat) (g : nat -> PResult X)
  : Prop :=
  forall p, q <= p -> p <= len -> g p <> None.

Definition consumes {X : Type} (len : nat) (g : nat -> PResult X) : Prop :=
  forall p x p', g p = Some (Ok (x, p')) -> p < p' /\ p' <= len.

Definition tok (t : TokenType) (v : string) : Token := mkToken t v 1 1.

(** The tokens of [?P = (?D * 100) / 1000] and of [?P = (?D)]. *)
Definition assignmentTokens : list Token :=
  [tok TokenVariable "?P"; tok TokenEq "="; tok TokenLParen "(";
   tok TokenVariable "?D"; tok TokenStar "*"; tok TokenNumber "100";
   tok TokenRParen ")"; tok TokenSlash "/"; tok TokenNumber "1000";
   tok TokenEOF ""].

Definition comparisonTokens : list Token :=
  [tok TokenVariable "?P"; tok TokenEq "="; tok TokenLParen "(";
   tok TokenVariable "?D"; tok TokenRParen ")"; tok TokenEOF ""].

(** Induction on clauses, through the bodies of aggregations. *)
Section ClauseInduction.
Variable P : Clause -> Prop.
Hypothesis HAtom : forall a, P (AtomClause a).
Hypothesis HComparison : forall l op r, P (Comparison l op r).
Hypothesis HAssignment : forall v e, P (Assignment v e).
Hypothesis HAggregation :
  forall op v body into, Forall P body -> P (Aggregation op v body into).
Hypothesis HNegation : forall a, P (Negation a).

Fixpoint Clause_nested_ind (c : Clause) : P c :=
  match c with
  | AtomClause a => HAtom a
  | Comparison l op r => HComparison l op r
  | Assignment v e => HAssignment v e
  | Aggregation op v body into =>
      HAggregation op v body into
        ((fix go (l : list Clause) : Forall P l :=
            match l with
            | [] => @List.Forall_nil Clause P
            | c' :: rest =>
                @List.Forall_cons Clause P c' rest (Clause_nested_ind c')
                  (go rest)
            end) body)
  | Negation a => HNegation a
  end.

End ClauseInduction.

(** ** Notions used in the further properties of the engine *)

(** The binding a fact gives to a list of distinct variables. *)
Definition bindArgs (xs : list string) (f : Fact) : Bindings :=
  list_to_map (zip xs (FArgs f)).

(** A term of an atom agrees with the value a fact holds in its place: a
    wildcard with anything, a constant or a variable when its value under
    [b] equals the stored one. *)
Definition termAgrees `{GoRuntime} (b : Bindings) (t : Term) (v : Value)
  : Prop :=
  match t with
  | Wildcard => True
  | _ => exists w, resolveTerm t b = Ok w /\ valuesEqual w v = true
  end.

(** The engine [e'] holds everything [e] holds: for every predicate the
    facts of [e] are a prefix of those of [e'], and the rules and built-ins
    are the same. *)
Definition storeGrows (e e' : Engine) : Prop :=
  (forall p, GetFacts e p `prefix_of` GetFacts e' p)
  /\ rules e' = rules e
  /\ builtins e' = builtins e
  /\ FactCount e <= FactCount e'.

(** ** Notions used in the further properties of the fact builder *)

(** The end time of an event. *)
Definition endOf (e : TraceEvent) : Q := (Ts e + Dur e)%Q.

(** The event carries a non-empty target label. *)
Definition hasTarget (e : TraceEvent) : bool :=
  match eventTarget e with Some _ => true | None => false end.

(** The test [isActionable] of the first loop of [GenerateFacts]. *)
Definition isActionableEvent (e : TraceEvent) : bool :=
  hasTarget e || (isActionableCategory (Cat e) && argNotNil e "mnemonic").

(** The state [GenerateFacts] starts its first loop in, the state it ends
    it in, and the facts one iteration appends for event [i]. *)
Definition emptyPass : FirstPass := mkFirstPass [] 0%Q 0%Q 0%Q 0%Z.

Definition firstPass (events : list TraceEvent) : FirstPass :=
  firstPassLoop 0 events emptyPass.

Definition eventFacts (i : nat) (e : TraceEvent) : list Fact :=
  fpFacts (firstPassStep i e emptyPass).

(** The predicates of the per-event facts and of the critical-path facts. *)
Definition eventPredicates : list string :=
  ["trace_event"; "trace_event_tid"; "trace_event_pid";
   "trace_event_mnemonic"; "trace_event_target"; "has_target";
   "is_actionable"; "is_system"].

Definition criticalPathPredicates : list string :=
  ["critical_path_end"; "critical_path_percent"; "potential_bottleneck"].

(** [m[key] = f(m[key])] on an association list in insertion order, where
    [f] sees [None] for a missing key; and the lookup [m[key]]. *)
Section Upsert.
Context {V : Type}.

Fixpoint upsert (f : option V -> V) (key : string) (m : list (string * V))
  : list (string * V) :=
  match m with
  | [] => [(key, f None)]
  | (k, v) :: rest =>
      if String.eqb k key then (k, f (Some v)) :: rest
      else (k, v) :: upsert f key rest
  end.

Fixpoint assoc (key : string) (m : list (string * V)) : option V :=
  match m with
  | [] => None
  | (k, v) :: rest => if String.eqb k key then Some v else assoc key rest
  end.

End Upsert.

(** The key under which the mnemonic aggregates count an event: its
    mnemonic, when it also has a target. *)
Definition mnemonicKey (e : TraceEvent) : option string :=
  match argString e "mnemonic", eventTarget e with
  | Some mnemonic, Some _ => Some mnemonic
  | _, _ => None
  end.

(** The facts of one predicate in a list of facts, in their order. *)
Definition factsOf (p : string) (fs : list Fact) : list Fact :=
  List.filter (fun f => String.eqb (FPredicate f) p) fs.

(** The [potential_bottleneck] facts of a list of facts, and the duration
    such a fact carries. *)
Definition bottleneckFacts (fs : list Fact) : list Fact :=
  List.filter (fun f => String.eqb (FPredicate f) "potential_bottleneck") fs.

Definition bottleneckDuration (f : Fact) : Q :=
  match FArgs f with
  | [_; _; VFloat d; _; _] => d
  | _ => 0%Q
  end.

Definition bottleneckIndex (f : Fact) : option Z :=
  match FArgs f with
  | VInt i :: _ => Some i
  | _ => None
  end.

(** ** Notions used in the further properties of the suggestions and
    built-ins *)

(** The order [Evaluate] sorts suggestions into. *)
Definition byImpact (a b : Suggestion) : Prop :=
  impactOrder (Impact a) <= impactOrder (Impact b).

(** A string without its commas. *)
Fixpoint removeCommas (s : string) : string :=
  match s with
  | EmptyString => EmptyString
  | String c rest =>
      if Ascii.eqb c "," then removeCommas rest
      else String c (removeCommas rest)
  end.

(** ** Notions used in the further properties of the lexer and parser *)

(** The token types the keyword table maps to. *)
Definition keywordTypes : list TokenType :=
  [TokenRule; TokenWhen; TokenThen; TokenSuggestion; TokenAggregate;
   TokenNot; TokenCount; TokenSum; TokenMax; TokenMin; TokenAvg].

(** A token as the lexer produces them: never the operator [%], and an
    identifier only when its text is not a keyword. *)
Definition lexed (t : Token) : Prop :=
  Type_ t <> TokenPercent
  /\ (Type_ t = TokenIdent -> Lex.keywords !! TValue t = None).

(** An expression without [%] and without a call of a function whose name
    is a keyword (such as [min] and [max]). *)
Fixpoint plainExpr (e : Expression) : bool :=
  match e with
  | TermExpr _ => true
  | BinaryExpr l op r =>
      plainExpr l && plainExpr r
      && match op with OpMod => false | _ => true end
  | FunctionCall name args =>
      bool_decide (Lex.keywords !! name = None) && forallb plainExpr args
  end.

(** A clause that is no aggregation and assigns a plain expression. *)
Definition plainClause (c : Clause) : bool :=
  match c with
  | Assignment _ e => plainExpr e
  | Aggregation _ _ _ _ => false
  | _ => true
  end.

Definition plainProgram (p : Program) : bool :=
  forallb (fun r => forallb plainClause (Body r)) (Rules p)
  && forallb (fun r => forallb plainClause (Conditions r)) (SuggestionRules p).

(** A parser function whose successful results all satisfy [P]. *)
Definition yields {X : Type} (P : X -> Prop) (g : nat -> PResult X) : Prop :=
  forall pos x pos', g pos = Some (Ok (x, pos')) -> P x.

(** The text of a fact, a rule and a suggestion rule. *)
Definition exampleProgramText : string :=
  "p(1). q(?X) :- p(?X), ?Y = ?X + 1, not r(?X). "
  ++ "rule slow { when: q(?X). then: suggestion(warning, high, "
  ++ String Lex.quote "T" ++ String Lex.quote ", "
  ++ String Lex.quote "B" ++ String Lex.quote "). }".

(** An identifier token whose text has no colon, and a program whose
    suggestion rules have ids without a colon. *)
Definition identColonFree (t : Token) : Prop :=
  Type_ t = TokenIdent -> containsByte ":" (TValue t) = false.

Definition ruleIdsColonFree (p : Program) : Prop :=
  Forall (fun r => containsByte ":" (SRID r) = false) (SuggestionRules p).

(** * Theorems *)

(** ** Rational arithmetic helpers *)

Lemma Qlt_bool_iff (a b : Q) : Qlt_bool a b = true <-> (a < b)%Q.
Proof.
  unfold Qlt_bool. rewrite negb_true_iff.
  destruct (Qle_bool b a) eqn:E.
  - apply Qle_bool_iff in E. split; [discriminate | intros; lra].
  - split; [intros _ | reflexivity].
    apply Qnot_le_lt. intros Hle. apply Qle_bool_iff in Hle. congruence.
Qed.

Lemma Qlt_bool_false_iff (a b : Q) : Qlt_bool a b = false <-> (b <= a)%Q.
Proof.
  unfold Qlt_bool. rewrite negb_false_iff. apply Qle_bool_iff.
Qed.

Lemma Qle_bool_false_iff (a b : Q) : Qle_bool a b = false <-> (b < a)%Q.
Proof.
  rewrite <- Qlt_bool_iff. unfold Qlt_bool.
  destruct (Qle_bool a b); simpl; split; congruence.
Qed.

#[global] Instance Qlt_bool_comp : Proper (Qeq ==> Qeq ==> eq) Qlt_bool.
Proof.
  intros a b Hab c d Hcd. unfold Qlt_bool. f_equal. now apply Qleb_comp.
Qed.

Ltac qbool :=
  repeat match goal with
  | H : Qlt_bool _ _ = true |- _ => apply Qlt_bool_iff in H
  | H : Qlt_bool _ _ = false |- _ => apply Qlt_bool_false_iff in H
  | H : Qle_bool _ _ = true |- _ => apply Qle_bool_iff in H
  | H : Qle_bool _ _ = false |- _ => apply Qle_bool_false_iff in H
  | H : Qeq_bool _ _ = true |- _ => apply Qeq_bool_iff in H
  | H : Qeq_bool _ _ = false |- _ => apply Qeq_bool_neq in H
  | |- Qlt_bool _ _ = true => apply Qlt_bool_iff
  | |- Qlt_bool _ _ = false => apply Qlt_bool_false_iff
  | |- Qle_bool _ _ = true => apply Qle_bool_iff
  | |- Qle_bool _ _ = false => apply Qle_bool_false_iff
  | |- Qeq_bool _ _ = true => apply Qeq_bool_iff
  end.

Ltac qlra :=
  unfold Qdiv in *;
  change (/ 1000)%Q with (1 # 1000)%Q in *;
  change (/ 60)%Q with (1 # 60)%Q in *;
  change (/ 1000000)%Q with (1 # 1000000)%Q in *;
  change (/ 60000000)%Q with (1 # 60000000)%Q in *;
  change (/ 3600000000)%Q with (1 # 3600000000)%Q in *;
  lra.

Lemma integerPart_floor (q : Q) : (0 <= q)%Q -> integerPart q = Qfloor q.
Proof.
  intros Hq. unfold integerPart, Qfloor. destruct q as [n d]. simpl.
  apply Z.quot_div_nonneg; [| lia].
  unfold Qle in Hq. simpl in Hq. lia.
Qed.

Lemma integerPart_comp_nonneg (a b : Q) :
  (0 <= a)%Q -> (a == b)%Q -> integerPart a = integerPart b.
Proof.
  intros Ha Hab. rewrite !integerPart_floor by lra. now apply Qfloor_comp.
Qed.

Lemma integerPart_nonneg (q : Q) : (0 <= q)%Q -> (0 <= integerPart q)%Z.
Proof.
  intros Hq. rewrite integerPart_floor by assumption.
  change 0%Z with (Qfloor 0). now apply Qfloor_resp_le.
Qed.

(** A non-negative float below 2^63 has an integer part that fits. *)
Lemma integerPart_fits (q : Q) :
  (0 <= q)%Q -> (q < 9223372036854775808)%Q -> inInt64 (integerPart q) = true.
Proof.
  intros H0 Hlt. pose proof (integerPart_nonneg q H0) as Hn.
  rewrite integerPart_floor in * by assumption.
  assert (Hf : (Qfloor q < 9223372036854775808)%Z).
  { rewrite Zlt_Qlt. eapply Qle_lt_trans; [apply Qfloor_le | exact Hlt]. }
  unfold inInt64, minInt64, maxInt64.
  apply andb_true_iff. split; apply Z.leb_le; lia.
Qed.

(** The conversion always yields a 64-bit integer, and it is the integer
    part whenever that fits. *)
Lemma truncToInt_fits `{GoRuntime} (q : Q) : inInt64 (truncToInt q) = true.
Proof.
  unfold truncToInt. destruct (inInt64 (integerPart q)) eqn:E;
    [exact E | apply intOfHuge_fits].
Qed.

Lemma truncToInt_exact `{GoRuntime} (q : Q) :
  inInt64 (integerPart q) = true -> truncToInt q = integerPart q.
Proof. intros E. unfold truncToInt. now rewrite E. Qed.

Lemma inInt64_range (n : Z) :
  inInt64 n = true <-> (minInt64 <= n <= maxInt64)%Z.
Proof.
  unfold inInt64. rewrite andb_true_iff, !Z.leb_le. reflexivity.
Qed.

Lemma roundHalfEven_comp (a b : Q) :
  (a == b)%Q -> roundHalfEven a = roundHalfEven b.
Proof.
  intros Hab. unfold roundHalfEven.
  rewrite (Qfloor_comp a b Hab).
  assert (Hr : (a - inject_Z (Qfloor b) == b - inject_Z (Qfloor b))%Q)
    by (rewrite Hab; reflexivity).
  now rewrite !Hr.
Qed.

Lemma formatFixed_comp (prec : nat) (a b : Q) :
  (a == b)%Q -> formatFixed prec a = formatFixed prec b.
Proof.
  intros Hab. unfold formatFixed.
  assert (Hm : (Qabs a * inject_Z (10 ^ Z.of_nat prec)
                == Qabs b * inject_Z (10 ^ Z.of_nat prec))%Q)
    by (rewrite Hab; reflexivity).
  rewrite (roundHalfEven_comp _ _ Hm).
  now rewrite (Qlt_bool_comp a b Hab 0%Q 0%Q (Qeq_refl 0)).
Qed.

(** ** C9: [format_time] by the size of its argument *)

Lemma intRem_mod_nonneg (a : Z) : (0 <= a)%Z -> intRem a 60 = (a mod 60)%Z.
Proof. intros Ha. unfold intRem. apply Z.rem_mod_nonneg; lia. Qed.

(** C9 (amended): for every microsecond value [us] whose whole minutes fit
    a 64-bit integer ([us / (60 * 10^6) < 2^63]; non-negative or not),
    [FormatDuration], which the [format_time] built-in returns, is the
    string the specification tabulates: [%.0fμs] of [us] below 1000,
    [%.1fms] of [us/1000] below 10^6, [%.2fs] of [us/10^6] below 60*10^6,
    [%.0fm %ds] of the minutes and the integer seconds modulo 60 below
    3600*10^6, and [%.0fh %dm] of the hours and the integer minutes modulo
    60 above. *)
Theorem FormatDuration_matches_spec `{GoRuntime} (us : Q) :
  (us / 60000000 < 9223372036854775808)%Q ->
  FormatDuration us = format_time_spec us
  /\ builtin_format_time [VFloat us] = Ok (VString (format_time_spec us)).
Proof.
  intros Hfit.
  assert (E : FormatDuration us = format_time_spec us).
  { unfold FormatDuration, format_time_spec.
    destruct (Qlt_bool us 1000) eqn:E1; [reflexivity |].
    destruct (Qlt_bool (us / 1000) 1000) eqn:E2.
    { assert (Qlt_bool us 1000000 = true) as -> by (qbool; qlra).
      reflexivity. }
    assert (Qlt_bool us 1000000 = false) as -> by (qbool; qlra).
    destruct (Qlt_bool (us / 1000 / 1000) 60) eqn:E3.
    { assert (Qlt_bool us 60000000 = true) as -> by (qbool; qlra).
      f_equal. apply formatFixed_comp. qlra. }
    assert (Qlt_bool us 60000000 = false) as -> by (qbool; qlra).
    destruct (Qlt_bool (us / 1000 / 1000 / 60) 60) eqn:E4.
    { assert (Qlt_bool us 3600000000 = true) as -> by (qbool; qlra).
      qbool.
      rewrite truncToInt_exact by (apply integerPart_fits; qlra).
      rewrite intRem_mod_nonneg by (apply integerPart_nonneg; qlra).
      rewrite (integerPart_comp_nonneg (us / 1000 / 1000) (us / 1000000))
        by qlra.
      f_equal. apply formatFixed_comp. qlra. }
    assert (Qlt_bool us 3600000000 = false) as -> by (qbool; qlra).
    qbool.
    rewrite truncToInt_exact by (apply integerPart_fits; qlra).
    rewrite intRem_mod_nonneg by (apply integerPart_nonneg; qlra).
    rewrite (integerPart_comp_nonneg (us / 1000 / 1000 / 60) (us / 60000000))
      by qlra.
    f_equal. apply formatFixed_comp. qlra. }
  split; [exact E |].
  unfold builtin_format_time, oneFloat. simpl. now rewrite E.
Qed.

Lemma FormatDuration_matches_spec_witness :
  FormatDuration (H := exampleRuntime) 3725000000
  = format_time_spec 3725000000
  /\ builtin_format_time (H := exampleRuntime) [VFloat 3725000000]
     = Ok (VString (format_time_spec 3725000000)).
Proof.
  apply (FormatDuration_matches_spec (H := exampleRuntime) 3725000000).
  reflexivity.
Defined.

(** C9 as stated fails where the whole minutes do not fit 64 bits.  For
    [us = 3515625 * 2^80] the minutes are [15 * 2^72], whose remainder
    modulo 60 is 0; [int(m)] is out of range there, and with the value the
    conversion has on amd64 the remainder that is printed is -8. *)
Lemma FormatDuration_minutes_overflow :
  integerPart (3515625 * inject_Z (2 ^ 80) / 60000000) = (15 * 2 ^ 72)%Z
  /\ format_time_spec (3515625 * inject_Z (2 ^ 80))
     = "1180591620717411303424h 0m"
  /\ FormatDuration (H := exampleRuntime) (3515625 * inject_Z (2 ^ 80))
     = "1180591620717411303424h -8m"
  /\ builtin_format_time (H := exampleRuntime)
       [VFloat (3515625 * inject_Z (2 ^ 80))]
     = Ok (VString "1180591620717411303424h -8m").
Proof. repeat split; vm_compute; reflexivity. Qed.


(** ** C10: the [truncate] built-in *)

Lemma length_substring_prefix (n : nat) (s : string) :
  n <= String.length s -> String.length (substring 0 n s) = n.
Proof.
  revert s. induction n as [| n IH]; intros s Hn.
  - destruct s; reflexivity.
  - destruct s as [| c s]; simpl in *; [lia |].
    rewrite IH by lia. reflexivity.
Qed.

Lemma length_append (s1 s2 : string) :
  String.length (s1 ++ s2) = String.length s1 + String.length s2.
Proof. induction s1 as [| c s1 IH]; simpl; [reflexivity | now rewrite IH]. Qed.

Lemma wrapInt64_fits (n : Z) : inInt64 n = true -> wrapInt64 n = n.
Proof.
  rewrite inInt64_range. unfold wrapInt64, minInt64, maxInt64. intros Hn.
  rewrite Z.mod_small by lia. lia.
Qed.

Lemma wrapInt64_below (n : Z) :
  (minInt64 - 2 ^ 64 <= n < minInt64)%Z -> wrapInt64 n = (n + 2 ^ 64)%Z.
Proof.
  unfold wrapInt64, minInt64. intros Hn.
  replace (n - - 2 ^ 63)%Z with (n + 2 ^ 64 - - 2 ^ 63 + -1 * 2 ^ 64)%Z by lia.
  rewrite Z.mod_add by lia. rewrite Z.mod_small by lia. lia.
Qed.

(** C10: with [s] the printed first argument and [n] the length bound
    [int(maxLen)] (a 64-bit integer: the integer part of the second
    argument when that fits), [truncate] returns [s] unchanged when
    [len(s) <= n]; when [len(s) > n] and [n >= 3] it returns the first
    [n-3] bytes of [s] followed by three dots, [n] bytes in all; and when
    [len(s) > n] and [n < 3] the slice bound [n-3] is negative and the call
    panics (slice bounds out of range), which the input [("abcd", 2)]
    reaches.  Within three of the least integer the subtraction [n-3]
    wraps around to a bound of at least [2^63 - 3], and the call panics
    all the same for every string shorter than that. *)
Theorem truncate_total_iff_bound `{GoRuntime} (a0 a1 : Value) (maxLen : Q) :
  toFloat64 a1 = Ok maxLen ->
  let s := Sprint a0 in
  let n := truncToInt maxLen in
  ((Z.of_nat (String.length s) <= n)%Z ->
     builtin_truncate [a0; a1] = Ok (VString s))
  /\ ((n < Z.of_nat (String.length s))%Z -> (3 <= n)%Z ->
        builtin_truncate [a0; a1]
          = Ok (VString (substring 0 (Z.to_nat (n - 3)) s ++ "..."))
        /\ Z.of_nat
             (String.length (substring 0 (Z.to_nat (n - 3)) s ++ "...")) = n)
  /\ ((n < Z.of_nat (String.length s))%Z -> (n < 3)%Z ->
        (minInt64 <= n - 3)%Z ->
        builtin_truncate [a0; a1] = Panic "slice bounds out of range")
  /\ ((n - 3 < minInt64)%Z ->
        (Z.of_nat (String.length s) < 2 ^ 63 - 3)%Z ->
        builtin_truncate [a0; a1] = Panic "slice bounds out of range")
  /\ (minInt64 <= n <= maxInt64)%Z
  /\ (inInt64 (integerPart maxLen) = true -> n = integerPart maxLen)
  /\ builtin_truncate [VString "abcd"; VInt 2]
       = Panic "slice bounds out of range".
Proof.
  intros Hf s n. unfold builtin_truncate. rewrite Hf. simpl obind.
  fold s. fold n.
  assert (Hn : (minInt64 <= n <= maxInt64)%Z)
    by (apply inInt64_range, truncToInt_fits).
  unfold minInt64, maxInt64 in Hn.
  split; [| split; [| split; [| split; [| split; [| split]]]]].
  - intros Hle.
    destruct (n <? Z.of_nat (String.length s))%Z eqn:E; [lia | reflexivity].
  - intros Hlt H3.
    destruct (n <? Z.of_nat (String.length s))%Z eqn:E; [| lia].
    rewrite wrapInt64_fits
      by (apply inInt64_range; unfold minInt64, maxInt64; lia).
    unfold sliceTo.
    destruct (n - 3 <? 0)%Z eqn:E1; [lia |].
    destruct (Z.of_nat (String.length s) <? n - 3)%Z eqn:E2; [lia |].
    split; [reflexivity |].
    rewrite length_append, length_substring_prefix by lia. simpl. lia.
  - intros Hlt H3 Hmin. unfold minInt64 in Hmin.
    destruct (n <? Z.of_nat (String.length s))%Z eqn:E; [| lia].
    rewrite wrapInt64_fits
      by (apply inInt64_range; unfold minInt64, maxInt64; lia).
    unfold sliceTo.
    destruct (n - 3 <? 0)%Z eqn:E1; [reflexivity | lia].
  - intros Hwrap Hlen. unfold minInt64 in Hwrap.
    destruct (n <? Z.of_nat (String.length s))%Z eqn:E; [| lia].
    rewrite wrapInt64_below by (unfold minInt64; lia).
    unfold sliceTo.
    destruct (n - 3 + 2 ^ 64 <? 0)%Z eqn:E1; [reflexivity |].
    destruct (Z.of_nat (String.length s) <? n - 3 + 2 ^ 64)%Z eqn:E2;
      [reflexivity | lia].
  - unfold minInt64, maxInt64. exact Hn.
  - apply truncToInt_exact.
  - reflexivity.
Qed.

Lemma truncate_total_iff_bound_witness :
  builtin_truncate (H := exampleRuntime) [VString "hello world"; VInt 8]
    = Ok (VString "hello...")
  /\ builtin_truncate (H := exampleRuntime) [VString "hello world"; VInt 2]
    = Panic "slice bounds out of range"
  /\ builtin_truncate (H := exampleRuntime)
       [VString "hello world"; VFloat 9223372036854775808]
    = Panic "slice bounds out of range".
Proof.
  split; [| split].
  - apply (truncate_total_iff_bound (H := exampleRuntime)
             (VString "hello world") (VInt 8) 8 eq_refl);
      vm_compute; congruence.
  - apply (truncate_total_iff_bound (H := exampleRuntime)
             (VString "hello world") (VInt 2) 2 eq_refl);
      vm_compute; congruence.
  - apply (truncate_total_iff_bound (H := exampleRuntime)
             (VString "hello world") (VFloat 9223372036854775808)
             9223372036854775808 eq_refl);
      vm_compute; congruence.
Defined.

(** ** C7: ordering of suggestions *)

Lemma impactOrder_levels :
  impactOrder "high" = 0 /\ impactOrder "medium" = 1 /\ impactOrder "low" = 2
  /\ forall impact : string,
       impact <> "high" -> impact <> "medium" -> impact <> "low" ->
       impactOrder impact = 3.
Proof.
  repeat split. intros impact H1 H2 H3. unfold impactOrder.
  apply String.eqb_neq in H1, H2, H3. now rewrite H1, H2, H3.
Qed.

Section InsertionSort.
Variable key : Suggestion -> nat.
Let less (a b : Suggestion) : bool := Nat.ltb (key a) (key b).
Let keyLe (a b : Suggestion) : Prop := key a <= key b.

Lemma insertBy_perm (x : Suggestion) (l : list Suggestion) :
  Permutation (x :: l) (insertBy less x l).
Proof.
  induction l as [| y l IH]; simpl; [reflexivity |].
  destruct (less y x); [| reflexivity].
  rewrite perm_swap. now apply perm_skip.
Qed.

Lemma insertBy_sorted (x : Suggestion) (l : list Suggestion) :
  StronglySorted keyLe l -> StronglySorted keyLe (insertBy less x l).
Proof.
  induction l as [| y l IH]; intros Hs; simpl.
  - constructor; constructor.
  - inversion Hs as [| ? ? Hs' Hall]; subst.
    unfold less at 1. destruct (Nat.ltb (key y) (key x)) eqn:E.
    + apply Nat.ltb_lt in E. constructor; [now apply IH |].
      eapply Permutation_Forall; [apply insertBy_perm |].
      constructor; [unfold keyLe; lia | exact Hall].
    + apply Nat.ltb_ge in E. constructor; [assumption |].
      constructor; [exact E |].
      eapply Forall_impl; [exact Hall |]. unfold keyLe. intros; lia.
Qed.

Lemma insertion_sort_perm (l : list Suggestion) :
  Permutation l (fold_right (insertBy less) [] l).
Proof.
  induction l as [| x l IH]; simpl; [reflexivity |].
  rewrite <- insertBy_perm. now apply perm_skip.
Qed.

Lemma insertion_sort_sorted (l : list Suggestion) :
  StronglySorted keyLe (fold_right (insertBy less) [] l).
Proof.
  induction l as [| x l IH]; simpl; [constructor |].
  now apply insertBy_sorted.
Qed.

End InsertionSort.

Lemma insertionSortSlice_contract : sortSliceContract insertionSortSlice.
Proof.
  intros key l. unfold insertionSortSlice. split.
  - apply insertion_sort_perm.
  - apply insertion_sort_sorted.
Qed.

(** C7 (amended): for every list of suggestions, whatever [sort.Slice]
    does within its contract, the ordering step returns a permutation of
    the list in which a suggestion never comes before one of a smaller
    impact order, with high < medium < low < any other impact string.
    (The relative order of suggestions of equal impact is left to the
    library.) *)
Theorem orderSuggestions_sorted_by_impact (sortSlice : SortSliceFn)
    (l : list Suggestion) :
  sortSliceContract sortSlice ->
  Permutation l (orderSuggestions sortSlice l)
  /\ StronglySorted
       (fun a b => impactOrder (Impact a) <= impactOrder (Impact b))
       (orderSuggestions sortSlice l)
  /\ impactOrder "high" < impactOrder "medium"
  /\ impactOrder "medium" < impactOrder "low"
  /\ forall impact : string,
       impact <> "high" -> impact <> "medium" -> impact <> "low" ->
       impactOrder "low" < impactOrder impact.
Proof.
  intros Hc.
  destruct (Hc (fun s => impactOrder (Impact s)) l) as [Hp Hs].
  destruct impactOrder_levels as (Hh & Hm & Hl & Ho).
  unfold orderSuggestions, impactLess.
  repeat split; try assumption; try lia.
  intros impact H1 H2 H3. rewrite Hl, (Ho impact) by assumption. lia.
Qed.

Lemma orderSuggestions_sorted_by_impact_witness :
  Permutation
    [exampleSuggestion "r1" "low" "//a"; exampleSuggestion "r2" "high" "//b";
     exampleSuggestion "r3" "medium" "//c"]
    (orderSuggestions insertionSortSlice
       [exampleSuggestion "r1" "low" "//a"; exampleSuggestion "r2" "high" "//b";
        exampleSuggestion "r3" "medium" "//c"]).
Proof.
  apply (orderSuggestions_sorted_by_impact insertionSortSlice
           [exampleSuggestion "r1" "low" "//a";
            exampleSuggestion "r2" "high" "//b";
            exampleSuggestion "r3" "medium" "//c"]
           insertionSortSlice_contract).
Defined.

(** C7 as stated fails: the library's [sort.Slice] is an insertion sort up
    to 12 elements and a quicksort above, which is not stable.  Of seven
    suggestions of low impact followed by seven of high impact, the
    partition step takes the fourth as pivot and exchanges the low ones
    after the first position, one by one, with the high ones from the last
    backwards; both groups come out in another order than they went in.
    (The pseudo-random generator of the sort is not reached.) *)
Lemma orderSuggestions_not_stable :
  (forall xorshiftNext : Z -> Z,
     Sort.Slice impactLess xorshiftNext lowThenHigh
     = Some [highAt "//b0"; highAt "//b6"; highAt "//b5"; highAt "//b4";
             highAt "//b3"; highAt "//b2"; highAt "//b1";
             lowAt "//a3"; lowAt "//a6"; lowAt "//a5"; lowAt "//a4";
             lowAt "//a0"; lowAt "//a2"; lowAt "//a1"]
     /\ orderSuggestions (librarySortSlice xorshiftNext) lowThenHigh
        = [highAt "//b0"; highAt "//b6"; highAt "//b5"; highAt "//b4";
           highAt "//b3"; highAt "//b2"; highAt "//b1";
           lowAt "//a3"; lowAt "//a6"; lowAt "//a5"; lowAt "//a4";
           lowAt "//a0"; lowAt "//a2"; lowAt "//a1"])
  /\ ~ keepsOrderWithinImpact lowThenHigh
        [highAt "//b0"; highAt "//b6"; highAt "//b5"; highAt "//b4";
         highAt "//b3"; highAt "//b2"; highAt "//b1";
         lowAt "//a3"; lowAt "//a6"; lowAt "//a5"; lowAt "//a4";
         lowAt "//a0"; lowAt "//a2"; lowAt "//a1"].
Proof.
  split.
  - intros xorshiftNext. split; vm_compute; reflexivity.
  - intros Hk. specialize (Hk "high"). vm_compute in Hk. discriminate.
Qed.

(** ** C8: deduplication of suggestions *)

Lemma dedupKey_of_pair (s : Suggestion) :
  dedupKey s
  = (fst (suggestionPair s) ++ ":" ++ snd (suggestionPair s))%string.
Proof. reflexivity. Qed.

(** The key separates rule id and target when the rule id has no colon. *)
Lemma colon_key_inj (a b c d : string) :
  containsByte ":" a = false -> containsByte ":" c = false ->
  (a ++ ":" ++ b = c ++ ":" ++ d)%string -> a = c /\ b = d.
Proof.
  revert c. induction a as [| x a IH]; intros c Ha Hc Heq.
  - destruct c as [| y c]; simpl in *.
    + now inversion Heq.
    + inversion Heq; subst. simpl in Hc. discriminate.
  - destruct c as [| y c]; simpl in *.
    + inversion Heq; subst. simpl in Ha. discriminate.
    + inversion Heq; subst.
      apply orb_false_iff in Ha as [_ Ha], Hc as [_ Hc].
      destruct (IH c Ha Hc) as [-> ->]; [assumption | now split].
Qed.

Lemma dedupKey_inj (s1 s2 : Suggestion) :
  colonFree s1 -> colonFree s2 ->
  dedupKey s1 = dedupKey s2 -> suggestionPair s1 = suggestionPair s2.
Proof.
  intros H1 H2 Hk. unfold dedupKey in Hk.
  destruct (colon_key_inj _ _ _ _ H1 H2 Hk) as [Hr Ht].
  unfold suggestionPair. now rewrite Hr, Ht.
Qed.

(** The loop never keeps two items with one key. *)
Lemma dedupLoop_keys (l : list Suggestion) (seen : gmap string bool)
    (result : list Suggestion) :
  NoDup (dedupKey <$> result) ->
  (forall s, s ∈ result -> seen !! dedupKey s = Some true) ->
  NoDup (dedupKey <$> dedupLoop l seen result).
Proof.
  revert seen result. induction l as [| s l IH]; intros seen result Hnd Hseen;
    simpl; [assumption |].
  destruct (seen !! dedupKey s) as [[|] |] eqn:E; simpl.
  - now apply IH.
  - apply IH.
    + rewrite fmap_app. simpl. apply NoDup_app. split; [assumption |].
      split; [| apply NoDup_singleton].
      intros k Hk Hk'. apply list_elem_of_singleton in Hk'. subst k.
      apply list_elem_of_fmap in Hk as [s' [Hs' Hin]].
      specialize (Hseen s' Hin). rewrite <- Hs' in Hseen. congruence.
    + intros s' Hin. apply elem_of_app in Hin as [Hin | Hin].
      * destruct (decide (dedupKey s = dedupKey s')) as [Heq | Hne].
        -- rewrite <- Heq. apply lookup_insert_eq.
        -- rewrite lookup_insert_ne by assumption. now apply Hseen.
      * apply list_elem_of_singleton in Hin. subst s'. apply lookup_insert_eq.
  - apply IH.
    + rewrite fmap_app. simpl. apply NoDup_app. split; [assumption |].
      split; [| apply NoDup_singleton].
      intros k Hk Hk'. apply list_elem_of_singleton in Hk'. subst k.
      apply list_elem_of_fmap in Hk as [s' [Hs' Hin]].
      specialize (Hseen s' Hin). rewrite <- Hs' in Hseen. congruence.
    + intros s' Hin. apply elem_of_app in Hin as [Hin | Hin].
      * destruct (decide (dedupKey s = dedupKey s')) as [Heq | Hne].
        -- rewrite <- Heq. apply lookup_insert_eq.
        -- rewrite lookup_insert_ne by assumption. now apply Hseen.
      * apply list_elem_of_singleton in Hin. subst s'. apply lookup_insert_eq.
Qed.

Lemma NoDup_pairs_of_keys (l : list Suggestion) :
  NoDup (dedupKey <$> l) -> NoDup (suggestionPair <$> l).
Proof.
  intros H. apply (NoDup_fmap_1 keyOfPair).
  rewrite <- list_fmap_compose. exact H.
Qed.

(** With colon-free rule ids, [seen] holds exactly the keys of the pairs
    met so far, and the loop keeps the first item of each pair. *)
Lemma dedupLoop_keepFirst (l : list Suggestion) (seen : gmap string bool)
    (pairs : list (string * string)) (result : list Suggestion) :
  Forall colonFree l ->
  (forall s, colonFree s ->
     (default false (seen !! dedupKey s) = true <-> suggestionPair s ∈ pairs)) ->
  dedupLoop l seen result = result ++ keepFirstByPair pairs l.
Proof.
  revert seen pairs result.
  induction l as [| s l IH]; intros seen pairs result Hcf Hinv; simpl.
  - now rewrite app_nil_r.
  - inversion Hcf as [| ? ? Hs Hl]; subst.
    destruct (default false (seen !! dedupKey s)) eqn:E; simpl.
    + rewrite bool_decide_eq_true_2 by (now apply Hinv).
      now apply IH.
    + rewrite bool_decide_eq_false_2.
      2:{ intros Hin. apply Hinv in Hin; [congruence | assumption]. }
      rewrite (IH (<[dedupKey s := true]> seen) (suggestionPair s :: pairs)
                 (result ++ [s]) Hl).
      * now rewrite <- app_assoc.
      * intros s' Hs'. rewrite elem_of_cons.
        destruct (decide (dedupKey s = dedupKey s')) as [Heq | Hne].
        -- rewrite <- Heq, lookup_insert_eq. simpl.
           split; [intros _ | reflexivity].
           left. symmetry. now apply dedupKey_inj.
        -- rewrite lookup_insert_ne by assumption.
           rewrite Hinv by assumption.
           split; [now right |].
           intros [Heq | Hin]; [| assumption].
           exfalso. apply Hne. unfold dedupKey.
           unfold suggestionPair in Heq. now inversion Heq.
Qed.

(** C8: for every list of suggestions, after deduplication no two items of
    the returned list share the pair (ruleId, rendered target); and the
    item kept for each pair is the first one in the list.  The second part
    is for rule ids without a colon, as all rule ids are: a rule id is the
    text of an identifier token, which the lexer builds from letters,
    digits and underscores. *)
Theorem deduplicate_keeps_first (l : list Suggestion) :
  NoDup (suggestionPair <$> deduplicateSuggestions l)
  /\ (Forall colonFree l ->
      deduplicateSuggestions l = keepFirstByPair [] l).
Proof.
  split.
  - apply NoDup_pairs_of_keys. unfold deduplicateSuggestions.
    apply dedupLoop_keys; [constructor |].
    intros s Hin. inversion Hin.
  - intros Hcf. unfold deduplicateSuggestions.
    rewrite (dedupLoop_keepFirst l ∅ [] [] Hcf); [reflexivity |].
    intros s _. rewrite lookup_empty. simpl.
    split; [discriminate | intros Hin; inversion Hin].
Qed.

Lemma deduplicate_keeps_first_witness :
  deduplicateSuggestions
    [exampleSuggestion "r1" "high" "//a"; exampleSuggestion "r2" "high" "//a";
     exampleSuggestion "r1" "low" "//a"]
  = keepFirstByPair []
      [exampleSuggestion "r1" "high" "//a"; exampleSuggestion "r2" "high" "//a";
       exampleSuggestion "r1" "low" "//a"].
Proof.
  apply (deduplicate_keeps_first
           [exampleSuggestion "r1" "high" "//a";
            exampleSuggestion "r2" "high" "//a";
            exampleSuggestion "r1" "low" "//a"]).
  repeat constructor.
Defined.

(** The condition on rule ids cannot be dropped from the second part: the
    key is the text [ruleId:target], so the pairs ("a:b", "c") and
    ("a", "b:c") would have one key, and the first item of the second pair
    would be taken for a duplicate.  No rule text gives a rule such an
    id. *)
Lemma deduplicate_key_collision :
  deduplicateSuggestions
    [exampleSuggestion "a:b" "high" "c"; exampleSuggestion "a" "high" "b:c";
     exampleSuggestion "a" "low" "b:c"]
  = [exampleSuggestion "a:b" "high" "c"]
  /\ keepFirstByPair []
       [exampleSuggestion "a:b" "high" "c"; exampleSuggestion "a" "high" "b:c";
        exampleSuggestion "a" "low" "b:c"]
     = [exampleSuggestion "a:b" "high" "c"; exampleSuggestion "a" "high" "b:c"].
Proof. split; vm_compute; reflexivity. Qed.

(** ** C3: the per-target aggregates *)

Ltac emitted_now := unfold emitted, emittedPredicates; simpl; set_solver.

Lemma firstPassStep_emitted (i : nat) (e : TraceEvent) (st : FirstPass) :
  Forall emitted (fpFacts st) -> Forall emitted (fpFacts (firstPassStep i e st)).
Proof.
  intros Hst. unfold firstPassStep. simpl.
  repeat match goal with
  | |- Forall _ (if ?c then _ else _) => destruct c
  | |- Forall _ (match ?c with Some _ => _ | None => _ end) => destruct c
  | |- Forall _ (_ ++ _) => apply Forall_app; split
  | |- Forall _ (_ :: _) => constructor
  | |- Forall _ [] => constructor
  | |- emitted _ => emitted_now
  end; assumption.
Qed.

Lemma firstPassLoop_emitted (events : list TraceEvent) (i : nat)
    (st : FirstPass) :
  Forall emitted (fpFacts st) ->
  Forall emitted (fpFacts (firstPassLoop i events st)).
Proof.
  revert i st. induction events as [| e events IH]; intros i st Hst; simpl.
  - assumption.
  - apply IH. now apply firstPassStep_emitted.
Qed.

Lemma timeFacts_emitted (p : string) (m : list (string * Q)) :
  p ∈ emittedPredicates -> Forall emitted (timeFacts p m).
Proof.
  intros Hp. unfold timeFacts. apply Forall_forall. intros f Hin.
  apply list_elem_of_fmap in Hin as [kv [-> _]]. exact Hp.
Qed.

Lemma countFacts_emitted (p : string) (m : list (string * Z)) :
  p ∈ emittedPredicates -> Forall emitted (countFacts p m).
Proof.
  intros Hp. unfold countFacts. apply Forall_forall. intros f Hin.
  apply list_elem_of_fmap in Hin as [kv [-> _]]. exact Hp.
Qed.

Lemma computeCriticalPath_emitted (events : list TraceEvent) :
  Forall emitted (computeCriticalPath events).
Proof.
  unfold computeCriticalPath. destruct events as [| e events]; [constructor |].
  apply Forall_app. split.
  - destruct (fst (lastActionable 0 (e :: events) (None, 0%Q)))
      as [[i ev] |]; [| constructor].
    constructor; [emitted_now |].
    destruct (Qlt_bool 0 (maxEndOf (e :: events)));
      constructor; try constructor; emitted_now.
  - apply Forall_forall. intros f Hin.
    apply list_elem_of_fmap in Hin as [a [-> _]]. emitted_now.
Qed.

Lemma GenerateFacts_emitted (events : list TraceEvent) :
  Forall emitted (GenerateFacts events).
Proof.
  unfold GenerateFacts.
  repeat (apply Forall_app; split).
  - apply firstPassLoop_emitted. constructor.
  - repeat constructor; emitted_now.
  - apply timeFacts_emitted. emitted_now.
  - apply countFacts_emitted. emitted_now.
  - apply timeFacts_emitted. emitted_now.
  - apply countFacts_emitted. emitted_now.
  - apply timeFacts_emitted. emitted_now.
  - repeat constructor; emitted_now.
  - apply computeCriticalPath_emitted.
Qed.

(** C3 (the code departs from it): [GenerateFacts] computes the per-target
    counts but never emits them; no fact of any event sequence has the
    predicate [target_count].  On the single event of scenario S2 the
    count map holds [("//a:b", 1)] and [target_time("//a:b", 1000)] is
    emitted, yet no [target_count] fact is. *)
Theorem GenerateFacts_emits_no_target_count :
  (forall (events : list TraceEvent) (f : Fact),
     f ∈ GenerateFacts events -> FPredicate f <> "target_count")
  /\ targetCount [compileEvent] = [("//a:b", 1%Z)]
  /\ mkFact "target_time" [VString "//a:b"; VFloat 1000]
       ∈ GenerateFacts [compileEvent]
  /\ mkFact "target_count" [VString "//a:b"; VInt 1]
       ∉ GenerateFacts [compileEvent].
Proof.
  assert (Hno : forall (events : list TraceEvent) (f : Fact),
            f ∈ GenerateFacts events -> FPredicate f <> "target_count").
  { intros events f Hin Hp.
    pose proof (GenerateFacts_emitted events) as Hall.
    rewrite Forall_forall in Hall. specialize (Hall f Hin).
    unfold emitted in Hall. rewrite Hp in Hall.
    unfold emittedPredicates in Hall.
    repeat (apply elem_of_cons in Hall as [Hall | Hall]; [discriminate |]).
    inversion Hall. }
  split; [exact Hno |].
  split; [reflexivity |].
  split.
  - vm_compute. repeat (first [apply list_elem_of_here | apply list_elem_of_further]).
  - intros Hin. now apply (Hno _ _ Hin).
Qed.

(** ** C2: the concurrency sweep *)

(** *** The in-place loops compute the recursive sort *)
Section ExchangeSortLoops.
Context {A : Type} (swap : A -> A -> bool).

Lemma compareExchange_at (pre : list A) (x : A) (done : list A) (y : A)
    (todo : list A) :
  compareExchange swap (length pre) (length pre + S (length done))
    (pre ++ x :: done ++ y :: todo)
  = if swap x y then pre ++ y :: done ++ x :: todo
    else pre ++ x :: done ++ y :: todo.
Proof.
  unfold compareExchange.
  rewrite (list_lookup_middle pre _ x (length pre) eq_refl).
  rewrite lookup_app_r by lia.
  replace (length pre + S (length done) - length pre) with (S (length done))
    by lia.
  change (x :: done ++ y :: todo) with ((x :: done) ++ y :: todo).
  rewrite (list_lookup_middle (x :: done) todo y (S (length done)) eq_refl).
  destruct (swap x y); [| reflexivity].
  rewrite insert_app_r.
  replace (S (length done)) with (length (x :: done) + 0) by (simpl; lia).
  rewrite insert_app_r. simpl.
  replace (length pre) with (length pre + 0) at 1 by lia.
  rewrite insert_app_r. reflexivity.
Qed.

Lemma selectLeast_length (ai : A) (rest : list A) :
  length (snd (selectLeast swap ai rest)) = length rest.
Proof.
  revert ai. induction rest as [| aj rest IH]; intros ai; simpl.
  - reflexivity.
  - destruct (swap ai aj).
    + specialize (IH aj). destruct (selectLeast swap aj rest) as [m r].
      simpl in *. now rewrite IH.
    + specialize (IH ai). destruct (selectLeast swap ai rest) as [m r].
      simpl in *. now rewrite IH.
Qed.

Lemma innerLoop_from (todo : list A) (pre : list A) (x : A) (done : list A) :
  fold_left (fun a j => compareExchange swap (length pre) j a)
    (seq (length pre + S (length done)) (length todo))
    (pre ++ x :: done ++ todo)
  = pre ++ fst (selectLeast swap x todo) :: done
      ++ snd (selectLeast swap x todo).
Proof.
  revert x done. induction todo as [| y todo IH]; intros x done.
  - reflexivity.
  - cbn [length seq fold_left selectLeast]. rewrite compareExchange_at.
    destruct (swap x y).
    + specialize (IH y (done ++ [x])).
      rewrite length_app in IH. simpl in IH.
      replace (length pre + S (length done + 1))
        with (S (length pre + S (length done))) in IH by lia.
      rewrite <- !app_assoc in IH. simpl in IH. rewrite IH.
      destruct (selectLeast swap y todo) as [m r]. reflexivity.
    + specialize (IH x (done ++ [y])).
      rewrite length_app in IH. simpl in IH.
      replace (length pre + S (length done + 1))
        with (S (length pre + S (length done))) in IH by lia.
      rewrite <- !app_assoc in IH. simpl in IH. rewrite IH.
      destruct (selectLeast swap x todo) as [m r]. reflexivity.
Qed.

Lemma innerLoop_selectLeast (pre : list A) (x : A) (rest : list A) :
  innerLoop swap (length pre) (pre ++ x :: rest)
  = pre ++ fst (selectLeast swap x rest) :: snd (selectLeast swap x rest).
Proof.
  unfold innerLoop. rewrite length_app. simpl.
  replace (length pre + S (length rest) - S (length pre)) with (length rest)
    by lia.
  pose proof (innerLoop_from rest pre x []) as H. simpl in H.
  replace (length pre + 1) with (S (length pre)) in H by lia. exact H.
Qed.

Lemma exchangeSort_from (n : nat) (pre rest : list A) :
  n <= length rest - 1 ->
  fold_left (fun a i => innerLoop swap i a) (seq (length pre) n) (pre ++ rest)
  = pre ++ exchangeSortRec swap n rest.
Proof.
  revert pre rest. induction n as [| n IH]; intros pre rest Hn.
  - reflexivity.
  - destruct rest as [| x rest]; [simpl in Hn; lia |].
    cbn [seq fold_left exchangeSortRec]. rewrite innerLoop_selectLeast.
    pose proof (selectLeast_length x rest) as Hl.
    destruct (selectLeast swap x rest) as [m r]. simpl in *.
    specialize (IH (pre ++ [m]) r). rewrite length_app in IH. simpl in IH.
    replace (length pre + 1) with (S (length pre)) in IH by lia.
    rewrite <- !app_assoc in IH. simpl in IH. apply IH. lia.
Qed.

Lemma exchangeSort_rec (a : list A) :
  exchangeSort swap a = exchangeSortRec swap (length a - 1) a.
Proof. apply (exchangeSort_from (length a - 1) [] a). lia. Qed.

End ExchangeSortLoops.

(** *** The exchange sort sorts, for a swap test that is a strict weak
    order read backwards ([swap a b] says that [b] goes before [a]). *)
Section ExchangeSortCorrect.
Context {A : Type} (swap : A -> A -> bool).
Hypothesis swap_irrefl : forall a, swap a a = false.
Hypothesis swap_trans :
  forall a b c, swap a b = true -> swap c a = true -> swap c b = true.
Hypothesis swap_neg_trans :
  forall a b c, swap c b = true -> swap c a = true \/ swap a b = true.

Lemma selectLeast_perm (ai : A) (rest : list A) :
  Permutation (ai :: rest)
    (fst (selectLeast swap ai rest) :: snd (selectLeast swap ai rest)).
Proof.
  revert ai. induction rest as [| aj rest IH]; intros ai; simpl.
  - reflexivity.
  - destruct (swap ai aj).
    + specialize (IH aj). destruct (selectLeast swap aj rest) as [m r].
      simpl in *.
      etransitivity; [apply perm_skip, IH | apply perm_swap].
    + specialize (IH ai). destruct (selectLeast swap ai rest) as [m r].
      simpl in *.
      etransitivity; [apply perm_swap |].
      etransitivity; [apply perm_skip, IH | apply perm_swap].
Qed.

(** After the inner loop, position [i] holds a least element. *)
Lemma selectLeast_least (ai : A) (rest : list A) :
  swap (fst (selectLeast swap ai rest)) ai = false
  /\ Forall (fun x => swap (fst (selectLeast swap ai rest)) x = false)
       (snd (selectLeast swap ai rest)).
Proof.
  revert ai. induction rest as [| aj rest IH]; intros ai; simpl.
  - split; [apply swap_irrefl | constructor].
  - destruct (swap ai aj) eqn:E.
    + destruct (IH aj) as [Hm Hall].
      destruct (selectLeast swap aj rest) as [m r]. simpl in *.
      assert (Hma : swap m ai = false).
      { destruct (swap m ai) eqn:E'; [| reflexivity].
        rewrite (swap_trans ai aj m E E') in Hm. discriminate. }
      split; [exact Hma | constructor; assumption].
    + destruct (IH ai) as [Hm Hall].
      destruct (selectLeast swap ai rest) as [m r]. simpl in *.
      split; [exact Hm |]. constructor; [| exact Hall].
      destruct (swap m aj) eqn:E'; [| reflexivity].
      destruct (swap_neg_trans ai aj m E'); congruence.
Qed.

Lemma exchangeSortRec_perm (n : nat) (a : list A) :
  Permutation a (exchangeSortRec swap n a).
Proof.
  revert a. induction n as [| n IH]; intros a; simpl; [reflexivity |].
  destruct a as [| ai rest]; [reflexivity |].
  pose proof (selectLeast_perm ai rest) as Hp.
  destruct (selectLeast swap ai rest) as [m r]. simpl in *.
  rewrite Hp. apply perm_skip. apply IH.
Qed.

Lemma exchangeSortRec_sorted (n : nat) (a : list A) :
  length a <= S n ->
  StronglySorted (fun x y => swap x y = false) (exchangeSortRec swap n a).
Proof.
  revert a. induction n as [| n IH]; intros a Hlen; simpl.
  - destruct a as [| x [| y a]]; simpl in *; try lia.
    + constructor.
    + constructor; constructor.
  - destruct a as [| ai rest]; [constructor |].
    pose proof (selectLeast_least ai rest) as [_ Hall].
    pose proof (selectLeast_length swap ai rest) as Hl.
    destruct (selectLeast swap ai rest) as [m r]. simpl in *.
    constructor.
    + apply IH. lia.
    + eapply Permutation_Forall; [apply exchangeSortRec_perm | exact Hall].
Qed.

Lemma exchangeSort_perm (a : list A) : Permutation a (exchangeSort swap a).
Proof. rewrite exchangeSort_rec. apply exchangeSortRec_perm. Qed.

Lemma exchangeSort_sorted (a : list A) :
  StronglySorted (fun x y => swap x y = false) (exchangeSort swap a).
Proof. rewrite exchangeSort_rec. apply exchangeSortRec_sorted. lia. Qed.

End ExchangeSortCorrect.

(** *** The order on time points *)

Lemma swapPoints_true (pi pj : timePoint) :
  swapPoints pi pj = true <->
  (time pj < time pi)%Q
  \/ ((time pi == time pj)%Q /\ isStart pi = false /\ isStart pj = true).
Proof.
  unfold swapPoints. rewrite orb_true_iff, !andb_true_iff, negb_true_iff.
  rewrite Qlt_bool_iff, Qeq_bool_iff. tauto.
Qed.

Lemma swapPoints_irrefl (a : timePoint) : swapPoints a a = false.
Proof.
  destruct (swapPoints a a) eqn:E; [| reflexivity].
  apply swapPoints_true in E. destruct E as [E | (_ & E1 & E2)].
  - lra.
  - congruence.
Qed.

Lemma swapPoints_trans (a b c : timePoint) :
  swapPoints a b = true -> swapPoints c a = true -> swapPoints c b = true.
Proof.
  rewrite !swapPoints_true.
  intros [H1 | (H1 & H2 & H3)] [H4 | (H4 & H5 & H6)];
    first [left; lra | congruence].
Qed.

Lemma swapPoints_neg_trans (a b c : timePoint) :
  swapPoints c b = true -> swapPoints c a = true \/ swapPoints a b = true.
Proof.
  rewrite !swapPoints_true. intros [H1 | (H1 & H2 & H3)].
  - destruct (Qlt_le_dec (time a) (time c)) as [Hac | Hca].
    + left. now left.
    + right. left. lra.
  - destruct (Qlt_le_dec (time a) (time c)) as [Hac | Hca]; [left; now left |].
    destruct (Qlt_le_dec (time b) (time a)) as [Hba | Hab];
      [right; now left |].
    assert (Heq : (time c == time a)%Q) by lra.
    destruct (isStart a) eqn:Ea.
    + left. right. repeat split; first [assumption | reflexivity].
    + right. right. repeat split; first [lra | assumption | reflexivity].
Qed.

(** *** Counting *)

Lemma countIf_app {A} (f : A -> bool) (l1 l2 : list A) :
  countIf f (l1 ++ l2) = (countIf f l1 + countIf f l2)%Z.
Proof. induction l1 as [| x l1 IH]; simpl; [reflexivity | rewrite IH; lia]. Qed.

Lemma countIf_nonneg {A} (f : A -> bool) (l : list A) : (0 <= countIf f l)%Z.
Proof. induction l as [| x l IH]; simpl; [lia | destruct (f x); lia]. Qed.

Lemma countIf_perm {A} (f : A -> bool) (l1 l2 : list A) :
  Permutation l1 l2 -> countIf f l1 = countIf f l2.
Proof. induction 1; simpl; lia. Qed.

Lemma countIf_none {A} (f : A -> bool) (l : list A) :
  Forall (fun x => f x = false) l -> countIf f l = 0%Z.
Proof. induction 1 as [| x l Hx _ IH]; simpl; [reflexivity | rewrite Hx, IH; lia]. Qed.

Lemma delta_app (l1 l2 : list timePoint) :
  delta (l1 ++ l2) = (delta l1 + delta l2)%Z.
Proof. induction l1 as [| x l1 IH]; simpl; [reflexivity | rewrite IH; lia]. Qed.

(** An event with a non-negative duration runs at [t] iff it has started by
    [t] and has not ended before [t]. *)
Lemma concurrency_by_points (t : Q) (events : list TraceEvent) :
  Forall (fun e => (0 <= Dur e)%Q) events ->
  concurrencyAt runningClosed t events
  = (countIf (startedBy t) (makePoints events)
     - countIf (endedBefore t) (makePoints events))%Z.
Proof.
  unfold concurrencyAt.
  induction 1 as [| e events He _ IH]; simpl; [reflexivity |].
  rewrite IH. unfold runningClosed, startedBy, endedBefore. simpl.
  destruct (Qle_bool (Ts e) t) eqn:E1;
    destruct (Qle_bool t (Ts e + Dur e)) eqn:E2;
    destruct (Qlt_bool (Ts e + Dur e) t) eqn:E3; simpl; try lia;
    exfalso; qbool; lra.
Qed.

(** *** The sweep *)

Lemma sweepStep_inv (mx cur : Z) (p : timePoint) :
  (cur <= mx)%Z ->
  (mx <= fst (sweepStep (mx, cur) p))%Z
  /\ (snd (sweepStep (mx, cur) p) <= fst (sweepStep (mx, cur) p))%Z
  /\ snd (sweepStep (mx, cur) p) = (cur + pointDelta p)%Z.
Proof.
  intros Hle. unfold sweepStep, pointDelta.
  destruct (isStart p); simpl.
  - destruct (mx <? cur + 1)%Z eqn:E; simpl; lia.
  - lia.
Qed.

Lemma sweep_fold_inv (points : list timePoint) (mx cur : Z) :
  (cur <= mx)%Z ->
  (mx <= fst (fold_left sweepStep points (mx, cur)))%Z
  /\ (snd (fold_left sweepStep points (mx, cur))
      <= fst (fold_left sweepStep points (mx, cur)))%Z
  /\ snd (fold_left sweepStep points (mx, cur)) = (cur + delta points)%Z.
Proof.
  revert mx cur.
  induction points as [| p points IH]; intros mx cur Hle;
    cbn [fold_left delta].
  - simpl. lia.
  - destruct (sweepStep_inv mx cur p Hle) as (H1 & H2 & H3).
    destruct (sweepStep (mx, cur) p) as [mx1 cur1]. cbn [fst snd] in *.
    destruct (IH mx1 cur1 H2) as (H4 & H5 & H6). subst cur1.
    repeat split; lia.
Qed.

(** The maximum is at least the running count after every prefix. *)
Lemma sweep_lower (l1 l2 : list timePoint) :
  (delta l1 <= sweep (l1 ++ l2))%Z.
Proof.
  unfold sweep. rewrite fold_left_app.
  destruct (sweep_fold_inv l1 0 0 ltac:(lia)) as (H1 & H2 & H3).
  destruct (fold_left sweepStep l1 (0%Z, 0%Z)) as [mx1 cur1]. simpl in *.
  destruct (sweep_fold_inv l2 mx1 cur1 H2) as (H4 & _). lia.
Qed.

Lemma sweepStep_start (mx cur : Z) (p : timePoint) :
  isStart p = true ->
  sweepStep (mx, cur) p
  = if (mx <? cur + 1)%Z then ((cur + 1)%Z, (cur + 1)%Z)
    else (mx, (cur + 1)%Z).
Proof. intros Hp. unfold sweepStep. now rewrite Hp. Qed.

Lemma sweepStep_end (mx cur : Z) (p : timePoint) :
  isStart p = false -> sweepStep (mx, cur) p = (mx, (cur - 1)%Z).
Proof. intros Hp. unfold sweepStep. now rewrite Hp. Qed.

(** The maximum is the initial one or the running count after a start. *)
Lemma sweep_fold_upper (points : list timePoint) (mx cur : Z) :
  fst (fold_left sweepStep points (mx, cur)) = mx
  \/ exists l1 p l2,
       points = l1 ++ p :: l2 /\ isStart p = true
       /\ fst (fold_left sweepStep points (mx, cur))
          = (cur + delta (l1 ++ [p]))%Z.
Proof.
  revert mx cur.
  induction points as [| p points IH]; intros mx cur; cbn [fold_left].
  - now left.
  - destruct (isStart p) eqn:Ep.
    + rewrite (sweepStep_start mx cur p Ep).
      destruct (mx <? cur + 1)%Z eqn:E.
      * destruct (IH (cur + 1)%Z (cur + 1)%Z)
          as [H | (l1 & q & l2 & H1 & H2 & H3)].
        -- right. exists [], p, points. rewrite H. simpl. unfold pointDelta.
           rewrite Ep. repeat split; lia.
        -- right. exists (p :: l1), q, l2. subst points.
           repeat split; [assumption |]. rewrite H3. cbn [app delta].
           unfold pointDelta. rewrite Ep. lia.
      * destruct (IH mx (cur + 1)%Z) as [H | (l1 & q & l2 & H1 & H2 & H3)].
        -- now left.
        -- right. exists (p :: l1), q, l2. subst points.
           repeat split; [assumption |]. rewrite H3. cbn [app delta].
           unfold pointDelta. rewrite Ep. lia.
    + rewrite (sweepStep_end mx cur p Ep).
      destruct (IH mx (cur - 1)%Z) as [H | (l1 & q & l2 & H1 & H2 & H3)].
      * now left.
      * right. exists (p :: l1), q, l2. subst points.
        repeat split; [assumption |]. rewrite H3. cbn [app delta].
        unfold pointDelta. rewrite Ep. lia.
Qed.

(** *** Sorted points *)

Lemma swapPoints_false (x y : timePoint) :
  swapPoints x y = false ->
  (time x <= time y)%Q
  /\ ((time x == time y)%Q -> isStart x = false -> isStart y = true -> False).
Proof.
  intros H. split.
  - destruct (Qlt_le_dec (time y) (time x)) as [Hlt | Hle]; [| exact Hle].
    assert (swapPoints x y = true) by (apply swapPoints_true; now left).
    congruence.
  - intros Heq Hx Hy.
    assert (swapPoints x y = true)
      by (apply swapPoints_true; right; repeat split; assumption).
    congruence.
Qed.

Lemma counted_true (t : Q) (x : timePoint) :
  counted t x = true <->
  (isStart x = true /\ (time x <= t)%Q) \/ (isStart x = false /\ (time x < t)%Q).
Proof.
  unfold counted. destruct (isStart x).
  - rewrite Qle_bool_iff. intuition congruence.
  - rewrite Qlt_bool_iff. intuition congruence.
Qed.

Lemma counted_before_start (x p : timePoint) :
  isStart p = true -> swapPoints x p = false -> counted (time p) x = true.
Proof.
  intros Hp Hs. apply swapPoints_false in Hs as [Hle Hne].
  apply counted_true. destruct (isStart x) eqn:Ex.
  - left. now split.
  - right. split; [reflexivity |].
    destruct (Qlt_le_dec (time x) (time p)) as [Hlt | Hge]; [exact Hlt |].
    exfalso. apply Hne; [lra | reflexivity | exact Hp].
Qed.

Lemma not_ended_after_start (p y : timePoint) :
  isStart p = true -> swapPoints p y = false -> endedBefore (time p) y = false.
Proof.
  intros Hp Hs. apply swapPoints_false in Hs as [Hle _].
  unfold endedBefore. destruct (isStart y); [reflexivity |]. simpl.
  qbool. exact Hle.
Qed.

Lemma counted_downward (t : Q) (x y : timePoint) :
  swapPoints x y = false -> counted t y = true -> counted t x = true.
Proof.
  intros Hs Hy. apply swapPoints_false in Hs as [Hle Hne].
  apply counted_true in Hy. apply counted_true.
  destruct (isStart x) eqn:Ex.
  - left. split; [reflexivity |]. destruct Hy as [[_ H] | [_ H]]; lra.
  - right. split; [reflexivity |]. destruct Hy as [[Hy H] | [_ H]]; [| lra].
    destruct (Qlt_le_dec (time x) (time y)) as [Hlt | Hge]; [lra |].
    exfalso. apply Hne; [lra | reflexivity | exact Hy].
Qed.

Lemma uncounted_zero (t : Q) (x : timePoint) :
  counted t x = false -> startedBy t x = false /\ endedBefore t x = false.
Proof.
  unfold counted, startedBy, endedBefore.
  destruct (isStart x); simpl; intros ->; split; reflexivity.
Qed.

Lemma counted_delta (t : Q) (l : list timePoint) :
  Forall (fun x => counted t x = true) l ->
  delta l = (countIf (startedBy t) l - countIf (endedBefore t) l)%Z.
Proof.
  induction 1 as [| x l Hx _ IH]; simpl; [reflexivity |].
  rewrite IH. unfold pointDelta, startedBy, endedBefore.
  unfold counted in Hx. destruct (isStart x); simpl; rewrite Hx; lia.
Qed.

Lemma sorted_split (l1 : list timePoint) (p : timePoint)
    (l2 : list timePoint) :
  pointsSorted (l1 ++ p :: l2) ->
  Forall (fun x => swapPoints x p = false) l1
  /\ Forall (fun y => swapPoints p y = false) l2.
Proof.
  unfold pointsSorted. induction l1 as [| x l1 IH]; simpl; intros Hs.
  - inversion Hs; subst. split; [constructor | assumption].
  - inversion Hs as [| ? ? Hs' Hall]; subst.
    destruct (IH Hs') as [H1 H2]. split; [| exact H2].
    constructor; [| exact H1].
    rewrite Forall_app in Hall. destruct Hall as [_ Hall].
    now inversion Hall.
Qed.

(** In sorted points, the points counted at [t] form a prefix. *)
Lemma sorted_counted_prefix (t : Q) (points : list timePoint) :
  pointsSorted points ->
  exists front back,
    points = front ++ back
    /\ Forall (fun x => counted t x = true) front
    /\ Forall (fun x => counted t x = false) back.
Proof.
  unfold pointsSorted. induction 1 as [| x l Hs IH Hall].
  - exists [], []. repeat split; constructor.
  - destruct (counted t x) eqn:Ex.
    + destruct IH as (front & back & -> & Hf & Hb).
      exists (x :: front), back. repeat split; [constructor |]; assumption.
    + exists [], (x :: l). repeat split; [constructor |].
      constructor; [exact Ex |].
      eapply Forall_impl; [exact Hall |]. intros y Hxy. simpl in Hxy.
      destruct (counted t y) eqn:Ey; [| reflexivity].
      rewrite (counted_downward t x y Hxy Ey) in Ex. discriminate.
Qed.

Lemma sorted_sweep_lower (t : Q) (points : list timePoint) :
  pointsSorted points ->
  (countIf (startedBy t) points - countIf (endedBefore t) points
   <= sweep points)%Z.
Proof.
  intros Hs.
  destruct (sorted_counted_prefix t points Hs) as (front & back & -> & Hf & Hb).
  rewrite !countIf_app.
  rewrite (countIf_none (startedBy t) back), (countIf_none (endedBefore t) back).
  - rewrite !Z.add_0_r, <- (counted_delta t front Hf). apply sweep_lower.
  - eapply Forall_impl; [exact Hb |]. intros x Hx. now apply uncounted_zero.
  - eapply Forall_impl; [exact Hb |]. intros x Hx. now apply uncounted_zero.
Qed.

Lemma sorted_sweep_upper (points : list timePoint) :
  pointsSorted points ->
  sweep points = 0%Z
  \/ exists t,
       (sweep points
        <= countIf (startedBy t) points - countIf (endedBefore t) points)%Z.
Proof.
  intros Hs. unfold sweep.
  destruct (sweep_fold_upper points 0 0) as [H | (l1 & p & l2 & -> & Hp & H)];
    [now left |].
  right. exists (time p). rewrite H, Z.add_0_l.
  destruct (sorted_split l1 p l2 Hs) as [H1 H2].
  assert (Hc : Forall (fun x => counted (time p) x = true) (l1 ++ [p])).
  { apply Forall_app. split.
    - eapply Forall_impl; [exact H1 |]. intros x Hx.
      now apply counted_before_start.
    - constructor; [| constructor].
      apply counted_true. left. split; [exact Hp | lra]. }
  rewrite (counted_delta (time p) _ Hc).
  replace (l1 ++ p :: l2) with ((l1 ++ [p]) ++ l2)
    by (now rewrite <- app_assoc).
  rewrite !(countIf_app _ (l1 ++ [p]) l2).
  rewrite (countIf_none (endedBefore (time p)) l2).
  - pose proof (countIf_nonneg (startedBy (time p)) l2). lia.
  - eapply Forall_impl; [exact H2 |]. intros y Hy.
    now apply not_ended_after_start.
Qed.

Lemma concurrencyAt_nonneg (running : Q -> TraceEvent -> bool) (t : Q)
    (events : list TraceEvent) :
  (0 <= concurrencyAt running t events)%Z.
Proof. apply countIf_nonneg. Qed.

(** C2 (amended): for every sequence of trace events with non-negative
    durations, the value of [max_concurrency] is the maximum, over all
    times [t], of the number of events with [start <= t <= start+dur]
    (closed intervals: starts are swept before ends at equal time, so an
    event ending exactly when another starts does overlap it). *)
Theorem computeMaxConcurrency_closed_intervals (events : list TraceEvent) :
  Forall (fun e => (0 <= Dur e)%Q) events ->
  isMaxOverTime (fun t => concurrencyAt runningClosed t events)
    (computeMaxConcurrency events)
  /\ mkFact "max_concurrency" [VInt (computeMaxConcurrency events)]
       ∈ GenerateFacts events.
Proof.
  intros Hdur. split.
  2:{ unfold GenerateFacts. rewrite !elem_of_app.
      do 7 right. left. apply list_elem_of_here. }
  unfold isMaxOverTime, computeMaxConcurrency.
  destruct events as [| e events].
  { split; [intros t; reflexivity | exists 0%Q; reflexivity]. }
  set (evs := e :: events) in *.
  set (sorted := exchangeSort swapPoints (makePoints evs)).
  assert (Hperm : Permutation (makePoints evs) sorted)
    by apply exchangeSort_perm.
  assert (Hs : pointsSorted sorted).
  { apply exchangeSort_sorted.
    - apply swapPoints_irrefl.
    - apply swapPoints_trans.
    - apply swapPoints_neg_trans. }
  assert (Hconc : forall t,
            concurrencyAt runningClosed t evs
            = (countIf (startedBy t) sorted
               - countIf (endedBefore t) sorted)%Z).
  { intros t. rewrite (concurrency_by_points t evs Hdur).
    now rewrite (countIf_perm _ _ _ Hperm), (countIf_perm _ _ _ Hperm). }
  assert (Hle : forall t, (concurrencyAt runningClosed t evs <= sweep sorted)%Z).
  { intros t. rewrite Hconc. now apply sorted_sweep_lower. }
  split; [exact Hle |].
  destruct (sorted_sweep_upper sorted Hs) as [H0 | [t Ht]].
  - exists 0%Q. rewrite H0.
    pose proof (Hle 0%Q) as H1. rewrite H0 in H1.
    pose proof (concurrencyAt_nonneg runningClosed 0%Q evs). lia.
  - exists t. rewrite <- Hconc in Ht. specialize (Hle t). lia.
Qed.

Lemma computeMaxConcurrency_closed_intervals_witness :
  isMaxOverTime (fun t => concurrencyAt runningClosed t overlapEvents)
    (computeMaxConcurrency overlapEvents).
Proof.
  apply (computeMaxConcurrency_closed_intervals overlapEvents).
  repeat constructor; discriminate.
Defined.

(** C2 as stated fails: of two events that touch at time 10 at most one
    runs at any time on half-open intervals, and [max_concurrency] is 2. *)
Lemma computeMaxConcurrency_touching :
  computeMaxConcurrency touchingEvents = 2%Z
  /\ isMaxOverTime (fun t => concurrencyAt runningHalfOpen t touchingEvents)
       1%Z.
Proof.
  split; [reflexivity |]. split.
  - intros t. unfold concurrencyAt, touchingEvents, runningHalfOpen. simpl.
    destruct (Qle_bool 0 t) eqn:E1; destruct (Qlt_bool t (0 + 10)) eqn:E2;
      destruct (Qle_bool 10 t) eqn:E3; destruct (Qlt_bool t (10 + 5)) eqn:E4;
      simpl; try lia; exfalso; qbool; lra.
  - exists 0%Q. reflexivity.
Qed.

(** ** The engine *)

Section EngineFacts.
Context `{GoRuntime}.

(** *** No clause turns an expression error into an engine error *)

Lemma compareValues_known (l r : Value) (op : ComparisonOp) :
  (forall s, op <> CmpOther s) -> isErr (compareValues l r op) = false.
Proof.
  intros Hop. unfold compareValues.
  destruct (toFloat64NoErr l) as [ln lok], (toFloat64NoErr r) as [rn rok].
  destruct op; try (destruct (lok && rok); reflexivity).
  now destruct (Hop s).
Qed.

Lemma evaluateComparison_noErr (l r : Term) (op : ComparisonOp) (b : Bindings) :
  (forall s, op <> CmpOther s) -> isErr (evaluateComparison l op r b) = false.
Proof.
  intros Hop. unfold evaluateComparison.
  destruct (resolveTerm l b) as [lv | |]; try reflexivity.
  destruct (resolveTerm r b) as [rv | |]; try reflexivity.
  pose proof (compareValues_known lv rv op Hop) as Hc.
  destruct (compareValues lv rv op) as [[|] | |]; simpl in *;
    congruence.
Qed.

Lemma evaluateAssignment_noErr (e : Engine) (v : string) (expr : Expression)
    (b : Bindings) :
  isErr (evaluateAssignment e v expr b) = false.
Proof.
  unfold evaluateAssignment.
  destruct (evaluateExpression e expr b); reflexivity.
Qed.

Lemma extendAll_noErr (ec : Bindings -> Outcome (list Bindings))
    (bs : list Bindings) :
  (forall b, isErr (ec b) = false) -> isErr (extendAll ec bs) = false.
Proof.
  intros Hec. induction bs as [| b bs IH]; simpl; [reflexivity |].
  specialize (Hec b). destruct (ec b) as [ext | |]; simpl in *;
    try congruence.
  destruct (extendAll ec bs); simpl in *; congruence.
Qed.

Lemma evaluateBodyWith_noErr
    (ec : Clause -> Bindings -> Outcome (list Bindings))
    (clauses : list Clause) (bs : list Bindings) :
  Forall (fun c => forall b, isErr (ec c b) = false) clauses ->
  isErr (evaluateBodyWith ec clauses bs) = false.
Proof.
  intros Hall. revert bs.
  induction Hall as [| c clauses Hc _ IH]; intros bs; simpl; [reflexivity |].
  pose proof (extendAll_noErr (ec c) bs Hc) as He.
  destruct (extendAll (ec c) bs) as [nb | |]; simpl in *; try congruence.
  destruct (Nat.eqb (length nb) 0); [reflexivity | apply IH].
Qed.

Lemma evaluateClause_noErr (e : Engine) (c : Clause) :
  comparisonsKnown c = true ->
  forall b, isErr (evaluateClause e c b) = false.
Proof.
  induction c as [a | l op r | v ex | op v body into IH | a]
    using Clause_nested_ind; intros Hk b; simpl.
  - reflexivity.
  - apply evaluateComparison_noErr. intros s ->. discriminate.
  - apply evaluateAssignment_noErr.
  - simpl in Hk. rewrite forallb_forall in Hk.
    assert (Hb : Forall (fun c => forall b, isErr (evaluateClause e c b) = false)
                   body).
    { rewrite Forall_forall in IH |- *. intros c Hin. apply IH; [exact Hin |].
      apply Hk. now apply list_elem_of_In. }
    pose proof (evaluateBodyWith_noErr (evaluateClause e) body [Clone b] Hb)
      as He.
    destruct (evaluateBodyWith (evaluateClause e) body [Clone b])
      as [rows | |]; simpl in *; try congruence.
    destruct (reduceValues op (collectValues op v rows)); reflexivity.
  - unfold evaluateNegation, evaluateAtom. simpl.
    destruct (Nat.eqb _ _); reflexivity.
Qed.

Lemma evaluateRule_noErr (e : Engine) (rule : Rule) :
  forallb comparisonsKnown (Body rule) = true ->
  isErr (evaluateRule e rule) = false.
Proof.
  intros Hk. unfold evaluateRule, evaluateBody.
  assert (Hb : Forall (fun c => forall b, isErr (evaluateClause e c b) = false)
                 (Body rule)).
  { rewrite Forall_forall. intros c Hin. apply evaluateClause_noErr.
    rewrite forallb_forall in Hk. apply Hk. now apply list_elem_of_In. }
  pose proof (evaluateBodyWith_noErr (evaluateClause e) (Body rule) [∅] Hb)
    as He.
  destruct (evaluateBodyWith (evaluateClause e) (Body rule) [∅]);
    simpl in *; congruence.
Qed.

Lemma addDerived_rules (derived : list Fact) (e : Engine) (n : nat) :
  rules (fst (addDerived derived e n)) = rules e.
Proof.
  revert e n. induction derived as [| f derived IH]; intros e n; simpl;
    [reflexivity |].
  destruct (factExists e f); simpl; [apply IH |].
  rewrite IH. reflexivity.
Qed.

Lemma evaluateRules_noErr (rs : list Rule) (e : Engine) (n : nat) :
  rulesKnown rs ->
  isErr (snd (evaluateRules rs e n)) = false
  /\ rules (fst (evaluateRules rs e n)) = rules e.
Proof.
  intros Hk. revert e n.
  induction Hk as [| rule rs Hr _ IH]; intros e n; simpl;
    [split; reflexivity |].
  pose proof (evaluateRule_noErr e rule Hr) as He.
  destruct (evaluateRule e rule) as [derived | |]; simpl in *;
    try congruence; [| split; reflexivity].
  pose proof (addDerived_rules derived e n) as Hrules.
  destruct (addDerived derived e n) as [e1 n1]. simpl in Hrules.
  destruct (IH e1 n1) as [H1 H2]. split; [exact H1 | congruence].
Qed.

Lemma Evaluate_noErr (fuel : nat) (e : Engine) :
  rulesKnown (rules e) ->
  forall e' m, Evaluate fuel e <> Some (e', Err m).
Proof.
  revert e. induction fuel as [| fuel IH]; intros e Hk e' m; simpl;
    [discriminate |].
  destruct (evaluateRules_noErr (rules e) e 0 Hk) as [H1 H2].
  destruct (evaluateRules (rules e) e 0) as [e1 [n | m1 | m1]];
    simpl in *; try discriminate.
  - destruct (Nat.eqb n 0); [discriminate |].
    apply IH. now rewrite H2.
Qed.

(** *** A pass that adds nothing changes nothing *)

Lemma addDerived_count (derived : list Fact) (e : Engine) (n : nat) :
  n <= snd (addDerived derived e n)
  /\ (snd (addDerived derived e n) = n -> fst (addDerived derived e n) = e).
Proof.
  revert e n. induction derived as [| f derived IH]; intros e n; simpl.
  - split; [lia | reflexivity].
  - destruct (factExists e f); simpl.
    + apply IH.
    + destruct (IH (AddFact f e) (S n)) as [H1 H2]. split; [lia |].
      intros Heq. lia.
Qed.

Lemma evaluateRules_count (rs : list Rule) (e : Engine) (n : nat)
    (e' : Engine) (n' : nat) :
  evaluateRules rs e n = (e', Ok n') -> n <= n' /\ (n' = n -> e' = e).
Proof.
  revert e n. induction rs as [| rule rs IH]; intros e n; simpl.
  - intros Heq. inversion Heq; subst. split; [lia | reflexivity].
  - destruct (evaluateRule e rule) as [derived | |]; try discriminate.
    destruct (addDerived_count derived e n) as [H1 H2].
    destruct (addDerived derived e n) as [e1 n1]. simpl in *.
    intros Heq. destruct (IH e1 n1 Heq) as [H3 H4].
    split; [lia |]. intros ->.
    assert (n1 = n) by lia. subst n1.
    rewrite H4 by reflexivity. now apply H2.
Qed.

Lemma Evaluate_fixpoint (fuel : nat) (e e' : Engine) :
  Evaluate fuel e = Some (e', Ok tt) ->
  evaluateRules (rules e') e' 0 = (e', Ok 0).
Proof.
  revert e. induction fuel as [| fuel IH]; intros e; simpl; [discriminate |].
  destruct (evaluateRules (rules e) e 0) as [e1 [n | m | m]] eqn:E;
    try discriminate.
  destruct (Nat.eqb n 0) eqn:En.
  - intros Heq. inversion Heq; subst e1. apply Nat.eqb_eq in En. subst n.
    destruct (evaluateRules_count _ _ _ _ _ E) as [_ He].
    rewrite He in E by reflexivity. rewrite He by reflexivity. exact E.
  - apply IH.
Qed.

End EngineFacts.

(** ** C4: idempotence of [Evaluate] *)

(** C4: if [Evaluate] has returned successfully with the engine [e'], then
    running it again on [e'] (whatever the number of iterations allowed)
    succeeds at once and leaves the engine as it is: the same facts for
    every predicate and the same fact count. *)
Theorem Evaluate_idempotent `{GoRuntime} (fuel : nat) (e e' : Engine) :
  Evaluate fuel e = Some (e', Ok tt) ->
  forall fuel' : nat,
    Evaluate (S fuel') e' = Some (e', Ok tt)
    /\ (forall e'' : Engine,
          Evaluate (S fuel') e' = Some (e'', Ok tt) ->
          (forall p, GetFacts e'' p = GetFacts e' p)
          /\ FactCount e'' = FactCount e').
Proof.
  intros Hev fuel'.
  assert (Hrun : Evaluate (S fuel') e' = Some (e', Ok tt)).
  { simpl. now rewrite (Evaluate_fixpoint fuel e e' Hev). }
  split; [exact Hrun |].
  intros e'' Heq. rewrite Hrun in Heq. inversion Heq; subst.
  split; reflexivity.
Qed.

Lemma Evaluate_idempotent_witness :
  Evaluate (H := exampleRuntime) 1 copyEngineDone
  = Some (copyEngineDone, Ok tt).
Proof.
  apply (Evaluate_idempotent (H := exampleRuntime) 3 copyEngine copyEngineDone
           ltac:(vm_compute; reflexivity) 0).
Defined.

(** ** C1: division by zero inside a rule body *)

Lemma extendAll_cons (ec : Bindings -> Outcome (list Bindings))
    (b : Bindings) (bs : list Bindings) :
  extendAll ec (b :: bs)
  = obind (ec b)
      (fun extended =>
         obind (extendAll ec bs) (fun more => Ok (extended ++ more))).
Proof. reflexivity. Qed.

Lemma assignment_over_candidates `{GoRuntime} (e : Engine) (v : string)
    (expr : Expression) (bs : list Bindings) :
  (forall b, b ∈ bs -> isPanic (evaluateExpression e expr b) = false) ->
  evaluateBody e [Assignment v expr] bs
  = Ok (flat_map (assignCandidate e v expr) bs).
Proof.
  intros Hnp. unfold evaluateBody. cbn [evaluateBodyWith].
  assert (Hext : extendAll (evaluateClause e (Assignment v expr)) bs
                 = Ok (flat_map (assignCandidate e v expr) bs)).
  { induction bs as [| b bs IH]; [reflexivity |].
    rewrite extendAll_cons.
    rewrite IH by (intros b' Hb'; apply Hnp; now apply list_elem_of_further).
    specialize (Hnp b (list_elem_of_here b bs)).
    cbn [flat_map evaluateClause].
    unfold evaluateAssignment, assignCandidate, Clone.
    destruct (evaluateExpression e expr b); simpl in *;
      [reflexivity | reflexivity | discriminate]. }
  rewrite Hext. cbn [obind].
  destruct (Nat.eqb _ 0); reflexivity.
Qed.

(** C1 (amended): a division whose right operand is zero makes
    [evaluateExpression] fail; [evaluateAssignment], the only clause that
    evaluates expressions, turns that failure, like every other failure
    of the expression, into "no candidate binding" with a nil error, so
    that over a list of candidates only the failing ones are dropped; and
    [Evaluate] returns no error at all for rules whose comparison
    operators are the six the parser produces.  Division by zero is thus
    dropped like any other evaluation error and never fatal. *)
Theorem division_by_zero_drops_candidate `{GoRuntime} :
  (forall (e : Engine) (l r : Expression) (b : Bindings) (lv rv : Value)
          (x y : Q),
      evaluateExpression e l b = Ok lv ->
      evaluateExpression e r b = Ok rv ->
      toFloat64 lv = Ok x -> toFloat64 rv = Ok y -> (y == 0)%Q ->
      evaluateExpression e (BinaryExpr l OpDiv r) b = Err "division by zero")
  /\ (forall (e : Engine) (v : string) (expr : Expression) (b : Bindings)
             (m : string),
        evaluateExpression e expr b = Err m ->
        evaluateClause e (Assignment v expr) b = Ok [])
  /\ (forall (e : Engine) (v : string) (expr : Expression)
             (bs : list Bindings),
        (forall b, b ∈ bs -> isPanic (evaluateExpression e expr b) = false) ->
        evaluateBody e [Assignment v expr] bs
        = Ok (flat_map (assignCandidate e v expr) bs))
  /\ (forall (fuel : nat) (e e' : Engine) (m : string),
        rulesKnown (rules e) -> Evaluate fuel e <> Some (e', Err m)).
Proof.
  split; [| split; [| split]].
  - intros e l r b lv rv x y Hl Hr Hx Hy H0. simpl.
    rewrite Hl, Hr. simpl. rewrite Hx, Hy. simpl.
    apply Qeq_bool_iff in H0. now rewrite H0.
  - intros e v expr b m He. simpl. unfold evaluateAssignment.
    now rewrite He.
  - intros e v expr bs Hnp. now apply assignment_over_candidates.
  - intros fuel e e' m Hk. now apply Evaluate_noErr.
Qed.

Lemma division_by_zero_drops_candidate_witness :
  evaluateClause (H := exampleRuntime) divisionEngine
    (Assignment "?Y"
       (BinaryExpr (TermExpr (Var "?X")) OpDiv
          (TermExpr (Constant (VInt64 0)))))
    {[ "?X" := VInt64 1 ]}
  = Ok [].
Proof.
  destruct (division_by_zero_drops_candidate (H := exampleRuntime))
    as (Hdiv & Hdrop & _ & _).
  apply (Hdrop divisionEngine "?Y" _ _ "division by zero").
  apply (Hdiv divisionEngine (TermExpr (Var "?X"))
           (TermExpr (Constant (VInt64 0))) {[ "?X" := VInt64 1 ]}
           (VInt64 1) (VInt64 0) 1%Q 0%Q);
    reflexivity.
Defined.

(** C1 as stated fails: the rule [q(?Y) :- p(?X), ?Y = ?X / 0.] over the
    fact [p(1)] performs a division by zero, and [Evaluate] returns a nil
    error with the engine unchanged. *)
Lemma Evaluate_survives_division_by_zero :
  evaluateExpression (H := exampleRuntime) divisionEngine
    (BinaryExpr (TermExpr (Var "?X")) OpDiv (TermExpr (Constant (VInt64 0))))
    {[ "?X" := VInt64 1 ]}
  = Err "division by zero"
  /\ evaluateBody (H := exampleRuntime) divisionEngine
       [AtomClause (mkAtom "p" [Var "?X"])] [∅]
     = Ok [{[ "?X" := VInt64 1 ]}]
  /\ Evaluate (H := exampleRuntime) 1 divisionEngine
     = Some (divisionEngine, Ok tt).
Proof. repeat split; vm_compute; reflexivity. Qed.

(** ** C5: aggregate reductions *)

Lemma collectValues_count_length `{GoRuntime} (v : string)
    (rows : list Bindings) :
  length (collectValues AggCount v rows) = length rows.
Proof. induction rows as [| b rows IH]; simpl; [reflexivity | now rewrite IH]. Qed.

Lemma collectValues_same `{GoRuntime} (op : AggregateOp) (v : string)
    (rows : list Bindings) :
  op <> AggCount -> collectValues op v rows = collectValues AggSum v rows.
Proof.
  intros Hop. induction rows as [| b rows IH]; [reflexivity |].
  destruct op; try congruence; simpl in *; rewrite IH; reflexivity.
Qed.

(** What the collection loop gathers for [sum], [max], [min] and [avg]:
    the numbers bound to the aggregated variable. *)
Lemma collectValues_numbers `{GoRuntime} (op : AggregateOp) (v : string)
    (rows : list Bindings) :
  op <> AggCount -> collectValues op v rows = collectedNumbers v rows.
Proof.
  intros Hop. rewrite (collectValues_same op v rows Hop).
  induction rows as [| row rows IH]; [reflexivity |].
  cbn [collectValues collectedNumbers omap list_omap resolveTerm].
  fold (collectedNumbers v rows). rewrite IH.
  destruct (row !! v) as [[| s | n | n | q | b] |]; reflexivity.
Qed.

Lemma sumValues_fold (l : list Q) (a : Q) :
  (fold_left (fun result v => result + v) l a == a + Qsum l)%Q.
Proof.
  revert a. induction l as [| x l IH]; intros a; simpl.
  - lra.
  - rewrite IH. lra.
Qed.

Lemma sumValues_Qsum (l : list Q) : (sumValues l == Qsum l)%Q.
Proof. unfold sumValues. rewrite sumValues_fold. lra. Qed.

Lemma maxValues_fold (l : list Q) (a : Q) :
  (maxValues a l = a \/ maxValues a l ∈ l)
  /\ (a <= maxValues a l)%Q
  /\ forall x, x ∈ l -> (x <= maxValues a l)%Q.
Proof.
  unfold maxValues. revert a. induction l as [| y l IH]; intros a; simpl.
  - repeat split; [now left | lra |]. intros x Hx. inversion Hx.
  - destruct (Qlt_bool a y) eqn:E.
    + destruct (IH y) as (H1 & H2 & H3). qbool. repeat split.
      * right. destruct H1 as [-> | H1];
          [apply list_elem_of_here | now apply list_elem_of_further].
      * lra.
      * intros x Hx. apply elem_of_cons in Hx as [-> | Hx];
          [exact H2 | now apply H3].
    + destruct (IH a) as (H1 & H2 & H3). qbool. repeat split.
      * destruct H1 as [H1 | H1];
          [now left | right; now apply list_elem_of_further].
      * exact H2.
      * intros x Hx. apply elem_of_cons in Hx as [-> | Hx];
          [lra | now apply H3].
Qed.

Lemma minValues_fold (l : list Q) (a : Q) :
  (minValues a l = a \/ minValues a l ∈ l)
  /\ (minValues a l <= a)%Q
  /\ forall x, x ∈ l -> (minValues a l <= x)%Q.
Proof.
  unfold minValues. revert a. induction l as [| y l IH]; intros a; simpl.
  - repeat split; [now left | lra |]. intros x Hx. inversion Hx.
  - destruct (Qlt_bool y a) eqn:E.
    + destruct (IH y) as (H1 & H2 & H3). qbool. repeat split.
      * right. destruct H1 as [-> | H1];
          [apply list_elem_of_here | now apply list_elem_of_further].
      * lra.
      * intros x Hx. apply elem_of_cons in Hx as [-> | Hx];
          [exact H2 | now apply H3].
    + destruct (IH a) as (H1 & H2 & H3). qbool. repeat split.
      * destruct H1 as [H1 | H1];
          [now left | right; now apply list_elem_of_further].
      * exact H2.
      * intros x Hx. apply elem_of_cons in Hx as [-> | Hx];
          [lra | now apply H3].
Qed.

Lemma maxValues_greatest (a : Q) (l : list Q) :
  isGreatest (maxValues a l) (a :: l).
Proof.
  destruct (maxValues_fold l a) as (H1 & H2 & H3). split.
  - destruct H1 as [-> | H1];
      [apply list_elem_of_here | now apply list_elem_of_further].
  - intros x Hx. apply elem_of_cons in Hx as [-> | Hx];
      [exact H2 | now apply H3].
Qed.

Lemma minValues_least (a : Q) (l : list Q) : isLeast (minValues a l) (a :: l).
Proof.
  destruct (minValues_fold l a) as (H1 & H2 & H3). split.
  - destruct H1 as [-> | H1];
      [apply list_elem_of_here | now apply list_elem_of_further].
  - intros x Hx. apply elem_of_cons in Hx as [-> | Hx];
      [exact H2 | now apply H3].
Qed.

(** C5: when the nested body yields the bindings [rows] under [b], and
    [values] are the collected values (the numbers that the rows bind the
    aggregated variable to, in row order; rows without a number for it are
    passed over): [count] binds the number of rows (0 for none) and [sum]
    binds the sum of [values] (0 for none) to [into]; [max], [min] and
    [avg] yield no candidate when [values] is empty, and otherwise bind
    the greatest element, the least element and the arithmetic mean of
    [values] to [into]. *)
Theorem evaluateAggregation_reductions `{GoRuntime} (e : Engine)
    (v into : string) (body : list Clause) (b : Bindings)
    (rows : list Bindings) :
  evaluateBody e body [Clone b] = Ok rows ->
  let values := collectedNumbers v rows in
  evaluateAggregation e AggCount v body into b
    = Ok [<[into := VFloat (inject_Z (Z.of_nat (length rows)))]> b]
  /\ evaluateAggregation e AggSum v body into b
     = Ok [<[into := VFloat (sumValues values)]> b]
  /\ (sumValues values == Qsum values)%Q
  /\ (values = [] ->
      sumValues values = 0%Q
      /\ evaluateAggregation e AggMax v body into b = Ok []
      /\ evaluateAggregation e AggMin v body into b = Ok []
      /\ evaluateAggregation e AggAvg v body into b = Ok [])
  /\ (values <> [] ->
      exists mx mn avg : Q,
        evaluateAggregation e AggMax v body into b
          = Ok [<[into := VFloat mx]> b]
        /\ isGreatest mx values
        /\ evaluateAggregation e AggMin v body into b
           = Ok [<[into := VFloat mn]> b]
        /\ isLeast mn values
        /\ evaluateAggregation e AggAvg v body into b
           = Ok [<[into := VFloat avg]> b]
        /\ (avg == Qsum values / inject_Z (Z.of_nat (length values)))%Q).
Proof.
  intros Hrows values. unfold evaluateAggregation, evaluateBody in *.
  cbn [evaluateClause]. rewrite Hrows. cbn [obind].
  rewrite (collectValues_numbers AggSum), (collectValues_numbers AggMax),
    (collectValues_numbers AggMin), (collectValues_numbers AggAvg)
    by discriminate.
  fold values.
  unfold Clone. split; [| split; [| split; [| split]]].
  - cbn [reduceValues]. now rewrite collectValues_count_length.
  - reflexivity.
  - apply sumValues_Qsum.
  - intros Hnil. rewrite Hnil. repeat split.
  - intros Hne. destruct values as [| v0 rest] eqn:Ev; [congruence |].
    exists (maxValues v0 rest), (minValues v0 rest),
      (sumValues (v0 :: rest)
       / floatOfInt (Z.of_nat (length (v0 :: rest))))%Q.
    repeat split.
    + apply maxValues_greatest.
    + apply maxValues_greatest.
    + apply minValues_least.
    + apply minValues_least.
    + now rewrite sumValues_Qsum.
Qed.

(** Over the rows [d(3)], [d("n/a")], [d(1)], [d(2)]: [count] binds 4 and
    [sum] binds 6, and [max], [min] and [avg] bind the greatest, the least
    and the mean of 3, 1 and 2. *)
Lemma evaluateAggregation_reductions_witness :
  evaluateAggregation (H := exampleRuntime) mixedEngine AggCount "?V" dataBody
    "?N" ∅
  = Ok [<["?N" := VFloat 4]> ∅]
  /\ evaluateAggregation (H := exampleRuntime) mixedEngine AggSum "?V"
       dataBody "?N" ∅
     = Ok [<["?N" := VFloat 6]> ∅]
  /\ exists mx mn avg : Q,
       evaluateAggregation (H := exampleRuntime) mixedEngine AggMax "?V"
         dataBody "?N" ∅
       = Ok [<["?N" := VFloat mx]> ∅]
       /\ isGreatest mx [3; 1; 2]%Q
       /\ evaluateAggregation (H := exampleRuntime) mixedEngine AggMin "?V"
            dataBody "?N" ∅
          = Ok [<["?N" := VFloat mn]> ∅]
       /\ isLeast mn [3; 1; 2]%Q
       /\ evaluateAggregation (H := exampleRuntime) mixedEngine AggAvg "?V"
            dataBody "?N" ∅
          = Ok [<["?N" := VFloat avg]> ∅]
       /\ (avg == Qsum [3; 1; 2] / inject_Z (Z.of_nat 3))%Q.
Proof.
  destruct (evaluateAggregation_reductions (H := exampleRuntime) mixedEngine
              "?V" "?N" dataBody ∅
              [{[ "?V" := VInt64 3 ]}; {[ "?V" := VString "n/a" ]};
               {[ "?V" := VInt64 1 ]}; {[ "?V" := VInt64 2 ]}])
    as (Hcount & Hsum & _ & _ & Hrest).
  - vm_compute. reflexivity.
  - split; [exact Hcount | split; [exact Hsum |]].
    apply Hrest. discriminate.
Defined.


(** ** The parser *)

Section ParserFacts.
Variable tokens : list Token.
Let len : nat := length tokens.

Lemma peek_in_range (pos : nat) :
  Type_ (peek tokens pos) <> TokenEOF -> pos < len.
Proof.
  unfold peek. destruct (tokens !! pos) as [t |] eqn:E; simpl.
  - intros _. now apply lookup_lt_Some in E.
  - intros Hne. now destruct Hne.
Qed.

Lemma expect_returns (typ : TokenType) (pos : nat) :
  expect tokens typ pos <> None.
Proof. unfold expect, pret. destruct (decide _); discriminate. Qed.

Lemma expect_ok (typ : TokenType) (pos : nat) (t : Token) (pos' : nat) :
  typ <> TokenEOF ->
  expect tokens typ pos = Some (Ok (t, pos')) -> pos' = S pos /\ pos < len.
Proof.
  intros Htyp. unfold expect, pret.
  destruct (decide (Type_ (peek tokens pos) = typ)) as [Heq | Hne];
    [| discriminate].
  intros H. inversion H; subst. split; [reflexivity |].
  apply peek_in_range. congruence.
Qed.

Lemma matchTok_ok (typ : TokenType) (pos : nat) :
  typ <> TokenEOF ->
  (matchTok tokens typ pos = (true, S pos) /\ pos < len)
  \/ matchTok tokens typ pos = (false, pos).
Proof.
  intros Htyp. unfold matchTok.
  destruct (decide (Type_ (peek tokens pos) = typ)) as [Heq | Hne];
    [left | now right].
  split; [reflexivity |]. apply peek_in_range. congruence.
Qed.

Lemma parseTerm_returns (pos : nat) : parseTerm tokens pos <> None.
Proof. unfold parseTerm, pret. repeat case_match; discriminate. Qed.

Lemma parseTerm_ok (p : nat) (x : Term) (p' : nat) :
  parseTerm tokens p = Some (Ok (x, p')) ->
  Type_ (peek tokens p) <> TokenEOF /\ p' = S p.
Proof.
  unfold parseTerm, pret, advance.
  repeat case_match; try discriminate;
    intros Heq; inversion Heq; subst; split; congruence.
Qed.

Lemma parseTerm_consumes : consumes len (parseTerm tokens).
Proof.
  intros p x p' Hp. apply parseTerm_ok in Hp as [Hne ->].
  apply peek_in_range in Hne. lia.
Qed.

(** *** What a successful call consumes *)

Ltac pcase t E :=
  destruct t as [[[? ?] | ? | ?] |] eqn:E; cbn [pbind]; try discriminate.

Lemma parseList_bounds {X : Type} (item : nat -> PResult X) :
  consumes len item ->
  forall k pos xs pos',
    parseList tokens item k pos = Some (Ok (xs, pos')) ->
    pos <= pos' /\ pos' <= len.
Proof.
  intros Hcons. induction k as [| k IH]; intros pos xs pos'; cbn [parseList];
    [discriminate |].
  destruct (decide (Type_ (peek tokens pos) = TokenRParen)) as [Hr | Hr].
  { intros H. inversion H; subst.
    assert (pos' < len) by (apply peek_in_range; congruence). lia. }
  pcase (item pos) Ei.
  destruct (Hcons _ _ _ Ei) as [Hlt Hle].
  destruct (matchTok_ok TokenComma n ltac:(discriminate)) as [[Hm Hp] | Hm];
    rewrite Hm.
  - pcase (parseList tokens item k (S n)) Er.
    intros H. inversion H; subst. destruct (IH _ _ _ Er). lia.
  - intros H. inversion H; subst. lia.
Qed.

Lemma binaryLoop_bounds (opOf : TokenType -> option ArithOp)
    (operand : nat -> PResult Expression) :
  consumes len operand ->
  forall k lhs pos e pos',
    pos <= len ->
    binaryLoop tokens opOf operand k lhs pos = Some (Ok (e, pos')) ->
    pos <= pos' /\ pos' <= len.
Proof.
  intros Hcons. induction k as [| k IH]; intros lhs pos e pos' Hlen;
    cbn [binaryLoop]; [discriminate |].
  destruct (opOf (Type_ (peek tokens pos))) as [op |].
  2:{ intros H. inversion H; subst. lia. }
  cbn [advance snd]. pcase (operand (S pos)) Eo.
  destruct (Hcons _ _ _ Eo) as [Hlt Hle].
  intros H. destruct (IH _ _ _ _ Hle H). lia.
Qed.

Section Consumes.
Variable pe : nat -> PResult Expression.
Hypothesis pe_consumes : consumes len pe.

Lemma parseFunctionCall_consumes : consumes len (parseFunctionCall tokens pe).
Proof.
  intros pos e pos'. unfold parseFunctionCall, advance.
  pcase (expect tokens TokenLParen (S pos)) E1.
  apply expect_ok in E1 as [-> Hp1]; [| discriminate].
  pcase (parseList tokens pe (loopBound tokens) (S (S pos))) E2.
  destruct (parseList_bounds pe pe_consumes _ _ _ _ E2) as [Hle2 Hlen2].
  pcase (expect tokens TokenRParen n) E3.
  apply expect_ok in E3 as [-> Hp3]; [| discriminate].
  intros H. inversion H; subst. lia.
Qed.

Lemma parsePrimary_consumes : consumes len (parsePrimary tokens pe).
Proof.
  intros pos e pos'. unfold parsePrimary.
  destruct (decide (Type_ (peek tokens pos) = TokenLParen)) as [Hl | Hl].
  - cbn [advance snd]. pcase (pe (S pos)) E1.
    destruct (pe_consumes _ _ _ E1) as [Hlt Hle].
    pcase (expect tokens TokenRParen n) E2.
    apply expect_ok in E2 as [-> Hp2]; [| discriminate].
    intros H. inversion H; subst. lia.
  - destruct (bool_decide (Type_ (peek tokens pos) = TokenIdent)
              && bool_decide (Type_ (peekN tokens pos 1) = TokenLParen)).
    + apply parseFunctionCall_consumes.
    + pcase (parseTerm tokens pos) Et.
      intros H. inversion H; subst. now apply (parseTerm_consumes pos t).
Qed.

Lemma parseMultiplicative_consumes :
  consumes len (parseMultiplicative tokens pe).
Proof.
  intros pos e pos'. unfold parseMultiplicative, parseUnary.
  pcase (parsePrimary tokens pe pos) E1.
  destruct (parsePrimary_consumes _ _ _ E1) as [Hlt Hle].
  intros H.
  destruct (binaryLoop_bounds mulOp (parsePrimary tokens pe)
              parsePrimary_consumes _ _ _ _ _ Hle H). lia.
Qed.

Lemma parseAdditive_consumes : consumes len (parseAdditive tokens pe).
Proof.
  intros pos e pos'. unfold parseAdditive.
  pcase (parseMultiplicative tokens pe pos) E1.
  destruct (parseMultiplicative_consumes _ _ _ E1) as [Hlt Hle].
  intros H.
  destruct (binaryLoop_bounds addOp (parseMultiplicative tokens pe)
              parseMultiplicative_consumes _ _ _ _ _ Hle H). lia.
Qed.

End Consumes.

Lemma parseExpression_consumes (fuel : nat) :
  consumes len (parseExpression tokens fuel).
Proof.
  induction fuel as [| fuel IH]; simpl.
  - intros p x p'. discriminate.
  - now apply parseAdditive_consumes.
Qed.

(** *** With the tokens as fuel, every call returns *)

Lemma returnsFrom_weaken {X : Type} (q q' : nat) (g : nat -> PResult X) :
  q <= q' -> returnsFrom len q g -> returnsFrom len q' g.
Proof. intros Hq Hg p Hp Hl. apply Hg; lia. Qed.

Lemma parseList_returns {X : Type} (item : nat -> PResult X) (q : nat) :
  returnsFrom len q item -> consumes len item ->
  forall k pos,
    q <= pos -> pos <= len -> len < k + pos ->
    parseList tokens item k pos <> None.
Proof.
  intros Hret Hcons. induction k as [| k IH]; intros pos Hq Hlen Hk;
    [lia |].
  cbn [parseList].
  destruct (decide (Type_ (peek tokens pos) = TokenRParen)) as [Hr | Hr];
    [discriminate |].
  specialize (Hret pos Hq Hlen).
  pcase (item pos) Ei; [| congruence].
  destruct (Hcons _ _ _ Ei) as [Hlt Hle].
  destruct (matchTok_ok TokenComma n ltac:(discriminate)) as [[Hm Hp] | Hm];
    rewrite Hm; [| discriminate].
  specialize (IH (S n) ltac:(lia) ltac:(lia) ltac:(lia)).
  pcase (parseList tokens item k (S n)) Er. congruence.
Qed.

Lemma binaryLoop_returns (opOf : TokenType -> option ArithOp)
    (operand : nat -> PResult Expression) (q : nat) :
  opOf TokenEOF = None ->
  returnsFrom len q operand -> consumes len operand ->
  forall k lhs pos,
    q <= S pos -> pos <= len -> len < k + pos ->
    binaryLoop tokens opOf operand k lhs pos <> None.
Proof.
  intros Heof Hret Hcons. induction k as [| k IH]; intros lhs pos Hq Hlen Hk;
    [lia |].
  cbn [binaryLoop].
  destruct (opOf (Type_ (peek tokens pos))) as [op |] eqn:Eop;
    [| discriminate].
  assert (Hp : pos < len).
  { apply peek_in_range. intros Hc. rewrite Hc in Eop. congruence. }
  cbn [advance snd]. specialize (Hret (S pos) Hq Hp).
  pcase (operand (S pos)) Eo; [| congruence].
  destruct (Hcons _ _ _ Eo) as [Hlt Hle].
  apply IH; lia.
Qed.

Section Returns.
Variable pe : nat -> PResult Expression.
Variable q : nat.
Hypothesis pe_returns : returnsFrom len (S q) pe.
Hypothesis pe_consumes : consumes len pe.

Lemma parseFunctionCall_returns (pos : nat) :
  q <= S pos -> parseFunctionCall tokens pe pos <> None.
Proof.
  intros Hq. unfold parseFunctionCall, advance.
  pose proof (expect_returns TokenLParen (S pos)) as Hr1.
  pcase (expect tokens TokenLParen (S pos)) E1; [| congruence].
  apply expect_ok in E1 as [-> Hp1]; [| discriminate].
  pose proof (parseList_returns pe (S q) pe_returns pe_consumes
                (loopBound tokens) (S (S pos)) ltac:(lia) ltac:(lia)
                ltac:(unfold loopBound; fold len; lia)) as Hr2.
  pcase (parseList tokens pe (loopBound tokens) (S (S pos))) E2;
    [| congruence].
  pose proof (expect_returns TokenRParen n) as Hr3.
  pcase (expect tokens TokenRParen n) E3. congruence.
Qed.

Lemma parsePrimary_returns : returnsFrom len q (parsePrimary tokens pe).
Proof.
  intros pos Hq Hlen. unfold parsePrimary.
  destruct (decide (Type_ (peek tokens pos) = TokenLParen)) as [Hl | Hl].
  - assert (Hp : pos < len) by (apply peek_in_range; congruence).
    cbn [advance snd]. pose proof (pe_returns (S pos) ltac:(lia) Hp) as Hr.
    pcase (pe (S pos)) E1; [| congruence].
    pose proof (expect_returns TokenRParen n) as Hr2.
    pcase (expect tokens TokenRParen n) E2. congruence.
  - destruct (bool_decide (Type_ (peek tokens pos) = TokenIdent)
              && bool_decide (Type_ (peekN tokens pos 1) = TokenLParen)).
    + apply parseFunctionCall_returns. lia.
    + pose proof (parseTerm_returns pos) as Hr.
      pcase (parseTerm tokens pos) Et. congruence.
Qed.

Lemma parseMultiplicative_returns :
  returnsFrom len q (parseMultiplicative tokens pe).
Proof.
  intros pos Hq Hlen. unfold parseMultiplicative, parseUnary.
  pose proof (parsePrimary_returns pos Hq Hlen) as Hr.
  pcase (parsePrimary tokens pe pos) E1; [| congruence].
  destruct (parsePrimary_consumes pe pe_consumes _ _ _ E1) as [Hlt Hle].
  apply (binaryLoop_returns mulOp (parsePrimary tokens pe) q eq_refl
           parsePrimary_returns (parsePrimary_consumes pe pe_consumes));
    [lia | lia | unfold loopBound; fold len; lia].
Qed.

Lemma parseAdditive_returns : returnsFrom len q (parseAdditive tokens pe).
Proof.
  intros pos Hq Hlen. unfold parseAdditive.
  pose proof (parseMultiplicative_returns pos Hq Hlen) as Hr.
  pcase (parseMultiplicative tokens pe pos) E1; [| congruence].
  destruct (parseMultiplicative_consumes pe pe_consumes _ _ _ E1)
    as [Hlt Hle].
  apply (binaryLoop_returns addOp (parseMultiplicative tokens pe) q eq_refl
           parseMultiplicative_returns
           (parseMultiplicative_consumes pe pe_consumes));
    [lia | lia | unfold loopBound; fold len; lia].
Qed.

End Returns.

Lemma parseExpression_returns (fuel : nat) :
  returnsFrom len (S len - fuel) (parseExpression tokens fuel).
Proof.
  induction fuel as [| fuel IH].
  - intros p Hp Hl. lia.
  - cbn [parseExpression].
    apply (parseAdditive_returns (parseExpression tokens fuel)).
    + eapply returnsFrom_weaken; [| exact IH]. lia.
    + apply parseExpression_consumes.
Qed.

End ParserFacts.

(** ** C6: [?V = RHS] is a comparison or an assignment *)

(** C6: where a clause starts with a variable followed by [=], the
    expression parser, given the number of tokens as fuel, returns (a
    value or an error) on the right-hand side; and whenever it returns
    the expression [expr] there, [parseClause] returns the comparison
    [?V = term] if [expr] is the bare term [term], and the assignment of
    [expr] to [?V] if [expr] is a binary expression or a function call,
    at the position the expression ends. *)
Theorem parseClause_variable_equals (tokens : list Token) (pos : nat) :
  Type_ (peek tokens pos) = TokenVariable ->
  Type_ (peekN tokens pos 1) = TokenEq ->
  parseExpression tokens (S (length tokens)) (S (S pos)) <> None
  /\ forall (fuel : nat) (expr : Expression) (pos' : nat),
       parseExpression tokens fuel (S (S pos)) = Some (Ok (expr, pos')) ->
       parseClause tokens (S fuel) pos
       = Some (Ok (clauseOfEquation (TValue (peek tokens pos)) expr, pos'))
       /\ (forall term, expr = TermExpr term ->
             clauseOfEquation (TValue (peek tokens pos)) expr
             = Comparison (Var (TValue (peek tokens pos))) OpEq term)
       /\ ((forall term, expr <> TermExpr term) ->
             clauseOfEquation (TValue (peek tokens pos)) expr
             = Assignment (TValue (peek tokens pos)) expr).
Proof.
  intros Hvar Heq. split.
  - apply (parseExpression_returns tokens (S (length tokens))); [lia |].
    assert (S pos < length tokens); [| lia].
    apply peek_in_range. unfold peekN in Heq. unfold peek.
    replace (S pos) with (pos + 1) by lia. congruence.
  - intros fuel expr pos' Hexpr. repeat split.
    + cbn [parseClause]. unfold matchTok.
      destruct (decide (Type_ (peek tokens pos) = TokenNot)); [congruence |].
      destruct (decide (Type_ (peek tokens pos) = TokenAggregate));
        [congruence |].
      rewrite (bool_decide_eq_true_2 _ Hvar), (bool_decide_eq_true_2 _ Heq).
      simpl. unfold parseAssignmentOrComparison, advance.
      rewrite Hexpr. simpl. destruct expr; reflexivity.
    + intros term ->. reflexivity.
    + intros Hne. destruct expr as [term | |]; try reflexivity.
      now destruct (Hne term).
Qed.

Lemma parseClause_variable_equals_witness :
  parseClause assignmentTokens 11 0
  = Some (Ok (Assignment "?P"
                (BinaryExpr
                   (BinaryExpr (TermExpr (Var "?D")) OpMul
                      (TermExpr (Constant (VInt64 100))))
                   OpDiv (TermExpr (Constant (VInt64 1000)))), 9))
  /\ parseClause comparisonTokens 7 0
     = Some (Ok (Comparison (Var "?P") OpEq (Var "?D"), 5)).
Proof.
  split.
  - destruct (parseClause_variable_equals assignmentTokens 0 eq_refl eq_refl)
      as [_ Hclause].
    destruct (Hclause 10
                (BinaryExpr
                   (BinaryExpr (TermExpr (Var "?D")) OpMul
                      (TermExpr (Constant (VInt64 100))))
                   OpDiv (TermExpr (Constant (VInt64 1000))))
                9 ltac:(vm_compute; reflexivity)) as [Hparse _].
    exact Hparse.
  - destruct (parseClause_variable_equals comparisonTokens 0 eq_refl eq_refl)
      as [_ Hclause].
    destruct (Hclause 6 (TermExpr (Var "?D")) 5
                ltac:(vm_compute; reflexivity)) as [Hparse _].
    exact Hparse.
Defined.

(** * Further properties of the code *)

Set Warnings "-clear-no-such-hyp".

(** ** engine.go: the fact store *)

Lemma FactCount_insert (m : gmap string (list Fact)) (k : string)
    (v : list Fact) :
  map_fold (fun (_ : string) (fs : list Fact) count => count + length fs) 0
    (<[k := v]> m) + length (default [] (m !! k))
  = map_fold (fun (_ : string) (fs : list Fact) count => count + length fs) 0 m
    + length v.
Proof.
  destruct (m !! k) as [old |] eqn:E; simpl.
  - rewrite <- (insert_delete_eq m k v).
    rewrite (map_fold_insert_L _ 0 k v (delete k m));
      [| intros; lia | apply lookup_delete_eq].
    rewrite (map_fold_delete_L _ 0 k old m); [lia | intros; lia | exact E].
  - rewrite (map_fold_insert_L _ 0 k v m); [lia | intros; lia | exact E].
Qed.

Lemma FactCount_AddFact (f : Fact) (e : Engine) :
  FactCount (AddFact f e) = S (FactCount e).
Proof.
  unfold FactCount, AddFact. simpl.
  pose proof (FactCount_insert (facts e) (FPredicate f)
                (GetFacts e (FPredicate f) ++ [f])) as Hc.
  rewrite length_app in Hc. unfold GetFacts in *. simpl in Hc. lia.
Qed.

Lemma GetFacts_AddFact (f : Fact) (e : Engine) (p : string) :
  GetFacts (AddFact f e) p
  = if decide (p = FPredicate f) then GetFacts e p ++ [f] else GetFacts e p.
Proof.
  unfold GetFacts at 1. unfold AddFact. simpl.
  rewrite lookup_insert. destruct (decide (FPredicate f = p)) as [<- | Hne].
  - rewrite decide_True by reflexivity. reflexivity.
  - rewrite decide_False by congruence. reflexivity.
Qed.

(** X1: [AddFact] appends the fact to the facts of its own predicate, after
    those already stored, leaves every other predicate as it was, and
    raises [FactCount] by one; it never looks for a duplicate. *)
Theorem AddFact_appends (f : Fact) (e : Engine) :
  GetFacts (AddFact f e) (FPredicate f) = GetFacts e (FPredicate f) ++ [f]
  /\ (forall p, p <> FPredicate f -> GetFacts (AddFact f e) p = GetFacts e p)
  /\ FactCount (AddFact f e) = S (FactCount e).
Proof.
  split; [| split].
  - rewrite GetFacts_AddFact, decide_True by reflexivity. reflexivity.
  - intros p Hp. rewrite GetFacts_AddFact, decide_False by exact Hp.
    reflexivity.
  - apply FactCount_AddFact.
Qed.

Section EngineStore.
Context `{GoRuntime}.

Lemma valuesEqual_refl (a : Value) : valuesEqual a a = true.
Proof.
  unfold valuesEqual. destruct (toFloat64NoErr a) as [n ok].
  destruct ok; simpl.
  - apply Qeq_bool_iff. reflexivity.
  - apply String.eqb_refl.
Qed.

Lemma valuesEqual_sym (a b : Value) : valuesEqual a b = valuesEqual b a.
Proof.
  unfold valuesEqual.
  destruct (toFloat64NoErr a) as [an aok], (toFloat64NoErr b) as [bn bok].
  rewrite (andb_comm bok aok). destruct (aok && bok).
  - destruct (Qeq_bool an bn) eqn:E1, (Qeq_bool bn an) eqn:E2;
      try reflexivity.
    + apply Qeq_bool_iff in E1. symmetry in E1. apply Qeq_bool_iff in E1.
      congruence.
    + apply Qeq_bool_iff in E2. symmetry in E2. apply Qeq_bool_iff in E2.
      congruence.
  - apply String.eqb_sym.
Qed.

Lemma factsEqual_refl (f : Fact) : factsEqual f f = true.
Proof.
  unfold factsEqual. rewrite String.eqb_refl, Nat.eqb_refl. simpl.
  induction (FArgs f) as [| a args IH]; simpl; [reflexivity |].
  now rewrite valuesEqual_refl.
Qed.

Lemma factExists_AddFact_same (f : Fact) (e : Engine) :
  factExists (AddFact f e) f = true.
Proof.
  unfold factExists. rewrite GetFacts_AddFact, decide_True by reflexivity.
  rewrite existsb_app. simpl. rewrite factsEqual_refl.
  now rewrite orb_true_r.
Qed.

Lemma factExists_prefix (e e' : Engine) (g : Fact) :
  GetFacts e (FPredicate g) `prefix_of` GetFacts e' (FPredicate g) ->
  factExists e g = true -> factExists e' g = true.
Proof.
  intros [more Hmore]. unfold factExists. rewrite Hmore, existsb_app.
  intros ->. reflexivity.
Qed.

(** X2: a fact that has been added is found by [factExists], and adding a
    fact never hides one that was found before. *)
Theorem AddFact_factExists (f : Fact) (e : Engine) :
  factExists (AddFact f e) f = true
  /\ (forall g, factExists e g = true -> factExists (AddFact f e) g = true).
Proof.
  split; [apply factExists_AddFact_same |].
  intros g. apply factExists_prefix.
  rewrite GetFacts_AddFact. destruct (decide _); [| reflexivity].
  now apply prefix_app_r.
Qed.

(** *** [Evaluate] only appends facts *)

Lemma storeGrows_refl (e : Engine) : storeGrows e e.
Proof. repeat split; try reflexivity. Qed.

Lemma storeGrows_trans (e1 e2 e3 : Engine) :
  storeGrows e1 e2 -> storeGrows e2 e3 -> storeGrows e1 e3.
Proof.
  intros (A1 & A2 & A3 & A4) (B1 & B2 & B3 & B4).
  repeat split; try congruence; [| lia].
  intros p. etransitivity; [apply A1 | apply B1].
Qed.

Lemma storeGrows_AddFact (f : Fact) (e : Engine) : storeGrows e (AddFact f e).
Proof.
  repeat split; try reflexivity.
  - intros p. rewrite GetFacts_AddFact. destruct (decide _); [| reflexivity].
    now apply prefix_app_r.
  - rewrite FactCount_AddFact. lia.
Qed.

Lemma addDerived_grows (derived : list Fact) (e : Engine) (n : nat) :
  storeGrows e (fst (addDerived derived e n)).
Proof.
  revert e n. induction derived as [| f derived IH]; intros e n; simpl.
  - apply storeGrows_refl.
  - destruct (factExists e f); simpl; [apply IH |].
    eapply storeGrows_trans; [apply storeGrows_AddFact | apply IH].
Qed.

Lemma evaluateRules_grows (rs : list Rule) (e : Engine) (n : nat) :
  storeGrows e (fst (evaluateRules rs e n)).
Proof.
  revert e n. induction rs as [| rule rs IH]; intros e n; simpl.
  - apply storeGrows_refl.
  - destruct (evaluateRule e rule) as [derived | |]; simpl;
      try apply storeGrows_refl.
    pose proof (addDerived_grows derived e n) as Hg.
    destruct (addDerived derived e n) as [e1 n1]. simpl in Hg.
    eapply storeGrows_trans; [exact Hg | apply IH].
Qed.

(** X3: whatever [Evaluate] returns (success, an error or a panic), the
    engine it leaves behind holds, for every predicate, the facts it held
    before as a prefix of its facts, with the same rules and built-ins and a
    fact count that has not dropped: evaluation only appends facts. *)
Theorem Evaluate_only_appends (fuel : nat) (e e' : Engine)
    (r : Outcome unit) :
  Evaluate fuel e = Some (e', r) ->
  (forall p, GetFacts e p `prefix_of` GetFacts e' p)
  /\ rules e' = rules e
  /\ builtins e' = builtins e
  /\ FactCount e <= FactCount e'.
Proof.
  change (Evaluate fuel e = Some (e', r) -> storeGrows e e').
  revert e. induction fuel as [| fuel IH]; intros e; simpl; [discriminate |].
  pose proof (evaluateRules_grows (rules e) e 0) as Hg.
  destruct (evaluateRules (rules e) e 0) as [e1 [n | m | m]]; simpl in Hg.
  - destruct (Nat.eqb n 0).
    + intros Heq. inversion Heq; subst. exact Hg.
    + intros Heq. eapply storeGrows_trans; [exact Hg | now apply IH].
  - intros Heq. inversion Heq; subst. exact Hg.
  - intros Heq. inversion Heq; subst. exact Hg.
Qed.

End EngineStore.

Lemma Evaluate_only_appends_witness :
  (forall p, GetFacts copyEngine p `prefix_of` GetFacts copyEngineDone p)
  /\ rules copyEngineDone = rules copyEngine
  /\ builtins copyEngineDone = builtins copyEngine
  /\ FactCount copyEngine <= FactCount copyEngineDone.
Proof.
  apply (Evaluate_only_appends (H := exampleRuntime) 3 copyEngine
           copyEngineDone (Ok tt)).
  vm_compute. reflexivity.
Defined.

(** ** engine.go: rules, bodies and atoms *)

Section EngineRules.
Context `{GoRuntime}.

(** *** The fixpoint is closed under the rules *)

Lemma addDerived_all_exist (derived : list Fact) (e : Engine) (n : nat) :
  snd (addDerived derived e n) = n ->
  Forall (fun f => factExists e f = true) derived.
Proof.
  revert e n. induction derived as [| f derived IH]; intros e n; simpl.
  - constructor.
  - destruct (factExists e f) eqn:E; simpl.
    + intros Hn. constructor; [exact E | now apply (IH e n)].
    + intros Hn.
      destruct (addDerived_count derived (AddFact f e) (S n)) as [Hle _].
      lia.
Qed.

Lemma evaluateRules_closed (rs : list Rule) (e : Engine) (n : nat) :
  evaluateRules rs e n = (e, Ok n) ->
  Forall (fun rule =>
            exists derived,
              evaluateRule e rule = Ok derived
              /\ Forall (fun f => factExists e f = true) derived) rs.
Proof.
  induction rs as [| rule rs IH]; simpl; [constructor |].
  destruct (evaluateRule e rule) as [derived | |] eqn:Er; try discriminate.
  destruct (addDerived_count derived e n) as [H1 H2].
  pose proof (addDerived_all_exist derived e n) as H3.
  destruct (addDerived derived e n) as [e1 n1]. simpl in *.
  intros Heq. destruct (evaluateRules_count _ _ _ _ _ Heq) as [H4 H5].
  assert (n1 = n) by lia. subst n1.
  specialize (H2 eq_refl). subst e1.
  constructor; [| now apply IH].
  exists derived. split; [exact Er | now apply H3].
Qed.

(** X4: when [Evaluate] returns successfully, the engine it leaves is closed
    under its rules: every rule evaluates without error on it, and every
    fact the rule derives is already found by [factExists]. *)
Theorem Evaluate_closed_under_rules (fuel : nat) (e e' : Engine) :
  Evaluate fuel e = Some (e', Ok tt) ->
  forall rule, rule ∈ rules e' ->
    exists derived,
      evaluateRule e' rule = Ok derived
      /\ (forall f, f ∈ derived -> factExists e' f = true).
Proof.
  intros Hev rule Hin.
  pose proof (evaluateRules_closed (rules e') e' 0
                (Evaluate_fixpoint fuel e e' Hev)) as Hall.
  rewrite Forall_forall in Hall.
  destruct (Hall rule Hin) as (derived & Hd & Hex).
  exists derived. split; [exact Hd |].
  rewrite Forall_forall in Hex. exact Hex.
Qed.

(** *** Matching an atom against a fact *)

Lemma resolveTerm_mono (t : Term) (b b' : Bindings) (w : Value) :
  b ⊆ b' -> resolveTerm t b = Ok w -> resolveTerm t b' = Ok w.
Proof.
  intros Hsub. destruct t as [x | v |]; simpl; try (intros; assumption).
  destruct (b !! x) as [val |] eqn:E; [| discriminate].
  now rewrite (lookup_weaken b b' x val E Hsub).
Qed.

Lemma termAgrees_mono (t : Term) (v : Value) (b b' : Bindings) :
  b ⊆ b' -> termAgrees b t v -> termAgrees b' t v.
Proof.
  intros Hsub. destruct t as [x | c |]; simpl; try (intros; assumption).
  intros (w & Hw & Heq). exists w. split; [| exact Heq].
  now apply (resolveTerm_mono (Var x) b b').
Qed.

Lemma unifyArgs_spec (args : list Term) (fargs : list Value) (nb : Bindings)
    (mtch : bool) :
  length args = length fargs ->
  nb ⊆ fst (unifyArgs args fargs nb mtch)
  /\ (forall x, is_Some (fst (unifyArgs args fargs nb mtch) !! x)
                <-> is_Some (nb !! x) \/ Var x ∈ args)
  /\ (snd (unifyArgs args fargs nb mtch) = true ->
      mtch = true
      /\ Forall2 (termAgrees (fst (unifyArgs args fargs nb mtch))) args fargs).
Proof.
  revert fargs nb mtch.
  induction args as [| arg args IH]; intros [| v fargs] nb mtch Hlen;
    try discriminate; simpl.
  - split; [reflexivity |]. split.
    + intros x. rewrite elem_of_nil. tauto.
    + intros ->. split; [reflexivity | constructor].
  - injection Hlen as Hlen.
    assert (Hvar : forall x t, Var x ∈ t :: args <-> Var x = t \/ Var x ∈ args)
      by (intros; apply elem_of_cons).
    destruct arg as [a | c |].
    + destruct (nb !! a) as [existing |] eqn:Ea.
      * destruct (valuesEqual existing v) eqn:Ev.
        -- destruct (IH fargs nb mtch Hlen) as (I1 & I2 & I3).
           split; [exact I1 |]. split.
           ++ intros x. rewrite I2, Hvar. split; [tauto |].
              intros [Hx | [Hx | Hx]]; [tauto | | tauto].
              injection Hx as ->. left. now exists existing.
           ++ intros Hm. destruct (I3 Hm) as [-> Hall].
              split; [reflexivity |]. constructor; [| exact Hall].
              exists existing. split; [| exact Ev]. simpl.
              now rewrite (lookup_weaken _ _ _ _ Ea I1).
        -- destruct (IH fargs nb false Hlen) as (I1 & I2 & I3).
           split; [exact I1 |]. split.
           ++ intros x. rewrite I2, Hvar. split; [tauto |].
              intros [Hx | [Hx | Hx]]; [tauto | | tauto].
              injection Hx as ->. left. now exists existing.
           ++ intros Hm. destruct (I3 Hm) as [Hf _]. discriminate.
      * destruct (IH fargs (<[a := v]> nb) mtch Hlen) as (I1 & I2 & I3).
        assert (Hsub : nb ⊆ <[a := v]> nb) by now apply insert_subseteq.
        split; [etransitivity; eassumption |]. split.
        -- intros x. rewrite I2, Hvar, lookup_insert_is_Some'.
           split; [intros [[-> | Hx] | Hx]; tauto |].
           intros [Hx | [Hx | Hx]]; [tauto | | tauto].
           injection Hx as ->. tauto.
        -- intros Hm. destruct (I3 Hm) as [-> Hall].
           split; [reflexivity |]. constructor; [| exact Hall].
           exists v. split; [| apply valuesEqual_refl]. simpl.
           rewrite (lookup_weaken (<[a := v]> nb) _ a v); [reflexivity | | exact I1].
           apply lookup_insert_eq.
    + destruct (valuesEqual c v) eqn:Ev.
      * destruct (IH fargs nb mtch Hlen) as (I1 & I2 & I3).
        split; [exact I1 |]. split.
        -- intros x. rewrite I2, Hvar. split; [tauto |].
           intros [Hx | [Hx | Hx]]; [tauto | discriminate | tauto].
        -- intros Hm. destruct (I3 Hm) as [-> Hall].
           split; [reflexivity |]. constructor; [| exact Hall].
           exists c. split; [reflexivity | exact Ev].
      * destruct (IH fargs nb false Hlen) as (I1 & I2 & I3).
        split; [exact I1 |]. split.
        -- intros x. rewrite I2, Hvar. split; [tauto |].
           intros [Hx | [Hx | Hx]]; [tauto | discriminate | tauto].
        -- intros Hm. destruct (I3 Hm) as [Hf _]. discriminate.
    + destruct (IH fargs nb mtch Hlen) as (I1 & I2 & I3).
      split; [exact I1 |]. split.
      * intros x. rewrite I2, Hvar. split; [tauto |].
        intros [Hx | [Hx | Hx]]; [tauto | discriminate | tauto].
      * intros Hm. destruct (I3 Hm) as [-> Hall].
        split; [reflexivity |]. constructor; [exact I | exact Hall].
Qed.

Lemma matchFact_spec (atom : Atom) (b b' : Bindings) (fact : Fact) :
  b' ∈ matchFact atom b fact ->
  b ⊆ b'
  /\ (forall x, is_Some (b' !! x) <-> is_Some (b !! x) \/ Var x ∈ Args atom)
  /\ Forall2 (termAgrees b') (Args atom) (FArgs fact).
Proof.
  unfold matchFact, Clone.
  destruct (Nat.eqb (length (FArgs fact)) (length (Args atom))) eqn:El; simpl;
    [| intros Hin; inversion Hin].
  apply Nat.eqb_eq in El. symmetry in El.
  pose proof (unifyArgs_spec (Args atom) (FArgs fact) b true El) as Hs.
  destruct (unifyArgs (Args atom) (FArgs fact) b true) as [nb m].
  simpl in Hs. destruct Hs as (S1 & S2 & S3).
  destruct m; [| intros Hin; inversion Hin].
  intros Hin. apply list_elem_of_singleton in Hin. subst b'.
  destruct (S3 eq_refl) as [_ Hall]. repeat split; try assumption.
  - apply S2.
  - apply S2.
Qed.

(** X5: [evaluateAtom] never fails, and every binding it returns extends
    the binding it was given (nothing bound before is changed or dropped)
    and binds, besides, exactly the variables of the atom; wildcards and
    constants bind nothing. *)
Theorem evaluateAtom_extends (e : Engine) (atom : Atom) (b : Bindings) :
  exists results,
    evaluateAtom e atom b = Ok results
    /\ forall b', b' ∈ results ->
         b ⊆ b'
         /\ (forall x, is_Some (b' !! x)
                       <-> is_Some (b !! x) \/ Var x ∈ Args atom).
Proof.
  eexists. split; [reflexivity |]. intros b' Hin.
  apply list_elem_of_In, in_flat_map in Hin as (fact & _ & Hin).
  apply list_elem_of_In in Hin.
  destruct (matchFact_spec atom b b' fact Hin) as (S1 & S2 & _).
  split; assumption.
Qed.

(** X6: every binding [evaluateAtom] returns is justified by a stored fact
    of the atom's predicate and arity: under the binding each constant and
    each variable of the atom has a value that [valuesEqual] identifies with
    the fact's argument in that place. *)
Theorem evaluateAtom_sound (e : Engine) (atom : Atom) (b : Bindings) :
  exists results,
    evaluateAtom e atom b = Ok results
    /\ forall b', b' ∈ results ->
         exists fact,
           fact ∈ GetFacts e (Predicate atom)
           /\ length (FArgs fact) = length (Args atom)
           /\ Forall2 (termAgrees b') (Args atom) (FArgs fact).
Proof.
  eexists. split; [reflexivity |]. intros b' Hin.
  apply list_elem_of_In, in_flat_map in Hin as (fact & Hf & Hin).
  apply list_elem_of_In in Hin, Hf.
  destruct (matchFact_spec atom b b' fact Hin) as (_ & _ & S3).
  exists fact. split; [exact Hf |]. split; [| exact S3].
  symmetry. eapply Forall2_length. exact S3.
Qed.

(** *** Queries with distinct variables *)

Lemma unifyArgs_fresh (xs : list string) (vs : list Value) (nb : Bindings)
    (mtch : bool) :
  NoDup xs -> length xs = length vs ->
  (forall x, x ∈ xs -> nb !! x = None) ->
  unifyArgs (Var <$> xs) vs nb mtch
  = (list_to_map (zip xs vs) ∪ nb, mtch).
Proof.
  revert vs nb. induction xs as [| x xs IH]; intros [| v vs] nb Hnd Hlen Hfresh;
    try discriminate; simpl.
  - now rewrite (left_id_L ∅ (∪)).
  - apply NoDup_cons in Hnd as [Hx Hnd]. injection Hlen as Hlen.
    rewrite (Hfresh x) by apply list_elem_of_here.
    rewrite IH; [| exact Hnd | exact Hlen |].
    + f_equal. rewrite <- insert_union_l. symmetry. apply insert_union_r.
      apply not_elem_of_list_to_map_1.
      rewrite fst_zip by lia. exact Hx.
    + intros y Hy. rewrite lookup_insert_ne; [| intros ->; contradiction].
      apply Hfresh. now apply list_elem_of_further.
Qed.

(** X7: a query whose arguments are distinct variables returns one binding
    for every stored fact of the predicate that has as many arguments, in
    the order the facts were added, each binding the variables to the
    fact's arguments; facts of another arity are passed over.  [QueryOne]
    returns the first of them. *)
Theorem Query_distinct_variables (e : Engine) (p : string)
    (xs : list string) :
  NoDup xs ->
  Query e (mkAtom p (Var <$> xs))
  = Ok (bindArgs xs
          <$> List.filter (fun f => Nat.eqb (length (FArgs f)) (length xs))
                (GetFacts e p))
  /\ QueryOne e (mkAtom p (Var <$> xs))
     = bindArgs xs
         <$> head (List.filter
                     (fun f => Nat.eqb (length (FArgs f)) (length xs))
                     (GetFacts e p)).
Proof.
  intros Hnd.
  assert (Hq : Query e (mkAtom p (Var <$> xs))
               = Ok (bindArgs xs
                       <$> List.filter
                             (fun f => Nat.eqb (length (FArgs f)) (length xs))
                             (GetFacts e p))).
  { unfold Query, evaluateAtom. simpl. f_equal.
    induction (GetFacts e p) as [| f fs IH]; simpl; [reflexivity |].
    rewrite IH. unfold matchFact at 1. simpl. rewrite length_fmap.
    destruct (Nat.eqb (length (FArgs f)) (length xs)) eqn:El; simpl;
      [| reflexivity].
    apply Nat.eqb_eq in El. unfold Clone.
    rewrite unifyArgs_fresh; [| exact Hnd | lia | intros; apply lookup_empty].
    rewrite (right_id_L ∅ (∪)). reflexivity. }
  split; [exact Hq |].
  unfold QueryOne. rewrite Hq.
  destruct (List.filter _ (GetFacts e p)); reflexivity.
Qed.

(** *** Bodies *)

Lemma evaluateBodyWith_nil
    (ec : Clause -> Bindings -> Outcome (list Bindings))
    (clauses : list Clause) :
  evaluateBodyWith ec clauses [] = Ok [].
Proof. destruct clauses; reflexivity. Qed.

(** X8: evaluating a body made of two parts is evaluating the first part
    and then the second on its results (an error of the first part is
    returned as it is); and a body over no candidate binding returns no
    binding, whatever its clauses. *)
Theorem evaluateBody_app (e : Engine) (cs1 cs2 : list Clause)
    (bs : list Bindings) :
  evaluateBody e (cs1 ++ cs2) bs
  = obind (evaluateBody e cs1 bs) (evaluateBody e cs2)
  /\ evaluateBody e cs1 [] = Ok [].
Proof.
  unfold evaluateBody. split; [| apply evaluateBodyWith_nil].
  revert bs. induction cs1 as [| c cs1 IH]; intros bs; simpl; [reflexivity |].
  destruct (extendAll (evaluateClause e c) bs) as [nb | |]; simpl;
    try reflexivity.
  destruct nb as [| b nb]; simpl.
  - now rewrite evaluateBodyWith_nil.
  - apply IH.
Qed.

(** *** Heads *)

Lemma instantiateAtom_ok (atom : Atom) (b : Bindings) (f : Fact) :
  instantiateAtom atom b = Ok f ->
  FPredicate f = Predicate atom
  /\ Forall2 (fun t v => resolveTerm t b = Ok v) (Args atom) (FArgs f).
Proof.
  unfold instantiateAtom.
  match goal with
  | |- obind (?g (Args atom)) _ = _ -> _ => set (go := g)
  end.
  destruct (go (Args atom)) as [vals | |] eqn:E; simpl; try discriminate.
  intros Heq. injection Heq as <-. simpl. split; [reflexivity |].
  revert vals E. induction (Args atom) as [| t ts IH]; intros vals; simpl.
  - intros Heq. injection Heq as <-. constructor.
  - destruct (resolveTerm t b) as [v | |] eqn:Et; simpl; try discriminate.
    destruct (go ts) as [vs | |]; simpl; try discriminate.
    intros Heq. injection Heq as <-. constructor; [exact Et | now apply IH].
Qed.

Lemma instantiateAll_spec (head : Atom) (bs : list Bindings) (f : Fact) :
  f ∈ instantiateAll head bs ->
  exists b, b ∈ bs /\ instantiateAtom head b = Ok f.
Proof.
  induction bs as [| b bs IH]; simpl; [intros Hin; inversion Hin |].
  destruct (instantiateAtom head b) as [g | |] eqn:E.
  - intros Hin. apply elem_of_cons in Hin as [-> | Hin].
    + exists b. split; [apply list_elem_of_here | exact E].
    + destruct (IH Hin) as (b0 & Hb0 & Hf). exists b0.
      split; [now apply list_elem_of_further | exact Hf].
  - intros Hin. destruct (IH Hin) as (b0 & Hb0 & Hf). exists b0.
    split; [now apply list_elem_of_further | exact Hf].
  - intros Hin. destruct (IH Hin) as (b0 & Hb0 & Hf). exists b0.
    split; [now apply list_elem_of_further | exact Hf].
Qed.

(** X9: every fact a rule derives has the predicate of the rule's head and
    one value for each of its arguments, each the value the head's term
    resolves to under a binding that satisfies the body; so no derived fact
    has a wildcard or an unbound variable in it, and a rule whose head
    holds a wildcard derives nothing at all. *)
Theorem evaluateRule_instantiates_head (e : Engine) (rule : Rule)
    (derived : list Fact) :
  evaluateRule e rule = Ok derived ->
  (forall f, f ∈ derived ->
     FPredicate f = Predicate (Head rule)
     /\ exists b bs,
          evaluateBody e (Body rule) [∅] = Ok bs /\ b ∈ bs
          /\ Forall2 (fun t v => resolveTerm t b = Ok v)
               (Args (Head rule)) (FArgs f))
  /\ (Wildcard ∈ Args (Head rule) -> derived = []).
Proof.
  unfold evaluateRule.
  destruct (evaluateBody e (Body rule) [∅]) as [bs | |] eqn:Eb; simpl;
    try discriminate.
  intros Heq. injection Heq as <-.
  assert (Hall : forall f, f ∈ instantiateAll (Head rule) bs ->
            FPredicate f = Predicate (Head rule)
            /\ exists b bs',
                 Ok bs = Ok bs' /\ b ∈ bs'
                 /\ Forall2 (fun t v => resolveTerm t b = Ok v)
                      (Args (Head rule)) (FArgs f)).
  { intros f Hin. destruct (instantiateAll_spec _ _ _ Hin) as (b & Hb & Hf).
    destruct (instantiateAtom_ok _ _ _ Hf) as [Hp Hargs].
    split; [exact Hp |]. exists b, bs. repeat split; assumption. }
  split; [exact Hall |].
  intros Hw. destruct (instantiateAll (Head rule) bs) as [| f fs] eqn:Ei;
    [reflexivity | exfalso].
  destruct (Hall f (list_elem_of_here f fs)) as (_ & b & bs' & _ & _ & Hargs).
  clear -Hw Hargs. induction Hargs as [| t v ts vs Ht _ IH].
  - inversion Hw.
  - apply elem_of_cons in Hw as [<- | Hw]; [discriminate | now apply IH].
Qed.

(** *** Equality of values *)

(** X10: the equality the engine unifies and deduplicates with is reflexive
    and symmetric, treats an integer and a float of the same value as
    equal, and is the one a comparison with [=] tests; [!=] tests its
    negation. *)
Theorem valuesEqual_properties (a b : Value) :
  valuesEqual a a = true
  /\ valuesEqual a b = valuesEqual b a
  /\ compareValues a b OpEq = Ok (valuesEqual a b)
  /\ compareValues a b OpNeq = Ok (negb (valuesEqual a b))
  /\ (forall n : Z,
        valuesEqual (VInt n) (VFloat (floatOfInt n)) = true
        /\ valuesEqual (VInt n) (VInt64 n) = true).
Proof.
  split; [apply valuesEqual_refl |]. split; [apply valuesEqual_sym |].
  split; [| split].
  - unfold compareValues, valuesEqual.
    destruct (toFloat64NoErr a) as [an aok], (toFloat64NoErr b) as [bn bok].
    destruct (aok && bok); reflexivity.
  - unfold compareValues, valuesEqual.
    destruct (toFloat64NoErr a) as [an aok], (toFloat64NoErr b) as [bn bok].
    destruct (aok && bok); reflexivity.
  - intros n. unfold valuesEqual. simpl.
    split; apply Qeq_bool_iff; reflexivity.
Qed.

End EngineRules.

Lemma Evaluate_closed_under_rules_witness :
  exists derived,
    evaluateRule (H := exampleRuntime) copyEngineDone copyRule = Ok derived
    /\ (forall f, f ∈ derived ->
          factExists (H := exampleRuntime) copyEngineDone f = true).
Proof.
  apply (Evaluate_closed_under_rules (H := exampleRuntime) 3 copyEngine
           copyEngineDone ltac:(vm_compute; reflexivity) copyRule).
  apply (list_elem_of_here copyRule []).
Defined.

Lemma Query_distinct_variables_witness :
  Query (H := exampleRuntime) dataEngine (mkAtom "d" [Var "?V"])
  = Ok [{[ "?V" := VInt64 3 ]}; {[ "?V" := VInt64 1 ]};
        {[ "?V" := VInt64 2 ]}]
  /\ QueryOne (H := exampleRuntime) dataEngine (mkAtom "d" [Var "?V"])
     = Some {[ "?V" := VInt64 3 ]}.
Proof.
  destruct (Query_distinct_variables (H := exampleRuntime) dataEngine "d"
              ["?V"] ltac:(repeat constructor; set_solver)) as [Hq Hone].
  split; [exact Hq | exact Hone].
Defined.

Lemma evaluateRule_instantiates_head_witness :
  (forall f, f ∈ [mkFact "q" [VInt64 1]; mkFact "q" [VInt64 2]] ->
     FPredicate f = Predicate (Head copyRule)
     /\ exists b bs,
          evaluateBody (H := exampleRuntime) copyEngine (Body copyRule) [∅]
          = Ok bs
          /\ b ∈ bs
          /\ Forall2 (fun t v => resolveTerm t b = Ok v)
               (Args (Head copyRule)) (FArgs f))
  /\ (Wildcard ∈ Args (Head copyRule) ->
      [mkFact "q" [VInt64 1]; mkFact "q" [VInt64 2]] = []).
Proof.
  apply (evaluateRule_instantiates_head (H := exampleRuntime) copyEngine
           copyRule [mkFact "q" [VInt64 1]; mkFact "q" [VInt64 2]]).
  vm_compute. reflexivity.
Defined.

(** ** facts.go: the per-event facts *)

Lemma firstPassStep_fields (i : nat) (e : TraceEvent) (st : FirstPass) :
  fpFacts (firstPassStep i e st) = fpFacts st ++ eventFacts i e
  /\ totalDuration (firstPassStep i e st) = (totalDuration st + Dur e)%Q
  /\ maxEnd (firstPassStep i e st)
     = (if Qlt_bool (maxEnd st) (endOf e) then endOf e else maxEnd st)
  /\ actionableTime (firstPassStep i e st)
     = (if isActionableEvent e then (actionableTime st + Dur e)%Q
        else actionableTime st)
  /\ actionableCount (firstPassStep i e st)
     = (if isActionableEvent e then (actionableCount st + 1)%Z
        else actionableCount st).
Proof.
  unfold eventFacts, firstPassStep, isActionableEvent, hasTarget, endOf.
  simpl.
  destruct (argString e "mnemonic"), (eventTarget e),
    (isActionableCategory (Cat e)), (argNotNil e "mnemonic"),
    (isSystemCategory (Cat e)); simpl;
    rewrite <- ?app_assoc; simpl; repeat split; reflexivity.
Qed.

Lemma firstPassLoop_facts (events : list TraceEvent) (i : nat)
    (st : FirstPass) (f : Fact) :
  f ∈ fpFacts (firstPassLoop i events st)
  <-> f ∈ fpFacts st
      \/ exists k e, events !! k = Some e /\ f ∈ eventFacts (i + k) e.
Proof.
  revert i st. induction events as [| e events IH]; intros i st; simpl.
  - split; [tauto |]. intros [Hf | (k & e & Hk & _)]; [exact Hf |].
    rewrite lookup_nil in Hk. discriminate.
  - rewrite IH. destruct (firstPassStep_fields i e st) as (-> & _).
    rewrite elem_of_app. split.
    + intros [[Hf | Hf] | (k & e' & Hk & Hf)].
      * now left.
      * right. exists 0, e. rewrite Nat.add_0_r. split; [reflexivity | exact Hf].
      * right. exists (S k), e'. split; [exact Hk |].
        now replace (i + S k) with (S i + k) by lia.
    + intros [Hf | ([| k] & e' & Hk & Hf)].
      * left. now left.
      * simpl in Hk. injection Hk as <-. rewrite Nat.add_0_r in Hf.
        left. now right.
      * right. exists k, e'. split; [exact Hk |].
        now replace (S i + k) with (i + S k) by lia.
Qed.

Lemma eventFacts_elem (i : nat) (e : TraceEvent) (f : Fact) :
  f ∈ eventFacts i e
  <-> f = mkFact "trace_event"
            [intV i; VString (Name e); VString (Cat e); VFloat (Ts e);
             VFloat (Dur e)]
      \/ f = mkFact "trace_event_tid" [intV i; VInt (Tid e)]
      \/ f = mkFact "trace_event_pid" [intV i; VInt (Pid e)]
      \/ (exists m, argString e "mnemonic" = Some m
                    /\ f = mkFact "trace_event_mnemonic" [intV i; VString m])
      \/ (exists t, eventTarget e = Some t
                    /\ f = mkFact "trace_event_target" [intV i; VString t])
      \/ (hasTarget e = true /\ f = mkFact "has_target" [intV i])
      \/ (isActionableEvent e = true /\ f = mkFact "is_actionable" [intV i])
      \/ (isSystemCategory (Cat e) = true /\ f = mkFact "is_system" [intV i]).
Proof.
  unfold eventFacts, firstPassStep, isActionableEvent, hasTarget. simpl.
  destruct (argString e "mnemonic"), (eventTarget e),
    (isActionableCategory (Cat e)), (argNotNil e "mnemonic"),
    (isSystemCategory (Cat e)); simpl;
    rewrite ?elem_of_cons, ?elem_of_nil; naive_solver.
Qed.

Lemma eventFacts_predicates (i : nat) (e : TraceEvent) (f : Fact) :
  f ∈ eventFacts i e -> FPredicate f ∈ eventPredicates.
Proof.
  rewrite eventFacts_elem. unfold eventPredicates.
  intros [-> | [-> | [-> | [(m & _ & ->) | [(t & _ & ->)
    | [(_ & ->) | [(_ & ->) | (_ & ->)]]]]]]]; simpl; set_solver.
Qed.

Lemma fpFacts_elem (events : list TraceEvent) (f : Fact) :
  f ∈ fpFacts (firstPass events)
  <-> exists i e, events !! i = Some e /\ f ∈ eventFacts i e.
Proof.
  unfold firstPass. rewrite firstPassLoop_facts. simpl.
  rewrite elem_of_nil. tauto.
Qed.

Lemma fpFacts_predicates (events : list TraceEvent) (f : Fact) :
  f ∈ fpFacts (firstPass events) -> FPredicate f ∈ eventPredicates.
Proof.
  rewrite fpFacts_elem. intros (i & e & _ & Hf).
  now apply (eventFacts_predicates i e).
Qed.

Lemma computeCriticalPath_predicates (events : list TraceEvent) (f : Fact) :
  f ∈ computeCriticalPath events -> FPredicate f ∈ criticalPathPredicates.
Proof.
  unfold computeCriticalPath, criticalPathPredicates.
  destruct events as [| e events]; [intros Hin; inversion Hin |].
  rewrite elem_of_app. intros [Hin | Hin].
  - destruct (fst (lastActionable 0 (e :: events) (None, 0%Q)))
      as [[i ev] |]; [| inversion Hin].
    apply elem_of_cons in Hin as [-> | Hin]; [simpl; set_solver |].
    destruct (Qlt_bool 0 (maxEndOf (e :: events))); [| inversion Hin].
    apply list_elem_of_singleton in Hin as ->. simpl. set_solver.
  - apply list_elem_of_fmap in Hin as [a [-> _]]. simpl. set_solver.
Qed.

(** Membership in [GenerateFacts], part by part. *)
Lemma GenerateFacts_elem (events : list TraceEvent) (f : Fact) :
  f ∈ GenerateFacts events
  <-> f ∈ fpFacts (firstPass events)
      \/ f ∈ [mkFact "total_duration" [VFloat (maxEnd (firstPass events))];
              mkFact "total_action_time"
                [VFloat (totalDuration (firstPass events))];
              mkFact "total_actions" [intV (length events)];
              mkFact "actionable_time"
                [VFloat (actionableTime (firstPass events))];
              mkFact "actionable_count"
                [VInt (actionableCount (firstPass events))]]
      \/ f ∈ timeFacts "category_time" (categoryTime events)
      \/ f ∈ countFacts "category_count" (categoryCount events)
      \/ f ∈ timeFacts "mnemonic_time" (mnemonicTime events)
      \/ f ∈ countFacts "mnemonic_count" (mnemonicCount events)
      \/ f ∈ timeFacts "target_time" (targetTime events)
      \/ f = mkFact "max_concurrency" [VInt (computeMaxConcurrency events)]
      \/ f ∈ computeCriticalPath events.
Proof.
  unfold GenerateFacts, firstPass, emptyPass. cbv zeta.
  rewrite !elem_of_app, list_elem_of_singleton. tauto.
Qed.

(** A fact with a given predicate is not in a part of another predicate. *)
Ltac not_here H :=
  solve [repeat (apply elem_of_cons in H as [H | H]; [discriminate H |]);
         inversion H].

Ltac wrong_part H :=
  exfalso;
  first
    [ discriminate H
    | apply fpFacts_predicates in H; unfold eventPredicates in H; simpl in H;
      not_here H
    | apply computeCriticalPath_predicates in H;
      unfold criticalPathPredicates in H; simpl in H; not_here H
    | apply list_elem_of_fmap in H as [? [H _]]; discriminate H
    | not_here H ].

(** Splits membership in [GenerateFacts] and drops the parts of other
    predicates. *)
Ltac in_parts H :=
  apply GenerateFacts_elem in H;
  destruct H as [H | [H | [H | [H | [H | [H | [H | [H | H]]]]]]]];
  try (wrong_part H).

Lemma GenerateFacts_event_elem (events : list TraceEvent) (f : Fact) :
  FPredicate f ∈ eventPredicates ->
  f ∈ GenerateFacts events
  <-> exists i e, events !! i = Some e /\ f ∈ eventFacts i e.
Proof.
  intros Hp. rewrite <- fpFacts_elem. split.
  - intros Hin. apply GenerateFacts_elem in Hin.
    destruct Hin as [H | [H | [H | [H | [H | [H | [H | [H | H]]]]]]]];
      [exact H | exfalso ..]; unfold eventPredicates in Hp.
    + repeat (apply elem_of_cons in H as [-> | H]; [simpl in Hp; not_here Hp |]).
      inversion H.
    + apply list_elem_of_fmap in H as [? [-> _]]. simpl in Hp. not_here Hp.
    + apply list_elem_of_fmap in H as [? [-> _]]. simpl in Hp. not_here Hp.
    + apply list_elem_of_fmap in H as [? [-> _]]. simpl in Hp. not_here Hp.
    + apply list_elem_of_fmap in H as [? [-> _]]. simpl in Hp. not_here Hp.
    + apply list_elem_of_fmap in H as [? [-> _]]. simpl in Hp. not_here Hp.
    + subst f. simpl in Hp. not_here Hp.
    + apply computeCriticalPath_predicates in H.
      unfold criticalPathPredicates in H.
      repeat (apply elem_of_cons in H as [H | H];
              [rewrite H in Hp; not_here Hp |]).
      inversion H.
  - intros Hin. apply GenerateFacts_elem. now left.
Qed.

Lemma intV_inj (i j : nat) : intV i = intV j -> i = j.
Proof. unfold intV. intros Heq. injection Heq as Heq. lia. Qed.

Lemma filter_predicate_nil (p : string) (l : list Fact) :
  (forall f, f ∈ l -> FPredicate f <> p) ->
  List.filter (fun f => String.eqb (FPredicate f) p) l = [].
Proof.
  induction l as [| f l IH]; simpl; intros Hall; [reflexivity |].
  destruct (String.eqb (FPredicate f) p) eqn:E.
  - apply String.eqb_eq in E. exfalso.
    now apply (Hall f (list_elem_of_here f l)).
  - apply IH. intros g Hg. apply Hall. now apply list_elem_of_further.
Qed.

Lemma filter_predicate_all (p : string) (l : list Fact) :
  (forall f, f ∈ l -> FPredicate f = p) ->
  List.filter (fun f => String.eqb (FPredicate f) p) l = l.
Proof.
  induction l as [| f l IH]; simpl; intros Hall; [reflexivity |].
  rewrite (Hall f (list_elem_of_here f l)), String.eqb_refl.
  f_equal. apply IH. intros g Hg. apply Hall. now apply list_elem_of_further.
Qed.

(** The facts of one predicate are taken part by part. *)
Lemma factsOf_app (p : string) (l1 l2 : list Fact) :
  factsOf p (l1 ++ l2) = factsOf p l1 ++ factsOf p l2.
Proof. apply List.filter_app. Qed.

Lemma factsOf_nil (p : string) (l : list Fact) :
  (forall f, f ∈ l -> FPredicate f <> p) -> factsOf p l = [].
Proof. apply filter_predicate_nil. Qed.

(** Only the first loop of [GenerateFacts] emits per-event predicates. *)
Lemma factsOf_GenerateFacts_event (p : string) (events : list TraceEvent) :
  p ∈ eventPredicates ->
  factsOf p (GenerateFacts events) = factsOf p (fpFacts (firstPass events)).
Proof.
  intros Hp. unfold GenerateFacts. cbv zeta.
  fold emptyPass. fold (firstPass events).
  rewrite !factsOf_app.
  rewrite (factsOf_nil p (computeCriticalPath events)).
  2:{ intros f Hf Heq. apply computeCriticalPath_predicates in Hf.
      rewrite Heq in Hf. unfold eventPredicates in Hp.
      unfold criticalPathPredicates in Hf.
      repeat (apply elem_of_cons in Hp as [-> | Hp]; [not_here Hf |]).
      inversion Hp. }
  repeat match goal with
  | |- context [factsOf p (timeFacts ?q ?m)] =>
      rewrite (factsOf_nil p (timeFacts q m))
        by (intros f Hf Heq; apply list_elem_of_fmap in Hf as [? [-> _]];
            simpl in Heq; subst p; unfold eventPredicates in Hp; not_here Hp)
  | |- context [factsOf p (countFacts ?q ?m)] =>
      rewrite (factsOf_nil p (countFacts q m))
        by (intros f Hf Heq; apply list_elem_of_fmap in Hf as [? [-> _]];
            simpl in Heq; subst p; unfold eventPredicates in Hp; not_here Hp)
  | |- context [factsOf p (?f :: ?l)] =>
      rewrite (factsOf_nil p (f :: l))
        by (intros g Hg Heq; unfold eventPredicates in Hp;
            repeat (apply elem_of_cons in Hg as [-> | Hg];
                    [simpl in Heq; subst p; not_here Hp |]);
            inversion Hg)
  end.
  now rewrite !app_nil_r.
Qed.

(** A predicate that every event gets once: its facts after the first loop
    are one per event, in the order of the events. *)
Lemma factsOf_firstPassLoop (p : string) (mk : nat -> TraceEvent -> Fact) :
  (forall i e, factsOf p (eventFacts i e) = [mk i e]) ->
  forall (events : list TraceEvent) (i : nat) (st : FirstPass),
    factsOf p (fpFacts (firstPassLoop i events st))
    = factsOf p (fpFacts st) ++ imap (fun k e => mk (i + k) e) events.
Proof.
  intros Hmk. induction events as [| e events IH]; intros i st.
  - simpl. now rewrite app_nil_r.
  - cbn [firstPassLoop imap]. rewrite IH.
    destruct (firstPassStep_fields i e st) as (-> & _).
    rewrite factsOf_app, Hmk, <- app_assoc. cbn [app].
    rewrite Nat.add_0_r. do 2 f_equal.
    apply imap_ext. intros k x _. simpl. f_equal. lia.
Qed.

Lemma factsOf_base (p : string) (mk : nat -> TraceEvent -> Fact)
    (events : list TraceEvent) :
  p ∈ eventPredicates ->
  (forall i e, factsOf p (eventFacts i e) = [mk i e]) ->
  factsOf p (GenerateFacts events) = imap mk events.
Proof.
  intros Hp Hmk. rewrite (factsOf_GenerateFacts_event p events Hp).
  unfold firstPass. rewrite (factsOf_firstPassLoop p mk Hmk). reflexivity.
Qed.

(** X11: of the predicates [trace_event], [trace_event_tid] and
    [trace_event_pid], [GenerateFacts] emits exactly one fact for every
    event and no other: the facts of each of them are, in the order of the
    events, one per event, with the 0-based position of the event in the
    input as its id and the event's own name, category, start, duration,
    thread and process. *)
Theorem GenerateFacts_base_facts (events : list TraceEvent) :
  factsOf "trace_event" (GenerateFacts events)
  = imap (fun i e =>
            mkFact "trace_event"
              [intV i; VString (Name e); VString (Cat e); VFloat (Ts e);
               VFloat (Dur e)]) events
  /\ factsOf "trace_event_tid" (GenerateFacts events)
     = imap (fun i e => mkFact "trace_event_tid" [intV i; VInt (Tid e)])
         events
  /\ factsOf "trace_event_pid" (GenerateFacts events)
     = imap (fun i e => mkFact "trace_event_pid" [intV i; VInt (Pid e)])
         events.
Proof.
  repeat split; apply factsOf_base;
    try (unfold eventPredicates; set_solver).
  all: intros i e; unfold eventFacts, firstPassStep; simpl;
    destruct (argString e "mnemonic"), (eventTarget e),
      (isActionableCategory (Cat e)), (argNotNil e "mnemonic"),
      (isSystemCategory (Cat e)); reflexivity.
Qed.

(** X12: the conditional per-event facts follow the event at that
    position: [has_target(i)] and [trace_event_target(i, t)] iff event [i]
    has the non-empty string target [t]; [trace_event_mnemonic(i, m)] iff
    its mnemonic argument is the string [m]; [is_actionable(i)] iff it has
    a target, or is of an actionable category with a non-nil mnemonic;
    [is_system(i)] iff it is of a system category. *)
Theorem GenerateFacts_event_flags (events : list TraceEvent) (i : nat) :
  (mkFact "has_target" [intV i] ∈ GenerateFacts events
   <-> exists e, events !! i = Some e /\ is_Some (eventTarget e))
  /\ (forall t,
        mkFact "trace_event_target" [intV i; VString t] ∈ GenerateFacts events
        <-> exists e, events !! i = Some e /\ eventTarget e = Some t)
  /\ (forall m,
        mkFact "trace_event_mnemonic" [intV i; VString m]
          ∈ GenerateFacts events
        <-> exists e, events !! i = Some e /\ argString e "mnemonic" = Some m)
  /\ (mkFact "is_actionable" [intV i] ∈ GenerateFacts events
      <-> exists e,
            events !! i = Some e
            /\ (is_Some (eventTarget e)
                \/ (isActionableCategory (Cat e) = true
                    /\ argNotNil e "mnemonic" = true)))
  /\ (mkFact "is_system" [intV i] ∈ GenerateFacts events
      <-> exists e, events !! i = Some e /\ isSystemCategory (Cat e) = true).
Proof.
  assert (Htarget : forall e, hasTarget e = true <-> is_Some (eventTarget e)).
  { intros e. unfold hasTarget. destruct (eventTarget e); split; intros Hh;
      first [reflexivity | discriminate Hh | now eexists
            | destruct Hh; discriminate]. }
  assert (Hact : forall e,
            isActionableEvent e = true
            <-> is_Some (eventTarget e)
                \/ (isActionableCategory (Cat e) = true
                    /\ argNotNil e "mnemonic" = true)).
  { intros e. unfold isActionableEvent.
    rewrite orb_true_iff, andb_true_iff, Htarget. tauto. }
  repeat split.
  all: try (rewrite GenerateFacts_event_elem
              by (unfold eventPredicates; simpl; set_solver)).
  all: try (intros (k & e & Hk & Hf); exists e;
            apply eventFacts_elem in Hf;
            destruct Hf as [Hf | [Hf | [Hf | [(m' & Hm & Hf) | [(t' & Ht & Hf)
              | [(Hc & Hf) | [(Hc & Hf) | (Hc & Hf)]]]]]]];
            try discriminate Hf;
            injection Hf; intros;
            repeat match goal with
                   | Hq : intV _ = intV _ |- _ => apply intV_inj in Hq
                   | Hq : Z.of_nat _ = Z.of_nat _ |- _ =>
                       apply Nat2Z.inj in Hq
                   end;
            subst; split; [exact Hk |];
            first [assumption | now apply Htarget | now apply Hact]).
  all: intros (e & Hi & Hc); exists i, e; split; [exact Hi |];
    apply eventFacts_elem.
  - right. right. right. right. right. left.
    split; [now apply Htarget | reflexivity].
  - right. right. right. right. left. exists t. split; [exact Hc | reflexivity].
  - right. right. right. left. exists m. split; [exact Hc | reflexivity].
  - right. right. right. right. right. right. left.
    split; [now apply Hact | reflexivity].
  - do 7 right. split; [exact Hc | reflexivity].
Qed.

(** ** facts.go: the totals *)

Lemma maxEnd_fold (events : list TraceEvent) (a : Q) :
  let r := fold_left
             (fun mx e => if Qlt_bool mx (endOf e) then endOf e else mx)
             events a in
  (r = a \/ exists e, e ∈ events /\ r = endOf e)
  /\ (a <= r)%Q
  /\ forall e, e ∈ events -> (endOf e <= r)%Q.
Proof.
  revert a. induction events as [| e events IH]; intros a; simpl.
  - split; [now left |]. split; [lra |]. intros e He. inversion He.
  - destruct (IH (if Qlt_bool a (endOf e) then endOf e else a))
      as (H1 & H2 & H3).
    destruct (Qlt_bool a (endOf e)) eqn:E; qbool.
    + split; [| split].
      * destruct H1 as [H1 | (e' & He' & H1)].
        -- right. exists e. split; [apply list_elem_of_here | exact H1].
        -- right. exists e'. split; [now apply list_elem_of_further | exact H1].
      * lra.
      * intros e' He'. apply elem_of_cons in He' as [-> | He'];
          [exact H2 | now apply H3].
    + split; [| split].
      * destruct H1 as [H1 | (e' & He' & H1)]; [now left |].
        right. exists e'. split; [now apply list_elem_of_further | exact H1].
      * exact H2.
      * intros e' He'. apply elem_of_cons in He' as [-> | He'];
          [lra | now apply H3].
Qed.

Lemma firstPassLoop_totals (events : list TraceEvent) (i : nat)
    (st : FirstPass) :
  (totalDuration (firstPassLoop i events st)
   == totalDuration st + Qsum (map Dur events))%Q
  /\ maxEnd (firstPassLoop i events st)
     = fold_left (fun mx e => if Qlt_bool mx (endOf e) then endOf e else mx)
         events (maxEnd st)
  /\ (actionableTime (firstPassLoop i events st)
      == actionableTime st
         + Qsum (map Dur (List.filter isActionableEvent events)))%Q
  /\ actionableCount (firstPassLoop i events st)
     = (actionableCount st + countIf isActionableEvent events)%Z.
Proof.
  revert i st. induction events as [| e events IH]; intros i st; simpl.
  - repeat split; first [lra | lia | reflexivity].
  - destruct (IH (S i) (firstPassStep i e st)) as (H1 & H2 & H3 & H4).
    destruct (firstPassStep_fields i e st) as (_ & F1 & F2 & F3 & F4).
    rewrite H1, H2, H3, H4, F1, F2, F3, F4.
    destruct (isActionableEvent e); simpl;
      repeat split; first [lra | lia | reflexivity].
Qed.

Lemma maxEndOf_firstPass (events : list TraceEvent) :
  maxEnd (firstPass events) = maxEndOf events.
Proof.
  unfold firstPass.
  destruct (firstPassLoop_totals events 0 emptyPass) as (_ & -> & _).
  reflexivity.
Qed.

(** X13: the totals of [GenerateFacts].  [total_actions] is the number of
    events; [total_action_time] is the sum of all durations;
    [total_duration] is the latest end time of any event, and 0 when there
    is no event or none ends after time 0; there is one [total_duration]
    fact only. *)
Theorem GenerateFacts_totals (events : list TraceEvent) :
  mkFact "total_actions" [intV (length events)] ∈ GenerateFacts events
  /\ (exists q,
        mkFact "total_action_time" [VFloat q] ∈ GenerateFacts events
        /\ (q == Qsum (map Dur events))%Q)
  /\ (exists q,
        mkFact "total_duration" [VFloat q] ∈ GenerateFacts events
        /\ (forall args,
              mkFact "total_duration" args ∈ GenerateFacts events ->
              args = [VFloat q])
        /\ (0 <= q)%Q
        /\ (forall e, e ∈ events -> (endOf e <= q)%Q)
        /\ (q = 0%Q \/ exists e, e ∈ events /\ q = endOf e)).
Proof.
  split; [| split].
  - apply GenerateFacts_elem. right. left. set_solver.
  - exists (totalDuration (firstPass events)). split.
    + apply GenerateFacts_elem. right. left. set_solver.
    + unfold firstPass.
      destruct (firstPassLoop_totals events 0 emptyPass) as (H1 & _).
      rewrite H1. simpl. lra.
  - exists (maxEnd (firstPass events)). split; [| split].
    + apply GenerateFacts_elem. right. left. set_solver.
    + intros args Hin. in_parts Hin.
      apply elem_of_cons in Hin as [Hin | Hin];
        [now injection Hin as -> | not_here Hin].
    + rewrite maxEndOf_firstPass. unfold maxEndOf.
      destruct (maxEnd_fold events 0) as (H1 & H2 & H3).
      split; [exact H2 |]. split; [exact H3 | exact H1].
Qed.

(** X14: [actionable_count] is the number of events that get an
    [is_actionable] fact (a target, or an actionable category with a
    non-nil mnemonic), and [actionable_time] is the sum of the durations of
    those events. *)
Theorem GenerateFacts_actionable_totals (events : list TraceEvent) :
  exists (q : Q) (n : Z),
    mkFact "actionable_time" [VFloat q] ∈ GenerateFacts events
    /\ mkFact "actionable_count" [VInt n] ∈ GenerateFacts events
    /\ (q == Qsum (map Dur (List.filter isActionableEvent events)))%Q
    /\ n = countIf isActionableEvent events
    /\ (forall i e, events !! i = Some e ->
          (isActionableEvent e = true
           <-> mkFact "is_actionable" [intV i] ∈ GenerateFacts events)).
Proof.
  exists (actionableTime (firstPass events)),
    (actionableCount (firstPass events)).
  unfold firstPass at 3 4.
  destruct (firstPassLoop_totals events 0 emptyPass) as (_ & _ & H3 & H4).
  split; [apply GenerateFacts_elem; right; left; set_solver |].
  split; [apply GenerateFacts_elem; right; left; set_solver |].
  split; [rewrite H3; simpl; lra |].
  split; [rewrite H4; simpl; lia |].
  intros i e Hi.
  rewrite GenerateFacts_event_elem
    by (unfold eventPredicates; simpl; set_solver).
  split.
  - intros Ha. exists i, e. split; [exact Hi |]. apply eventFacts_elem.
    do 6 right. left. split; [exact Ha | reflexivity].
  - intros (k & e' & Hk & Hf). apply eventFacts_elem in Hf.
    destruct Hf as [Hf | [Hf | [Hf | [(m' & Hm & Hf) | [(t' & Ht & Hf)
      | [(Hc & Hf) | [(Hc & Hf) | (Hc & Hf)]]]]]]]; try discriminate Hf.
    injection Hf as Hf. apply Nat2Z.inj in Hf. subst k.
    rewrite Hi in Hk. injection Hk as <-. exact Hc.
Qed.

(** ** facts.go: the aggregate maps *)

Section UpsertFacts.
Context {V : Type}.

Lemma assoc_upsert (f : option V -> V) (k k' : string)
    (m : list (string * V)) :
  assoc k' (upsert f k m)
  = if String.eqb k k' then Some (f (assoc k m)) else assoc k' m.
Proof.
  induction m as [| [k0 v0] m IH]; simpl.
  - reflexivity.
  - destruct (String.eqb k0 k) eqn:E0; simpl.
    + apply String.eqb_eq in E0. subst k0.
      destruct (String.eqb k k'); reflexivity.
    + rewrite IH. destruct (String.eqb k0 k') eqn:E1; [| reflexivity].
      apply String.eqb_eq in E1. subst k0.
      rewrite String.eqb_sym, E0. reflexivity.
Qed.

Lemma upsert_keys (f : option V -> V) (k : string) (m : list (string * V)) :
  (upsert f k m).*1 = m.*1
  \/ ((k ∉ m.*1) /\ (upsert f k m).*1 = m.*1 ++ [k]).
Proof.
  induction m as [| [k0 v0] m IH]; cbn [upsert].
  - right. split; [apply not_elem_of_nil | reflexivity].
  - destruct (String.eqb k0 k) eqn:E0; rewrite !fmap_cons; cbn [fst];
      [now left |].
    apply String.eqb_neq in E0.
    destruct IH as [-> | [Hk ->]]; [now left |].
    right. split; [| reflexivity].
    rewrite not_elem_of_cons. split; [congruence | exact Hk].
Qed.

Lemma upsert_NoDup (f : option V -> V) (k : string) (m : list (string * V)) :
  NoDup (m.*1) -> NoDup ((upsert f k m).*1).
Proof.
  intros Hnd. destruct (upsert_keys f k m) as [-> | [Hk ->]]; [exact Hnd |].
  apply NoDup_app. split; [exact Hnd |]. split.
  - intros x Hx Hx'. apply list_elem_of_singleton in Hx'. now subst.
  - apply NoDup_singleton.
Qed.

Lemma assoc_elem (k : string) (v : V) (m : list (string * V)) :
  NoDup (m.*1) -> ((k, v) ∈ m <-> assoc k m = Some v).
Proof.
  induction m as [| [k0 v0] m IH]; cbn [assoc]; intros Hnd.
  - split; [intros Hin; inversion Hin | discriminate].
  - rewrite fmap_cons in Hnd. cbn [fst] in Hnd.
    apply NoDup_cons in Hnd as [Hk0 Hnd]. rewrite elem_of_cons.
    destruct (String.eqb k0 k) eqn:E0.
    + apply String.eqb_eq in E0. subst k0. split.
      * intros [Heq | Hin]; [congruence |]. exfalso. apply Hk0.
        apply list_elem_of_fmap. now exists (k, v).
      * intros Heq. left. congruence.
    + apply String.eqb_neq in E0. rewrite <- (IH Hnd). split.
      * intros [Heq | Hin]; [congruence | exact Hin].
      * intros Hin. now right.
Qed.

(** A loop that updates the entry of each event's key. *)
Lemma aggregate_fold (key : TraceEvent -> option string)
    (f : TraceEvent -> option V -> V)
    (step : list (string * V) -> TraceEvent -> list (string * V)) :
  (forall m e,
     step m e = match key e with Some k => upsert (f e) k m | None => m end) ->
  forall (events : list TraceEvent) (m0 : list (string * V)),
    NoDup (m0.*1) ->
    NoDup ((fold_left step events m0).*1)
    /\ forall k,
         assoc k (fold_left step events m0)
         = fold_left
             (fun o e => if bool_decide (key e = Some k) then Some (f e o)
                         else o)
             events (assoc k m0).
Proof.
  intros Hstep events.
  induction events as [| e events IH]; intros m0 Hnd; simpl.
  - split; [exact Hnd | reflexivity].
  - assert (Hnd1 : NoDup ((step m0 e).*1)).
    { rewrite Hstep. destruct (key e); [now apply upsert_NoDup | exact Hnd]. }
    destruct (IH (step m0 e) Hnd1) as [I1 I2]. split; [exact I1 |].
    intros k. rewrite I2. f_equal. rewrite Hstep.
    destruct (key e) as [k' |].
    + rewrite assoc_upsert. destruct (String.eqb k' k) eqn:E.
      * apply String.eqb_eq in E. subst k'.
        now rewrite bool_decide_eq_true_2.
      * apply String.eqb_neq in E.
        rewrite bool_decide_eq_false_2; [reflexivity | congruence].
    + now rewrite bool_decide_eq_false_2.
Qed.

End UpsertFacts.

Lemma addTime_upsert (key : string) (d : Q) (m : list (string * Q)) :
  addTime key d m = upsert (fun o => (default 0 o + d)%Q) key m.
Proof.
  induction m as [| [k v] m IH]; simpl; [reflexivity |].
  destruct (String.eqb k key); [reflexivity | now rewrite IH].
Qed.

Lemma addCount_upsert (key : string) (m : list (string * Z)) :
  addCount key m = upsert (fun o => (default 0 o + 1)%Z) key m.
Proof.
  induction m as [| [k v] m IH]; simpl; [reflexivity |].
  destruct (String.eqb k key); [reflexivity | now rewrite IH].
Qed.

Lemma filter_none {A} (sel : A -> bool) (l : list A) :
  existsb sel l = false -> List.filter sel l = [].
Proof.
  induction l as [| x l IH]; simpl; [reflexivity |].
  destruct (sel x); simpl; [discriminate | exact IH].
Qed.

Lemma existsb_elem {A} (sel : A -> bool) (l : list A) :
  existsb sel l = true <-> exists x, x ∈ l /\ sel x = true.
Proof.
  rewrite existsb_exists. split; intros (x & Hx & Hs); exists x;
    (split; [now apply list_elem_of_In | exact Hs]).
Qed.

(** The entry of one key after the loop: the durations, and the number, of
    the events selected by [sel]. *)
Lemma time_entry (sel : TraceEvent -> bool) (events : list TraceEvent)
    (o : option Q) :
  let r := fold_left (fun o e => if sel e then Some (default 0 o + Dur e)%Q
                                 else o) events o in
  if existsb sel events
  then exists v, r = Some v
                 /\ (v == default 0 o + Qsum (map Dur (List.filter sel events)))%Q
  else r = o.
Proof.
  revert o. induction events as [| e events IH]; intros o; simpl;
    [reflexivity |].
  destruct (sel e) eqn:E; simpl.
  - specialize (IH (Some (default 0 o + Dur e)%Q)). simpl in IH.
    destruct (existsb sel events) eqn:Ex.
    + destruct IH as (v & Hv & Hq). exists v. split; [exact Hv |].
      rewrite Hq. lra.
    + eexists. split; [exact IH |]. rewrite (filter_none sel events Ex).
      simpl. lra.
  - apply IH.
Qed.

Lemma count_entry (sel : TraceEvent -> bool) (events : list TraceEvent)
    (o : option Z) :
  fold_left (fun o e => if sel e then Some (default 0 o + 1)%Z else o)
    events o
  = if existsb sel events
    then Some (default 0 o + countIf sel events)%Z
    else o.
Proof.
  revert o. induction events as [| e events IH]; intros o; simpl;
    [reflexivity |].
  destruct (sel e) eqn:E; simpl.
  - rewrite IH. simpl. destruct (existsb sel events) eqn:Ex.
    + f_equal. lia.
    + f_equal.
      assert (Hz : countIf sel events = 0%Z).
      { clear -Ex. induction events as [| x l IH]; simpl in *; [reflexivity |].
        destruct (sel x); simpl in *; [discriminate |]. now rewrite IH. }
      lia.
  - apply IH.
Qed.

Lemma fold_left_sel {A} (key : TraceEvent -> option string) (k : string)
    (sel : TraceEvent -> bool) (g : TraceEvent -> A -> A)
    (events : list TraceEvent) (a : A) :
  (forall e, sel e = true <-> key e = Some k) ->
  fold_left (fun o e => if bool_decide (key e = Some k) then g e o else o)
    events a
  = fold_left (fun o e => if sel e then g e o else o) events a.
Proof.
  intros Hsel. revert a. induction events as [| e events IH]; intros a; simpl;
    [reflexivity |].
  rewrite IH. f_equal. destruct (sel e) eqn:E.
  - rewrite bool_decide_eq_true_2; [reflexivity | now apply Hsel].
  - rewrite bool_decide_eq_false_2; [reflexivity |].
    intros Hk. apply Hsel in Hk. congruence.
Qed.

(** Membership in a time map and in a count map built by such a loop. *)
Lemma time_map_elem (key : TraceEvent -> option string)
    (step : list (string * Q) -> TraceEvent -> list (string * Q))
    (sel : TraceEvent -> bool) (k : string) (events : list TraceEvent) :
  (forall m e,
     step m e
     = match key e with Some k => addTime k (Dur e) m | None => m end) ->
  (forall e, sel e = true <-> key e = Some k) ->
  (forall q, (k, q) ∈ fold_left step events [] ->
     existsb sel events = true
     /\ (q == Qsum (map Dur (List.filter sel events)))%Q)
  /\ (existsb sel events = true -> exists q, (k, q) ∈ fold_left step events []).
Proof.
  intros Hstep Hsel.
  destruct (aggregate_fold key (fun e o => (default 0 o + Dur e)%Q) step)
    with (events := events) (m0 := @nil (string * Q)) as [Hnd Hassoc].
  { intros m e. rewrite Hstep. destruct (key e); [| reflexivity].
    apply addTime_upsert. }
  { constructor. }
  specialize (Hassoc k). simpl in Hassoc.
  rewrite (fold_left_sel key k sel (fun e o => Some (default 0 o + Dur e)%Q)
             events None Hsel) in Hassoc.
  pose proof (time_entry sel events None) as Hentry. simpl in Hentry.
  rewrite <- Hassoc in Hentry.
  split.
  - intros q Hin. apply (assoc_elem k q _ Hnd) in Hin.
    destruct (existsb sel events); [| congruence].
    split; [reflexivity |].
    destruct Hentry as (v & Hv & Hq). rewrite Hin in Hv. injection Hv as <-.
    rewrite Hq. lra.
  - intros Hex. rewrite Hex in Hentry. destruct Hentry as (v & Hv & _).
    exists v. now apply (assoc_elem k v _ Hnd).
Qed.

Lemma count_map_elem (key : TraceEvent -> option string)
    (step : list (string * Z) -> TraceEvent -> list (string * Z))
    (sel : TraceEvent -> bool) (k : string) (events : list TraceEvent)
    (n : Z) :
  (forall m e,
     step m e = match key e with Some k => addCount k m | None => m end) ->
  (forall e, sel e = true <-> key e = Some k) ->
  (k, n) ∈ fold_left step events []
  <-> existsb sel events = true /\ n = countIf sel events.
Proof.
  intros Hstep Hsel.
  destruct (aggregate_fold key (fun _ o => (default 0 o + 1)%Z) step)
    with (events := events) (m0 := @nil (string * Z)) as [Hnd Hassoc].
  { intros m e. rewrite Hstep. destruct (key e); [| reflexivity].
    apply addCount_upsert. }
  { constructor. }
  specialize (Hassoc k). simpl in Hassoc.
  rewrite (fold_left_sel key k sel (fun _ o => Some (default 0 o + 1)%Z)
             events None Hsel) in Hassoc.
  rewrite count_entry in Hassoc. simpl in Hassoc.
  rewrite (assoc_elem k n _ Hnd), Hassoc.
  destruct (existsb sel events); split.
  - intros Heq. injection Heq as <-. split; [reflexivity | lia].
  - intros [_ ->]. f_equal.
  - discriminate.
  - intros [Hf _]. discriminate.
Qed.

Lemma timeFacts_elem (p : string) (m : list (string * Q)) (k : string)
    (q : Q) :
  mkFact p [VString k; VFloat q] ∈ timeFacts p m <-> (k, q) ∈ m.
Proof.
  unfold timeFacts. split.
  - intros Hin. apply list_elem_of_fmap in Hin as [[k' q'] [Heq Hin]].
    simpl in Heq. now injection Heq as -> ->.
  - intros Hin. apply list_elem_of_fmap. now exists (k, q).
Qed.

Lemma countFacts_elem (p : string) (m : list (string * Z)) (k : string)
    (n : Z) :
  mkFact p [VString k; VInt n] ∈ countFacts p m <-> (k, n) ∈ m.
Proof.
  unfold countFacts. split.
  - intros Hin. apply list_elem_of_fmap in Hin as [[k' n'] [Heq Hin]].
    simpl in Heq. now injection Heq as -> ->.
  - intros Hin. apply list_elem_of_fmap. now exists (k, n).
Qed.

(** X15: the category aggregates.  [GenerateFacts] emits
    [category_count(cat, n)] exactly when some event has the category
    [cat] and [n] is the number of events of that category; every
    [category_time(cat, q)] it emits carries the sum of the durations of
    those events, and there is one for every category that occurs. *)
Theorem GenerateFacts_category_aggregates (events : list TraceEvent)
    (cat : string) :
  (forall n,
     mkFact "category_count" [VString cat; VInt n] ∈ GenerateFacts events
     <-> (exists e, e ∈ events /\ Cat e = cat)
         /\ n = countIf (fun e => String.eqb (Cat e) cat) events)
  /\ (forall q,
        mkFact "category_time" [VString cat; VFloat q] ∈ GenerateFacts events ->
        (q == Qsum (map Dur (List.filter (fun e => String.eqb (Cat e) cat)
                              events)))%Q)
  /\ ((exists e, e ∈ events /\ Cat e = cat) <->
      exists q,
        mkFact "category_time" [VString cat; VFloat q] ∈ GenerateFacts events).
Proof.
  set (sel := fun e => String.eqb (Cat e) cat).
  assert (Hsel : forall e, sel e = true <-> Some (Cat e) = Some cat).
  { intros e. unfold sel. rewrite String.eqb_eq. split; congruence. }
  assert (Hex : existsb sel events = true
                <-> exists e, e ∈ events /\ Cat e = cat).
  { rewrite existsb_elem. unfold sel. setoid_rewrite String.eqb_eq.
    reflexivity. }
  pose proof (fun n =>
    count_map_elem (fun e => Some (Cat e))
      (fun m e => addCount (Cat e) m) sel cat events n
      (fun m e => eq_refl) Hsel) as Hcount.
  destruct (time_map_elem (fun e => Some (Cat e))
              (fun m e => addTime (Cat e) (Dur e) m) sel cat events
              (fun m e => eq_refl) Hsel) as [Ht1 Ht2].
  fold (categoryCount events) in Hcount.
  fold (categoryTime events) in Ht1, Ht2.
  split; [| split].
  - intros n. rewrite <- Hex, <- Hcount, <- countFacts_elem. split.
    + intros Hin. in_parts Hin. exact Hin.
    + intros Hin. apply GenerateFacts_elem. do 3 right. now left.
  - intros q Hin. in_parts Hin. apply timeFacts_elem in Hin.
    now apply Ht1.
  - rewrite <- Hex. split.
    + intros He. destruct (Ht2 He) as (q & Hq). exists q.
      apply GenerateFacts_elem. do 2 right. left. now apply timeFacts_elem.
    + intros (q & Hin). in_parts Hin. apply timeFacts_elem in Hin.
      now apply Ht1 in Hin.
Qed.

(** X16: the mnemonic aggregates count an event only when its mnemonic
    argument is a string and it has a target as well.  [mnemonic_count(m,
    n)] is emitted exactly when some such event has the mnemonic [m] and
    [n] is their number, and [mnemonic_time(m, q)] carries the sum of their
    durations; an event with a mnemonic but no target adds to neither. *)
Theorem GenerateFacts_mnemonic_aggregates (events : list TraceEvent)
    (m : string) :
  (forall n,
     mkFact "mnemonic_count" [VString m; VInt n] ∈ GenerateFacts events
     <-> (exists e, e ∈ events /\ mnemonicKey e = Some m)
         /\ n = countIf (fun e => bool_decide (mnemonicKey e = Some m)) events)
  /\ (forall q,
        mkFact "mnemonic_time" [VString m; VFloat q] ∈ GenerateFacts events ->
        (q == Qsum (map Dur (List.filter
                              (fun e => bool_decide (mnemonicKey e = Some m))
                              events)))%Q)
  /\ ((exists e, e ∈ events /\ mnemonicKey e = Some m) <->
      exists q,
        mkFact "mnemonic_time" [VString m; VFloat q] ∈ GenerateFacts events)
  /\ (forall e, mnemonicKey e = Some m <->
        argString e "mnemonic" = Some m /\ is_Some (eventTarget e)).
Proof.
  set (sel := fun e => bool_decide (mnemonicKey e = Some m)).
  assert (Hsel : forall e, sel e = true <-> mnemonicKey e = Some m).
  { intros e. unfold sel. apply bool_decide_eq_true. }
  assert (Hex : existsb sel events = true
                <-> exists e, e ∈ events /\ mnemonicKey e = Some m).
  { rewrite existsb_elem. setoid_rewrite Hsel. reflexivity. }
  assert (Hc : forall (mp : list (string * Z)) e,
            match argString e "mnemonic", eventTarget e with
            | Some mnemonic, Some _ => addCount mnemonic mp
            | _, _ => mp
            end
            = match mnemonicKey e with
              | Some k => addCount k mp
              | None => mp
              end).
  { intros mp e. unfold mnemonicKey.
    destruct (argString e "mnemonic"), (eventTarget e); reflexivity. }
  assert (Ht : forall (mp : list (string * Q)) e,
            match argString e "mnemonic", eventTarget e with
            | Some mnemonic, Some _ => addTime mnemonic (Dur e) mp
            | _, _ => mp
            end
            = match mnemonicKey e with
              | Some k => addTime k (Dur e) mp
              | None => mp
              end).
  { intros mp e. unfold mnemonicKey.
    destruct (argString e "mnemonic"), (eventTarget e); reflexivity. }
  pose proof (fun n =>
    count_map_elem mnemonicKey _ sel m events n Hc Hsel) as Hcount.
  destruct (time_map_elem mnemonicKey _ sel m events Ht Hsel) as [Ht1 Ht2].
  fold (mnemonicCount events) in Hcount.
  fold (mnemonicTime events) in Ht1, Ht2.
  split; [| split; [| split]].
  - intros n. rewrite <- Hex, <- Hcount, <- countFacts_elem. split.
    + intros Hin. in_parts Hin. exact Hin.
    + intros Hin. apply GenerateFacts_elem. do 5 right. now left.
  - intros q Hin. in_parts Hin. apply timeFacts_elem in Hin.
    now apply Ht1.
  - rewrite <- Hex. split.
    + intros He. destruct (Ht2 He) as (q & Hq). exists q.
      apply GenerateFacts_elem. do 4 right. left. now apply timeFacts_elem.
    + intros (q & Hin). in_parts Hin. apply timeFacts_elem in Hin.
      now apply Ht1 in Hin.
  - intros e. unfold mnemonicKey.
    destruct (argString e "mnemonic") as [m' |], (eventTarget e) as [t |];
      split; try discriminate.
    + intros Heq. split; [exact Heq | now eexists].
    + intros [Heq _]. exact Heq.
    + intros [_ [? Hn]]. discriminate.
    + intros [Heq _]. discriminate.
    + intros [Heq _]. discriminate.
Qed.

(** X17: the per-target times.  Every [target_time(t, q)] that
    [GenerateFacts] emits carries the sum of the durations of the events
    whose target is [t], and there is one for every target that occurs;
    events without a target (or with an empty one) add to none. *)
Theorem GenerateFacts_target_time (events : list TraceEvent) (t : string) :
  (forall q,
     mkFact "target_time" [VString t; VFloat q] ∈ GenerateFacts events ->
     (q == Qsum (map Dur (List.filter
                           (fun e => bool_decide (eventTarget e = Some t))
                           events)))%Q)
  /\ ((exists e, e ∈ events /\ eventTarget e = Some t) <->
      exists q,
        mkFact "target_time" [VString t; VFloat q] ∈ GenerateFacts events)
  /\ (forall q,
        mkFact "target_time" [VString t; VFloat q] ∈ GenerateFacts events ->
        t <> "").
Proof.
  set (sel := fun e => bool_decide (eventTarget e = Some t)).
  assert (Hsel : forall e, sel e = true <-> eventTarget e = Some t).
  { intros e. unfold sel. apply bool_decide_eq_true. }
  assert (Hex : existsb sel events = true
                <-> exists e, e ∈ events /\ eventTarget e = Some t).
  { rewrite existsb_elem. setoid_rewrite Hsel. reflexivity. }
  destruct (time_map_elem eventTarget
              (fun m e => match eventTarget e with
                          | Some target => addTime target (Dur e) m
                          | None => m
                          end) sel t events (fun m e => eq_refl) Hsel)
    as [Ht1 Ht2].
  fold (targetTime events) in Ht1, Ht2.
  assert (Hsound : forall q,
            mkFact "target_time" [VString t; VFloat q] ∈ GenerateFacts events ->
            (t, q) ∈ targetTime events).
  { intros q Hin. in_parts Hin. now apply timeFacts_elem in Hin. }
  split; [| split].
  - intros q Hin. now apply Ht1, Hsound.
  - rewrite <- Hex. split.
    + intros He. destruct (Ht2 He) as (q & Hq). exists q.
      apply GenerateFacts_elem. do 6 right. left. now apply timeFacts_elem.
    + intros (q & Hin). now apply Hsound, Ht1 in Hin.
  - intros q Hin. apply Hsound, Ht1 in Hin as [Hin _].
    apply Hex in Hin as (e & _ & He). unfold eventTarget in He.
    destruct (argString e "target") as [s |]; [| discriminate].
    destruct (String.eqb s "") eqn:E; [discriminate |].
    injection He as <-. now apply String.eqb_neq.
Qed.

(** ** facts.go: concurrency and the critical path *)

Lemma delta_le_starts (l : list timePoint) : (delta l <= countIf isStart l)%Z.
Proof.
  induction l as [| p l IH]; simpl; [lia |].
  unfold pointDelta. destruct (isStart p); lia.
Qed.

Lemma starts_makePoints (events : list TraceEvent) :
  countIf isStart (makePoints events) = Z.of_nat (length events).
Proof.
  induction events as [| e events IH]; simpl; [reflexivity |].
  rewrite IH. lia.
Qed.

(** X18: [computeMaxConcurrency] lies between 0 and the number of events;
    for a non-empty list of events with non-negative durations it is at
    least 1.  (An event of negative duration ends before it starts, and a
    list of such events can give 0.) *)
Theorem computeMaxConcurrency_bounds (events : list TraceEvent) :
  (0 <= computeMaxConcurrency events <= Z.of_nat (length events))%Z
  /\ (events <> [] -> Forall (fun e => (0 <= Dur e)%Q) events ->
      (1 <= computeMaxConcurrency events)%Z)
  /\ computeMaxConcurrency [plainEvent 10 (-5)] = 0%Z.
Proof.
  split; [| split; [| reflexivity]].
  - unfold computeMaxConcurrency. destruct events as [| e0 events]; [simpl; lia |].
    set (evs := e0 :: events).
    set (pts := exchangeSort swapPoints (makePoints evs)).
    assert (Hperm : Permutation (makePoints evs) pts)
      by apply exchangeSort_perm.
    split.
    + unfold sweep. destruct (sweep_fold_inv pts 0 0 ltac:(lia)) as (H1 & _).
      exact H1.
    + rewrite <- starts_makePoints, (countIf_perm isStart _ _ Hperm).
      unfold sweep.
      destruct (sweep_fold_upper pts 0 0) as [-> | (l1 & p & l2 & Hpts & _ & ->)].
      * apply countIf_nonneg.
      * rewrite Hpts.
        pose proof (delta_le_starts (l1 ++ [p])) as Hd.
        rewrite !countIf_app in *. simpl in *.
        pose proof (countIf_nonneg isStart l2). lia.
  - intros Hne Hdur. unfold computeMaxConcurrency.
    destruct events as [| e0 events]; [congruence |].
    set (evs := e0 :: events) in *.
    set (pts := exchangeSort swapPoints (makePoints evs)).
    assert (Hperm : Permutation (makePoints evs) pts)
      by apply exchangeSort_perm.
    assert (Hsorted : pointsSorted pts).
    { apply exchangeSort_sorted.
      - apply swapPoints_irrefl.
      - apply swapPoints_trans.
      - apply swapPoints_neg_trans. }
    pose proof (sorted_sweep_lower (Ts e0) pts Hsorted) as Hlow.
    rewrite <- (countIf_perm (startedBy (Ts e0)) _ _ Hperm) in Hlow.
    rewrite <- (countIf_perm (endedBefore (Ts e0)) _ _ Hperm) in Hlow.
    rewrite <- (concurrency_by_points (Ts e0) evs Hdur) in Hlow.
    assert (Hrun : (1 <= concurrencyAt runningClosed (Ts e0) evs)%Z).
    { unfold concurrencyAt, evs. simpl.
      assert (Hself : runningClosed (Ts e0) e0 = true).
      { unfold runningClosed. apply andb_true_iff.
        inversion Hdur; subst. split; qbool; lra. }
      rewrite Hself.
      pose proof (countIf_nonneg (runningClosed (Ts e0)) events). lia. }
    lia.
Qed.

Lemma computeMaxConcurrency_bounds_witness :
  (1 <= computeMaxConcurrency overlapEvents)%Z.
Proof.
  destruct (computeMaxConcurrency_bounds overlapEvents) as (_ & Hone & _).
  apply Hone; [discriminate | repeat constructor; discriminate].
Defined.

(** *** The event that ends last *)

Lemma hasTarget_Some (e : TraceEvent) :
  hasTarget e = true <-> is_Some (eventTarget e).
Proof.
  unfold hasTarget. destruct (eventTarget e); split; intros Hh;
    first [reflexivity | discriminate Hh | now eexists
          | destruct Hh; discriminate].
Qed.

Lemma lastActionable_spec (events : list TraceEvent) (i : nat)
    (st : option (nat * TraceEvent) * Q) :
  (snd st <= snd (lastActionable i events st))%Q
  /\ (forall k e, events !! k = Some e -> hasTarget e = true ->
        (endOf e <= snd (lastActionable i events st))%Q)
  /\ (lastActionable i events st = st
      \/ exists k e,
           events !! k = Some e /\ hasTarget e = true
           /\ lastActionable i events st = (Some (i + k, e), endOf e)
           /\ (snd st < endOf e)%Q
           /\ forall j e', j < k -> events !! j = Some e' ->
                hasTarget e' = true -> (endOf e' < endOf e)%Q).
Proof.
  revert i st. induction events as [| e events IH]; intros i st.
  - simpl. split; [lra |]. split; [| now left].
    intros k e Hk. rewrite lookup_nil in Hk. discriminate.
  - cbn [lastActionable]. fold (endOf e). unfold hasTarget in *.
    destruct (eventTarget e) as [t |] eqn:Et.
    + destruct (Qlt_bool (snd st) (endOf e)) eqn:Elt; qbool.
      * destruct (IH (S i) (Some (i, e), endOf e)) as (H1 & H2 & H3).
        simpl in H1. split; [lra |]. split.
        -- intros [| k] e' Hk Ht; simpl in Hk.
           ++ injection Hk as <-. exact H1.
           ++ now apply (H2 k).
        -- right. destruct H3 as [H3 | (k & e' & Hk & Ht & H3 & H4 & H5)].
           ++ exists 0, e. rewrite Nat.add_0_r, Et.
              repeat split; try assumption. intros j e' Hj. lia.
           ++ exists (S k), e'. simpl in H4.
              replace (i + S k) with (S i + k) by lia.
              repeat split; try assumption; [lra |].
              intros [| j] e'' Hj Hj' Ht''; simpl in Hj'.
              ** injection Hj' as <-. exact H4.
              ** apply (H5 j e''); [lia | assumption | assumption].
      * destruct (IH (S i) st) as (H1 & H2 & H3).
        split; [exact H1 |]. split.
        -- intros [| k] e' Hk Ht; simpl in Hk.
           ++ injection Hk as <-. lra.
           ++ now apply (H2 k).
        -- destruct H3 as [H3 | (k & e' & Hk & Ht & H3 & H4 & H5)];
             [now left |].
           right. exists (S k), e'.
           replace (i + S k) with (S i + k) by lia.
           repeat split; try assumption.
           intros [| j] e'' Hj Hj' Ht''; simpl in Hj'.
           ** injection Hj' as <-. lra.
           ** apply (H5 j e''); [lia | assumption | assumption].
    + destruct (IH (S i) st) as (H1 & H2 & H3).
      split; [exact H1 |]. split.
      * intros [| k] e' Hk Ht; simpl in Hk.
        -- injection Hk as <-. rewrite Et in Ht. discriminate.
        -- now apply (H2 k).
      * destruct H3 as [H3 | (k & e' & Hk & Ht & H3 & H4 & H5)];
          [now left |].
        right. exists (S k), e'.
        replace (i + S k) with (S i + k) by lia.
        repeat split; try assumption.
        intros [| j] e'' Hj Hj' Ht''; simpl in Hj'.
        -- injection Hj' as <-. rewrite Et in Ht''. discriminate.
        -- apply (H5 j e''); [lia | assumption | assumption].
Qed.

Lemma maxEndOf_bounds (events : list TraceEvent) (e : TraceEvent) :
  e ∈ events -> (endOf e <= maxEndOf events)%Q.
Proof.
  intros He. destruct (maxEnd_fold events 0) as (_ & _ & H3).
  now apply H3.
Qed.

(** X19: the [critical_path_end] fact names the event with a target that
    ends last: its id is that event's position, no event with a target
    ends later, and those before it end strictly earlier (of several that
    end last, the first is taken).  Its end time is positive, so the fact
    is emitted exactly when some event with a target ends after time 0,
    and then [critical_path_percent] is emitted with it. *)
Theorem critical_path_end_is_last (events : list TraceEvent) :
  (forall args,
     mkFact "critical_path_end" args ∈ GenerateFacts events ->
     exists i ev t,
       args = [intV i; VString (Name ev); VFloat (Dur ev); VString t]
       /\ events !! i = Some ev
       /\ eventTarget ev = Some t
       /\ (0 < endOf ev)%Q
       /\ (forall j e, events !! j = Some e -> is_Some (eventTarget e) ->
             (endOf e <= endOf ev)%Q /\ (j < i -> (endOf e < endOf ev)%Q))
       /\ mkFact "critical_path_percent"
            [VFloat (Dur ev / maxEndOf events * 100)%Q]
            ∈ GenerateFacts events)
  /\ ((exists args, mkFact "critical_path_end" args ∈ GenerateFacts events)
      <-> exists e,
            e ∈ events /\ is_Some (eventTarget e) /\ (0 < endOf e)%Q).
Proof.
  destruct (lastActionable_spec events 0 (None, 0%Q)) as (H1 & H2 & H3).
  simpl in H1.
  assert (Hcp : forall f, f ∈ computeCriticalPath events ->
                          f ∈ GenerateFacts events).
  { intros f Hf. apply GenerateFacts_elem. now do 8 right. }
  split.
  - intros args Hin. in_parts Hin.
    unfold computeCriticalPath in Hin, Hcp.
    destruct events as [| e0 events]; [inversion Hin |].
    set (evs := e0 :: events) in *.
    destruct H3 as [H3 | (k & ev & Hk & Ht & H3 & H4 & H5)].
    + rewrite H3 in Hin. simpl in Hin.
      apply list_elem_of_fmap in Hin as [a [Hin _]]. discriminate Hin.
    + rewrite H3 in Hin, Hcp. cbn [fst] in Hin, Hcp. simpl in H4.
      assert (Hmax : (0 < maxEndOf evs)%Q).
      { pose proof (maxEndOf_bounds evs ev) as Hb.
        assert (ev ∈ evs) by (eapply list_elem_of_lookup_2; exact Hk).
        specialize (Hb ltac:(assumption)). lra. }
      assert (Hlt : Qlt_bool 0 (maxEndOf evs) = true) by (qbool; exact Hmax).
      rewrite Hlt in Hin, Hcp.
      apply elem_of_app in Hin as [Hin | Hin].
      2:{ apply list_elem_of_fmap in Hin as [a [Hin _]]. discriminate Hin. }
      apply elem_of_cons in Hin as [Hin | Hin].
      2:{ apply list_elem_of_singleton in Hin. discriminate Hin. }
      apply hasTarget_Some in Ht as [t Ht].
      exists k, ev, t. injection Hin as ->.
      assert (Harg : argString ev "target" = Some t).
      { unfold eventTarget in Ht. destruct (argString ev "target") as [s |];
          [| discriminate].
        destruct (String.eqb s ""); [discriminate | exact Ht]. }
      rewrite Harg. simpl.
      split; [reflexivity |]. split; [exact Hk |]. split; [exact Ht |].
      split; [exact H4 |]. split.
      * intros j e Hj He. apply hasTarget_Some in He.
        rewrite H3 in H2. simpl in H2. split; [now apply (H2 j) |].
        intros Hlt'. now apply (H5 j e).
      * apply Hcp. apply elem_of_app. left.
        apply list_elem_of_further, list_elem_of_here.
  - split.
    + intros (args & Hin). in_parts Hin.
      unfold computeCriticalPath in Hin.
      destruct events as [| e0 events]; [inversion Hin |].
      set (evs := e0 :: events) in *.
      destruct H3 as [H3 | (k & ev & Hk & Ht & H3 & H4 & H5)].
      * rewrite H3 in Hin. simpl in Hin.
        apply list_elem_of_fmap in Hin as [a [Hin _]]. discriminate Hin.
      * exists ev. split; [eapply list_elem_of_lookup_2; exact Hk |].
        split; [now apply hasTarget_Some | exact H4].
    + intros (e & He & Ht & Hpos). apply hasTarget_Some in Ht.
      apply list_elem_of_lookup_1 in He as [j Hj].
      pose proof (H2 j e Hj Ht) as Hle.
      destruct H3 as [H3 | (k & ev & Hk & Ht' & H3 & H4 & H5)].
      * rewrite H3 in Hle. simpl in Hle. lra.
      * eexists. apply Hcp. unfold computeCriticalPath.
        destruct events as [| e0 events];
          [rewrite lookup_nil in Hj; discriminate |].
        rewrite H3. cbn [fst]. apply elem_of_app. left.
        apply list_elem_of_here.
Qed.

(** *** The top bottlenecks *)

Lemma actionableEvents_elem (events : list TraceEvent) (i : nat)
    (a : actionableEvent) :
  a ∈ actionableEvents i events
  <-> exists k e t,
        events !! k = Some e /\ eventTarget e = Some t
        /\ a = mkActionableEvent (i + k) (Dur e) (Name e) t.
Proof.
  revert i. induction events as [| e events IH]; intros i; simpl.
  - split; [intros Hin; inversion Hin |].
    intros (k & e & t & Hk & _). rewrite lookup_nil in Hk. discriminate.
  - destruct (eventTarget e) as [t |] eqn:Et.
    + rewrite elem_of_cons, IH. split.
      * intros [-> | (k & e' & t' & Hk & Ht & ->)].
        -- exists 0, e, t. rewrite Nat.add_0_r. now repeat split.
        -- exists (S k), e', t'.
           replace (i + S k) with (S i + k) by lia. now repeat split.
      * intros ([| k] & e' & t' & Hk & Ht & ->); simpl in Hk.
        -- injection Hk as <-. rewrite Et in Ht. injection Ht as <-.
           left. now rewrite Nat.add_0_r.
        -- right. exists k, e', t'.
           replace (S i + k) with (i + S k) by lia. now repeat split.
    + rewrite IH. split.
      * intros (k & e' & t' & Hk & Ht & ->). exists (S k), e', t'.
        replace (i + S k) with (S i + k) by lia. now repeat split.
      * intros ([| k] & e' & t' & Hk & Ht & ->); simpl in Hk.
        -- injection Hk as <-. rewrite Et in Ht. discriminate.
        -- exists k, e', t'.
           replace (S i + k) with (i + S k) by lia. now repeat split.
Qed.

Lemma actionableEvents_length (events : list TraceEvent) (i : nat) :
  length (actionableEvents i events) = length (List.filter hasTarget events).
Proof.
  revert i. induction events as [| e events IH]; intros i; simpl;
    [reflexivity |].
  unfold hasTarget at 1. destruct (eventTarget e); simpl; now rewrite IH.
Qed.

Lemma StronglySorted_app_inv {A} (R : A -> A -> Prop) (l1 l2 : list A) :
  StronglySorted R (l1 ++ l2) ->
  StronglySorted R l1
  /\ forall x y, x ∈ l1 -> y ∈ l2 -> R x y.
Proof.
  induction l1 as [| a l1 IH]; simpl; intros Hs.
  - split; [constructor |]. intros x y Hx. inversion Hx.
  - inversion Hs as [| ? ? Hs' Hall]; subst.
    destruct (IH Hs') as [I1 I2]. rewrite Forall_app in Hall.
    destruct Hall as [Hall1 Hall2]. split.
    + constructor; assumption.
    + intros x y Hx Hy. apply elem_of_cons in Hx as [-> | Hx].
      * rewrite Forall_forall in Hall2. now apply Hall2.
      * now apply I2.
Qed.

Lemma StronglySorted_map {A B} (R : A -> A -> Prop) (S : B -> B -> Prop)
    (g : A -> B) (l : list A) :
  (forall x y, R x y -> S (g x) (g y)) ->
  StronglySorted R l -> StronglySorted S (map g l).
Proof.
  intros Hg. induction 1 as [| a l Hs IH Hall]; simpl; constructor.
  - exact IH.
  - apply Forall_forall. intros y Hy.
    apply list_elem_of_fmap in Hy as [x [-> Hx]]. apply Hg.
    revert x Hx. now apply Forall_forall.
Qed.

(** The facts [potential_bottleneck] of [GenerateFacts] are those of the
    five first entries of the sorted slice. *)
Lemma bottleneckFacts_GenerateFacts (events : list TraceEvent) :
  bottleneckFacts (GenerateFacts events)
  = map (fun a =>
           mkFact "potential_bottleneck"
             [intV (idx a); VString (aname a); VFloat (duration a);
              VFloat (if Qlt_bool 0 (maxEndOf events)
                      then (duration a / maxEndOf events * 100)%Q else 0%Q);
              VString (atarget a)])
      (take 5 (exchangeSort (fun a b => Qlt_bool (duration a) (duration b))
                 (actionableEvents 0 events))).
Proof.
  unfold bottleneckFacts, GenerateFacts.
  rewrite !List.filter_app.
  repeat match goal with
  | |- context [List.filter ?P (fpFacts ?st)] =>
      rewrite (filter_predicate_nil "potential_bottleneck" (fpFacts st))
        by (intros f Hf Hp; apply (fpFacts_predicates events) in Hf;
            rewrite Hp in Hf; unfold eventPredicates in Hf; not_here Hf)
  | |- context [List.filter ?P (timeFacts ?p ?m)] =>
      rewrite (filter_predicate_nil "potential_bottleneck" (timeFacts p m))
        by (intros f Hf Hp; apply list_elem_of_fmap in Hf as [? [-> _]];
            discriminate Hp)
  | |- context [List.filter ?P (countFacts ?p ?m)] =>
      rewrite (filter_predicate_nil "potential_bottleneck" (countFacts p m))
        by (intros f Hf Hp; apply list_elem_of_fmap in Hf as [? [-> _]];
            discriminate Hp)
  end.
  cbn [List.filter FPredicate String.eqb Ascii.eqb Bool.eqb app].
  unfold computeCriticalPath. destruct events as [| e0 events]; [reflexivity |].
  set (evs := e0 :: events).
  rewrite List.filter_app.
  rewrite (filter_predicate_nil "potential_bottleneck").
  - simpl. apply filter_predicate_all.
    intros f Hf. apply list_elem_of_fmap in Hf as [a [-> _]]. reflexivity.
  - intros f Hf Hp.
    destruct (fst (lastActionable 0 evs (None, 0%Q))) as [[i ev] |];
      [| inversion Hf].
    apply elem_of_cons in Hf as [-> | Hf]; [discriminate Hp |].
    destruct (Qlt_bool 0 (maxEndOf evs)); [| inversion Hf].
    apply list_elem_of_singleton in Hf as ->. discriminate Hp.
Qed.

(** X20: the [potential_bottleneck] facts are the (at most) five events
    with a target that last longest.  There are [min 5 k] of them for [k]
    events with a target; they are in order of non-increasing duration;
    each carries the position, name, duration and target of such an
    event; and every event with a target that is not listed lasts at most
    as long as each one listed. *)
Theorem potential_bottlenecks_top_five (events : list TraceEvent) :
  length (bottleneckFacts (GenerateFacts events))
  = Nat.min 5 (length (List.filter hasTarget events))
  /\ StronglySorted
       (fun f g => (bottleneckDuration g <= bottleneckDuration f)%Q)
       (bottleneckFacts (GenerateFacts events))
  /\ (forall f, f ∈ bottleneckFacts (GenerateFacts events) ->
        exists i e t,
          events !! i = Some e /\ eventTarget e = Some t
          /\ f = mkFact "potential_bottleneck"
                   [intV i; VString (Name e); VFloat (Dur e);
                    VFloat (if Qlt_bool 0 (maxEndOf events)
                            then (Dur e / maxEndOf events * 100)%Q else 0%Q);
                    VString t])
  /\ (forall i e, events !! i = Some e -> is_Some (eventTarget e) ->
        (exists f, f ∈ bottleneckFacts (GenerateFacts events)
                   /\ bottleneckIndex f = Some (Z.of_nat i))
        \/ (forall f, f ∈ bottleneckFacts (GenerateFacts events) ->
              (Dur e <= bottleneckDuration f)%Q)).
Proof.
  rewrite bottleneckFacts_GenerateFacts.
  set (swap := fun a b : actionableEvent =>
                 Qlt_bool (duration a) (duration b)).
  set (mk := fun a : actionableEvent => mkFact "potential_bottleneck" _).
  set (sorted := exchangeSort swap (actionableEvents 0 events)).
  assert (Hperm : Permutation (actionableEvents 0 events) sorted)
    by apply exchangeSort_perm.
  assert (Hsorted : StronglySorted (fun x y => swap x y = false) sorted).
  { apply exchangeSort_sorted; unfold swap.
    - intros a. qbool. lra.
    - intros a b c Hab Hca. qbool. lra.
    - intros a b c Hcb.
      destruct (Qlt_bool (duration c) (duration a)) eqn:E; [now left |].
      right. qbool. lra. }
  rewrite <- (take_drop 5 sorted) in Hsorted.
  apply StronglySorted_app_inv in Hsorted as [Htake Hcross].
  split; [| split; [| split]].
  - rewrite length_map, length_take, <- (Permutation_length Hperm).
    rewrite actionableEvents_length. reflexivity.
  - apply (StronglySorted_map (fun x y => swap x y = false)); [| exact Htake].
    intros x y Hxy. unfold swap in Hxy. simpl. qbool. exact Hxy.
  - intros f Hf. apply list_elem_of_fmap in Hf as [a [-> Ha]].
    apply elem_of_take in Ha as (n & Ha & _).
    apply list_elem_of_lookup_2 in Ha.
    rewrite <- Hperm in Ha.
    apply actionableEvents_elem in Ha as (k & e & t & Hk & Ht & ->).
    exists k, e, t. repeat split; assumption.
  - intros i e Hi [t Ht].
    assert (Hin : mkActionableEvent i (Dur e) (Name e) t ∈ sorted).
    { rewrite <- Hperm. apply actionableEvents_elem. now exists i, e, t. }
    rewrite <- (take_drop 5 sorted) in Hin.
    apply elem_of_app in Hin as [Hin | Hin].
    + left. exists (mk (mkActionableEvent i (Dur e) (Name e) t)).
      split; [| reflexivity]. apply list_elem_of_fmap. eexists.
      split; [reflexivity | exact Hin].
    + right. intros f Hf. apply list_elem_of_fmap in Hf as [a [-> Ha]].
      specialize (Hcross a _ Ha Hin). unfold swap in Hcross. simpl in *.
      qbool. exact Hcross.
Qed.

(** *** Event percentages *)

(** X21: [GenerateEventPercentFacts] returns no fact when the total handed
    to it is not positive (there is no division by zero); otherwise it
    returns one [event_percent] fact for every event, in order, with the
    event's position as id and its duration as a percentage of the
    total. *)
Theorem GenerateEventPercentFacts_guarded (events : list TraceEvent)
    (total : Q) :
  GenerateEventPercentFacts events total
  = if Qlt_bool 0 total
    then imap (fun i e =>
                 mkFact "event_percent"
                   [intV i; VFloat (Dur e / total * 100)%Q]) events
    else [].
Proof.
  unfold GenerateEventPercentFacts.
  destruct (Qlt_bool 0 total).
  - assert (Hgen : forall start,
              flat_map
                (fun ie : nat * TraceEvent =>
                   [mkFact "event_percent"
                      [intV (fst ie); VFloat (Dur (snd ie) / total * 100)%Q]])
                (combine (seq start (length events)) events)
              = imap (fun i e =>
                        mkFact "event_percent"
                          [intV (start + i);
                           VFloat (Dur e / total * 100)%Q]) events).
    { induction events as [| e events IH]; intros start; simpl;
        [reflexivity |].
      rewrite Nat.add_0_r. f_equal. rewrite IH.
      apply imap_ext. intros i x _. simpl. do 3 f_equal. lia. }
    rewrite (Hgen 0). apply imap_ext. intros i x _. reflexivity.
  - induction (combine (seq 0 (length events)) events) as [| ie l IH];
      simpl; [reflexivity | exact IH].
Qed.

(** ** suggestions/evaluator.go *)

(** *** The base of the event percentages *)

Lemma totalDuration_fold_other (l : list Fact) (a : Q) :
  (forall f, f ∈ l -> FPredicate f <> "total_duration") ->
  fold_left
    (fun totalDuration f =>
       if String.eqb (FPredicate f) "total_duration"
          && Nat.ltb 0 (length (FArgs f))
       then match FArgs f with
            | VFloat dur :: _ => dur
            | _ => totalDuration
            end
       else totalDuration) l a = a.
Proof.
  revert a. induction l as [| f l IH]; intros a Hall; simpl; [reflexivity |].
  assert (Hf : String.eqb (FPredicate f) "total_duration" = false).
  { apply String.eqb_neq. apply Hall. apply list_elem_of_here. }
  rewrite Hf. simpl. apply IH. intros g Hg. apply Hall.
  now apply list_elem_of_further.
Qed.

Lemma totalDurationOf_GenerateFacts (events : list TraceEvent) :
  totalDurationOf (GenerateFacts events) = maxEndOf events.
Proof.
  rewrite <- maxEndOf_firstPass.
  unfold totalDurationOf, GenerateFacts. fold emptyPass.
  fold (firstPass events). cbv zeta.
  rewrite fold_left_app.
  rewrite (totalDuration_fold_other (fpFacts (firstPass events))).
  2:{ intros f Hf Hp. apply fpFacts_predicates in Hf. rewrite Hp in Hf.
      unfold eventPredicates in Hf. not_here Hf. }
  rewrite fold_left_app. cbn [fold_left FPredicate FArgs length].
  cbn [String.eqb Ascii.eqb Bool.eqb Nat.ltb Nat.leb andb].
  apply totalDuration_fold_other.
  intros f Hf Hp. rewrite !elem_of_app in Hf.
  destruct Hf as [Hf | [Hf | [Hf | [Hf | [Hf | [Hf | Hf]]]]]].
  - apply list_elem_of_fmap in Hf as [? [-> _]]. discriminate Hp.
  - apply list_elem_of_fmap in Hf as [? [-> _]]. discriminate Hp.
  - apply list_elem_of_fmap in Hf as [? [-> _]]. discriminate Hp.
  - apply list_elem_of_fmap in Hf as [? [-> _]]. discriminate Hp.
  - apply list_elem_of_fmap in Hf as [? [-> _]]. discriminate Hp.
  - apply list_elem_of_singleton in Hf as ->. discriminate Hp.
  - apply computeCriticalPath_predicates in Hf. rewrite Hp in Hf.
    unfold criticalPathPredicates in Hf. not_here Hf.
Qed.

Lemma maxEndOf_spec (events : list TraceEvent) :
  (maxEndOf events = 0%Q \/ exists e, e ∈ events /\ maxEndOf events = endOf e)
  /\ (0 <= maxEndOf events)%Q
  /\ forall e, e ∈ events -> (endOf e <= maxEndOf events)%Q.
Proof. exact (maxEnd_fold events 0). Qed.

(** X22: the total that [Evaluate] reads back from the generated facts and
    hands to [GenerateEventPercentFacts] is the latest end time of any
    event (the value of [total_duration]), not the sum of the durations.
    So the percentage facts are [event_percent(i, dur_i / latest_end *
    100)], one for every event, and there is none at all when no event
    ends after time 0. *)
Theorem percentFacts_base (events : list TraceEvent) :
  totalDurationOf (GenerateFacts events) = maxEndOf events
  /\ percentFacts events
     = (if Qlt_bool 0 (maxEndOf events)
        then imap (fun i e =>
                     mkFact "event_percent"
                       [intV i; VFloat (Dur e / maxEndOf events * 100)%Q])
               events
        else [])
  /\ (percentFacts events = []
      <-> forall e, e ∈ events -> (endOf e <= 0)%Q).
Proof.
  assert (Hp : percentFacts events
               = (if Qlt_bool 0 (maxEndOf events)
                  then imap (fun i e =>
                               mkFact "event_percent"
                                 [intV i;
                                  VFloat (Dur e / maxEndOf events * 100)%Q])
                         events
                  else [])).
  { unfold percentFacts, GenerateEventPercentFacts.
    rewrite totalDurationOf_GenerateFacts.
    destruct (Qlt_bool 0 (maxEndOf events)).
    - assert (Hgen : forall start,
                flat_map
                  (fun ie : nat * TraceEvent =>
                     [mkFact "event_percent"
                        [intV (fst ie);
                         VFloat (Dur (snd ie) / maxEndOf events * 100)%Q]])
                  (combine (seq start (length events)) events)
                = imap (fun i e =>
                          mkFact "event_percent"
                            [intV (start + i);
                             VFloat (Dur e / maxEndOf events * 100)%Q])
                    events).
      { generalize (maxEndOf events) as total. intros total.
        induction events as [| e events IH]; intros start; simpl;
          [reflexivity |].
        rewrite Nat.add_0_r. f_equal. rewrite IH.
        apply imap_ext. intros i x _. simpl. do 3 f_equal. lia. }
      rewrite (Hgen 0). apply imap_ext. intros i x _. reflexivity.
    - induction (combine (seq 0 (length events)) events) as [| ie l IH];
        simpl; [reflexivity | exact IH]. }
  split; [apply totalDurationOf_GenerateFacts |]. split; [exact Hp |].
  rewrite Hp.
  destruct (maxEndOf_spec events) as (H1 & H2 & H3).
  destruct (Qlt_bool 0 (maxEndOf events)) eqn:E; qbool.
  - split.
    + intros Hnil. destruct events as [| e events]; [| discriminate Hnil].
      intros e He. inversion He.
    + intros Hall. exfalso.
      destruct H1 as [H1 | (e & He & H1)]; [rewrite H1 in E; lra |].
      specialize (Hall e He). rewrite H1 in E. lra.
  - split; [| reflexivity]. intros _ e He. specialize (H3 e He). lra.
Qed.

(** *** Displayed values *)




(** *** Deduplication after ordering *)

Lemma dedupLoop_app (l : list Suggestion) (seen : gmap string bool)
    (result : list Suggestion) :
  dedupLoop l seen result = result ++ dedupLoop l seen [].
Proof.
  revert seen result. induction l as [| s l IH]; intros seen result; simpl.
  - now rewrite app_nil_r.
  - destruct (negb (default false (seen !! dedupKey s))).
    + rewrite (IH _ (result ++ [s])), (IH _ [s]), <- app_assoc. reflexivity.
    + apply IH.
Qed.

Lemma dedupLoop_spec (l : list Suggestion) (seen : gmap string bool) :
  dedupLoop l seen [] `sublist_of` l
  /\ (forall s, s ∈ dedupLoop l seen [] ->
        default false (seen !! dedupKey s) = false)
  /\ (forall s, s ∈ l ->
        default false (seen !! dedupKey s) = true
        \/ exists s', s' ∈ dedupLoop l seen [] /\ dedupKey s' = dedupKey s)
  /\ (NoDup (dedupKey <$> l) ->
      (forall s, s ∈ l -> default false (seen !! dedupKey s) = false) ->
      dedupLoop l seen [] = l).
Proof.
  revert seen. induction l as [| s l IH]; intros seen; simpl.
  - split; [constructor |]. split; [intros s Hs; inversion Hs |].
    split; [intros s Hs; inversion Hs | reflexivity].
  - destruct (default false (seen !! dedupKey s)) eqn:Es; simpl.
    + destruct (IH seen) as (I1 & I2 & I3 & I4).
      split; [now apply sublist_cons |]. split; [exact I2 |]. split.
      * intros s0 Hs0. apply elem_of_cons in Hs0 as [-> | Hs0];
          [now left | now apply I3].
      * intros _ Hall. specialize (Hall s (list_elem_of_here s l)).
        congruence.
    + rewrite dedupLoop_app. simpl.
      destruct (IH (<[dedupKey s := true]> seen)) as (I1 & I2 & I3 & I4).
      assert (Hother : forall s0,
                default false (<[dedupKey s := true]> seen !! dedupKey s0)
                = if decide (dedupKey s = dedupKey s0) then true
                  else default false (seen !! dedupKey s0)).
      { intros s0. rewrite lookup_insert.
        destruct (decide (dedupKey s = dedupKey s0)); reflexivity. }
      split; [now apply sublist_skip |]. split; [| split].
      * intros s0 Hs0. apply elem_of_cons in Hs0 as [-> | Hs0];
          [exact Es |].
        specialize (I2 s0 Hs0). rewrite Hother in I2.
        destruct (decide _); [discriminate | exact I2].
      * intros s0 Hs0. apply elem_of_cons in Hs0 as [-> | Hs0].
        -- right. exists s. split; [apply list_elem_of_here | reflexivity].
        -- destruct (I3 s0 Hs0) as [Hseen | (s' & Hs' & Hk)].
           ++ rewrite Hother in Hseen. destruct (decide _) as [Heq |];
                [| now left].
              right. exists s. split; [apply list_elem_of_here | exact Heq].
           ++ right. exists s'.
              split; [now apply list_elem_of_further | exact Hk].
      * intros Hnd Hall.
        apply NoDup_cons in Hnd as [Hs Hnd]. f_equal. apply I4; [exact Hnd |].
        intros s0 Hs0. rewrite Hother.
        destruct (decide _) as [Heq |].
        -- exfalso. apply Hs. rewrite Heq. apply list_elem_of_fmap.
           now exists s0.
        -- apply Hall. now apply list_elem_of_further.
Qed.

Lemma StronglySorted_sublist {A} (R : A -> A -> Prop) (l' l : list A) :
  l' `sublist_of` l -> StronglySorted R l -> StronglySorted R l'.
Proof.
  induction 1 as [| x l' l Hsub IH | x l' l Hsub IH]; intros Hs.
  - constructor.
  - inversion Hs as [| ? ? Hs' Hall]; subst. constructor; [now apply IH |].
    rewrite Forall_forall in Hall. apply Forall_forall. intros y Hy.
    apply Hall. eapply elem_of_sublist; eassumption.
  - inversion Hs; subst. now apply IH.
Qed.

(** X24: [deduplicateSuggestions] returns a sub-sequence of its input
    (nothing is reordered or invented), keeps a suggestion for every key
    [RuleID:Target] that occurs, leaves a list with distinct keys as it is,
    and so is idempotent. *)
Theorem deduplicateSuggestions_subsequence (l : list Suggestion) :
  deduplicateSuggestions l `sublist_of` l
  /\ (forall s, s ∈ l ->
        exists s', s' ∈ deduplicateSuggestions l
                   /\ dedupKey s' = dedupKey s)
  /\ (NoDup (dedupKey <$> l) -> deduplicateSuggestions l = l)
  /\ deduplicateSuggestions (deduplicateSuggestions l)
     = deduplicateSuggestions l.
Proof.
  unfold deduplicateSuggestions.
  destruct (dedupLoop_spec l ∅) as (H1 & H2 & H3 & H4).
  assert (Hid : forall l', NoDup (dedupKey <$> l') -> dedupLoop l' ∅ [] = l').
  { intros l' Hnd. destruct (dedupLoop_spec l' ∅) as (_ & _ & _ & H4').
    apply H4'; [exact Hnd |]. intros s _. now rewrite lookup_empty. }
  split; [exact H1 |]. split; [| split].
  - intros s Hs. destruct (H3 s Hs) as [Hseen | Hex]; [| exact Hex].
    rewrite lookup_empty in Hseen. discriminate.
  - apply Hid.
  - apply Hid. apply dedupLoop_keys; [constructor |].
    intros s Hs. inversion Hs.
Qed.

(** X25: the list [Evaluate] returns (the suggestions ordered by
    [sort.Slice], then deduplicated) is in impact order, high before
    medium before low before anything else; it holds no two suggestions
    with the same key, only suggestions that were generated, and one for
    every key that was generated. *)
Theorem Evaluate_suggestions_ordered (sortSlice : SortSliceFn)
    (l : list Suggestion) :
  sortSliceContract sortSlice ->
  StronglySorted byImpact
    (deduplicateSuggestions (orderSuggestions sortSlice l))
  /\ NoDup (dedupKey
              <$> deduplicateSuggestions (orderSuggestions sortSlice l))
  /\ (forall s,
        s ∈ deduplicateSuggestions (orderSuggestions sortSlice l) -> s ∈ l)
  /\ (forall s, s ∈ l ->
        exists s',
          s' ∈ deduplicateSuggestions (orderSuggestions sortSlice l)
          /\ dedupKey s' = dedupKey s).
Proof.
  intros Hsort. unfold orderSuggestions, impactLess.
  destruct (Hsort (fun s => impactOrder (Impact s)) l) as [Hperm Hsorted].
  set (sorted := sortSlice _ l) in *.
  unfold deduplicateSuggestions.
  destruct (dedupLoop_spec sorted ∅) as (H1 & H2 & H3 & H4).
  split; [| split; [| split]].
  - apply (StronglySorted_sublist _ _ sorted H1). exact Hsorted.
  - apply dedupLoop_keys; [constructor |]. intros s Hs. inversion Hs.
  - intros s Hs. rewrite Hperm. eapply elem_of_sublist; eassumption.
  - intros s Hs. rewrite Hperm in Hs.
    destruct (H3 s Hs) as [Hseen | Hex]; [| exact Hex].
    rewrite lookup_empty in Hseen. discriminate.
Qed.

Lemma Evaluate_suggestions_ordered_witness :
  StronglySorted byImpact
    (deduplicateSuggestions
       (orderSuggestions insertionSortSlice
          [exampleSuggestion "r1" "low" "//a";
           exampleSuggestion "r2" "high" "//a";
           exampleSuggestion "r1" "medium" "//a"])).
Proof.
  destruct (Evaluate_suggestions_ordered insertionSortSlice
              [exampleSuggestion "r1" "low" "//a";
               exampleSuggestion "r2" "high" "//a";
               exampleSuggestion "r1" "medium" "//a"]
              insertionSortSlice_contract) as [Hs _].
  exact Hs.
Defined.

(** ** builtins.go: [format_number] *)

Lemma removeCommas_uint (d : Decimal.uint) :
  removeCommas (NilEmpty.string_of_uint d) = NilEmpty.string_of_uint d.
Proof. induction d; simpl; now rewrite ?IHd. Qed.

Lemma removeCommas_sprintInt (n : Z) : removeCommas (sprintInt n) = sprintInt n.
Proof.
  unfold sprintInt, NilZero.string_of_int, NilZero.string_of_uint.
  destruct (Z.to_int n) as [d | d]; destruct d; simpl;
    rewrite ?removeCommas_uint; reflexivity.
Qed.

Lemma removeCommas_insertCommas (len i : nat) (str : string) :
  removeCommas (insertCommas len i str) = removeCommas str.
Proof.
  revert i. induction str as [| c str IH]; intros i; [reflexivity |].
  cbn [insertCommas].
  destruct (Nat.ltb 0 i && Nat.eqb ((len - i) mod 3) 0);
    cbn [removeCommas]; rewrite ?IH; reflexivity.
Qed.

Lemma removeCommas_app (s1 s2 : string) :
  removeCommas (s1 ++ s2) = (removeCommas s1 ++ removeCommas s2)%string.
Proof.
  induction s1 as [| c s1 IH]; simpl; [reflexivity |].
  destruct (Ascii.eqb c ","); simpl; now rewrite IH.
Qed.

Lemma substring_all (s : string) : substring 0 (String.length s) s = s.
Proof. induction s as [| c s IH]; simpl; [reflexivity | now rewrite IH]. Qed.

Lemma sliceFrom_sign (s : string) : sliceFrom (String "-" s) 1 = s.
Proof.
  unfold sliceFrom. simpl. rewrite Nat.sub_0_r. apply substring_all.
Qed.

Lemma sprintInt_neg (p : positive) :
  sprintInt (Z.neg p) = String "-" (sprintInt (Z.pos p)).
Proof. reflexivity. Qed.

Lemma commas_length (len i : nat) (str : string) :
  len = i + String.length str -> 0 < i ->
  String.length (insertCommas len i str)
  = String.length str + String.length str / 3.
Proof.
  revert i. induction str as [| c str IH]; intros i Hlen Hi;
    [reflexivity |].
  cbn [insertCommas String.length] in *.
  replace (len - i) with (S (String.length str)) by lia.
  destruct (Nat.ltb_spec 0 i) as [_ | Hf]; [| lia]. cbn [andb].
  set (m := String.length str) in *.
  pose proof (IH (S i) ltac:(lia) ltac:(lia)) as Hrec.
  pose proof (Nat.div_mod_eq (S m) 3) as E1.
  pose proof (Nat.div_mod_eq m 3) as E2.
  pose proof (Nat.mod_upper_bound (S m) 3 ltac:(lia)) as B1.
  pose proof (Nat.mod_upper_bound m 3 ltac:(lia)) as B2.
  destruct (Nat.eqb_spec (S m mod 3) 0) as [Hz | Hnz];
    cbn [String.length]; rewrite Hrec; lia.
Qed.

(** X26: [formatWithCommas] only inserts commas: taking the commas out of
    its result gives back the decimal digits of the number, sign included.
    A negative number is formatted as its absolute value with a minus sign
    in front, and a number of [d] digits gets [(d - 1) / 3] commas. *)
Theorem formatWithCommas_digits (n : Z) :
  removeCommas (formatWithCommas n) = sprintInt n
  /\ (forall p : positive,
        formatWithCommas (Z.neg p)
        = String "-" (formatWithCommas (Z.pos p)))
  /\ ((0 <= n)%Z ->
      String.length (formatWithCommas n)
      = String.length (sprintInt n) + (String.length (sprintInt n) - 1) / 3).
Proof.
  split; [| split].
  - unfold formatWithCommas. destruct (n <? 0)%Z eqn:E.
    + destruct n as [| p | p]; try discriminate.
      rewrite sprintInt_neg, sliceFrom_sign.
      rewrite removeCommas_app, removeCommas_insertCommas,
        removeCommas_sprintInt. reflexivity.
    + rewrite removeCommas_insertCommas. apply removeCommas_sprintInt.
  - intros p. unfold formatWithCommas.
    change (Z.neg p <? 0)%Z with true. change (Z.pos p <? 0)%Z with false.
    cbv iota. rewrite sprintInt_neg, sliceFrom_sign. reflexivity.
  - intros Hn. unfold formatWithCommas.
    destruct (Z.ltb_spec n 0) as [Hlt | _]; [lia |].
    destruct (sprintInt n) as [| c str]; [reflexivity |].
    cbn [insertCommas String.length Nat.ltb Nat.leb andb].
    rewrite (commas_length (S (String.length str)) 1 str) by lia.
    simpl. rewrite Nat.sub_0_r. reflexivity.
Qed.

(** ** parser.go: clauses, bodies and rules *)

Section ParserClauses.
Variable tokens : list Token.
Local Abbreviation len := (length tokens).

Ltac presult t E :=
  destruct t as [[[? ?] | ? | ?] |] eqn:E; cbn [pbind]; try discriminate.

Ltac presult_as t E x p :=
  destruct t as [[[x p] | ? | ?] |] eqn:E; cbn [pbind]; try discriminate.

(** *** [parseBody] stops in front of a token that is not a comma *)

Lemma parseBodyLoop_stops (pc : nat -> PResult Clause) (k pos : nat)
    (clauses : list Clause) (pos' : nat) :
  parseBodyLoop tokens pc k pos = Some (Ok (clauses, pos')) ->
  Type_ (peek tokens pos') <> TokenComma.
Proof.
  revert pos clauses. induction k as [| k IH]; intros pos clauses;
    cbn [parseBodyLoop]; [discriminate |].
  presult (pc pos) Ec. unfold matchTok.
  destruct (decide (Type_ (peek tokens n) = TokenComma)) as [Hc | Hc].
  - cbn [advance snd].
    presult (parseBodyLoop tokens pc k (S n)) Er.
    intros Hres. inversion Hres; subst. now apply (IH _ _ Er).
  - intros Hres. inversion Hres; subst. exact Hc.
Qed.

Lemma parseAggregation_fails (pc : nat -> PResult Clause) (pos : nat)
    (c : Clause) (pos' : nat) :
  parseAggregation tokens pc pos <> Some (Ok (c, pos')).
Proof.
  unfold parseAggregation.
  presult (expect tokens TokenAggregate pos) E1.
  presult (expect tokens TokenLParen n) E2.
  cbn [advance fst snd].
  match goal with
  | |- match ?opR with _ => _ end <> _ =>
      destruct opR as [op | m | m]; try discriminate
  end.
  match goal with
  | |- pbind ?m _ <> _ => presult m E3
  end.
  presult (expect tokens TokenComma n1) E4.
  unfold parseBodyWith.
  presult (parseBodyLoop tokens pc (loopBound tokens) n2) E5.
  apply parseBodyLoop_stops in E5.
  unfold expect at 1.
  destruct (decide (Type_ (peek tokens n3) = TokenComma)) as [Hc | Hc];
    [contradiction | discriminate].
Qed.

(** *** What a successful call consumes *)

Lemma parseAtom_consumes : consumes len (parseAtom tokens).
Proof.
  intros pos a pos'. unfold parseAtom.
  presult (expect tokens TokenIdent pos) E1.
  apply expect_ok in E1 as [-> Hp1]; [| discriminate].
  presult (expect tokens TokenLParen (S pos)) E2.
  apply expect_ok in E2 as [-> Hp2]; [| discriminate].
  presult (parseList tokens (parseTerm tokens) (loopBound tokens)
             (S (S pos))) E3.
  destruct (parseList_bounds tokens (parseTerm tokens)
              (parseTerm_consumes tokens) _ _ _ _ E3) as [Hle3 Hlen3].
  presult (expect tokens TokenRParen n) E4.
  apply expect_ok in E4 as [-> Hp4]; [| discriminate].
  intros Hres. inversion Hres; subst. lia.
Qed.

Lemma parseComparison_consumes : consumes len (parseComparison tokens).
Proof.
  intros pos c pos'. unfold parseComparison.
  presult (parseTerm tokens pos) E1.
  apply parseTerm_ok in E1 as [Hne ->].
  cbn [advance fst snd].
  destruct (tokenToComparisonOp (Type_ (peek tokens (S pos))))
    as [op | m | m]; try discriminate.
  presult (parseTerm tokens (S (S pos))) E2.
  destruct (parseTerm_consumes tokens _ _ _ E2) as [Hlt Hle].
  intros Hres. inversion Hres; subst. lia.
Qed.

Lemma parseBodyLoop_bounds (pc : nat -> PResult Clause) :
  consumes len pc ->
  forall k pos clauses pos',
    parseBodyLoop tokens pc k pos = Some (Ok (clauses, pos')) ->
    pos < pos' /\ pos' <= len.
Proof.
  intros Hcons. induction k as [| k IH]; intros pos clauses pos';
    cbn [parseBodyLoop]; [discriminate |].
  presult (pc pos) Ec. destruct (Hcons _ _ _ Ec) as [Hlt Hle].
  destruct (matchTok_ok tokens TokenComma n ltac:(discriminate))
    as [[Hm Hp] | Hm]; rewrite Hm.
  - presult (parseBodyLoop tokens pc k (S n)) Er.
    intros Hres. inversion Hres; subst. destruct (IH _ _ _ Er). lia.
  - intros Hres. inversion Hres; subst. lia.
Qed.

Lemma parseClause_consumes (fuel : nat) :
  consumes len (parseClause tokens fuel).
Proof.
  induction fuel as [| fuel IH]; intros pos c pos'; cbn [parseClause];
    [discriminate |].
  destruct (matchTok_ok tokens TokenNot pos ltac:(discriminate))
    as [[Hm Hp] | Hm]; rewrite Hm.
  - presult (parseAtom tokens (S pos)) Ea.
    destruct (parseAtom_consumes _ _ _ Ea).
    intros Hres. inversion Hres; subst. lia.
  - destruct (decide (Type_ (peek tokens pos) = TokenAggregate)).
    { intros Hres. now apply parseAggregation_fails in Hres. }
    destruct (bool_decide (Type_ (peek tokens pos) = TokenVariable)
              && bool_decide (Type_ (peekN tokens pos 1) = TokenEq)) eqn:Ev.
    { unfold parseAssignmentOrComparison. cbn [advance fst snd].
      presult (parseExpression tokens fuel (S (S pos))) Ee.
      destruct (parseExpression_consumes tokens fuel _ _ _ Ee).
     
      destruct e; intros Hres; inversion Hres; subst; lia. }
    destruct (bool_decide (Type_ (peek tokens pos) = TokenVariable)
              && isComparisonOp (Type_ (peekN tokens pos 1))).
    { apply parseComparison_consumes. }
    presult (parseAtom tokens pos) Ea.
    destruct (parseAtom_consumes _ _ _ Ea).
    intros Hres. inversion Hres; subst. lia.
Qed.

Lemma parseBody_consumes (fuel : nat) : consumes len (parseBody tokens fuel).
Proof.
  intros pos cs pos' H. unfold parseBody, parseBodyWith in H.
  apply (parseBodyLoop_bounds _ (parseClause_consumes fuel) _ _ _ _ H).
Qed.

Lemma parseRule_consumes (fuel : nat) : consumes len (parseRule tokens fuel).
Proof.
  intros pos r pos'. unfold parseRule.
  presult (parseAtom tokens pos) Ea.
  destruct (parseAtom_consumes _ _ _ Ea) as [Hlt Hle].
  destruct (matchTok_ok tokens TokenImplies n ltac:(discriminate))
    as [[Hm Hp] | Hm]; rewrite Hm.
  - presult (parseBody tokens fuel (S n)) Eb.
    destruct (parseBody_consumes fuel _ _ _ Eb).
    presult (expect tokens TokenDot n0) Ed.
    apply expect_ok in Ed as [-> Hd]; [| discriminate].
    intros Hres. inversion Hres; subst. lia.
  - cbn [pret pbind].
    presult (expect tokens TokenDot n) Ed.
    apply expect_ok in Ed as [-> Hd]; [| discriminate].
    intros Hres. inversion Hres; subst. lia.
Qed.

(** *** With the tokens as fuel, every call returns *)

Lemma parseAtom_returns (pos : nat) : parseAtom tokens pos <> None.
Proof.
  unfold parseAtom.
  pose proof (expect_returns tokens TokenIdent pos) as Hr1.
  presult (expect tokens TokenIdent pos) E1; [| congruence].
  apply expect_ok in E1 as [-> Hp1]; [| discriminate].
  pose proof (expect_returns tokens TokenLParen (S pos)) as Hr2.
  presult (expect tokens TokenLParen (S pos)) E2; [| congruence].
  apply expect_ok in E2 as [-> Hp2]; [| discriminate].
 
  pose proof (parseList_returns tokens (parseTerm tokens) 0
                ltac:(intros p _ _; apply parseTerm_returns)
                (parseTerm_consumes tokens)
                (loopBound tokens) (S (S pos)) ltac:(lia) ltac:(lia)
                ltac:(unfold loopBound; lia)) as Hr3.
  presult (parseList tokens (parseTerm tokens) (loopBound tokens)
             (S (S pos))) E3; [| congruence].
  pose proof (expect_returns tokens TokenRParen n) as Hr4.
  presult (expect tokens TokenRParen n) E4. congruence.
Qed.

Lemma parseComparison_returns (pos : nat) : parseComparison tokens pos <> None.
Proof.
  unfold parseComparison.
  pose proof (parseTerm_returns tokens pos) as Hr1.
  presult (parseTerm tokens pos) E1; [| congruence].
  cbn [advance fst snd].
  destruct (tokenToComparisonOp (Type_ (peek tokens n)));
    try discriminate.
  pose proof (parseTerm_returns tokens (S n)) as Hr2.
  presult (parseTerm tokens (S n)) E2. congruence.
Qed.

Lemma parseBodyLoop_returns (pc : nat -> PResult Clause) (q : nat) :
  returnsFrom len q pc -> consumes len pc ->
  forall k pos,
    q <= pos -> pos <= len -> len < k + pos ->
    parseBodyLoop tokens pc k pos <> None.
Proof.
  intros Hret Hcons. induction k as [| k IH]; intros pos Hq Hlen Hk; [lia |].
  cbn [parseBodyLoop]. specialize (Hret pos Hq Hlen).
  presult (pc pos) Ec; [| congruence].
  destruct (Hcons _ _ _ Ec) as [Hlt Hle].
  destruct (matchTok_ok tokens TokenComma n ltac:(discriminate))
    as [[Hm Hp] | Hm]; rewrite Hm; [| discriminate].
  specialize (IH (S n) ltac:(lia) ltac:(lia) ltac:(lia)).
  presult (parseBodyLoop tokens pc k (S n)) Er. congruence.
Qed.

Lemma parseAggregation_returns (pc : nat -> PResult Clause) (q : nat) :
  returnsFrom len (S q) pc -> consumes len pc ->
  forall pos, q <= pos -> parseAggregation tokens pc pos <> None.
Proof.
  intros Hret Hcons pos Hq. unfold parseAggregation.
  pose proof (expect_returns tokens TokenAggregate pos) as Hr1.
  presult (expect tokens TokenAggregate pos) E1; [| congruence].
  apply expect_ok in E1 as [-> Hp1]; [| discriminate].
  pose proof (expect_returns tokens TokenLParen (S pos)) as Hr2.
  presult (expect tokens TokenLParen (S pos)) E2; [| congruence].
  apply expect_ok in E2 as [-> Hp2]; [| discriminate].
  cbn [advance fst snd].
  match goal with
  | |- match ?opR with _ => _ end <> _ =>
      destruct opR as [op | m | m]; try discriminate
  end.
  assert (Hvar : exists r,
            (match op with
             | AggCount => pret "" (S (S (S pos)))
             | _ =>
                 let? (_, pos0) := expect tokens TokenLParen (S (S (S pos))) in
                 let? (varTok, pos1) := expect tokens TokenVariable pos0 in
                 let? (_, pos2) := expect tokens TokenRParen pos1 in
                 pret (TValue varTok) pos2
             end) = Some r
            /\ forall v p, r = Ok (v, p) -> S (S (S pos)) <= p).
  { destruct op;
      try (eexists; split; [reflexivity |];
           intros v p Heq; inversion Heq; subst; lia);
      (pose proof (expect_returns tokens TokenLParen (S (S (S pos)))) as Ha;
       presult (expect tokens TokenLParen (S (S (S pos)))) Ea;
       [| eexists; split; [reflexivity | discriminate]
        | eexists; split; [reflexivity | discriminate] | congruence];
       apply expect_ok in Ea as [-> _]; [| discriminate];
       pose proof (expect_returns tokens TokenVariable (S (S (S (S pos)))))
         as Hb;
       presult (expect tokens TokenVariable (S (S (S (S pos))))) Eb;
       [| eexists; split; [reflexivity | discriminate]
        | eexists; split; [reflexivity | discriminate] | congruence];
       apply expect_ok in Eb as [-> _]; [| discriminate];
       pose proof (expect_returns tokens TokenRParen
                     (S (S (S (S (S pos)))))) as Hc;
       presult (expect tokens TokenRParen (S (S (S (S (S pos)))))) Ec;
       [| eexists; split; [reflexivity | discriminate]
        | eexists; split; [reflexivity | discriminate] | congruence];
       apply expect_ok in Ec as [-> _]; [| discriminate];
       eexists; split; [reflexivity |];
       intros v p Heq; inversion Heq; subst; lia). }
  destruct Hvar as (r & -> & Hr). cbn [pbind].
  destruct r as [[v p] | m | m]; try discriminate.
  specialize (Hr v p eq_refl).
  pose proof (expect_returns tokens TokenComma p) as Hr4.
  presult (expect tokens TokenComma p) E4; [| congruence].
  apply expect_ok in E4 as [-> Hp4]; [| discriminate].
  unfold parseBodyWith.
  pose proof (parseBodyLoop_returns pc (S q) Hret Hcons (loopBound tokens)
                (S p) ltac:(lia) ltac:(lia)
                ltac:(unfold loopBound; lia)) as Hr5.
  presult_as (parseBodyLoop tokens pc (loopBound tokens) (S p)) E5 body p5;
    [| congruence].
  pose proof (expect_returns tokens TokenComma p5) as Hr6.
  presult_as (expect tokens TokenComma p5) E6 t6 p6; [| congruence].
  pose proof (expect_returns tokens TokenVariable p6) as Hr7.
  presult_as (expect tokens TokenVariable p6) E7 t7 p7; [| congruence].
  pose proof (expect_returns tokens TokenRParen p7) as Hr8.
  presult (expect tokens TokenRParen p7) E8. congruence.
Qed.

Lemma peekN_in_range (pos : nat) :
  Type_ (peekN tokens pos 1) <> TokenEOF -> S pos < len.
Proof.
  unfold peekN. replace (pos + 1) with (S pos) by lia.
  apply (peek_in_range tokens (S pos)).
Qed.

Lemma parseClause_returns (fuel : nat) :
  returnsFrom len (S len - fuel) (parseClause tokens fuel).
Proof.
  induction fuel as [| fuel IH].
  - intros p Hp Hl. lia.
  - intros pos Hq Hlen. cbn [parseClause].
    destruct (matchTok_ok tokens TokenNot pos ltac:(discriminate))
      as [[Hm Hp] | Hm]; rewrite Hm.
    + pose proof (parseAtom_returns (S pos)) as Hr.
      presult (parseAtom tokens (S pos)) Ea. congruence.
    + destruct (decide (Type_ (peek tokens pos) = TokenAggregate)).
      { apply (parseAggregation_returns _ (len - fuel)).
        - eapply returnsFrom_weaken; [| exact IH]. lia.
        - apply parseClause_consumes.
        - lia. }
      destruct (bool_decide (Type_ (peek tokens pos) = TokenVariable)
                && bool_decide (Type_ (peekN tokens pos 1) = TokenEq)) eqn:Ev.
      { apply andb_true_iff in Ev as [_ Ev]. apply bool_decide_eq_true in Ev.
        assert (Hp : S pos < len) by (apply peekN_in_range; congruence).
        unfold parseAssignmentOrComparison. cbn [advance fst snd].
        pose proof (parseExpression_returns tokens fuel (S (S pos))
                      ltac:(lia) ltac:(lia)) as Hr.
        presult (parseExpression tokens fuel (S (S pos))) Ee;
          [| congruence].
        destruct e; discriminate. }
      destruct (bool_decide (Type_ (peek tokens pos) = TokenVariable)
                && isComparisonOp (Type_ (peekN tokens pos 1))).
      { apply parseComparison_returns. }
      pose proof (parseAtom_returns pos) as Hr.
      presult (parseAtom tokens pos) Ea. congruence.
Qed.

Lemma parseBody_returns (pos : nat) :
  pos <= len -> parseBody tokens (S len) pos <> None.
Proof.
  intros Hlen. unfold parseBody, parseBodyWith.
  apply (parseBodyLoop_returns _ 0).
  - eapply returnsFrom_weaken; [| apply parseClause_returns]. lia.
  - apply parseClause_consumes.
  - lia.
  - exact Hlen.
  - unfold loopBound. lia.
Qed.

Lemma parseRule_returns (pos : nat) : parseRule tokens (S len) pos <> None.
Proof.
  unfold parseRule.
  pose proof (parseAtom_returns pos) as Hr1.
  presult (parseAtom tokens pos) Ea; [| congruence].
  destruct (parseAtom_consumes _ _ _ Ea) as [Hlt Hle].
  destruct (matchTok_ok tokens TokenImplies n ltac:(discriminate))
    as [[Hm Hp] | Hm]; rewrite Hm.
  - pose proof (parseBody_returns (S n) ltac:(lia)) as Hr2.
    presult (parseBody tokens (S len) (S n)) Eb; [| congruence].
    pose proof (expect_returns tokens TokenDot n0) as Hr3.
    presult (expect tokens TokenDot n0) Ed. congruence.
  - cbn [pret pbind].
    pose proof (expect_returns tokens TokenDot n) as Hr3.
    presult (expect tokens TokenDot n) Ed. congruence.
Qed.

End ParserClauses.

(** X27: an aggregation clause never parses.  [parseBody] takes every
    comma it meets as the start of a further clause, so it returns only in
    front of a token that is not a comma, and the [expect(TokenComma)] that
    follows the aggregated body in [parseAggregation] fails.  Hence
    [parseAggregation] returns no clause on any token sequence, and
    [parseClause] returns none where the clause starts with
    [aggregate]. *)
Theorem parseAggregation_never_succeeds (tokens : list Token) :
  (forall pc pos c pos',
     parseAggregation tokens pc pos <> Some (Ok (c, pos')))
  /\ (forall fuel pos c pos',
        parseClause tokens fuel pos = Some (Ok (c, pos')) ->
        Type_ (peek tokens pos) <> TokenAggregate
        /\ forall op v body into, c <> Aggregation op v body into).
Proof.
  split; [apply parseAggregation_fails |].
  intros fuel pos c pos'. destruct fuel as [| fuel]; cbn [parseClause];
    [discriminate |].
  unfold matchTok.
  destruct (decide (Type_ (peek tokens pos) = TokenNot)) as [Hn | Hn].
  - cbn [advance snd].
    destruct (parseAtom tokens (S pos)) as [[[a p] | m | m] |];
      cbn [pbind pret]; try discriminate.
    intros Hres. inversion Hres; subst. split; [congruence | discriminate].
  - destruct (decide (Type_ (peek tokens pos) = TokenAggregate)) as [Ha | Ha].
    { intros Hres. now apply parseAggregation_fails in Hres. }
    split; [exact Ha |].
    destruct (bool_decide (Type_ (peek tokens pos) = TokenVariable)
              && bool_decide (Type_ (peekN tokens pos 1) = TokenEq)).
    { unfold parseAssignmentOrComparison in H. cbn [advance fst snd] in H.
      destruct (parseExpression tokens fuel (S (S pos)))
        as [[[e p] | m | m] |]; cbn [pbind pret] in H; try discriminate.
      destruct e; inversion H; subst; discriminate. }
    destruct (bool_decide (Type_ (peek tokens pos) = TokenVariable)
              && isComparisonOp (Type_ (peekN tokens pos 1))).
    { unfold parseComparison in H.
      destruct (parseTerm tokens pos) as [[[l p] | m | m] |];
        cbn [pbind pret] in H; try discriminate.
      cbn [advance fst snd] in H.
      destruct (tokenToComparisonOp (Type_ (peek tokens p)));
        try discriminate.
      destruct (parseTerm tokens (S p)) as [[[r p2] | m | m] |];
        cbn [pbind pret] in H; try discriminate.
      inversion H; subst. discriminate. }
    destruct (parseAtom tokens pos) as [[[a p] | m | m] |];
      cbn [pbind pret] in H; try discriminate.
    inversion H; subst. discriminate.
Qed.

(** X28: the rule parser terminates and stays within its input.  With the
    number of tokens (plus one) as the bound on nesting, [parseRule]
    returns a rule or an error from every position of every token
    sequence; and when it returns a rule it has consumed at least one
    token and has not read past the last one. *)
Theorem parseRule_terminates (tokens : list Token) (pos : nat) :
  parseRule tokens (S (length tokens)) pos <> None
  /\ (forall fuel rule pos',
        parseRule tokens fuel pos = Some (Ok (rule, pos')) ->
        pos < pos' /\ pos' <= length tokens).
Proof.
  split; [apply parseRule_returns |].
  intros fuel rule pos'. apply parseRule_consumes.
Qed.

(** ** lexer.go *)

Section LexerFacts.

Local Abbreviation size l := (String.length (Lex.input l)).

Lemma lex_advance_size (l : Lex.Lexer) :
  Lex.input l <> "" -> S (size (snd (Lex.advance l))) = size l.
Proof.
  unfold Lex.advance. destruct (Lex.input l) as [| ch rest]; [congruence |].
  intros _. simpl. destruct (Ascii.eqb ch Lex.newline); reflexivity.
Qed.

Lemma lex_advance_le (l : Lex.Lexer) : size (snd (Lex.advance l)) <= size l.
Proof.
  unfold Lex.advance. destruct (Lex.input l) as [| ch rest] eqn:E; simpl.
  - rewrite E. simpl. lia.
  - destruct (Ascii.eqb ch Lex.newline); simpl; lia.
Qed.

Lemma scanWhile_size (cond : ascii -> bool) (inp : string) (ln col : nat)
    (sb : string) :
  size (snd (Lex.scanWhile cond inp ln col sb)) <= String.length inp
  /\ (forall ch rest, inp = String ch rest -> cond ch = true ->
        size (snd (Lex.scanWhile cond inp ln col sb)) < String.length inp).
Proof.
  revert ln col sb. induction inp as [| ch rest IH]; intros ln col sb.
  - simpl. split; [lia |]. intros ch rest Heq. discriminate.
  - cbn [Lex.scanWhile]. destruct (cond ch) eqn:Ec.
    + unfold Lex.advance. cbn [Lex.input snd].
      destruct (Ascii.eqb ch Lex.newline); cbn [Lex.line Lex.column];
        match goal with
        | |- context [Lex.scanWhile cond rest ?a ?b ?c] =>
            destruct (IH a b c) as [Hle _]
        end; simpl; (split; [lia |]); intros; lia.
    + simpl. split; [lia |]. intros ch' rest' Heq Hc.
      injection Heq as <- <-. congruence.
Qed.

Lemma scanStringLoop_size (inp : string) :
  forall (ln col : nat) (sb : string),
    size (snd (Lex.scanStringLoop inp ln col sb)) <= String.length inp.
Proof.
  assert (Hstrong : forall n inp, String.length inp <= n ->
            forall ln col sb,
              size (snd (Lex.scanStringLoop inp ln col sb))
              <= String.length inp).
  { clear inp. induction n as [| n IH]; intros inp Hn ln col sb.
    - destruct inp; [simpl; lia | simpl in Hn; lia].
    - destruct inp as [| ch rest]; [simpl; lia |].
      cbn [Lex.scanStringLoop]. simpl in Hn.
      destruct (Ascii.eqb ch Lex.nul); [simpl; lia |].
      destruct (Ascii.eqb ch Lex.quote).
      { unfold Lex.advance. simpl.
        destruct (Ascii.eqb ch Lex.newline); simpl; lia. }
      destruct (Ascii.eqb ch Lex.backslash).
      + destruct rest as [| escaped rest'].
        * unfold Lex.advance. simpl.
          destruct (Ascii.eqb ch Lex.newline); simpl; lia.
        * match goal with
          | |- context [Lex.scanStringLoop rest' ?a ?b ?c] =>
              pose proof (IH rest' ltac:(simpl in Hn; lia) a b c)
          end. cbn [String.length]. lia.
      + match goal with
        | |- context [Lex.scanStringLoop rest ?a ?b ?c] =>
            pose proof (IH rest ltac:(lia) a b c)
        end. cbn [String.length]. lia. }
  intros ln col sb. now apply (Hstrong (String.length inp)).
Qed.

Lemma skipWhitespace_returns (fuel : nat) (l : Lex.Lexer) :
  size l < fuel ->
  exists l', Lex.skipWhitespace fuel l = Some l' /\ size l' <= size l.
Proof.
  revert l. induction fuel as [| fuel IH]; intros l Hf; [lia |].
  cbn [Lex.skipWhitespace]. unfold Lex.peek.
  destruct (Lex.input l) as [| ch rest] eqn:E.
  - simpl. exists l. split; [reflexivity |]. rewrite E. simpl. lia.
  - destruct (Lex.isSpace ch).
    + assert (Hne : Lex.input l <> "") by (rewrite E; discriminate).
      pose proof (lex_advance_size l Hne) as Hs. rewrite E in Hs.
      simpl in Hs, Hf.
      destruct (IH (snd (Lex.advance l)) ltac:(lia)) as (l' & Hl' & Hle).
      exists l'. split; [exact Hl' |]. simpl. lia.
    + destruct (Ascii.eqb ch "%") eqn:Ep; [| exists l; split;
                                              [reflexivity | rewrite E; lia]].
      apply Ascii.eqb_eq in Ep. subst ch.
      assert (Hs : size (Lex.skipLine l) < size l).
      { unfold Lex.skipLine. rewrite E.
        destruct (scanWhile_size
                    (fun ch => negb (Ascii.eqb ch Lex.newline)
                               && negb (Ascii.eqb ch Lex.nul))
                    (String "%" rest) (Lex.line l) (Lex.column l) "")
          as [_ Hlt].
        apply (Hlt "%"%char rest); reflexivity. }
      rewrite E in Hs. simpl in Hs, Hf.
      destruct (IH (Lex.skipLine l) ltac:(lia)) as (l' & Hl' & Hle).
      exists l'. split; [exact Hl' |]. simpl. lia.
Qed.

Lemma keywords_range (value : string) (typ : TokenType) :
  Lex.keywords !! value = Some typ -> typ ∈ keywordTypes.
Proof.
  unfold Lex.keywords. intros Hk.
  apply elem_of_list_to_map_2 in Hk.
  unfold keywordTypes.
  repeat (apply elem_of_cons in Hk as [Hk | Hk];
          [injection Hk as _ ->; set_solver |]).
  inversion Hk.
Qed.

Lemma singleChar_types (ch : ascii) (typ : TokenType) (value : string) :
  Lex.singleChar ch = Some (typ, value) ->
  typ ∈ [TokenLParen; TokenRParen; TokenLBracket; TokenRBracket; TokenLBrace;
         TokenRBrace; TokenComma; TokenDot; TokenPlus; TokenStar; TokenSlash].
Proof.
  unfold Lex.singleChar.
  repeat (case_match; [intros Heq; injection Heq as <- <-; set_solver |]).
  discriminate.
Qed.

Lemma scanNumber_token (pre : string) (l : Lex.Lexer) :
  Type_ (fst (Lex.scanNumber pre l)) = TokenNumber
  /\ size (snd (Lex.scanNumber pre l)) <= size l
  /\ (Lex.isDigit (Lex.peek l) = true ->
      size (snd (Lex.scanNumber pre l)) < size l).
Proof.
  unfold Lex.scanNumber.
  destruct (scanWhile_size Lex.isDigit (Lex.input l) (Lex.line l)
              (Lex.column l) pre) as [H1 H2].
  destruct (Lex.scanWhile Lex.isDigit (Lex.input l) (Lex.line l)
              (Lex.column l) pre) as [sb l1] eqn:E1. simpl in H1, H2.
  assert (Hlt : Lex.isDigit (Lex.peek l) = true -> size l1 < size l).
  { unfold Lex.peek. destruct (Lex.input l) as [| ch rest] eqn:E.
    - intros Hd. discriminate.
    - intros Hd. now apply (H2 ch rest). }
  destruct (Ascii.eqb (Lex.peek l1) "." && Lex.isDigit (Lex.peekN l1 1)).
  - pose proof (lex_advance_le l1) as Ha.
    destruct (Lex.advance l1) as [dot l2]. simpl in Ha.
    destruct (scanWhile_size Lex.isDigit (Lex.input l2) (Lex.line l2)
                (Lex.column l2) (sb ++ Lex.writeRune dot)) as [H3 _].
    destruct (Lex.scanWhile Lex.isDigit (Lex.input l2) (Lex.line l2)
                (Lex.column l2) (sb ++ Lex.writeRune dot)) as [sb2 l3].
    simpl in *. split; [reflexivity |]. split; [lia |].
    intros Hd. specialize (Hlt Hd). lia.
  - simpl. split; [reflexivity |]. split; [lia | exact Hlt].
Qed.

(** What [nextToken] returns once white space is skipped: at the end of
    the input the token [EOF], and before it a token that is not [EOF],
    with at least one byte consumed. *)
Lemma scanToken_spec (l : Lex.Lexer) :
  lexed (fst (Lex.scanToken l))
  /\ ((Lex.input l = "" /\ Type_ (fst (Lex.scanToken l)) = TokenEOF)
      \/ (Type_ (fst (Lex.scanToken l)) <> TokenEOF
          /\ size (snd (Lex.scanToken l)) < size l)).
Proof.
  unfold Lex.scanToken, lexed.
  destruct (Lex.input l) as [| ch rest] eqn:E.
  { simpl. split; [split; [discriminate | discriminate] |]. now left. }
  assert (Hne : Lex.input l <> "") by (rewrite E; discriminate).
  pose proof (lex_advance_size l Hne) as Hadv. rewrite E in Hadv.
  pose proof (lex_advance_le (snd (Lex.advance l))) as Hadv2.
  assert (Hpeek : Lex.peek l = ch) by (unfold Lex.peek; now rewrite E).
  rewrite Hpeek. cbn [String.length] in *.
  destruct (Lex.singleChar ch) as [[typ value] |] eqn:Es.
  { apply singleChar_types in Es. simpl.
    split; [split |].
    - intros ->. unfold keywordTypes in Es. not_here Es.
    - intros ->. not_here Es.
    - right. split; [intros ->; not_here Es | lia]. }
  repeat match goal with
  | |- context [if Ascii.eqb ch ?c then _ else _] =>
      destruct (Ascii.eqb ch c) eqn:?
  | |- context [if Ascii.eqb (Lex.peek ?x) ?c then _ else _] =>
      destruct (Ascii.eqb (Lex.peek x) c)
  | |- context [if ?a && ?b then _ else _] => destruct (a && b)
  end; cbn [fst snd Type_ TValue];
  try (split; [split; [discriminate | discriminate] |];
       right; split; [discriminate | lia]).
  - (* a minus sign *)
    destruct (Lex.isDigit (Lex.peek (snd (Lex.advance l)))).
    + destruct (scanNumber_token "-" (snd (Lex.advance l))) as (T1 & T2 & _).
      rewrite T1. split; [split; [discriminate | discriminate] |].
      right. split; [discriminate | lia].
    + simpl. split; [split; [discriminate | discriminate] |].
      right. split; [discriminate | lia].
  - (* a variable *)
    unfold Lex.scanVariable.
    destruct (scanWhile_size Lex.isIdentChar
                (Lex.input (snd (Lex.advance l)))
                (Lex.line (snd (Lex.advance l)))
                (Lex.column (snd (Lex.advance l))) "?") as [H1 _].
    destruct (Lex.scanWhile _ _ _ _ _) as [sb l1]. simpl in *.
    split; [split; [discriminate | discriminate] |].
    right. split; [discriminate | lia].
  - (* a string *)
    unfold Lex.scanString.
    pose proof (scanStringLoop_size (Lex.input (snd (Lex.advance l)))
                  (Lex.line (snd (Lex.advance l)))
                  (Lex.column (snd (Lex.advance l))) "") as H1.
    destruct (Lex.scanStringLoop _ _ _ _) as [[sb |] l1]; simpl in *;
      (split; [split; [discriminate | discriminate] |]);
      right; (split; [discriminate | lia]).
  - (* a number *)
    destruct (Lex.isDigit ch) eqn:Ed.
    + destruct (scanNumber_token "" l) as (T1 & _ & T3).
      rewrite T1. rewrite Hpeek, E in T3. specialize (T3 Ed). simpl in T3.
      split; [split; [discriminate | discriminate] |].
      right. split; [discriminate | exact T3].
    + destruct (Lex.isIdentStart ch) eqn:Ei.
      * (* an identifier or keyword *)
        unfold Lex.scanIdentifier. rewrite E.
        destruct (scanWhile_size Lex.isIdentChar (String ch rest)
                    (Lex.line l) (Lex.column l) "") as [_ H2].
        assert (Hc : Lex.isIdentChar ch = true).
        { unfold Lex.isIdentStart in Ei. unfold Lex.isIdentChar.
          apply orb_true_iff in Ei as [-> | ->]; [reflexivity |].
          now rewrite orb_true_r. }
        specialize (H2 ch rest eq_refl Hc).
        destruct (Lex.scanWhile _ _ _ _ _) as [value l1]. simpl in H2.
        destruct (Lex.keywords !! value) as [typ |] eqn:Ek; simpl.
        -- apply keywords_range in Ek. unfold keywordTypes in Ek.
           split; [split |].
           ++ intros ->. not_here Ek.
           ++ intros ->. not_here Ek.
           ++ right. split; [intros ->; not_here Ek | exact H2].
        -- split; [split; [discriminate | intros _; exact Ek] |].
           right. split; [discriminate | exact H2].
      * simpl. split; [split; [discriminate | discriminate] |].
        right. split; [discriminate | lia].
Qed.

Lemma nextToken_returns (l : Lex.Lexer) :
  exists tok l',
    Lex.nextToken l = Some (tok, l')
    /\ lexed tok
    /\ ((Type_ tok = TokenEOF /\ Lex.input l' = "")
        \/ (Type_ tok <> TokenEOF /\ size l' < size l)).
Proof.
  unfold Lex.nextToken.
  destruct (skipWhitespace_returns (S (size l)) l ltac:(lia))
    as (l1 & -> & Hle).
  destruct (scanToken_spec l1) as [Hlexed Hcases].
  destruct (Lex.scanToken l1) as [tok l2] eqn:Et. simpl in *.
  exists tok, l2. split; [reflexivity |]. split; [exact Hlexed |].
  destruct Hcases as [[Hin Heof] | [Hne Hlt]].
  - left. split; [exact Heof |].
    unfold Lex.scanToken in Et. rewrite Hin in Et.
    injection Et as _ <-. exact Hin.
  - right. split; [exact Hne | lia].
Qed.

Lemma tokenizeLoop_spec (fuel : nat) (l : Lex.Lexer) (acc : list Token) :
  size l < fuel ->
  Forall (fun t => lexed t /\ Type_ t <> TokenEOF /\ Type_ t <> TokenError)
    acc ->
  exists r,
    Lex.tokenizeLoop fuel l acc = Some r
    /\ forall tokens, r = Ok tokens ->
         exists body eof,
           tokens = body ++ [eof]
           /\ Type_ eof = TokenEOF /\ lexed eof
           /\ Forall (fun t => lexed t /\ Type_ t <> TokenEOF
                               /\ Type_ t <> TokenError) body.
Proof.
  revert l acc. induction fuel as [| fuel IH]; intros l acc Hf Hacc; [lia |].
  cbn [Lex.tokenizeLoop].
  destruct (nextToken_returns l) as (tok & l' & -> & Hlexed & Hcases).
  destruct (decide (Type_ tok = TokenEOF)) as [Heof | Hneof].
  - eexists. split; [reflexivity |]. intros tokens Heq.
    injection Heq as <-. exists acc, tok. repeat split; try assumption.
    + apply Hlexed.
    + apply Hlexed.
  - destruct (decide (Type_ tok = TokenError)) as [Herr | Hnerr].
    + eexists. split; [reflexivity |]. intros tokens Heq. discriminate.
    + destruct Hcases as [[Heof _] | [_ Hlt]]; [contradiction |].
      apply IH; [lia |]. apply Forall_app. split; [exact Hacc |].
      repeat constructor; try assumption; apply Hlexed.
Qed.

End LexerFacts.

Lemma Tokenize_lexed (inp : string) :
  exists r,
    Lex.Tokenize (Lex.NewLexer inp) = Some r
    /\ forall tokens, r = Ok tokens -> Forall lexed tokens.
Proof.
  unfold Lex.Tokenize.
  destruct (tokenizeLoop_spec (S (String.length inp)) (Lex.NewLexer inp) []
              ltac:(simpl; lia) ltac:(constructor)) as (r & Hr & Hshape).
  exists r. split; [exact Hr |]. intros tokens Heq.
  destruct (Hshape tokens Heq) as (body & eof & -> & Heof & Hl & Hbody).
  apply Forall_app. split.
  - eapply Forall_impl; [exact Hbody |]. intros t (H0 & _). exact H0.
  - repeat constructor; apply Hl.
Qed.

(** X29: the lexer terminates, and what it returns is well formed.  On
    every input [Tokenize] returns a token list or an error.  A token list
    it returns ends with the one [EOF] token it holds and holds no [Error]
    token.  No token is ever the operator [%] (a percent sign always
    starts a comment), and no identifier token is one of the keywords
    ([rule], [when], [then], [suggestion], [aggregate], [not], [count],
    [sum], [max], [min], [avg]). *)
Theorem Tokenize_well_formed (inp : string) :
  exists r,
    Lex.Tokenize (Lex.NewLexer inp) = Some r
    /\ forall tokens, r = Ok tokens ->
         exists body eof,
           tokens = body ++ [eof]
           /\ Type_ eof = TokenEOF
           /\ Forall (fun t => Type_ t <> TokenEOF /\ Type_ t <> TokenError)
                body
           /\ Forall (fun t =>
                        Type_ t <> TokenPercent
                        /\ (Type_ t = TokenIdent ->
                            Lex.keywords !! TValue t = None)) tokens.
Proof.
  unfold Lex.Tokenize.
  destruct (tokenizeLoop_spec (S (String.length inp)) (Lex.NewLexer inp) []
              ltac:(simpl; lia) ltac:(constructor)) as (r & Hr & Hshape).
  exists r. split; [exact Hr |]. intros tokens Heq.
  destruct (Hshape tokens Heq) as (body & eof & -> & Heof & Hl & Hbody).
  exists body, eof. repeat split; try assumption.
  - eapply Forall_impl; [exact Hbody |]. intros t (_ & H1 & H2).
    split; assumption.
  - apply Forall_app. split.
    + eapply Forall_impl; [exact Hbody |]. intros t (H0 & _). exact H0.
    + repeat constructor; apply Hl.
Qed.

(** ** parser.go: programs *)

Section ParseProgramFacts.
Variable tokens : list Token.
Variable exprString : Expression -> string.

Local Abbreviation len := (length tokens).

Ltac presult t E :=
  destruct t as [[[? ?] | ? | ?] |] eqn:E; cbn [pbind]; try discriminate.

Ltac presult_as t E x p :=
  destruct t as [[[x p] | ? | ?] |] eqn:E; cbn [pbind]; try discriminate.

(** A successful [expect] in a goal about a successful parse. *)
Ltac expected typ p :=
  let E := fresh "E" in
  let Hp := fresh "Hp" in
  destruct (expect tokens typ p) as [[[? ?] | ? | ?] |] eqn:E; cbn [pbind];
  try discriminate;
  apply expect_ok in E as [-> Hp]; [| discriminate].

(** An [expect] in a goal that the parse returns. *)
Ltac expecting typ p :=
  let E := fresh "E" in
  let Hr := fresh "Hr" in
  let Hp := fresh "Hp" in
  pose proof (expect_returns tokens typ p) as Hr;
  destruct (expect tokens typ p) as [[[? ?] | ? | ?] |] eqn:E; cbn [pbind];
  try discriminate; [| congruence];
  apply expect_ok in E as [-> Hp]; [| discriminate].

(** *** Positions *)

Lemma metricValue_bounds (fuel pos : nat) (value : string) (pos' : nat) :
  (if decide (Type_ (peek tokens pos) = TokenString)
   then pret (TValue (fst (advance tokens pos))) (snd (advance tokens pos))
   else
     let? (expr, pos) := parseExpression tokens fuel pos in
     pret (exprString expr) pos) = Some (Ok (value, pos')) ->
  pos < pos' /\ pos' <= len.
Proof.
  destruct (decide (Type_ (peek tokens pos) = TokenString)) as [Hs | Hs].
  - cbn [advance fst snd pret]. intros Hres. inversion Hres; subst.
    assert (pos < len) by (apply peek_in_range; congruence). lia.
  - presult_as (parseExpression tokens fuel pos) Ee expr p.
    intros Hres. inversion Hres; subst.
    apply (parseExpression_consumes tokens fuel _ _ _ Ee).
Qed.

Lemma parseMetricsLoop_bounds (fuel k pos : nat)
    (metrics : list MetricTemplate) (pos' : nat) :
  parseMetricsLoop tokens exprString fuel k pos = Some (Ok (metrics, pos')) ->
  pos <= pos' /\ pos' <= len.
Proof.
  revert pos metrics pos'. induction k as [| k IH]; intros pos metrics pos';
    cbn [parseMetricsLoop]; [discriminate |].
  destruct (decide (Type_ (peek tokens pos) = TokenRBracket)) as [Hr | Hr].
  { intros Hres. inversion Hres; subst.
    assert (pos' < len) by (apply peek_in_range; congruence). lia. }
  expected TokenLBracket pos. expected TokenString (S pos).
  expected TokenComma (S (S pos)).
  match goal with
  | |- pbind ?m _ = _ -> _ => presult_as m Ev mval p
  end.
  apply metricValue_bounds in Ev as [Hv1 Hv2].
  expected TokenRBracket p.
  destruct (matchTok_ok tokens TokenComma (S p) ltac:(discriminate))
    as [[Hm Hq] | Hm]; rewrite Hm.
  - presult_as (parseMetricsLoop tokens exprString fuel k (S (S p))) Er ms q.
    intros Hres. inversion Hres; subst. destruct (IH _ _ _ Er). lia.
  - intros Hres. inversion Hres; subst. lia.
Qed.

Lemma parseMetricsArray_bounds (fuel pos : nat)
    (metrics : list MetricTemplate) (pos' : nat) :
  parseMetricsArray tokens exprString fuel pos = Some (Ok (metrics, pos')) ->
  pos < pos' /\ pos' <= len.
Proof.
  unfold parseMetricsArray. expected TokenLBracket pos.
  presult_as (parseMetricsLoop tokens exprString fuel (loopBound tokens)
                (S pos)) El ms p.
  apply parseMetricsLoop_bounds in El as [H1 H2].
  expected TokenRBracket p.
  intros Hres. inversion Hres; subst. lia.
Qed.

Lemma target_bounds (pos : nat) :
  pos <= len ->
  pos <= snd (if decide (Type_ (peek tokens pos) = TokenString)
              then (TValue (fst (advance tokens pos)), snd (advance tokens pos))
              else if decide (Type_ (peek tokens pos) = TokenVariable)
              then (TValue (fst (advance tokens pos)),
                    snd (advance tokens pos))
              else ("", pos)) <= len.
Proof.
  intros Hle.
  destruct (decide (Type_ (peek tokens pos) = TokenString)) as [Hs | Hs].
  - assert (pos < len) by (apply peek_in_range; congruence). simpl. lia.
  - destruct (decide (Type_ (peek tokens pos) = TokenVariable)) as [Hv | Hv].
    + assert (pos < len) by (apply peek_in_range; congruence). simpl. lia.
    + simpl. lia.
Qed.

Lemma parseSuggestionTemplate_bounds (fuel pos : nat)
    (template : SuggestionTemplate) (pos' : nat) :
  parseSuggestionTemplate tokens exprString fuel pos
  = Some (Ok (template, pos')) ->
  pos < pos' /\ pos' <= len.
Proof.
  unfold parseSuggestionTemplate.
  expected TokenSuggestion pos. expected TokenLParen (S pos).
  expected TokenIdent (S (S pos)). expected TokenComma (S (S (S pos))).
  expected TokenIdent (S (S (S (S pos)))).
  expected TokenComma (S (S (S (S (S pos))))).
  expected TokenString (S (S (S (S (S (S pos)))))).
  expected TokenComma (S (S (S (S (S (S (S pos))))))).
  expected TokenString (S (S (S (S (S (S (S (S pos)))))))).
  set (p9 := S (S (S (S (S (S (S (S (S pos))))))))) in *.
  destruct (matchTok_ok tokens TokenComma p9 ltac:(discriminate))
    as [[Hm Hq] | Hm]; rewrite Hm.
  - pose proof (target_bounds (S p9) ltac:(lia)) as Ht.
    destruct (if decide (Type_ (peek tokens (S p9)) = TokenString)
              then _ else _) as [target p10]. simpl in Ht.
    destruct (matchTok_ok tokens TokenComma p10 ltac:(discriminate))
      as [[Hm2 Hq2] | Hm2]; rewrite Hm2.
    + presult_as (parseMetricsArray tokens exprString fuel (S p10)) Ea ms p11.
      apply parseMetricsArray_bounds in Ea as [H1 H2].
      cbn [pret pbind]. expected TokenRParen p11.
      intros Hres. inversion Hres; subst. unfold p9 in *. lia.
    + cbn [pret pbind]. expected TokenRParen p10.
      intros Hres. inversion Hres; subst. unfold p9 in *. lia.
  - cbn [pret pbind]. expected TokenRParen p9.
    intros Hres. inversion Hres; subst. unfold p9 in *. lia.
Qed.

Lemma parseSuggestionRule_consumes (fuel : nat) :
  consumes len (parseSuggestionRule tokens exprString fuel).
Proof.
  intros pos rule pos'. unfold parseSuggestionRule.
  expected TokenRule pos. expected TokenIdent (S pos).
  expected TokenLBrace (S (S pos)). expected TokenWhen (S (S (S pos))).
  expected TokenColon (S (S (S (S pos)))).
  presult_as (parseBody tokens fuel (S (S (S (S (S pos)))))) Eb body p.
  apply parseBody_consumes in Eb as [H1 H2].
  expected TokenDot p. expected TokenThen (S p). expected TokenColon (S (S p)).
  presult_as (parseSuggestionTemplate tokens exprString fuel (S (S (S p))))
    Et template q.
  apply parseSuggestionTemplate_bounds in Et as [H3 H4].
  expected TokenDot q. expected TokenRBrace (S q).
  intros Hres. inversion Hres; subst. lia.
Qed.

Lemma parseProgramLoop_bounds (fuel k : nat) (program : Program) (pos : nat)
    (result : Program) (pos' : nat) :
  pos <= len ->
  parseProgramLoop tokens exprString fuel k program pos
  = Some (Ok (result, pos')) ->
  pos <= pos' /\ pos' <= len.
Proof.
  revert program pos. induction k as [| k IH]; intros program pos Hle;
    cbn [parseProgramLoop]; [discriminate |].
  destruct (decide (Type_ (peek tokens pos) = TokenEOF));
    [intros Hres; inversion Hres; subst; lia |].
  destruct (decide (Type_ (peek tokens pos) = TokenRule)).
  - presult_as (parseSuggestionRule tokens exprString fuel pos) Er rule p.
    apply parseSuggestionRule_consumes in Er as [H1 H2].
    intros Hres. apply IH in Hres; lia.
  - destruct (bool_decide (Type_ (peek tokens pos) = TokenIdent)
              || bool_decide (Type_ (peek tokens pos) = TokenVariable));
      [| discriminate].
    presult_as (parseRule tokens fuel pos) Er rule p.
    apply parseRule_consumes in Er as [H1 H2].
    intros Hres. apply IH in Hres; lia.
Qed.

(** *** Termination *)

Lemma metricValue_returns (pos : nat) :
  pos <= len ->
  (if decide (Type_ (peek tokens pos) = TokenString)
   then pret (TValue (fst (advance tokens pos))) (snd (advance tokens pos))
   else
     let? (expr, pos) := parseExpression tokens (S len) pos in
     pret (exprString expr) pos) <> None.
Proof.
  intros Hle.
  destruct (decide (Type_ (peek tokens pos) = TokenString)); [discriminate |].
  pose proof (parseExpression_returns tokens (S len) pos ltac:(lia) Hle)
    as Hret.
  presult (parseExpression tokens (S len) pos) Ee. congruence.
Qed.

Lemma parseMetricsLoop_returns (k pos : nat) :
  pos <= len -> len < k + pos ->
  parseMetricsLoop tokens exprString (S len) k pos <> None.
Proof.
  revert pos. induction k as [| k IH]; intros pos Hle Hk; [lia |].
  cbn [parseMetricsLoop].
  destruct (decide (Type_ (peek tokens pos) = TokenRBracket));
    [discriminate |].
  expecting TokenLBracket pos. expecting TokenString (S pos).
  expecting TokenComma (S (S pos)).
  pose proof (metricValue_returns (S (S (S pos))) ltac:(lia)) as Hv.
  match goal with
  | |- pbind ?m _ <> _ => presult_as m Ev mval p; [| congruence]
  end.
  apply metricValue_bounds in Ev as [Hv1 Hv2].
  expecting TokenRBracket p.
  destruct (matchTok_ok tokens TokenComma (S p) ltac:(discriminate))
    as [[Hm Hq] | Hm]; rewrite Hm; [| discriminate].
  specialize (IH (S (S p)) ltac:(lia) ltac:(lia)).
  presult (parseMetricsLoop tokens exprString (S len) k (S (S p))) Er.
  congruence.
Qed.

Lemma parseMetricsArray_returns (pos : nat) :
  pos <= len -> parseMetricsArray tokens exprString (S len) pos <> None.
Proof.
  intros Hle. unfold parseMetricsArray. expecting TokenLBracket pos.
  pose proof (parseMetricsLoop_returns (loopBound tokens) (S pos) ltac:(lia)
                ltac:(unfold loopBound; lia)) as Hret.
  presult_as (parseMetricsLoop tokens exprString (S len) (loopBound tokens)
                (S pos)) El ms p; [| congruence].
  pose proof (expect_returns tokens TokenRBracket p) as Hret2.
  presult (expect tokens TokenRBracket p) E2. congruence.
Qed.

Lemma parseSuggestionTemplate_returns (pos : nat) :
  parseSuggestionTemplate tokens exprString (S len) pos <> None.
Proof.
  unfold parseSuggestionTemplate.
  expecting TokenSuggestion pos. expecting TokenLParen (S pos).
  expecting TokenIdent (S (S pos)). expecting TokenComma (S (S (S pos))).
  expecting TokenIdent (S (S (S (S pos)))).
  expecting TokenComma (S (S (S (S (S pos))))).
  expecting TokenString (S (S (S (S (S (S pos)))))).
  expecting TokenComma (S (S (S (S (S (S (S pos))))))).
  expecting TokenString (S (S (S (S (S (S (S (S pos)))))))).
  set (p9 := S (S (S (S (S (S (S (S (S pos))))))))) in *.
  destruct (matchTok_ok tokens TokenComma p9 ltac:(discriminate))
    as [[Hm Hq] | Hm]; rewrite Hm.
  - pose proof (target_bounds (S p9) ltac:(lia)) as Ht.
    destruct (if decide (Type_ (peek tokens (S p9)) = TokenString)
              then _ else _) as [target p10]. simpl in Ht.
    destruct (matchTok_ok tokens TokenComma p10 ltac:(discriminate))
      as [[Hm2 Hq2] | Hm2]; rewrite Hm2.
    + pose proof (parseMetricsArray_returns (S p10) ltac:(lia)) as Hret.
      presult_as (parseMetricsArray tokens exprString (S len) (S p10))
        Ea ms p11; [| congruence].
      cbn [pret pbind].
      pose proof (expect_returns tokens TokenRParen p11) as Hret2.
      presult (expect tokens TokenRParen p11) E2. congruence.
    + cbn [pret pbind].
      pose proof (expect_returns tokens TokenRParen p10) as Hret2.
      presult (expect tokens TokenRParen p10) E2. congruence.
  - cbn [pret pbind].
    pose proof (expect_returns tokens TokenRParen p9) as Hret2.
    presult (expect tokens TokenRParen p9) E2. congruence.
Qed.

Lemma parseSuggestionRule_returns (pos : nat) :
  parseSuggestionRule tokens exprString (S len) pos <> None.
Proof.
  unfold parseSuggestionRule.
  expecting TokenRule pos. expecting TokenIdent (S pos).
  expecting TokenLBrace (S (S pos)). expecting TokenWhen (S (S (S pos))).
  expecting TokenColon (S (S (S (S pos)))).
  pose proof (parseBody_returns tokens (S (S (S (S (S pos))))) ltac:(lia))
    as Hb.
  presult_as (parseBody tokens (S len) (S (S (S (S (S pos)))))) Eb body p;
    [| congruence].
  expecting TokenDot p. expecting TokenThen (S p).
  expecting TokenColon (S (S p)).
  pose proof (parseSuggestionTemplate_returns (S (S (S p)))) as Ht.
  presult_as (parseSuggestionTemplate tokens exprString (S len)
                (S (S (S p)))) Et template q; [| congruence].
  expecting TokenDot q.
  pose proof (expect_returns tokens TokenRBrace (S q)) as Hret2.
  presult (expect tokens TokenRBrace (S q)) E2. congruence.
Qed.

Lemma parseProgramLoop_returns (k : nat) (program : Program) (pos : nat) :
  pos <= len -> len < k + pos ->
  parseProgramLoop tokens exprString (S len) k program pos <> None.
Proof.
  revert program pos. induction k as [| k IH]; intros program pos Hle Hk;
    [lia |].
  cbn [parseProgramLoop].
  destruct (decide (Type_ (peek tokens pos) = TokenEOF)); [discriminate |].
  destruct (decide (Type_ (peek tokens pos) = TokenRule)).
  - pose proof (parseSuggestionRule_returns pos) as Hret.
    presult_as (parseSuggestionRule tokens exprString (S len) pos) Er rule p;
      [| congruence].
    apply parseSuggestionRule_consumes in Er as [H1 H2].
    apply IH; lia.
  - destruct (bool_decide (Type_ (peek tokens pos) = TokenIdent)
              || bool_decide (Type_ (peek tokens pos) = TokenVariable));
      [| discriminate].
    pose proof (parseRule_returns tokens pos) as Hret.
    presult_as (parseRule tokens (S len) pos) Er rule p; [| congruence].
    apply parseRule_consumes in Er as [H1 H2].
    apply IH; lia.
Qed.

Lemma ParseProgram_returns : ParseProgram tokens exprString <> None.
Proof.
  unfold ParseProgram.
  pose proof (parseProgramLoop_returns (loopBound tokens) (mkProgram [] []) 0
                ltac:(lia) ltac:(unfold loopBound; lia)) as Hret.
  destruct (parseProgramLoop tokens exprString (S len) (loopBound tokens)
              (mkProgram [] []) 0) as [[[program p] | m | m] |];
    congruence.
Qed.

(** *** What lexed tokens parse to *)

Hypothesis tokens_lexed : Forall lexed tokens.

Lemma peek_lexed (pos : nat) : lexed (peek tokens pos).
Proof.
  unfold peek. destruct (tokens !! pos) as [t |] eqn:E; simpl.
  - rewrite Forall_forall in tokens_lexed. apply tokens_lexed.
    eapply list_elem_of_lookup_2. exact E.
  - split; discriminate.
Qed.

Lemma parseList_yields {X : Type} (P : X -> Prop) (item : nat -> PResult X) :
  yields P item -> forall k, yields (Forall P) (parseList tokens item k).
Proof.
  intros Hitem. induction k as [| k IH]; intros pos xs pos';
    cbn [parseList]; [discriminate |].
  destruct (decide (Type_ (peek tokens pos) = TokenRParen)).
  { intros Hres. inversion Hres; subst. constructor. }
  presult_as (item pos) Ei x p. apply Hitem in Ei.
  destruct (matchTok tokens TokenComma p) as [[|] p2].
  - presult_as (parseList tokens item k p2) Er rest q. apply IH in Er.
    intros Hres. inversion Hres; subst. now constructor.
  - intros Hres. inversion Hres; subst. now repeat constructor.
Qed.

Lemma binaryLoop_plain (opOf : TokenType -> option ArithOp)
    (operand : nat -> PResult Expression) :
  (forall typ, opOf typ = Some OpMod -> typ = TokenPercent) ->
  yields (fun e => plainExpr e = true) operand ->
  forall k lhs pos e pos',
    plainExpr lhs = true ->
    binaryLoop tokens opOf operand k lhs pos = Some (Ok (e, pos')) ->
    plainExpr e = true.
Proof.
  intros Hop Hoperand. induction k as [| k IH]; intros lhs pos e pos' Hl;
    cbn [binaryLoop]; [discriminate |].
  destruct (opOf (Type_ (peek tokens pos))) as [op |] eqn:Eo.
  2:{ intros Hres. inversion Hres; subst. exact Hl. }
  cbn [advance snd]. presult_as (operand (S pos)) Er rhs p.
  apply Hoperand in Er. apply IH. simpl. rewrite Hl, Er. simpl.
  destruct op; try reflexivity.
  apply Hop in Eo. now destruct (peek_lexed pos) as [Hp _].
Qed.

Section PlainExpressions.
Variable pe : nat -> PResult Expression.
Hypothesis pe_plain : yields (fun e => plainExpr e = true) pe.

Lemma parsePrimary_plain :
  yields (fun e => plainExpr e = true) (parsePrimary tokens pe).
Proof.
  intros pos e pos'. unfold parsePrimary.
  destruct (decide (Type_ (peek tokens pos) = TokenLParen)).
  - cbn [advance snd]. presult_as (pe (S pos)) E1 inner p.
    apply pe_plain in E1.
    presult (expect tokens TokenRParen p) E2.
    intros Hres. inversion Hres; subst. exact E1.
  - destruct (bool_decide (Type_ (peek tokens pos) = TokenIdent)) eqn:Ei;
      cbn [andb].
    + apply bool_decide_eq_true in Ei.
      destruct (bool_decide (Type_ (peekN tokens pos 1) = TokenLParen)).
      * unfold parseFunctionCall. cbn [advance fst snd].
        presult_as (expect tokens TokenLParen (S pos)) E1 t1 p1.
        presult_as (parseList tokens pe (loopBound tokens) p1) E2 args p.
        apply (parseList_yields _ pe pe_plain) in E2.
        presult (expect tokens TokenRParen p) E3.
        intros Hres. inversion Hres; subst. simpl.
        destruct (peek_lexed pos) as [_ Hk]. rewrite (Hk Ei).
        rewrite bool_decide_eq_true_2 by reflexivity. simpl.
        apply forallb_forall. intros a Ha.
        rewrite Forall_forall in E2. apply E2. now apply list_elem_of_In.
      * presult_as (parseTerm tokens pos) Et term p.
        intros Hres. inversion Hres; subst. reflexivity.
    + presult_as (parseTerm tokens pos) Et term p.
      intros Hres. inversion Hres; subst. reflexivity.
Qed.

Lemma parseMultiplicative_plain :
  yields (fun e => plainExpr e = true) (parseMultiplicative tokens pe).
Proof.
  intros pos e pos'. unfold parseMultiplicative, parseUnary.
  presult_as (parsePrimary tokens pe pos) E1 lhs p.
  apply parsePrimary_plain in E1.
  apply (binaryLoop_plain mulOp (parsePrimary tokens pe)); try assumption.
  - intros typ. destruct typ; simpl; congruence.
  - apply parsePrimary_plain.
Qed.

Lemma parseAdditive_plain :
  yields (fun e => plainExpr e = true) (parseAdditive tokens pe).
Proof.
  intros pos e pos'. unfold parseAdditive.
  presult_as (parseMultiplicative tokens pe pos) E1 lhs p.
  apply parseMultiplicative_plain in E1.
  apply (binaryLoop_plain addOp (parseMultiplicative tokens pe));
    try assumption.
  - intros typ. destruct typ; simpl; congruence.
  - apply parseMultiplicative_plain.
Qed.

End PlainExpressions.

Lemma parseExpression_plain (fuel : nat) :
  yields (fun e => plainExpr e = true) (parseExpression tokens fuel).
Proof.
  induction fuel as [| fuel IH]; cbn [parseExpression].
  - intros pos e pos'. discriminate.
  - now apply parseAdditive_plain.
Qed.

Lemma parseClause_plain (fuel : nat) :
  yields (fun c => plainClause c = true) (parseClause tokens fuel).
Proof.
  intros pos c pos'. destruct fuel as [| fuel]; cbn [parseClause];
    [discriminate |].
  destruct (matchTok tokens TokenNot pos) as [[|] p1].
  - presult (parseAtom tokens p1) Ea.
    intros Hres. inversion Hres; subst. reflexivity.
  - destruct (decide (Type_ (peek tokens pos) = TokenAggregate)).
    { intros Hres. now apply parseAggregation_fails in Hres. }
    destruct (bool_decide (Type_ (peek tokens pos) = TokenVariable)
              && bool_decide (Type_ (peekN tokens pos 1) = TokenEq)).
    { unfold parseAssignmentOrComparison. cbn [advance fst snd].
      presult_as (parseExpression tokens fuel (S (S pos))) Ee expr p.
      apply parseExpression_plain in Ee.
      destruct expr; intros Hres; inversion Hres; subst;
        first [reflexivity | exact Ee]. }
    destruct (bool_decide (Type_ (peek tokens pos) = TokenVariable)
              && isComparisonOp (Type_ (peekN tokens pos 1))).
    { unfold parseComparison.
      presult_as (parseTerm tokens pos) E1 l p. cbn [advance fst snd].
      destruct (tokenToComparisonOp (Type_ (peek tokens p)));
        try discriminate.
      presult (parseTerm tokens (S p)) E2.
      intros Hres. inversion Hres; subst. reflexivity. }
    presult (parseAtom tokens pos) Ea.
    intros Hres. inversion Hres; subst. reflexivity.
Qed.

Lemma parseBody_plain (fuel : nat) :
  yields (fun body => forallb plainClause body = true)
    (parseBody tokens fuel).
Proof.
  unfold parseBody, parseBodyWith. generalize (loopBound tokens) as k.
  induction k as [| k IH]; intros pos body pos'; cbn [parseBodyLoop];
    [discriminate |].
  presult_as (parseClause tokens fuel pos) Ec clause p.
  apply parseClause_plain in Ec.
  destruct (matchTok tokens TokenComma p) as [[|] p2].
  - presult_as (parseBodyLoop tokens (parseClause tokens fuel) k p2)
      Er rest q.
    apply IH in Er. intros Hres. inversion Hres; subst. simpl.
    now rewrite Ec, Er.
  - intros Hres. inversion Hres; subst. simpl. now rewrite Ec.
Qed.

Lemma parseRule_plain (fuel : nat) :
  yields (fun r => forallb plainClause (Body r) = true)
    (parseRule tokens fuel).
Proof.
  intros pos r pos'. unfold parseRule.
  presult_as (parseAtom tokens pos) Ea hd0 p0.
  destruct (matchTok tokens TokenImplies p0) as [[|] p1].
  - presult_as (parseBody tokens fuel p1) Eb body p.
    apply parseBody_plain in Eb.
    presult (expect tokens TokenDot p) Ed.
    intros Hres. inversion Hres; subst. exact Eb.
  - cbn [pret pbind]. presult (expect tokens TokenDot p1) Ed.
    intros Hres. inversion Hres; subst. reflexivity.
Qed.

Lemma parseSuggestionRule_plain (fuel : nat) :
  yields (fun r => forallb plainClause (Conditions r) = true)
    (parseSuggestionRule tokens exprString fuel).
Proof.
  intros pos r pos'. unfold parseSuggestionRule.
  presult_as (expect tokens TokenRule pos) E1 t1 p1.
  presult_as (expect tokens TokenIdent p1) E2 t2 p2.
  presult_as (expect tokens TokenLBrace p2) E3 t3 p3.
  presult_as (expect tokens TokenWhen p3) E4 t4 p4.
  presult_as (expect tokens TokenColon p4) E5 t5 p5.
  presult_as (parseBody tokens fuel p5) Eb body p.
  apply parseBody_plain in Eb.
  presult_as (expect tokens TokenDot p) E6 t6 p6.
  presult_as (expect tokens TokenThen p6) E7 t7 p7.
  presult_as (expect tokens TokenColon p7) E8 t8 p8.
  presult_as (parseSuggestionTemplate tokens exprString fuel p8) E9 t9 p9.
  presult_as (expect tokens TokenDot p9) E10 t10 p10.
  presult_as (expect tokens TokenRBrace p10) E11 t11 p11.
  intros Hres. inversion Hres; subst. exact Eb.
Qed.

Lemma parseProgramLoop_plain (fuel k : nat) (program : Program) (pos : nat)
    (result : Program) (pos' : nat) :
  plainProgram program = true ->
  parseProgramLoop tokens exprString fuel k program pos
  = Some (Ok (result, pos')) ->
  plainProgram result = true.
Proof.
  revert program pos. induction k as [| k IH]; intros program pos Hp;
    cbn [parseProgramLoop]; [discriminate |].
  destruct (decide (Type_ (peek tokens pos) = TokenEOF));
    [intros Hres; inversion Hres; subst; exact Hp |].
  unfold plainProgram in Hp. apply andb_true_iff in Hp as [Hp1 Hp2].
  destruct (decide (Type_ (peek tokens pos) = TokenRule)).
  - presult_as (parseSuggestionRule tokens exprString fuel pos) Er rule p.
    apply parseSuggestionRule_plain in Er.
    apply IH. unfold plainProgram. simpl.
    rewrite Hp1, forallb_app, Hp2. simpl. now rewrite Er.
  - destruct (bool_decide (Type_ (peek tokens pos) = TokenIdent)
              || bool_decide (Type_ (peek tokens pos) = TokenVariable));
      [| discriminate].
    presult_as (parseRule tokens fuel pos) Er rule p.
    apply parseRule_plain in Er.
    apply IH. unfold plainProgram. simpl.
    rewrite forallb_app, Hp1, Hp2. simpl. now rewrite Er.
Qed.

Lemma ParseProgram_plain (program : Program) :
  ParseProgram tokens exprString = Some (Ok program) ->
  plainProgram program = true.
Proof.
  unfold ParseProgram.
  destruct (parseProgramLoop tokens exprString (S len) (loopBound tokens)
              (mkProgram [] []) 0) as [[[result p] | m | m] |] eqn:E;
    try discriminate.
  intros Hres. inversion Hres; subst.
  apply (parseProgramLoop_plain _ _ (mkProgram [] []) _ _ _ eq_refl E).
Qed.

End ParseProgramFacts.

(** X30: parsing a rule text terminates, and some of the language cannot be
    written.  On every input [Parse] returns a program or an error.  A
    program it returns holds, in the bodies of its rules and in the
    conditions of its suggestion rules, no aggregation clause, no
    expression with the operator [%], and no call of a function whose name
    is a keyword: the built-ins [min] and [max] cannot be called from a
    rule text. *)
Theorem Parse_total_and_plain (exprString : Expression -> string)
    (inp : string) :
  exists r,
    Parse exprString inp = Some r
    /\ forall program, r = Ok program -> plainProgram program = true.
Proof.
  unfold Parse.
  destruct (Tokenize_lexed inp) as (r & -> & Hlexed).
  destruct r as [tokens | m | m].
  - pose proof (ParseProgram_returns tokens exprString) as Hret.
    destruct (ParseProgram tokens exprString) as [r |] eqn:E; [| congruence].
    exists r. split; [reflexivity |]. intros program ->.
    apply (ParseProgram_plain tokens exprString (Hlexed tokens eq_refl)).
    exact E.
  - eexists. split; [reflexivity |]. discriminate.
  - eexists. split; [reflexivity |]. discriminate.
Qed.

Lemma Parse_total_and_plain_witness :
  exists program,
    Parse (fun _ => "") exampleProgramText = Some (Ok program)
    /\ length (Rules program) = 2
    /\ length (SuggestionRules program) = 1
    /\ plainProgram program = true.
Proof.
  destruct (Parse_total_and_plain (fun _ => "") exampleProgramText)
    as (r & Hr & Hplain).
  destruct r as [program | m | m];
    [| vm_compute in Hr; discriminate | vm_compute in Hr; discriminate].
  exists program. split; [exact Hr |].
  split; [| split; [| now apply Hplain]].
  - vm_compute in Hr. injection Hr as <-. reflexivity.
  - vm_compute in Hr. injection Hr as <-. reflexivity.
Defined.

(** ** Rule ids have no colon

    The id of a suggestion rule is the text of the identifier token after
    [rule]; the lexer builds an identifier from letters, digits and
    underscores only.  This is the condition under which deduplication
    keeps the first item of every pair (ruleId, target). *)

Lemma containsByte_app (c : ascii) (s1 s2 : string) :
  containsByte c (s1 ++ s2) = containsByte c s1 || containsByte c s2.
Proof.
  induction s1 as [| x s1 IH]; simpl; [reflexivity |].
  now rewrite IH, orb_assoc.
Qed.

Lemma writeRune_ident (ch : ascii) :
  Lex.isIdentChar ch = true -> containsByte ":" (Lex.writeRune ch) = false.
Proof.
  destruct ch as [[] [] [] [] [] [] [] []]; vm_compute; intros Hc;
    first [reflexivity | discriminate Hc].
Qed.

Lemma scanWhile_ident (inp : string) (ln col : nat) (sb : string) :
  containsByte ":" sb = false ->
  containsByte ":" (fst (Lex.scanWhile Lex.isIdentChar inp ln col sb)) = false.
Proof.
  revert ln col sb. induction inp as [| ch rest IH]; intros ln col sb Hsb;
    cbn [Lex.scanWhile]; [exact Hsb |].
  destruct (Lex.isIdentChar ch) eqn:Ec; [| exact Hsb].
  apply IH. rewrite containsByte_app, Hsb. simpl.
  now apply writeRune_ident.
Qed.

Lemma scanToken_ident (l : Lex.Lexer) : identColonFree (fst (Lex.scanToken l)).
Proof.
  unfold Lex.scanToken, identColonFree.
  destruct (Lex.input l) as [| ch rest] eqn:E; [discriminate |].
  destruct (Lex.singleChar (Lex.peek l)) as [[typ value] |] eqn:Es.
  { apply singleChar_types in Es. simpl. intros ->. not_here Es. }
  repeat match goal with
  | |- context [if Ascii.eqb (Lex.peek ?x) ?c then _ else _] =>
      destruct (Ascii.eqb (Lex.peek x) c)
  | |- context [if ?a && ?b then _ else _] => destruct (a && b)
  end; cbn [fst snd Type_ TValue]; try discriminate.
  - (* a minus sign *)
    destruct (Lex.isDigit (Lex.peek (snd (Lex.advance l)))).
    + destruct (scanNumber_token "-" (snd (Lex.advance l))) as (T1 & _).
      rewrite T1. discriminate.
    + discriminate.
  - (* a variable *)
    unfold Lex.scanVariable.
    destruct (Lex.scanWhile _ _ _ _ _) as [sb l1]. discriminate.
  - (* a string *)
    unfold Lex.scanString.
    destruct (Lex.scanStringLoop _ _ _ _) as [[sb |] l1]; discriminate.
  - (* a number, an identifier or a keyword *)
    destruct (Lex.isDigit (Lex.peek l)).
    + destruct (scanNumber_token "" l) as (T1 & _). rewrite T1. discriminate.
    + destruct (Lex.isIdentStart (Lex.peek l)); [| discriminate].
      unfold Lex.scanIdentifier.
      pose proof (scanWhile_ident (Lex.input l) (Lex.line l) (Lex.column l)
                    "" eq_refl) as Hv.
      destruct (Lex.scanWhile _ _ _ _ _) as [value l1]. simpl in Hv.
      destruct (Lex.keywords !! value) as [typ |] eqn:Ek; simpl.
      * apply keywords_range in Ek. unfold keywordTypes in Ek.
        intros ->. not_here Ek.
      * intros _. exact Hv.
Qed.

Lemma tokenizeLoop_ident (fuel : nat) (l : Lex.Lexer) (acc tokens : list Token) :
  Forall identColonFree acc ->
  Lex.tokenizeLoop fuel l acc = Some (Ok tokens) ->
  Forall identColonFree tokens.
Proof.
  revert l acc. induction fuel as [| fuel IH]; intros l acc Hacc;
    cbn [Lex.tokenizeLoop]; [discriminate |].
  unfold Lex.nextToken.
  destruct (Lex.skipWhitespace _ l) as [l1 |]; [| discriminate].
  pose proof (scanToken_ident l1) as Ht.
  destruct (Lex.scanToken l1) as [tok l2]. simpl in Ht.
  assert (Hall : Forall identColonFree (acc ++ [tok]))
    by (apply Forall_app; split; [exact Hacc | now repeat constructor]).
  destruct (decide (Type_ tok = TokenEOF)).
  - intros Hres. injection Hres as <-. exact Hall.
  - destruct (decide (Type_ tok = TokenError)); [discriminate |].
    now apply IH.
Qed.

Section RuleIds.
Variable tokens : list Token.
Variable exprString : Expression -> string.
Hypothesis tokens_ident : Forall identColonFree tokens.

Lemma expect_ident (pos : nat) (tok : Token) (pos' : nat) :
  expect tokens TokenIdent pos = Some (Ok (tok, pos')) ->
  containsByte ":" (TValue tok) = false.
Proof.
  unfold expect, advance, pret. cbn [fst snd].
  destruct (decide (Type_ (peek tokens pos) = TokenIdent)) as [Ht |];
    [| discriminate].
  intros Hres. injection Hres as <- _.
  unfold peek in *. destruct (tokens !! pos) as [t |] eqn:E; simpl in *.
  - rewrite Forall_forall in tokens_ident. apply tokens_ident; [| exact Ht].
    eapply list_elem_of_lookup_2. exact E.
  - discriminate.
Qed.

Lemma parseSuggestionRule_id (fuel pos : nat) (r : SuggestionRule)
    (pos' : nat) :
  parseSuggestionRule tokens exprString fuel pos = Some (Ok (r, pos')) ->
  containsByte ":" (SRID r) = false.
Proof.
  unfold parseSuggestionRule.
  destruct (expect tokens TokenRule pos) as [[[t1 p1] | ? | ?] |];
    cbn [pbind]; try discriminate.
  destruct (expect tokens TokenIdent p1) as [[[nameTok p2] | ? | ?] |] eqn:E2;
    cbn [pbind]; try discriminate.
  apply expect_ident in E2.
  repeat match goal with
  | |- context [pbind ?m _] =>
      destruct m as [[[? ?] | ? | ?] |]; cbn [pbind]; try discriminate
  end.
  intros Hres. inversion Hres; subst. exact E2.
Qed.

Lemma parseProgramLoop_ids (fuel k : nat) (program : Program) (pos : nat)
    (result : Program) (pos' : nat) :
  ruleIdsColonFree program ->
  parseProgramLoop tokens exprString fuel k program pos
  = Some (Ok (result, pos')) ->
  ruleIdsColonFree result.
Proof.
  revert program pos. induction k as [| k IH]; intros program pos Hp;
    cbn [parseProgramLoop]; [discriminate |].
  destruct (decide (Type_ (peek tokens pos) = TokenEOF));
    [intros Hres; inversion Hres; subst; exact Hp |].
  destruct (decide (Type_ (peek tokens pos) = TokenRule)).
  - destruct (parseSuggestionRule tokens exprString fuel pos)
      as [[[rule p] | ? | ?] |] eqn:Er; cbn [pbind]; try discriminate.
    apply parseSuggestionRule_id in Er.
    apply IH. unfold ruleIdsColonFree in *. simpl.
    apply Forall_app. split; [exact Hp | now repeat constructor].
  - destruct (bool_decide (Type_ (peek tokens pos) = TokenIdent)
              || bool_decide (Type_ (peek tokens pos) = TokenVariable));
      [| discriminate].
    destruct (parseRule tokens fuel pos) as [[[rule p] | ? | ?] |];
      cbn [pbind]; try discriminate.
    apply IH. exact Hp.
Qed.

End RuleIds.

(** Every suggestion rule of a program that [Parse] returns has an id
    without a colon. *)
Lemma Parse_rule_ids (exprString : Expression -> string) (inp : string)
    (program : Program) :
  Parse exprString inp = Some (Ok program) -> ruleIdsColonFree program.
Proof.
  unfold Parse, Lex.Tokenize.
  destruct (Lex.tokenizeLoop _ _ _) as [[tokens | ? | ?] |] eqn:Et;
    try discriminate.
  apply (tokenizeLoop_ident _ _ [] tokens (Forall_nil_2 _)) in Et.
  unfold ParseProgram.
  destruct (parseProgramLoop tokens exprString _ _ _ _)
    as [[[result p] | ? | ?] |] eqn:E; try discriminate.
  intros Hres. inversion Hres; subst.
  apply (parseProgramLoop_ids tokens exprString Et _ _ (mkProgram [] []) _ _ _
           (Forall_nil_2 _) E).
Qed.
